(** * Hyperbee: an append-only B-tree over a log

    A shallow embedding of [index.js] (the B-tree overlay, its batches and
    the tree handle) and of the block index wire format of [schema.proto],
    with the properties of the specification stated over it.

    Conventions of the embedding.
    - A JavaScript [Buffer] is a list of bytes.  [cmp] compares two key
      buffers with [<], which the embedding takes to be the byte-wise
      lexicographic order ([Buffer_ltb]), as the comparator of the
      specification is; JavaScript compares the two buffers as the strings
      they decode to, which is that order on keys of ASCII bytes.
    - [null] and [undefined] are [None].
    - An [async] function that throws (or rejects) returns [None].
    - Objects mutated in place are passed and returned explicitly.  The
      descent stacks of [put] and [del] keep, next to every node, the index of
      the child the descent went into: a node on the stack and the cell
      [children[i].value] of its parent are one object in the source, and the
      model writes the node back into that cell when it walks up.
    - The loops that walk down the lazily loaded tree run on fuel. *)

From Stdlib Require Import ZArith NArith Lia List Bool Arith Sorted.
From Stdlib Require Import Init.Byte.
From stdpp Require Import base option list gmap.

Set Default Proof Using "Type".
Open Scope nat_scope.

(** ** Buffers and the comparator *)

Definition Buffer := list byte.

(** The byte-wise lexicographic order, for [a < b] on two key buffers. *)
Fixpoint Buffer_compare (a b : Buffer) : comparison :=
  match a, b with
  | [], [] => Eq
  | [], _ :: _ => Lt
  | _ :: _, [] => Gt
  | x :: a', y :: b' =>
      match N.compare (Byte.to_N x) (Byte.to_N y) with
      | Eq => Buffer_compare a' b'
      | c => c
      end
  end.

Definition Buffer_ltb (a b : Buffer) : bool :=
  match Buffer_compare a b with Lt => true | _ => false end.

(** [function cmp (a, b) { return a < b ? -1 : b < a ? 1 : 0 }] *)
Definition cmp (a b : Buffer) : Z :=
  if Buffer_ltb a b then (-1)%Z else if Buffer_ltb b a then 1%Z else 0%Z.

(** ** Constants *)

Definition T : nat := 5.
Definition MIN_KEYS : nat := T - 1.
Definition MAX_CHILDREN : nat := MIN_KEYS * 2 + 1.

(** ** Keys, children and tree nodes *)

(** [class Key]: the sequence number of the block that carries the key
    bytes, and the bytes once they are loaded. *)
Record Key := mkKey { k_seq : nat; k_value : option Buffer }.

(** [class TreeNode] and [class Child].  [block] names the owning block
    entry by its sequence number ([None] is [null]). *)
Inductive TreeNode : Type :=
| mkNode (block : option nat) (keys : list Key) (children : list Child)
         (changed : bool)
with Child : Type :=
| mkChild (c_seq : nat) (c_offset : nat) (c_value : option TreeNode).

Definition block (n : TreeNode) : option nat :=
  match n with mkNode b _ _ _ => b end.
Definition keys (n : TreeNode) : list Key :=
  match n with mkNode _ ks _ _ => ks end.
Definition children (n : TreeNode) : list Child :=
  match n with mkNode _ _ cs _ => cs end.
Definition changed (n : TreeNode) : bool :=
  match n with mkNode _ _ _ ch => ch end.

Definition c_seq (c : Child) : nat :=
  match c with mkChild s _ _ => s end.
Definition c_offset (c : Child) : nat :=
  match c with mkChild _ o _ => o end.
Definition c_value (c : Child) : option TreeNode :=
  match c with mkChild _ _ v => v end.

Definition set_block (b : option nat) (n : TreeNode) : TreeNode :=
  mkNode b (keys n) (children n) (changed n).
Definition set_keys (ks : list Key) (n : TreeNode) : TreeNode :=
  mkNode (block n) ks (children n) (changed n).
Definition set_children (cs : list Child) (n : TreeNode) : TreeNode :=
  mkNode (block n) (keys n) cs (changed n).
Definition set_changed (ch : bool) (n : TreeNode) : TreeNode :=
  mkNode (block n) (keys n) (children n) ch.

(** [TreeNode.create (block)] *)
Definition create (b : option nat) : TreeNode := mkNode b [] [] true.

(** Array helpers: [a.splice(i, 0, x)], [a.splice(i, 1)], [a.pop()],
    [a.shift()]. *)
Definition splice_in {A} (i : nat) (x : A) (l : list A) : list A :=
  take i l ++ x :: drop i l.
Definition splice_out {A} (i : nat) (l : list A) : list A :=
  take i l ++ drop (S i) l.
Definition pop {A} (l : list A) : option (A * list A) :=
  match last l with
  | Some x => Some (x, removelast l)
  | None => None
  end.
Definition shift {A} (l : list A) : option (A * list A) :=
  match l with
  | x :: l' => Some (x, l')
  | [] => None
  end.

(** ** Wire format of the blocks

    [lib/messages] (the encoders generated from [schema.proto]) is not part
    of the sources; the definitions of this section follow the schema and the
    specification's "Wire schemas (bit-exact, packed varint throughout)":
    protocol-buffers base-128 varints, length-delimited fields, packed
    repeated [uint64]. *)

Definition byte_of_nat (n : nat) : byte :=
  match Byte.of_nat n with Some b => b | None => "000"%byte end.

(** Modelled from the spec: the base-128 varint of an unsigned integer, low
    group first, the high bit of a byte set when more groups follow. *)
Fixpoint varint_encode_go (fuel n : nat) : Buffer :=
  match fuel with
  | 0 => []
  | S fuel' =>
      if n <? 128 then [byte_of_nat n]
      else byte_of_nat (n mod 128 + 128) :: varint_encode_go fuel' (n / 128)
  end.

Definition varint_encode (n : nat) : Buffer := varint_encode_go (S n) n.

(** Modelled from the spec: reads one varint from the front of a buffer. *)
Fixpoint varint_decode (bs : Buffer) : option (nat * Buffer) :=
  match bs with
  | [] => None
  | b :: rest =>
      let v := Byte.to_nat b in
      if v <? 128 then Some (v, rest)
      else '(hi, rest') ← varint_decode rest; Some (v - 128 + 128 * hi, rest')
  end.

(** Modelled from the spec: a packed repeated [uint64] field body. *)
Definition packed_encode (xs : list nat) : Buffer :=
  concat (map varint_encode xs).

Fixpoint packed_decode (fuel : nat) (bs : Buffer) : option (list nat) :=
  match bs with
  | [] => Some []
  | _ :: _ =>
      match fuel with
      | 0 => None
      | S fuel' =>
          '(x, rest) ← varint_decode bs;
          xs ← packed_decode fuel' rest;
          Some (x :: xs)
      end
  end.

(** Modelled from the spec: a length-delimited field (wire type 2) with
    field number [field]: the tag, the length of the body, the body. *)
Definition field_tag (field : nat) : nat := field * 8 + 2.

Definition field_encode (field : nat) (body : Buffer) : Buffer :=
  varint_encode (field_tag field) ++ varint_encode (length body) ++ body.

Definition field_decode (bs : Buffer) : option (nat * Buffer * Buffer) :=
  '(tag, rest) ← varint_decode bs;
  '(len, rest') ← varint_decode rest;
  if len <=? length rest' then Some (tag, take len rest', drop len rest')
  else None.

(** [message YoloIndex { message Level { repeated uint64 keys = 1 [packed];
    repeated uint64 children = 2 [packed]; } repeated Level levels = 1; }] *)
Record Level := mkLevel { l_keys : list nat; l_children : list nat }.

(** Modelled from the spec: [YoloIndex.Level] encoding; an empty packed array
    writes no field. *)
Definition Level_encode (l : Level) : Buffer :=
  (if l_keys l is [] then [] else field_encode 1 (packed_encode (l_keys l)))
  ++ (if l_children l is [] then []
      else field_encode 2 (packed_encode (l_children l))).

Fixpoint Level_decode_go (fuel : nat) (bs : Buffer) (acc : Level)
  : option Level :=
  match bs with
  | [] => Some acc
  | _ :: _ =>
      match fuel with
      | 0 => None
      | S fuel' =>
          '(tag, body, rest) ← field_decode bs;
          xs ← packed_decode (length body) body;
          if tag =? field_tag 1 then
            Level_decode_go fuel' rest (mkLevel (l_keys acc ++ xs) (l_children acc))
          else if tag =? field_tag 2 then
            Level_decode_go fuel' rest (mkLevel (l_keys acc) (l_children acc ++ xs))
          else None
      end
  end.

Definition Level_decode (bs : Buffer) : option Level :=
  Level_decode_go (length bs) bs (mkLevel [] []).

(** Modelled from the spec: [YoloIndex.encode] and [YoloIndex.decode] on the
    list of levels. *)
Definition YoloIndex_encode (levels : list Level) : Buffer :=
  concat (map (fun l => field_encode 1 (Level_encode l)) levels).

Fixpoint YoloIndex_decode_go (fuel : nat) (bs : Buffer) : option (list Level) :=
  match bs with
  | [] => Some []
  | _ :: _ =>
      match fuel with
      | 0 => None
      | S fuel' =>
          '(tag, body, rest) ← field_decode bs;
          if tag =? field_tag 1 then
            l ← Level_decode body;
            ls ← YoloIndex_decode_go fuel' rest;
            Some (l :: ls)
          else None
      end
  end.

Definition YoloIndex_decode (bs : Buffer) : option (list Level) :=
  YoloIndex_decode_go (length bs) bs.

(** [message Node { required bytes index = 1; required bytes key = 2;
    optional bytes value = 3; }] *)
Record NodeMsg := mkNodeMsg
  { m_index : Buffer; m_key : Buffer; m_value : option Buffer }.

(** Modelled from the spec: [Node.encode] and [Node.decode]. *)
Definition Node_encode (m : NodeMsg) : Buffer :=
  field_encode 1 (m_index m) ++ field_encode 2 (m_key m)
  ++ (if m_value m is Some v then field_encode 3 v else []).

Fixpoint Node_decode_go (fuel : nat) (bs : Buffer)
    (index key value : option Buffer) : option NodeMsg :=
  match bs with
  | [] =>
      i ← index; k ← key; Some (mkNodeMsg i k value)
  | _ :: _ =>
      match fuel with
      | 0 => None
      | S fuel' =>
          '(tag, body, rest) ← field_decode bs;
          if tag =? field_tag 1 then Node_decode_go fuel' rest (Some body) key value
          else if tag =? field_tag 2 then Node_decode_go fuel' rest index (Some body) value
          else if tag =? field_tag 3 then Node_decode_go fuel' rest index key (Some body)
          else None
      end
  end.

Definition Node_decode (bs : Buffer) : option NodeMsg :=
  Node_decode_go (length bs) bs None None None.

(** Modelled from the spec: [Header.encode ({ protocol })], the block at
    sequence number 0. *)
Definition Header_encode (protocol : Buffer) : Buffer :=
  field_encode 1 protocol.

(** ASCII "hyperbee" *)
Definition protocol_name : Buffer :=
  ["h"; "y"; "p"; "e"; "r"; "b"; "e"; "e"]%byte.

(** ** The log, block entries, batches and the tree handle *)

(** The log ("feed"): the raw blocks in append order, and whether this
    process may append. *)
Record Feed := mkFeed { log : list Buffer; writable : bool }.

(** [class BlockEntry] (a block read from the log, its index still encoded)
    and [class BatchEntry] (a block pending in a batch, its index a list of
    child cells).  The lazily inflated [index] of a [BlockEntry] is
    recomputed from [indexBuffer] on every use. *)
Inductive Entry : Type :=
| BlockEntry (seq : nat) (indexBuffer : Buffer) (key : Buffer)
             (value : option Buffer)
| BatchEntry (seq : nat) (key : Buffer) (value : option Buffer)
             (pendingIndex : list (option Child)).

Definition e_seq (e : Entry) : nat :=
  match e with BlockEntry s _ _ _ | BatchEntry s _ _ _ => s end.
Definition e_key (e : Entry) : Buffer :=
  match e with BlockEntry _ _ k _ | BatchEntry _ k _ _ => k end.



(** [class HyperBee]: the handle shares the log with every other handle on
    it, so the log is passed next to the handle; the encodings are [null]. *)
Record HyperBee := mkHyperBee { _checkout : nat }.

(** [class Batch] *)
Record Batch := mkBatch
  { tree : HyperBee;
    blocks : option (gmap nat Entry);
    autoFlush : bool;
    rootSeq : nat;
    root : option TreeNode;
    b_length : nat }.

Definition set_blocks (m : option (gmap nat Entry)) (b : Batch) : Batch :=
  mkBatch (tree b) m (autoFlush b) (rootSeq b) (root b) (b_length b).
Definition set_rootSeq (s : nat) (b : Batch) : Batch :=
  mkBatch (tree b) (blocks b) (autoFlush b) s (root b) (b_length b).
Definition set_root (r : option TreeNode) (b : Batch) : Batch :=
  mkBatch (tree b) (blocks b) (autoFlush b) (rootSeq b) r (b_length b).
Definition set_length (n : nat) (b : Batch) : Batch :=
  mkBatch (tree b) (blocks b) (autoFlush b) (rootSeq b) (root b) n.

(** [new Batch (tree, autoFlush, cache, options)] *)
Definition new_Batch (h : HyperBee) (auto cache : bool) : Batch :=
  mkBatch h (if cache then Some ∅ else None) auto 0 None 0.

(** ** Inflating and deflating a block index *)

(** The loop [for (i = 0; i < l.children.length; i += 2)] of [Pointers].
    A trailing odd element would give a child with an [undefined] offset;
    the model has no such child and fails there. *)
Fixpoint child_pairs (xs : list nat) : option (list Child) :=
  match xs with
  | [] => Some []
  | s :: o :: rest => cs ← child_pairs rest; Some (mkChild s o None :: cs)
  | [_] => None
  end.

(** One level of [Pointers]: [{ keys, children }]. *)
Definition level_pointers (l : Level) : option (list Key * list Child) :=
  cs ← child_pairs (l_children l);
  Some (map (fun s => mkKey s None) (l_keys l), cs).

(** [inflate (buf)], that is [new Pointers (buf)].levels *)
Definition inflate (buf : Buffer) : option (list (list Key * list Child)) :=
  levels ← YoloIndex_decode buf;
  mapM level_pointers levels.

(** The [{ keys, children }] object [deflate] builds for one cell of the
    index; [l.value] of a [null] cell throws. *)
Definition deflate_level (l : option Child) : option Level :=
  c ← l;
  n ← c_value c;
  Some (mkLevel (map k_seq (keys n))
          (flat_map (fun c => [c_seq c; c_offset c]) (children n))).

(** [deflate (index)] *)
Definition deflate (index : list (option Child)) : option Buffer :=
  levels ← mapM deflate_level index;
  Some (YoloIndex_encode levels).

(** [BlockEntry.getTreeNode (offset)] and [BatchEntry.getTreeNode (offset)] *)
Definition getTreeNode (e : Entry) (offset : nat) : option TreeNode :=
  match e with
  | BlockEntry seq buf _ _ =>
      levels ← inflate buf;
      '(ks, cs) ← levels !! offset;
      Some (mkNode (Some seq) ks cs false)
  | BatchEntry _ _ _ pendingIndex =>
      c ← pendingIndex !! offset;
      c ← c;
      c_value c
  end.

(** ** Reading the log through a batch

    The operations of a batch that read the log run in a state and error
    monad over the batch (its block cache and [rootSeq] change on a read);
    the log itself is fixed while they run. *)

Definition M (A : Type) : Type := Batch → option (A * Batch).

#[global] Instance M_ret : MRet M := λ A x b, Some (x, b).
#[global] Instance M_bind : MBind M := λ A B k m b,
  match m b with
  | Some (x, b') => k x b'
  | None => None
  end.

Definition throw {A} : M A := λ _, None.
Definition lift {A} (o : option A) : M A := λ b, x ← o; Some (x, b).
Definition get_batch : M Batch := λ b, Some (b, b).

Section Reads.
Variable feed_log : list Buffer.

(** [feed.get (seq, { valueEncoding: Node })] *)
Definition feed_get (seq : nat) : option NodeMsg :=
  raw ← feed_log !! seq; Node_decode raw.

(** [HyperBee.getBlock (seq, opts, batch)] *)
Definition HyperBee_getBlock (seq : nat) : option Entry :=
  m ← feed_get seq;
  Some (BlockEntry seq (m_index m) (m_key m) (m_value m)).

(** [Batch.getBlock (seq)] *)
Definition Batch_getBlock (seq : nat) : M Entry := λ b,
  let b := if rootSeq b =? 0 then set_rootSeq seq b else b in
  match blocks b ≫= (.!! seq) with
  | Some e => Some (e, b)
  | None =>
      e ← HyperBee_getBlock seq;
      Some (e, match blocks b with
               | Some m => set_blocks (Some (<[seq := e]> m)) b
               | None => b
               end)
  end.

(** [Batch.getKey (seq)] *)
Definition Batch_getKey (seq : nat) : M Buffer :=
  e ← Batch_getBlock seq; mret (e_key e).

(** The entry a node's [block] field points to: a field access in the
    source, here the entry with that sequence number (pending in the batch,
    or in the log). *)
Definition block_entry (bseq : nat) : M Entry := λ b,
  match blocks b ≫= (.!! bseq) with
  | Some e => Some (e, b)
  | None => e ← HyperBee_getBlock bseq; Some (e, b)
  end.

(** [TreeNode.getKey (index)]; returns the key bytes and the node with the
    bytes cached in [keys[index].value]. *)
Definition TreeNode_getKey (index : nat) (node : TreeNode)
  : M (Buffer * TreeNode) :=
  match keys node !! index with
  | None => throw
  | Some key =>
      match k_value key with
      | Some v => mret (v, node)
      | None =>
          match block node with
          | None => throw
          | Some bseq =>
              k ← (if k_seq key =? bseq
                   then e ← block_entry bseq; mret (e_key e)
                   else Batch_getKey (k_seq key));
              mret (k, set_keys (<[index := mkKey (k_seq key) (Some k)]> (keys node)) node)
          end
      end
  end.

(** [children[index].value = child] *)
Definition set_child_value (index : nat) (child : TreeNode) (node : TreeNode)
  : TreeNode :=
  match children node !! index with
  | Some c =>
      set_children
        (<[index := mkChild (c_seq c) (c_offset c) (Some child)]> (children node))
        node
  | None => node
  end.

(** [TreeNode.getChildNode (index)]; returns the child and the node with
    the child cached in [children[index].value]. *)
Definition TreeNode_getChildNode (index : nat) (node : TreeNode)
  : M (TreeNode * TreeNode) :=
  match children node !! index with
  | None => throw
  | Some child =>
      match c_value child with
      | Some n => mret (n, node)
      | None =>
          match block node with
          | None => throw
          | Some bseq =>
              e ← (if c_seq child =? bseq then block_entry bseq
                   else Batch_getBlock (c_seq child));
              n ← lift (getTreeNode e (c_offset child));
              mret (n, set_child_value index n node)
          end
      end
  end.
End Reads.

(** ** Tree node operations *)

(** The outcome of the binary search that [insertKey], [get], [put] and
    [del] each spell out: the index of an equal key, or the values of [c],
    [s] and [e] when the loop [while (s < e)] ends. *)
Inductive Search : Type :=
| Found (mid : nat)
| Miss (c : option Z) (s e : nat).

(** [const i = c < 0 ? e : s]; [c] is [undefined] when the loop never ran,
    and [undefined < 0] is false. *)
Definition insertion_index (c : option Z) (s e : nat) : nat :=
  match c with
  | Some z => if (z <? 0)%Z then e else s
  | None => s
  end.

Section Nodes.
Variable feed_log : list Buffer.

(** [while (s < e) { mid = (s + e) >> 1; c = cmp (key, await
    node.getKey (mid)); ... }].  The loop halves [e - s]; [fuel] bounds its
    iterations. *)
Fixpoint search_loop (fuel : nat) (key : Buffer) (node : TreeNode)
    (s e : nat) (c : option Z) : M (Search * TreeNode) :=
  if s <? e then
    match fuel with
    | 0 => throw
    | S fuel' =>
        let mid := (s + e) / 2 in
        '(k, node) ← TreeNode_getKey feed_log mid node;
        let c := cmp key k in
        if (c =? 0)%Z then mret (Found mid, node)
        else if (c <? 0)%Z then search_loop fuel' key node s mid (Some c)
        else search_loop fuel' key node (mid + 1) e (Some c)
    end
  else mret (Miss c s e, node).

(** [let s = 0; let e = node.keys.length; let c; while ...] *)
Definition search (key : Buffer) (node : TreeNode) : M (Search * TreeNode) :=
  search_loop (length (keys node)) key node 0 (length (keys node)) None.

(** [TreeNode.insertKey (key, child)]; returns the boolean and the node.
    The key to insert carries its bytes ([key.value]) at every call. *)
Definition TreeNode_insertKey (key : Key) (child : option TreeNode)
    (node : TreeNode) : M (bool * TreeNode) :=
  match k_value key with
  | None => throw
  | Some kv =>
      '(r, node) ← search kv node;
      match r with
      | Found mid =>
          mret (true,
                mkNode (block node) (<[mid := key]> (keys node)) (children node) true)
      | Miss c s e =>
          let i := insertion_index c s e in
          let ks := splice_in i key (keys node) in
          let cs := match child with
                    | Some ch => splice_in (i + 1) (mkChild 0 0 (Some ch)) (children node)
                    | None => children node
                    end in
          mret (length ks <? MAX_CHILDREN, mkNode (block node) ks cs true)
      end
  end.

(** [TreeNode.removeKey (index)].  The freed child cell ([seq = 0]) leaves
    the array with the splice. *)
Definition TreeNode_removeKey (index : nat) (node : TreeNode)
  : option TreeNode :=
  let ks := splice_out index (keys node) in
  if length (children node) =? 0 then
    Some (mkNode (block node) ks (children node) true)
  else
    _ ← children node !! (index + 1);
    Some (mkNode (block node) ks (splice_out (index + 1) (children node)) true).

(** [this.merge (node, median)] *)
Definition TreeNode_merge (node : TreeNode) (median : Key) (this : TreeNode)
  : TreeNode :=
  mkNode (block this) (keys this ++ median :: keys node)
    (children this ++ children node) true.

(** [while (dst.length < len) dst.push (src.pop ())]; popping an empty
    array (an [undefined] element) fails. *)
Fixpoint pop_push {A} (fuel len : nat) (src dst : list A)
  : option (list A * list A) :=
  if length dst <? len then
    match fuel with
    | 0 => None
    | S fuel' => '(x, src') ← pop src; pop_push fuel' len src' (dst ++ [x])
    end
  else Some (src, dst).

(** [TreeNode.split ()]; returns [left] (this node), [median], [right]. *)
Definition TreeNode_split (node : TreeNode)
  : M (TreeNode * Key * TreeNode) :=
  let len := length (keys node) / 2 in
  '(ks, rks) ← lift (pop_push len len (keys node) []);
  let rks := rev rks in
  '(_, node) ← TreeNode_getKey feed_log (length ks - 1) (set_keys ks node);
  '(median, ks) ← lift (pop (keys node));
  '(cs, rcs) ← lift (if length (children node) =? 0 then Some (children node, [])
                     else '(cs, rcs) ← pop_push (len + 1) (len + 1) (children node) [];
                          Some (cs, rev rcs));
  mret (mkNode (block node) ks cs true, median, mkNode (block node) rks rcs true).

(** [TreeNode.siblings (parent)] for the node in [parent.children[i]]: the
    source finds [i] by looking for the cell whose [value] is this node;
    the descent recorded it. Returns [left], [right] and the parent with the
    two siblings cached. *)
Definition TreeNode_siblings (i : nat) (parent : TreeNode)
  : M (option TreeNode * option TreeNode * TreeNode) :=
  match children parent !! i with
  | None => throw
  | Some _ =>
      '(lft, parent) ←
        (if i =? 0 then mret (None, parent)
         else '(l, p) ← TreeNode_getChildNode feed_log (i - 1) parent; mret (Some l, p));
      '(rgt, parent) ←
        (if i <? length (children parent) - 1
         then '(r, p) ← TreeNode_getChildNode feed_log (i + 1) parent; mret (Some r, p)
         else mret (None, parent));
      mret (lft, rgt, parent)
  end.

(** [TreeNode.setKey (index, key)] *)
Definition TreeNode_setKey (index : nat) (key : Key) (node : TreeNode)
  : TreeNode :=
  mkNode (block node) (<[index := key]> (keys node)) (children node) true.
End Nodes.

(** The loop [for (const child of this.children)] of [indexChanges], with
    the recursive call as a parameter; returns the index and the children. *)
Definition index_children
    (indexChanges : TreeNode → list (option Child) → nat * list (option Child) * TreeNode)
    (seq : nat)
  : list Child → list (option Child) → list (option Child) * list Child :=
  fix each (cs : list Child) (index : list (option Child)) :=
    match cs with
    | [] => (index, [])
    | child :: rest =>
        match child with
        | mkChild _ _ (Some n) =>
            if changed n then
              let '(off, index, n) := indexChanges n index in
              let child := mkChild seq off (Some n) in
              let '(index, rest) := each rest (<[off := Some child]> index) in
              (index, child :: rest)
            else
              let '(index, rest) := each rest index in (index, child :: rest)
        | mkChild _ _ None =>
            let '(index, rest) := each rest index in (index, child :: rest)
        end
    end.

(** [TreeNode.indexChanges (index, seq)]; returns the offset, the index and
    the node with its changed children renumbered. *)
Fixpoint TreeNode_indexChanges (node : TreeNode) (index : list (option Child))
    (seq : nat) {struct node} : nat * list (option Child) * TreeNode :=
  match node with
  | mkNode b ks cs _ =>
      let offset := length index in
      let '(index, cs) :=
        index_children (λ n index, TreeNode_indexChanges n index seq) seq cs
          (index ++ [None]) in
      (offset, index, mkNode b ks cs false)
  end.

(** ** The descent stack

    [stack] in [put], [del] and [rebalance] is an array of nodes, each the
    [value] of a child cell of the one before.  The model keeps the node on
    top apart and, for every node below it, the index of the child that
    leads on (innermost first). *)
Definition Stack := list (TreeNode * nat).

(** [stack[0]] as the source sees it: the root, every node on the stack
    being the object in its parent's cell. *)
Fixpoint unwind (node : TreeNode) (stack : Stack) : TreeNode :=
  match stack with
  | [] => node
  | (parent, i) :: stack' => unwind (set_child_value i node parent) stack'
  end.

(** [for (const node of stack) node.changed = true] *)
Definition mark_changed (stack : Stack) : Stack :=
  map (fun '(n, i) => (set_changed true n, i)) stack.

(** The outcome of the descent of [del]: the key is not in the tree, or it
    was taken out of the node on top of the stack. *)
Inductive DelOutcome : Type :=
| NotFound (node : TreeNode) (stack : Stack)
| Removed (node : TreeNode) (stack : Stack).

Section Descents.
Variable feed_log : list Buffer.

(** [HyperBee.getRoot (opts, batch)] once the handle is ready;
    [len = this._checkout || this.feed.length]. *)
Definition HyperBee_getRoot_ready (h : HyperBee) : M (option TreeNode) :=
  let len := if _checkout h =? 0 then length feed_log else _checkout h in
  if len <? 2 then mret None
  else
    e ← Batch_getBlock feed_log (len - 1);
    n ← lift (getTreeNode e 0);
    mret (Some n).


(** The descent of [Batch.put]: [while (node.children.length) { ... }].
    Returns whether an equal key was replaced on the way, the node on top
    and the stack below it. *)
Fixpoint put_descend (fuel : nat) (key : Buffer) (target : Key)
    (node : TreeNode) (stack : Stack) : M (bool * TreeNode * Stack) :=
  if length (children node) =? 0 then mret (false, node, stack)
  else
    match fuel with
    | 0 => throw
    | S fuel' =>
        let node := set_changed true node in
        '(r, node) ← search feed_log key node;
        match r with
        | Found mid => mret (true, TreeNode_setKey mid target node, stack)
        | Miss c s e =>
            let i := insertion_index c s e in
            '(child, node) ← TreeNode_getChildNode feed_log i node;
            put_descend fuel' key target child ((node, i) :: stack)
        end
    end.

(** [while (needsSplit) { ... }] of [Batch.put]; returns the root. *)
Fixpoint split_loop (node : TreeNode) (stack : Stack) (needsSplit : bool)
  : M TreeNode :=
  if needsSplit then
    '(lft, median, rgt) ← TreeNode_split feed_log node;
    match stack with
    | (parent, i) :: stack' =>
        '(ok, parent) ← TreeNode_insertKey feed_log median (Some rgt)
                          (set_child_value i lft parent);
        split_loop parent stack' (negb ok)
    | [] =>
        mret (mkNode (block lft) [median]
                [mkChild 0 0 (Some lft); mkChild 0 0 (Some rgt)] true)
    end
  else mret (unwind node stack).

(** [leafSize (node, goLeft)]; returns the size and the node with the path
    to the leaf loaded. *)
Fixpoint leafSize (fuel : nat) (node : TreeNode) (goLeft : bool)
  : M (nat * TreeNode) :=
  if length (children node) =? 0 then mret (length (keys node), node)
  else
    match fuel with
    | 0 => throw
    | S fuel' =>
        let i := if goLeft then 0 else length (children node) - 1 in
        '(child, node) ← TreeNode_getChildNode feed_log i node;
        '(size, child) ← leafSize fuel' child goLeft;
        mret (size, set_child_value i child node)
    end.

(** [while (n.children.length) stack.push (n = n.children[i].value)] with
    [i] the first or the last child. *)
Fixpoint walk (fuel : nat) (goLeft : bool) (node : TreeNode) (stack : Stack)
  : option (TreeNode * Stack) :=
  if length (children node) =? 0 then Some (node, stack)
  else
    match fuel with
    | 0 => None
    | S fuel' =>
        let i := if goLeft then 0 else length (children node) - 1 in
        c ← children node !! i;
        n ← c_value c;
        walk fuel' goLeft n ((node, i) :: stack)
    end.

(** [setKeyToNearestLeaf (node, index, stack)]; [node] is on top of the
    stack when it is called, the leaf is when it returns. *)
Definition setKeyToNearestLeaf (fuel : nat) (node : TreeNode) (index : nat)
    (stack : Stack) : M (TreeNode * Stack) :=
  '(lft, node) ← TreeNode_getChildNode feed_log index node;
  '(rgt, node) ← TreeNode_getChildNode feed_log (index + 1) node;
  '(ls, lft) ← leafSize fuel lft false;
  '(rs, rgt) ← leafSize fuel rgt true;
  let node := set_child_value (index + 1) rgt (set_child_value index lft node) in
  if ls <? rs then
    '(leaf, below) ← lift (walk fuel true rgt []);
    '(k, ks) ← lift (shift (keys leaf));
    let node := set_keys (<[index := k]> (keys node)) node in
    mret (set_keys ks leaf, below ++ (node, index + 1) :: stack)
  else
    '(leaf, below) ← lift (walk fuel false lft []);
    '(k, ks) ← lift (pop (keys leaf));
    let node := set_keys (<[index := k]> (keys node)) node in
    mret (set_keys ks leaf, below ++ (node, index) :: stack).

(** The loop of [Batch.del] up to the removal of the key. *)
Fixpoint del_descend (fuel : nat) (key : Buffer) (node : TreeNode)
    (stack : Stack) : M DelOutcome :=
  match fuel with
  | 0 => throw
  | S fuel' =>
      '(r, node) ← search feed_log key node;
      match r with
      | Found mid =>
          if negb (length (children node) =? 0) then
            '(leaf, stack) ← setKeyToNearestLeaf fuel' node mid stack;
            mret (Removed leaf stack)
          else
            node ← lift (TreeNode_removeKey mid node);
            mret (Removed node stack)
      | Miss c s e =>
          if length (children node) =? 0 then mret (NotFound node stack)
          else
            let i := insertion_index c s e in
            '(child, node) ← TreeNode_getChildNode feed_log i node;
            del_descend fuel' key child ((node, i) :: stack)
      end
  end.

(** One turn of the loop of [rebalance] for [node], the child [index] of
    [parent]: returns the parent and whether the loop ends ([return root]). *)
Definition borrow_left (node l : TreeNode) (index : nat) (parent : TreeNode)
  : option TreeNode :=
  sep ← keys parent !! (index - 1);
  '(ncs, lcs) ← (if negb (length (children l) =? 0)
                 then '(c, lcs) ← pop (children l); Some (c :: children node, lcs)
                 else Some (children node, children l));
  '(lk, lks) ← pop (keys l);
  let node := mkNode (block node) (sep :: keys node) ncs (changed node) in
  let l := mkNode (block l) lks lcs true in
  let parent := set_keys (<[index - 1 := lk]> (keys parent)) parent in
  Some (set_child_value index node (set_child_value (index - 1) l parent)).

Definition borrow_right (node r : TreeNode) (index : nat) (parent : TreeNode)
  : option TreeNode :=
  sep ← keys parent !! index;
  '(ncs, rcs) ← (if negb (length (children r) =? 0)
                 then '(c, rcs) ← shift (children r); Some (children node ++ [c], rcs)
                 else Some (children node, children r));
  '(rk, rks) ← shift (keys r);
  let node := mkNode (block node) (keys node ++ [sep]) ncs (changed node) in
  let r := mkNode (block r) rks rcs true in
  let parent := set_keys (<[index := rk]> (keys parent)) parent in
  Some (set_child_value (index + 1) r (set_child_value index node parent)).

Definition merge_siblings (lft rgt : option TreeNode) (node : TreeNode)
    (index : nat) (parent : TreeNode) : option TreeNode :=
  '(index, l, r) ← match lft, rgt with
                   | Some l, _ => Some (index - 1, l, node)
                   | None, Some r => Some (index, node, r)
                   | None, None => None
                   end;
  median ← keys parent !! index;
  TreeNode_removeKey index
    (set_child_value index (TreeNode_merge r median l) parent).

Definition rebalance_step (node : TreeNode) (index : nat) (parent : TreeNode)
  : M (bool * TreeNode) :=
  let parent := set_child_value index node parent in
  if MIN_KEYS <=? length (keys node) then mret (true, parent)
  else
    '(lft, rgt, parent) ← TreeNode_siblings feed_log index parent;
    let merge : M (bool * TreeNode) :=
      parent ← lift (merge_siblings lft rgt node index parent);
      mret (false, parent) in
    let try_right : M (bool * TreeNode) :=
      match rgt with
      | Some r =>
          if MIN_KEYS <? length (keys r) then
            parent ← lift (borrow_right node r index parent); mret (true, parent)
          else merge
      | None => merge
      end in
    match lft with
    | Some l =>
        if MIN_KEYS <? length (keys l) then
          parent ← lift (borrow_left node l index parent); mret (true, parent)
        else try_right
    | None => try_right
    end.

(** [rebalance (stack)] *)
Fixpoint rebalance (node : TreeNode) (stack : Stack) : M TreeNode :=
  match stack with
  | [] =>
      if (length (keys node) =? 0) && negb (length (children node) =? 0)
      then '(c, _) ← TreeNode_getChildNode feed_log 0 node; mret c
      else mret node
  | (parent, index) :: stack' =>
      '(done_, parent) ← rebalance_step node index parent;
      if (done_ : bool) then mret (unwind parent stack') else rebalance parent stack'
  end.
End Descents.

(** ** Batches *)

(** [feed.append (raw)]: one block or an array of blocks; fails on a log
    that is not writable. *)
Definition feed_append (raws : list Buffer) (f : Feed) : option Feed :=
  if writable f then Some (mkFeed (log f ++ raws) (writable f)) else None.

(** [HyperBee.ready ()]: [_open] appends the header to an empty writable
    log.  (The promise cached in [_ready] only saves repeating the test.) *)
Definition HyperBee_ready (f : Feed) : Feed :=
  if (0 <? length (log f)) || negb (writable f) then f
  else mkFeed (log f ++ [Header_encode protocol_name]) (writable f).

(** [Batch.getRoot ()]: the root of the batch or, through
    [HyperBee.getRoot], of the log (no peer to [update] from here). *)
Definition Batch_getRoot (f : Feed) (b : Batch)
  : option (option TreeNode * Feed * Batch) :=
  match root b with
  | Some r => Some (Some r, f, b)
  | None =>
      let f := HyperBee_ready f in
      '(r, b) ← HyperBee_getRoot_ready (log f) (tree b) b;
      Some (r, f, b)
  end.

(** Fuel for the descents: a tree is never higher than the number of blocks
    written. *)
Definition descent_fuel (f : Feed) (b : Batch) : nat :=
  length (log f) + b_length b.


(** [Batch._appendBatch (raw)] *)
Definition Batch__appendBatch (raws : list Buffer) (f : Feed) : option Feed :=
  feed_append raws f.

(** [Batch._append (root, seq, key, value)] *)
Definition Batch__append (root : TreeNode) (seq : nat) (key : Buffer)
    (value : option Buffer) (f : Feed) (b : Batch) : option (Feed * Batch) :=
  let '(_, index, root) := TreeNode_indexChanges root [] seq in
  if negb (autoFlush b) then
    let root := if block root is None then set_block (Some seq) root else root in
    let index := <[0 := Some (mkChild seq 0 (Some root))]> index in
    m ← blocks b;
    Some (f, mkBatch (tree b) (Some (<[seq := BatchEntry seq key value index]> m))
               (autoFlush b) (rootSeq b) (Some root) (S (b_length b)))
  else
    let index := <[0 := Some (mkChild seq 0 (Some root))]> index in
    buf ← deflate index;
    f ← Batch__appendBatch [Node_encode (mkNodeMsg buf key value)] f;
    Some (f, b).

(** [Batch.put (key, value)] *)
Definition Batch_put (key : Buffer) (value : option Buffer) (f : Feed)
    (b : Batch) : option (Feed * Batch) :=
  '(node, f, b) ← Batch_getRoot f b;
  let node := default (create None) node in
  let seq := length (log f) + b_length b in
  let target := mkKey seq (Some key) in
  '(replaced, node, stack, b) ←
    put_descend (log f) (descent_fuel f b) key target node [] b;
  if (replaced : bool) then Batch__append (unwind node stack) seq key value f b
  else
    '(ok, node, b) ← TreeNode_insertKey (log f) target None node b;
    '(root, b) ← split_loop (log f) node stack (negb ok) b;
    Batch__append root seq key value f b.

(** [Batch.del (key)] *)
Definition Batch_del (key : Buffer) (f : Feed) (b : Batch)
  : option (Feed * Batch) :=
  '(node, f, b) ← Batch_getRoot f b;
  match node with
  | None => Some (f, b)
  | Some node =>
      let seq := length (log f) + b_length b in
      '(outcome, b) ← del_descend (log f) (descent_fuel f b) key node [] b;
      match outcome with
      | NotFound _ _ => Some (f, b)
      | Removed node stack =>
          '(root, b) ← rebalance (log f) (set_changed true node)
                         (mark_changed stack) b;
          Batch__append root seq key None f b
      end
  end.

(** The loop of [flush] that compacts the pending index of a block that is
    not the last of the batch (slot 0 is [null] when it starts). *)
Fixpoint compact_loop (fuel seq j : nat) (pendingIndex : list (option Child))
  : list (option Child) :=
  if j <? length pendingIndex then
    match fuel with
    | 0 => pendingIndex
    | S fuel' =>
        let drop_slot :=
          if j =? length pendingIndex - 1
          then compact_loop fuel' seq j (removelast pendingIndex)
          else match pop pendingIndex with
               | Some (x, rest) => compact_loop fuel' seq j (<[j := x]> rest)
               | None => pendingIndex
               end in
        match pendingIndex !! j with
        | Some (Some idx) =>
            if c_seq idx =? seq
            then compact_loop fuel' seq (j + 1)
                   (<[j := Some (mkChild (c_seq idx) j (c_value idx))]> pendingIndex)
            else drop_slot
        | _ => drop_slot
        end
    end
  else pendingIndex.

Definition compact (seq : nat) (pendingIndex : list (option Child))
  : list (option Child) :=
  let pendingIndex := <[0 := None]> pendingIndex in
  compact_loop (length pendingIndex) seq 0 pendingIndex.

(** The block [batch[i]] that [flush] encodes. *)
Definition flush_block (f : Feed) (b : Batch) (i : nat) : option Buffer :=
  let seq := length (log f) + i in
  m ← blocks b;
  e ← m !! seq;
  match e with
  | BatchEntry _ key value pendingIndex =>
      let pendingIndex :=
        if i <? b_length b - 1 then compact seq pendingIndex else pendingIndex in
      buf ← deflate pendingIndex;
      Some (Node_encode (mkNodeMsg buf key value))
  | BlockEntry _ _ _ _ => None
  end.

(** [Batch.flush ()].  The child cells of a pending index are the cells of
    the nodes in memory in the source; here each pending index holds its own
    copy of them. *)
Definition Batch_flush (f : Feed) (b : Batch) : option (Feed * Batch) :=
  if b_length b =? 0 then Some (f, b)
  else
    batch ← mapM (flush_block f b) (seq 0 (b_length b));
    f ← Batch__appendBatch batch f;
    Some (f, mkBatch (tree b) (Some ∅) (autoFlush b) (rootSeq b) None 0).

(** ** The tree handle *)

(** [new HyperBee (feed, opts)]: [this._checkout = opts.checkout || 0]. *)
Definition new_HyperBee (checkout : option nat) : HyperBee :=
  mkHyperBee (default 0 checkout).

(** [get version ()]: [Math.max (1, this._checkout || this.feed.length)] *)
Definition HyperBee_version (h : HyperBee) (f : Feed) : nat :=
  Nat.max 1 (if _checkout h =? 0 then length (log f) else _checkout h).

(** [HyperBee.checkout (version)] *)
Definition HyperBee_checkout (version : option nat) (h : HyperBee) : HyperBee :=
  new_HyperBee version.


(** [HyperBee.batch ()] *)
Definition HyperBee_batch (h : HyperBee) : Batch := new_Batch h false true.


(** [HyperBee.put (key, value)] *)
Definition HyperBee_put (key : Buffer) (value : option Buffer) (h : HyperBee)
    (f : Feed) : option Feed :=
  '(f, _) ← Batch_put key value f (new_Batch h true true); Some f.

(** [HyperBee.del (key)] *)
Definition HyperBee_del (key : Buffer) (h : HyperBee) (f : Feed) : option Feed :=
  '(f, _) ← Batch_del key f (new_Batch h true true); Some f.

(** * What the log and the nodes in memory stand for

    The definitions below are not part of the program: they say which sorted
    list of keys a node denotes, in the log or in memory, and are what the
    theorems are stated with. *)

(** The order of the comparator. *)
Definition Buffer_lt (a b : Buffer) : Prop := Buffer_compare a b = Lt.

(** A key as the tree holds it: the sequence number of its block and its
    bytes. *)
Abbreviation akey := (nat * Buffer)%type.

Definition sorted (l : list akey) : Prop :=
  StronglySorted (λ a b, Buffer_lt a.2 b.2) l.

(** The keys of a node in order: child 0, key 0, child 1, key 1, ... *)
Fixpoint interleave (cs : list (list akey)) (ks : list akey) : list akey :=
  match cs with
  | [] => ks
  | c :: cs' =>
      match ks with
      | [] => c
      | k :: ks' => c ++ k :: interleave cs' ks'
      end
  end.

(** The key bytes of block [s] of the log. *)
Definition feed_key (log : list Buffer) (s : nat) : option Buffer :=
  m_key <$> feed_get log s.

(** The block cache of a batch holds blocks of the log only. *)
Definition cache_ok (log : list Buffer) (b : Batch) : Prop :=
  ∀ m s e, blocks b = Some m → m !! s = Some e → HyperBee_getBlock log s = Some e.

(** Two states of a batch that differ by the block cache and [rootSeq]
    only. *)
Definition same_view (b b' : Batch) : Prop :=
  tree b' = tree b ∧ autoFlush b' = autoFlush b ∧ root b' = root b
  ∧ b_length b' = b_length b ∧ (blocks b' = None ↔ blocks b = None).

(** [m] returns [x] from every batch state whose cache is sound, and leaves
    such a state. *)
Definition Returns {A} (log : list Buffer) (m : M A) (x : A) : Prop :=
  ∀ b, cache_ok log b →
       ∃ b', m b = Some (x, b') ∧ cache_ok log b' ∧ same_view b b'.

(** A key cell stands for [a]: it names block [a.1], whose key is [a.2] (or
    which is the block [pend] about to be appended), and the bytes it has
    cached, if any, are [a.2]. *)
Definition KeyRep (log : list Buffer) (pend : option akey) (k : Key) (a : akey)
  : Prop :=
  k_seq k = a.1
  ∧ match k_value k with
    | Some v => v = a.2 ∧ (feed_key log a.1 = Some a.2 ∨ pend = Some a)
    | None => feed_key log a.1 = Some a.2
    end.

(** [Stored log h lo s o l]: level [o] of the index of block [s] is the root
    of a tree of height [h] whose keys in order are [l]; the root has at
    least [lo] keys and every other node at least one. *)
Fixpoint Stored (log : list Buffer) (h lo s o : nat) (l : list akey) : Prop :=
  ∃ m levels ks cs aks,
    feed_get log s = Some m
    ∧ inflate (m_index m) = Some levels
    ∧ levels !! o = Some (ks, cs)
    ∧ lo ≤ length ks
    ∧ Forall2 (KeyRep log None) ks aks
    ∧ match h with
      | 0 => cs = [] ∧ l = aks
      | S h' =>
          ∃ ls, Forall2 (λ c l', Stored log h' 1 (c_seq c) (c_offset c) l') cs ls
                ∧ length cs = length ks + 1
                ∧ l = interleave ls aks
      end.

(** A child cell stands for [l]: its node in memory does, that node has an
    owning block, and the cell still points to a stored copy unless the node
    changed; or it is not loaded and points to a stored node. *)
Definition ChildRep (R : TreeNode → list akey → Prop)
    (S : nat → nat → list akey → Prop) (c : Child) (l : list akey) : Prop :=
  match c_value c with
  | Some n => R n l ∧ block n ≠ None
              ∧ (changed n = false → S (c_seq c) (c_offset c) l)
  | None => S (c_seq c) (c_offset c) l
  end.

(** A node with no owning block has nothing left to load. *)
Definition all_loaded (n : TreeNode) : Prop :=
  Forall (λ k, k_value k ≠ None) (keys n)
  ∧ Forall (λ c, c_value c ≠ None) (children n).

(** [Rep log pend h lo n l]: the node [n] in memory is the root of a tree of
    height [h] whose keys in order are [l]; [n] has at least [lo] keys and
    every other node at least one. *)
Fixpoint Rep (log : list Buffer) (pend : option akey) (h lo : nat)
    (n : TreeNode) (l : list akey) : Prop :=
  ∃ aks,
    Forall2 (KeyRep log pend) (keys n) aks
    ∧ lo ≤ length (keys n)
    ∧ (block n = None → all_loaded n)
    ∧ match h with
      | 0 => children n = [] ∧ l = aks
      | S h' =>
          ∃ ls, Forall2 (ChildRep (Rep log pend h' 1) (Stored log h' 1))
                  (children n) ls
                ∧ length (children n) = length (keys n) + 1
                ∧ l = interleave ls aks
      end.

(** The least number of keys of a root of height [h]: an inner root has a
    key. *)
Definition root_min (h : nat) : nat := if h =? 0 then 0 else 1.

(** The block with key [k] among the keys [l]. *)
Fixpoint akey_lookup (k : Buffer) (l : list akey) : option nat :=
  match l with
  | [] => None
  | a :: l' =>
      match Buffer_compare k a.2 with
      | Eq => Some a.1
      | _ => akey_lookup k l'
      end
  end.

(** [n'] is [n] with more key bytes cached. *)
Definition keys_loaded (log : list Buffer) (pend : option akey)
    (aks : list akey) (n n' : TreeNode) : Prop :=
  block n' = block n ∧ children n' = children n ∧ changed n' = changed n
  ∧ Forall2 (KeyRep log pend) (keys n') aks
  ∧ (Forall (λ k, k_value k ≠ None) (keys n) → keys n' = keys n).

(** What a search for [kv] among the keys [aks] of a node has found. *)
Definition search_post (kv : Buffer) (aks : list akey) (r : Search) : Prop :=
  match r with
  | Found mid => ∃ a, aks !! mid = Some a ∧ a.2 = kv
  | Miss c s e =>
      let i := insertion_index c s e in
      i ≤ length aks
      ∧ Forall (λ a, Buffer_lt a.2 kv) (take i aks)
      ∧ Forall (λ a, Buffer_lt kv a.2) (drop i aks)
  end.

(** ** Sample data for the examples *)

Definition key_a : Buffer := ["a"]%byte.
Definition key_b : Buffer := ["b"]%byte.
Definition key_c : Buffer := ["c"]%byte.

(** The log after [put ("a", "a")] and [put ("c", "c")] on an empty log. *)
Definition sample_feed : Feed :=
  Eval vm_compute in
    default (mkFeed [] true)
      (f ← HyperBee_put key_a (Some key_a) (new_HyperBee None) (mkFeed [] true);
       HyperBee_put key_c (Some key_c) (new_HyperBee None) f).

(** Its root, as [getTreeNode] gives it. *)
Definition sample_root : TreeNode :=
  mkNode (Some 2) [mkKey 1 None; mkKey 2 None] [] false.

Definition sample_keys : list akey := [(1, key_a); (2, key_c)].


(** The one-byte keys 1, 3, 5, ... and the log after [put] of the first ten
    of them, each with itself as value. *)
Definition sample_key (i : nat) : Buffer := [byte_of_nat (2 * i + 1)].

Definition sample_feed10 : Feed :=
  Eval vm_compute in
    default (mkFeed [] true)
      (foldl (λ f i, f ← f; HyperBee_put (sample_key i) (Some (sample_key i))
                              (new_HyperBee None) f)
         (Some (mkFeed [] true)) (seq 0 10)).

(** A leaf owned by block [bseq] that names the keys of blocks 1 to [n] and
    has loaded none. *)
Definition unloaded_leaf (bseq n : nat) : TreeNode :=
  mkNode (Some bseq) (map (λ i, mkKey (S i) None) (seq 0 n)) [] false.

(** The log after the first nine of these [put]s, and its root as
    [getTreeNode] gives it: the key of block 5 between the leaves that levels
    1 and 2 of block 9 hold, of four keys each. *)
Definition sample_log9 : list Buffer := take 10 (log sample_feed10).

Definition sample_root9 : TreeNode :=
  mkNode (Some 9) [mkKey 5 None] [mkChild 9 1 None; mkChild 9 2 None] false.

Definition sample_keys9 (from n : nat) : list akey :=
  map (λ i, (S i, sample_key i)) (seq from n).

(** A fresh batch of a handle that is not checked out. *)
Definition sample_batch : Batch := new_Batch (mkHyperBee 0) true true.

(** ** The keys around a child

    [chunk cs ks] is child 0, key 0, ..., child [n - 1], key [n - 1];
    [tail_part ks cs] is key 0, child 0, ..., key [n - 1], child [n - 1]. *)
Definition chunk (cs : list (list akey)) (ks : list akey) : list akey :=
  concat (zip_with (λ c k, c ++ [k]) cs ks).

Definition tail_part (ks : list akey) (cs : list (list akey)) : list akey :=
  concat (zip_with (λ k c, k :: c) ks cs).

(** The keys before child [i] of a node and those after it. *)
Definition before (i : nat) (ls : list (list akey)) (aks : list akey)
  : list akey := chunk (take i ls) (take i aks).

Definition after (i : nat) (ls : list (list akey)) (aks : list akey)
  : list akey := tail_part (drop i aks) (drop (S i) ls).

(** ** Nodes with their parts named, and the descent stack *)

(** The node [n], of height [S h], has the keys [aks] and children standing
    for the lists [ls]. *)
Definition node_parts (log : list Buffer) (pend : option akey) (h lo : nat)
    (n : TreeNode) (aks : list akey) (ls : list (list akey)) : Prop :=
  Forall2 (KeyRep log pend) (keys n) aks
  ∧ lo ≤ length (keys n)
  ∧ (block n = None → all_loaded n)
  ∧ Forall2 (ChildRep (Rep log pend h 1) (Stored log h 1)) (children n) ls
  ∧ length (children n) = length (keys n) + 1.

(** A node on the stack, as it was when the descent left it for its child
    [i]: [lb] are its keys before that child and [la] those after it. *)
Definition FrameRep (log : list Buffer) (pend : option akey) (h lo : nat)
    (parent : TreeNode) (i : nat) (lb la : list akey) : Prop :=
  ∃ aks ls,
    node_parts log pend h lo parent aks ls
    ∧ i < length ls
    ∧ lb = before i ls aks ∧ la = after i ls aks.

(** A node of height [S h] whose child cell [i] is being worked on: the
    other cells stand for the lists of [ls]. *)
Definition node_hole (log : list Buffer) (pend : option akey) (h : nat)
    (n : TreeNode) (i : nat) (aks : list akey) (ls : list (list akey)) : Prop :=
  Forall2 (KeyRep log pend) (keys n) aks
  ∧ block n ≠ None
  ∧ length (children n) = length (keys n) + 1
  ∧ length ls = length (children n)
  ∧ ∀ j c lj, j ≠ i → children n !! j = Some c → ls !! j = Some lj →
              ChildRep (Rep log pend h 1) (Stored log h 1) c lj.

(** The least number of keys of the node on top of a stack. *)
Definition top_lo (stack : Stack) (lo_root : nat) : nat :=
  if stack is [] then lo_root else 1.

(** The stack below a node of height [h]: the root has height [hr]; [lb] and
    [la] are the keys of the tree before and after those of the node. *)
Fixpoint StackRep (log : list Buffer) (pend : option akey) (h : nat)
    (stack : Stack) (lo_root hr : nat) (lb la : list akey) : Prop :=
  match stack with
  | [] => hr = h ∧ lb = [] ∧ la = []
  | (parent, i) :: rest =>
      ∃ lb1 la1 lb2 la2,
        FrameRep log pend h (top_lo rest lo_root) parent i lb1 la1
        ∧ StackRep log pend (S h) rest lo_root hr lb2 la2
        ∧ lb = lb2 ++ lb1 ∧ la = la1 ++ la2
  end.


(** ** Serialising the changed spine *)

(** The number of levels of nodes loaded below [n], for induction. *)
Fixpoint node_depth (n : TreeNode) : nat :=
  match n with
  | mkNode _ _ cs _ =>
      S (foldr (λ c d, Nat.max (match c with
                                | mkChild _ _ (Some m) => node_depth m
                                | mkChild _ _ None => 0
                                end) d) 0 cs)
  end.

(** A slot of the index that holds a cell with a node. *)
Definition filled (x : option Child) : Prop :=
  ∃ c m, x = Some c ∧ c_value c = Some m.

(** [idx'] has every cell that [idx] has, at the same offset. *)
Definition index_le (idx idx' : list (option Child)) : Prop :=
  ∀ o c, idx !! o = Some (Some c) → idx' !! o = Some (Some c).

(** What [indexChanges] at block [seq] makes of a node and of its child
    cells, [idx] being the index: a cell that is not loaded, or whose node is
    not marked changed, is left as it is; a cell whose node is marked changed
    is renumbered to [seq] and to the offset at which [idx] holds it, and its
    node is treated likewise. *)
Inductive RenumberedTree (seq : nat) (idx : list (option Child))
  : TreeNode → TreeNode → Prop :=
| Renumbered_node b ks cs cs' ch :
    Forall2 (RenumberedChild seq idx) cs cs' →
    RenumberedTree seq idx (mkNode b ks cs ch) (mkNode b ks cs' false)
with RenumberedChild (seq : nat) (idx : list (option Child))
  : Child → Child → Prop :=
| Renumbered_unloaded s o :
    RenumberedChild seq idx (mkChild s o None) (mkChild s o None)
| Renumbered_unchanged s o m :
    changed m = false →
    RenumberedChild seq idx (mkChild s o (Some m)) (mkChild s o (Some m))
| Renumbered_changed s o m m' off :
    changed m = true →
    idx !! off = Some (Some (mkChild seq off (Some m'))) →
    RenumberedTree seq idx m m' →
    RenumberedChild seq idx (mkChild s o (Some m)) (mkChild seq off (Some m')).

(** The node [n], as [indexChanges] left it, is the root of a tree of height
    [h] with the keys [l], once the index [idx] is written as block [seq]:
    its child cells point into [idx] or to stored nodes. *)
Fixpoint Emitted (log : list Buffer) (pend : option akey) (seq : nat)
    (idx : list (option Child)) (h lo : nat) (n : TreeNode) (l : list akey)
  : Prop :=
  ∃ aks,
    Forall2 (KeyRep log pend) (keys n) aks
    ∧ lo ≤ length (keys n)
    ∧ match h with
      | 0 => children n = [] ∧ l = aks
      | S h' =>
          ∃ ls,
            Forall2 (λ c l',
                       (c_seq c = seq ∧ idx !! c_offset c = Some (Some c)
                        ∧ ∃ m, c_value c = Some m
                               ∧ Emitted log pend seq idx h' 1 m l')
                       ∨ Stored log h' 1 (c_seq c) (c_offset c) l')
              (children n) ls
            ∧ length (children n) = length (keys n) + 1
            ∧ l = interleave ls aks
      end.

(** The cell [Emitted] asks of a child, by itself. *)
Definition EmittedChild (log : list Buffer) (pend : option akey) (seq : nat)
    (idx : list (option Child)) (h : nat) (c : Child) (l : list akey) : Prop :=
  (c_seq c = seq ∧ idx !! c_offset c = Some (Some c)
   ∧ ∃ m, c_value c = Some m ∧ Emitted log pend seq idx h 1 m l)
  ∨ Stored log h 1 (c_seq c) (c_offset c) l.

(** The level that [inflate] reads back for a node that [deflate] wrote. *)
Definition unloaded (n : TreeNode) : list Key * list Child :=
  (map (λ k, mkKey (k_seq k) None) (keys n),
   map (λ c, mkChild (c_seq c) (c_offset c) None) (children n)).

(** What [indexChanges] does on the node [n] from the index [index]: it
    reserves the slot at the end of [index], fills one slot for every changed
    node below [n], and renumbers the cells of the changed children. *)
Definition indexChanges_post (log : list Buffer) (pend : option akey)
    (seq : nat) (n : TreeNode) (index : list (option Child)) : Prop :=
  ∃ ext n',
    TreeNode_indexChanges n index seq = (length index, index ++ None :: ext, n')
    ∧ Forall filled ext
    ∧ (∀ idx, index_le (index ++ None :: ext) idx → RenumberedTree seq idx n n')
    ∧ ∀ h lo l, Rep log pend h lo n l →
                Emitted log pend seq (index ++ None :: ext) h lo n' l.

(** Every node of the stack is marked changed. *)
Definition stack_changed (stack : Stack) : Prop :=
  Forall (λ p, changed p.1 = true) stack.

(** Every node of the stack has an owning block. *)
Definition stack_owned (stack : Stack) : Prop :=
  Forall (λ p, block p.1 ≠ None) stack.

(** The keys [l'] of a tree after [put] of the key [a] on the keys [l]: [a]
    is in its place, in addition to the keys of [l] or instead of the key of
    [l] with the same bytes. *)
Definition PutPost (l : list akey) (a : akey) (l' : list akey) : Prop :=
  ∃ l1 l2,
    l' = l1 ++ a :: l2
    ∧ ((l = l1 ++ l2
        ∧ Forall (λ b, Buffer_lt b.2 a.2) l1 ∧ Forall (λ b, Buffer_lt a.2 b.2) l2)
       ∨ ∃ old, l = l1 ++ old :: l2 ∧ old.2 = a.2).

(** The keys [l'] of a tree after [del] of the bytes [kv] on the keys [l]. *)
Definition DelPost (l : list akey) (kv : Buffer) (l' : list akey) : Prop :=
  ∃ l1 old l2, l = l1 ++ old :: l2 ∧ old.2 = kv ∧ l' = l1 ++ l2.

(** ** The tree of a log, and what the operations should make of it *)

#[global] Instance byte_eq_dec : EqDecision byte := Byte.byte_eq_dec.

(** The log [f] holds the tree with the keys [l]: level 0 of its last block
    is the root.  A log with the header alone, or with nothing, holds the
    empty tree. *)
Definition TreeInv (f : Feed) (l : list akey) : Prop :=
  writable f = true ∧ sorted l
  ∧ if length (log f) <? 2 then l = []
    else ∃ h, h + 2 ≤ length (log f)
              ∧ Stored (log f) h (root_min h) (length (log f) - 1) 0 l.

(** The operations of a handle that write. *)
Inductive Op : Type :=
| Put (key : Buffer) (value : option Buffer)
| Del (key : Buffer).

Definition apply_op (h : HyperBee) (op : Op) (f : Feed) : option Feed :=
  match op with
  | Put key value => HyperBee_put key value h f
  | Del key => HyperBee_del key h f
  end.

(** The operations [ops], one after the other, through the handle [h]. *)
Fixpoint apply_ops (h : HyperBee) (ops : list Op) (f : Feed) : option Feed :=
  match ops with
  | [] => Some f
  | op :: ops' => f' ← apply_op h op f; apply_ops h ops' f'
  end.

(** What the last operation on [k] leaves: the value of a [put], or nothing
    after a [del]. *)
Definition last_write (k : Buffer) (acc : option (option Buffer)) (op : Op)
  : option (option Buffer) :=
  match op with
  | Put key value => if decide (key = k) then Some value else acc
  | Del key => if decide (key = k) then None else acc
  end.

(** The value that [get k] should see after [ops]: [Some v] when the last
    operation on [k] is [put (k, v)], [None] when it is a [del] or when there
    is none. *)
Definition expected (ops : list Op) (k : Buffer) : option (option Buffer) :=
  fold_left (last_write k) ops None.

(** The keys [l] of the tree are those bound in [st], each in the block that
    carries its value. *)
Definition Valued (log : list Buffer) (l : list akey)
    (st : Buffer → option (option Buffer)) : Prop :=
  (∀ a, a ∈ l → ∃ m, feed_get log a.1 = Some m ∧ m_key m = a.2
                     ∧ st a.2 = Some (m_value m))
  ∧ (∀ k, Forall (λ a, a.2 ≠ k) l → st k = None).

(** ** The log as the history of the writes *)

(** The block that the operation [op] writes after the operations [before],
    as the key and the value it carries: a [put] writes one, a [del] writes
    one with no value when the key is in the tree, and none when it is not. *)
Definition written (before : list Op) (op : Op) : list (Buffer * option Buffer) :=
  match op with
  | Put key value => [(key, value)]
  | Del key => if expected before key is Some _ then [(key, None)] else []
  end.

(** The blocks that the operations [ops] write, one after the other, after
    the operations [before]. *)
Fixpoint history_from (before ops : list Op) : list (Buffer * option Buffer) :=
  match ops with
  | [] => []
  | op :: ops' => written before op ++ history_from (before ++ [op]) ops'
  end.

Definition history (ops : list Op) : list (Buffer * option Buffer) :=
  history_from [] ops.

(** The raw block [raw] decodes to a node with the key and the value [w]. *)
Definition carries (raw : Buffer) (w : Buffer * option Buffer) : Prop :=
  ∃ m, Node_decode raw = Some m ∧ m_key m = w.1 ∧ m_value m = w.2.

(** Every key of [l] names the last block of the log that carries its
    bytes. *)
Definition Newest (log : list Buffer) (l : list akey) : Prop :=
  ∀ a s m, a ∈ l → a.1 < s → feed_get log s = Some m → m_key m ≠ a.2.

(** ** What the reads of a batch touch *)

(** The batch [b] with another block cache and [rootSeq]. *)
Definition with_cache (bl : option (gmap nat Entry)) (rs : nat) (b : Batch)
  : Batch :=
  mkBatch (tree b) bl (autoFlush b) rs (root b) (b_length b).

(** [m] reads and writes the block cache and [rootSeq] of the batch and
    nothing else of it: it leaves the rest as it is and runs alike from two
    batches that agree on the two. *)
Definition cache_only {A} (m : M A) : Prop :=
  ∀ b b2, blocks b2 = blocks b → rootSeq b2 = rootSeq b →
    match m b with
    | Some (x, b') =>
        ∃ bl rs, (bl = None ↔ blocks b = None) ∧ b' = with_cache bl rs b
                 ∧ m b2 = Some (x, with_cache bl rs b2)
    | None => m b2 = None
    end.

(** A batch that stages and a batch that flushes by itself, with the same
    cache and nothing staged. *)
Definition twin (bA bB : Batch) : Prop :=
  blocks bB = blocks bA ∧ rootSeq bB = rootSeq bA ∧ blocks bA ≠ None
  ∧ autoFlush bA = false ∧ autoFlush bB = true
  ∧ b_length bA = 0 ∧ b_length bB = 0.

(** [const b = tree.batch ()], then [await b.put (key, value)] or
    [await b.del (key)], then [await b.flush ()]. *)
Definition batched_op (h : HyperBee) (op : Op) (f : Feed) : option Feed :=
  '(f, b) ← match op with
            | Put key value => Batch_put key value f (HyperBee_batch h)
            | Del key => Batch_del key f (HyperBee_batch h)
            end;
  '(f, _) ← Batch_flush f b;
  Some f.

(** A child cell whose node, if it is loaded, is not marked changed. *)
Definition settled (c : Child) : Prop :=
  match c_value c with
  | Some m => changed m = false
  | None => True
  end.

(** ** The number of keys of a node *)

(** The most keys that a node holds between two operations: [insertKey]
    asks for a split when a node has [MAX_CHILDREN] keys. *)
Definition MAX_KEYS : nat := MAX_CHILDREN - 1.

(** [Occ log h lo s o]: level [o] of the index of block [s] is the root of a
    tree of height [h] stored in the log; the root has between [lo] and
    [MAX_KEYS] keys, every other node between [MIN_KEYS] and [MAX_KEYS], and
    an inner node has one child more than it has keys. *)
Fixpoint Occ (log : list Buffer) (h lo s o : nat) : Prop :=
  ∃ m levels ks cs,
    feed_get log s = Some m
    ∧ inflate (m_index m) = Some levels
    ∧ levels !! o = Some (ks, cs)
    ∧ lo ≤ length ks ∧ length ks ≤ MAX_KEYS
    ∧ match h with
      | 0 => cs = []
      | S h' =>
          length cs = length ks + 1
          ∧ Forall (λ c, Occ log h' MIN_KEYS (c_seq c) (c_offset c)) cs
      end.

(** A child cell in order: its node in memory is, and the cell still points
    to a stored node unless the node changed; or it is not loaded and points
    to a stored node. *)
Definition COcc (R : TreeNode → Prop) (S : nat → nat → Prop) (c : Child) : Prop :=
  match c_value c with
  | Some n => R n ∧ (changed n = false → S (c_seq c) (c_offset c))
  | None => S (c_seq c) (c_offset c)
  end.

(** [MOcc log h lo hi n]: the node [n] in memory is the root of a tree of
    height [h]; it has between [lo] and [hi] keys and every other node
    between [MIN_KEYS] and [MAX_KEYS]. *)
Fixpoint MOcc (log : list Buffer) (h lo hi : nat) (n : TreeNode) : Prop :=
  lo ≤ length (keys n) ∧ length (keys n) ≤ hi
  ∧ match h with
    | 0 => children n = []
    | S h' =>
        length (children n) = length (keys n) + 1
        ∧ Forall (COcc (MOcc log h' MIN_KEYS MAX_KEYS) (Occ log h' MIN_KEYS))
            (children n)
    end.

(** A node of height [S h] whose child cell [i] is being worked on. *)
Definition HoleOcc (log : list Buffer) (h lo hi : nat) (n : TreeNode) (i : nat)
  : Prop :=
  lo ≤ length (keys n) ∧ length (keys n) ≤ hi
  ∧ length (children n) = length (keys n) + 1
  ∧ i < length (children n)
  ∧ ∀ j c, j ≠ i → children n !! j = Some c →
           COcc (MOcc log h MIN_KEYS MAX_KEYS) (Occ log h MIN_KEYS) c.

(** The least number of keys of a node of height [h] with the stack
    [stack] below it: the root needs a key when it is an inner node, every
    other node [MIN_KEYS] keys. *)
Definition node_lo (stack : Stack) (h : nat) : nat :=
  if stack is [] then root_min h else MIN_KEYS.

(** The stack below a node of height [h], down from a root of height
    [hr]. *)
Fixpoint OStack (log : list Buffer) (h : nat) (stack : Stack) (hr : nat) : Prop :=
  match stack with
  | [] => hr = h
  | (p, i) :: rest =>
      HoleOcc log h (node_lo rest (S h)) MAX_KEYS p i ∧ OStack log (S h) rest hr
  end.

(** Whenever [m] returns from a batch state whose cache is sound, it leaves
    such a state and what it returns satisfies [Q]. *)
Definition Post {A} (log : list Buffer) (m : M A) (Q : A → Prop) : Prop :=
  ∀ b x b', cache_ok log b → m b = Some (x, b') → cache_ok log b' ∧ Q x.

(** [n'] has as many keys as [n], and its children and its mark. *)
Definition shape_eq (n n' : TreeNode) : Prop :=
  length (keys n') = length (keys n) ∧ children n' = children n
  ∧ changed n' = changed n.

(** The node [n], as [indexChanges] left it, is in order once the index
    [idx] is written as block [seq]. *)
Fixpoint EOcc (log : list Buffer) (seq : nat) (idx : list (option Child))
    (h lo hi : nat) (n : TreeNode) : Prop :=
  lo ≤ length (keys n) ∧ length (keys n) ≤ hi
  ∧ match h with
    | 0 => children n = []
    | S h' =>
        length (children n) = length (keys n) + 1
        ∧ Forall (λ c,
                    (c_seq c = seq ∧ idx !! c_offset c = Some (Some c)
                     ∧ ∃ m, c_value c = Some m
                            ∧ EOcc log seq idx h' MIN_KEYS MAX_KEYS m)
                    ∨ Occ log h' MIN_KEYS (c_seq c) (c_offset c))
            (children n)
    end.

(** The tree that the log [f] holds, if it holds one, is balanced: level 0
    of the last block is the root of a tree of some height [h] all of whose
    nodes have at most [MAX_KEYS] keys and, the root apart, at least
    [MIN_KEYS]. *)
Definition OccInv (f : Feed) : Prop :=
  2 ≤ length (log f) →
  ∃ h, Occ (log f) h (root_min h) (length (log f) - 1) 0.

(** The least number of keys of a tree of height [h] whose root has at least
    [lo] keys and whose other nodes have at least [MIN_KEYS]. *)
Fixpoint min_size (h lo : nat) : nat :=
  match h with
  | 0 => lo
  | S h' => lo + (lo + 1) * min_size h' MIN_KEYS
  end.

(** * The wire format round-trips *)

Section WireFormat.
#[local] Arguments Nat.div : simpl never.
#[local] Arguments Nat.modulo : simpl never.
#[local] Arguments Nat.mul : simpl never.

Lemma to_nat_byte_of_nat (n : nat) : n ≤ 255 → Byte.to_nat (byte_of_nat n) = n.
Proof.
  intros Hn. unfold byte_of_nat.
  destruct (Byte.of_nat n) as [b|] eqn:E.
  - by apply Byte.to_of_nat.
  - apply Byte.of_nat_None_iff in E. lia.
Qed.

Lemma varint_encode_go_nonempty (fuel n : nat) :
  0 < fuel → varint_encode_go fuel n ≠ [].
Proof.
  destruct fuel as [|fuel]; [lia|]. intros _. simpl.
  by destruct (n <? 128).
Qed.

Lemma varint_encode_nonempty (n : nat) : varint_encode n ≠ [].
Proof. apply varint_encode_go_nonempty. lia. Qed.

Lemma varint_decode_encode_go (fuel n : nat) (rest : Buffer) :
  n < fuel → varint_decode (varint_encode_go fuel n ++ rest) = Some (n, rest).
Proof.
  revert n. induction fuel as [|fuel IH]; intros n Hn; [lia|].
  simpl. destruct (n <? 128) eqn:E.
  - apply Nat.ltb_lt in E. simpl.
    rewrite to_nat_byte_of_nat by lia.
    apply Nat.ltb_lt in E. by rewrite E.
  - apply Nat.ltb_ge in E. simpl.
    assert (Hm : n mod 128 < 128) by (apply Nat.mod_upper_bound; lia).
    rewrite to_nat_byte_of_nat by lia.
    assert (Hge : (n mod 128 + 128 <? 128) = false) by (apply Nat.ltb_ge; lia).
    rewrite Hge.
    assert (Hd : n / 128 < fuel).
    { assert (n / 128 < n) by (apply Nat.div_lt; lia). lia. }
    rewrite (IH _ Hd). simpl. do 2 f_equal.
    pose proof (Nat.div_mod_eq n 128). lia.
Qed.

Lemma varint_decode_encode (n : nat) (rest : Buffer) :
  varint_decode (varint_encode n ++ rest) = Some (n, rest).
Proof. apply varint_decode_encode_go. lia. Qed.

Lemma packed_decode_step (fuel : nat) (bs : Buffer) :
  bs ≠ [] →
  packed_decode (S fuel) bs
  = '(x, rest) ← varint_decode bs; xs ← packed_decode fuel rest; Some (x :: xs).
Proof. by destruct bs. Qed.

Lemma packed_decode_encode (fuel : nat) (xs : list nat) :
  length (packed_encode xs) ≤ fuel →
  packed_decode fuel (packed_encode xs) = Some xs.
Proof.
  revert fuel. induction xs as [|x xs IH]; intros fuel Hf.
  - by destruct fuel.
  - unfold packed_encode in *. cbn [map concat] in *.
    pose proof (varint_encode_nonempty x) as Hne.
    rewrite length_app in Hf.
    assert (0 < length (varint_encode x))
      by (destruct (varint_encode x); [done|simpl; lia]).
    destruct fuel as [|fuel]; [lia|].
    rewrite packed_decode_step.
    + rewrite varint_decode_encode. simpl. rewrite IH; [done|lia].
    + intros E. apply app_eq_nil in E as [? _]. contradiction.
Qed.

Lemma field_decode_encode (field : nat) (body rest : Buffer) :
  field_decode (field_encode field body ++ rest)
  = Some (field_tag field, body, rest).
Proof.
  unfold field_decode, field_encode.
  rewrite <- !app_assoc. rewrite varint_decode_encode. simpl.
  rewrite varint_decode_encode. simpl.
  rewrite length_app.
  assert (H : (length body <=? length body + length rest) = true)
    by (apply Nat.leb_le; lia).
  rewrite H. by rewrite take_app_length, drop_app_length.
Qed.

Lemma field_encode_cons (field : nat) (body rest : Buffer) :
  ∃ b bs, field_encode field body ++ rest = b :: bs
          ∧ length bs < length (field_encode field body ++ rest).
Proof.
  unfold field_encode.
  pose proof (varint_encode_nonempty (field_tag field)) as Hne.
  destruct (varint_encode (field_tag field)) as [|b bs]; [done|].
  simpl. eexists _, _. split; [reflexivity|]. simpl. lia.
Qed.

#[local] Arguments field_encode : simpl never.
#[local] Arguments packed_encode : simpl never.

Lemma field_tag_eqb (a b : nat) : (field_tag a =? field_tag b) = (a =? b).
Proof.
  unfold field_tag. destruct (a =? b) eqn:E.
  - apply Nat.eqb_eq in E. subst. apply Nat.eqb_refl.
  - apply Nat.eqb_neq in E. apply Nat.eqb_neq. lia.
Qed.

Lemma Level_decode_go_field (fuel field : nat) (xs : list nat) (rest : Buffer)
    (acc : Level) :
  length (field_encode field (packed_encode xs) ++ rest) ≤ fuel →
  Level_decode_go fuel (field_encode field (packed_encode xs) ++ rest) acc
  = if field =? 1 then
      Level_decode_go (fuel - 1) rest (mkLevel (l_keys acc ++ xs) (l_children acc))
    else if field =? 2 then
      Level_decode_go (fuel - 1) rest (mkLevel (l_keys acc) (l_children acc ++ xs))
    else None.
Proof.
  intros Hf.
  destruct (field_encode_cons field (packed_encode xs) rest) as (b & bs & E & Hl).
  destruct fuel as [|fuel]; [rewrite E in Hf; simpl in Hf; lia|].
  rewrite E. simpl. rewrite <- E.
  rewrite field_decode_encode. simpl.
  rewrite packed_decode_encode by done. simpl.
  rewrite !field_tag_eqb. by rewrite Nat.sub_0_r.
Qed.

Lemma Level_decode_go_nil (fuel : nat) (acc : Level) :
  Level_decode_go fuel [] acc = Some acc.
Proof. by destruct fuel. Qed.

Lemma Level_decode_encode (l : Level) : Level_decode (Level_encode l) = Some l.
Proof.
  destruct l as [ks cs]. unfold Level_decode, Level_encode.
  cbn [l_keys l_children].
  destruct ks as [|k ks], cs as [|c cs]; cbn [app].
  - done.
  - rewrite <- (app_nil_r (field_encode 2 _)).
    rewrite Level_decode_go_field by done. cbn.
    by rewrite Level_decode_go_nil.
  - rewrite app_nil_r.
    rewrite <- (app_nil_r (field_encode 1 _)).
    rewrite Level_decode_go_field by done. cbn.
    by rewrite Level_decode_go_nil.
  - rewrite Level_decode_go_field by done. cbn.
    rewrite <- (app_nil_r (field_encode 2 _)).
    rewrite Level_decode_go_field; cbn.
    + by rewrite Level_decode_go_nil.
    + rewrite !length_app.
      pose proof (field_encode_cons 1 (packed_encode (k :: ks)) []) as (?&?&E&_).
      rewrite app_nil_r in E. rewrite E. simpl. lia.
Qed.

Lemma YoloIndex_decode_go_encode (fuel : nat) (levels : list Level) :
  length (YoloIndex_encode levels) ≤ fuel →
  YoloIndex_decode_go fuel (YoloIndex_encode levels) = Some levels.
Proof.
  revert fuel. induction levels as [|l ls IH]; intros fuel Hf.
  - by destruct fuel.
  - unfold YoloIndex_encode in *. cbn [map concat] in *.
    destruct (field_encode_cons 1 (Level_encode l)
                (concat (map (λ l, field_encode 1 (Level_encode l)) ls)))
      as (b & bs & E & Hl).
    destruct fuel as [|fuel]; [rewrite E in Hf; simpl in Hf; lia|].
    rewrite E. cbn [YoloIndex_decode_go]. rewrite <- E.
    rewrite field_decode_encode. cbn.
    rewrite Level_decode_encode. cbn.
    rewrite IH; [done|].
    rewrite length_app in Hf.
    pose proof (field_encode_cons 1 (Level_encode l) []) as (b' & bs' & E' & _).
    rewrite app_nil_r in E'. rewrite E' in Hf. simpl in Hf. lia.
Qed.

(** [YoloIndex.decode (YoloIndex.encode ({ levels }))] gives back the levels. *)
Lemma YoloIndex_decode_encode (levels : list Level) :
  YoloIndex_decode (YoloIndex_encode levels) = Some levels.
Proof. by apply YoloIndex_decode_go_encode. Qed.

Lemma Node_decode_go_field (fuel field : nat) (body rest : Buffer)
    (i k v : option Buffer) :
  length (field_encode field body ++ rest) ≤ fuel →
  Node_decode_go fuel (field_encode field body ++ rest) i k v
  = if field =? 1 then Node_decode_go (fuel - 1) rest (Some body) k v
    else if field =? 2 then Node_decode_go (fuel - 1) rest i (Some body) v
    else if field =? 3 then Node_decode_go (fuel - 1) rest i k (Some body)
    else None.
Proof.
  intros Hf.
  destruct (field_encode_cons field body rest) as (b & bs & E & Hl).
  destruct fuel as [|fuel]; [rewrite E in Hf; simpl in Hf; lia|].
  rewrite E. simpl. rewrite <- E.
  rewrite field_decode_encode. simpl.
  rewrite !field_tag_eqb. by rewrite Nat.sub_0_r.
Qed.

(** [Node.decode (Node.encode (m))] gives back the message. *)
Lemma Node_decode_encode (m : NodeMsg) : Node_decode (Node_encode m) = Some m.
Proof.
  destruct m as [i k v]. unfold Node_decode, Node_encode.
  cbn [m_index m_key m_value].
  assert (Hpos : ∀ fld body, 0 < length (field_encode fld body)).
  { intros fld body.
    pose proof (field_encode_cons fld body []) as (?&?&E&_).
    rewrite app_nil_r in E. rewrite E. simpl. lia. }
  pose proof (Hpos 1 i). pose proof (Hpos 2 k).
  rewrite Node_decode_go_field by done. cbn.
  rewrite Node_decode_go_field by (rewrite !length_app; lia). cbn.
  destruct v as [v|].
  - rewrite <- (app_nil_r (field_encode 3 v)).
    rewrite Node_decode_go_field; cbn.
    + by destruct (_ - _).
    + rewrite app_nil_r, !length_app. lia.
  - by destruct (_ - _).
Qed.

(** The header is not a tree block: it has no [key] field. *)
Lemma Node_decode_Header : Node_decode (Header_encode protocol_name) = None.
Proof. reflexivity. Qed.
End WireFormat.

(** * The order on keys *)

#[local] Arguments Nat.div : simpl never.
#[local] Arguments Nat.modulo : simpl never.

Lemma Byte_to_N_inj (x y : byte) : Byte.to_N x = Byte.to_N y → x = y.
Proof.
  intros E. pose proof (Byte.of_to_N x) as Hx. rewrite E in Hx.
  rewrite Byte.of_to_N in Hx. congruence.
Qed.

Lemma Buffer_compare_refl (a : Buffer) : Buffer_compare a a = Eq.
Proof. induction a as [|x a IH]; simpl; [done|]. by rewrite N.compare_refl. Qed.

Lemma Buffer_compare_eq (a b : Buffer) : Buffer_compare a b = Eq → a = b.
Proof.
  revert b. induction a as [|x a IH]; intros [|y b]; simpl; try done.
  destruct (N.compare_spec (Byte.to_N x) (Byte.to_N y)) as [E| |]; try done.
  intros H. f_equal; [by apply Byte_to_N_inj | by apply IH].
Qed.

Lemma Buffer_compare_antisym (a b : Buffer) :
  Buffer_compare b a = CompOpp (Buffer_compare a b).
Proof.
  revert b. induction a as [|x a IH]; intros [|y b]; simpl; try done.
  rewrite (N.compare_antisym (Byte.to_N x) (Byte.to_N y)).
  destruct (Byte.to_N x ?= Byte.to_N y)%N; simpl; auto.
Qed.

Lemma Buffer_lt_irrefl (a : Buffer) : ¬ Buffer_lt a a.
Proof. unfold Buffer_lt. by rewrite Buffer_compare_refl. Qed.

Lemma Buffer_lt_trans (a b c : Buffer) :
  Buffer_lt a b → Buffer_lt b c → Buffer_lt a c.
Proof.
  unfold Buffer_lt. revert b c.
  induction a as [|x a IH]; intros [|y b] [|z c]; simpl; try done.
  destruct (N.compare_spec (Byte.to_N x) (Byte.to_N y)) as [E|L|G];
    destruct (N.compare_spec (Byte.to_N y) (Byte.to_N z)) as [E'|L'|G'];
    try done; intros H1 H2.
  - rewrite E, E', N.compare_refl. by eapply IH.
  - rewrite E. by apply N.compare_lt_iff in L' as ->.
  - rewrite <- E'. by apply N.compare_lt_iff in L as ->.
  - assert (Byte.to_N x < Byte.to_N z)%N as ->%N.compare_lt_iff by lia. done.
Qed.

Lemma Buffer_lt_asym (a b : Buffer) : Buffer_lt a b → ¬ Buffer_lt b a.
Proof. intros H1 H2. exact (Buffer_lt_irrefl a (Buffer_lt_trans _ _ _ H1 H2)). Qed.

Lemma Buffer_lt_trichotomy (a b : Buffer) :
  Buffer_lt a b ∨ a = b ∨ Buffer_lt b a.
Proof.
  unfold Buffer_lt. rewrite (Buffer_compare_antisym a b).
  destruct (Buffer_compare a b) eqn:E; simpl; auto.
  right; left. by apply Buffer_compare_eq.
Qed.

Lemma Buffer_ltb_lt (a b : Buffer) : Buffer_ltb a b = true ↔ Buffer_lt a b.
Proof. unfold Buffer_ltb, Buffer_lt. by destruct (Buffer_compare a b). Qed.

Lemma Buffer_ltb_nlt (a b : Buffer) : Buffer_ltb a b = false ↔ ¬ Buffer_lt a b.
Proof. unfold Buffer_ltb, Buffer_lt. by destruct (Buffer_compare a b). Qed.

(** The three outcomes of [cmp]. *)
Lemma cmp_spec (a b : Buffer) :
  (Buffer_lt a b ∧ cmp a b = (-1)%Z)
  ∨ (a = b ∧ cmp a b = 0%Z)
  ∨ (Buffer_lt b a ∧ cmp a b = 1%Z).
Proof.
  unfold cmp.
  destruct (Buffer_ltb a b) eqn:E1.
  { left. by apply Buffer_ltb_lt in E1. }
  destruct (Buffer_ltb b a) eqn:E2.
  { right; right. by apply Buffer_ltb_lt in E2. }
  right; left. split; [|done].
  apply Buffer_ltb_nlt in E1, E2.
  destruct (Buffer_lt_trichotomy a b) as [?|[?|?]]; done.
Qed.

Lemma cmp_eq (a b : Buffer) : cmp a b = 0%Z ↔ a = b.
Proof.
  destruct (cmp_spec a b) as [[H E]|[[H E]|[H E]]]; rewrite E; split; try done.
  - intros ->. by apply Buffer_lt_irrefl in H.
  - intros ->. by apply Buffer_lt_irrefl in H.
Qed.

Lemma cmp_lt (a b : Buffer) : (cmp a b < 0)%Z ↔ Buffer_lt a b.
Proof.
  destruct (cmp_spec a b) as [[H E]|[[H E]|[H E]]]; rewrite E; split; try done;
    try lia.
  - intros H'. subst. by apply Buffer_lt_irrefl in H'.
  - intros H'. by apply Buffer_lt_asym in H'.
Qed.

Lemma cmp_gt (a b : Buffer) :
  cmp a b ≠ 0%Z → ¬ (cmp a b < 0)%Z → Buffer_lt b a.
Proof.
  destruct (cmp_spec a b) as [[H E]|[[H E]|[H E]]]; rewrite E; try done; lia.
Qed.

Lemma Buffer_compare_Eq_iff (a b : Buffer) : Buffer_compare a b = Eq ↔ a = b.
Proof.
  split; [apply Buffer_compare_eq|]. intros ->. apply Buffer_compare_refl.
Qed.

(** * Reading the log through a batch *)

Lemma same_view_refl (b : Batch) : same_view b b.
Proof. by repeat split. Qed.

Lemma same_view_trans (b1 b2 b3 : Batch) :
  same_view b1 b2 → same_view b2 b3 → same_view b1 b3.
Proof.
  intros (?&?&?&?&?) (?&?&?&?&?). repeat split; try congruence; tauto.
Qed.

Section Returns.
Context {A B : Type} (log : list Buffer).

Lemma Returns_ret (x : A) : Returns log (mret x) x.
Proof. intros b Hb. exists b. split; [done|]. split; [done|apply same_view_refl]. Qed.

Lemma Returns_bind (m : M A) (k : A → M B) (x : A) (y : B) :
  Returns log m x → Returns log (k x) y → Returns log (m ≫= k) y.
Proof.
  intros Hm Hk b Hb.
  destruct (Hm b Hb) as (b1 & E1 & Hb1 & V1).
  destruct (Hk b1 Hb1) as (b2 & E2 & Hb2 & V2).
  exists b2. split; [|split; [done|by eapply same_view_trans]].
  unfold mbind, M_bind. by rewrite E1.
Qed.

Lemma Returns_lift (o : option A) (x : A) : o = Some x → Returns log (lift o) x.
Proof.
  intros -> b Hb. exists b. split; [done|]. split; [done|apply same_view_refl].
Qed.

Lemma Returns_inj (m : M A) (x y : A) (b : Batch) :
  cache_ok log b → Returns log m x → Returns log m y → x = y.
Proof.
  intros Hb Hx Hy. destruct (Hx b Hb) as (?&E1&_), (Hy b Hb) as (?&E2&_).
  congruence.
Qed.
End Returns.

Lemma cache_ok_new_Batch (log : list Buffer) (h : HyperBee) (auto cache : bool) :
  cache_ok log (new_Batch h auto cache).
Proof. intros m s e. destruct cache; simpl; [|done]. by intros [= <-]. Qed.

Lemma cache_ok_set_rootSeq (log : list Buffer) (s : nat) (b : Batch) :
  cache_ok log b → cache_ok log (set_rootSeq s b).
Proof. done. Qed.

(** [Batch.getBlock] returns the block of the log, through the cache or
    not. *)
Lemma Batch_getBlock_Returns (log : list Buffer) (s : nat) (e : Entry) :
  HyperBee_getBlock log s = Some e → Returns log (Batch_getBlock log s) e.
Proof.
  intros He b Hb. unfold Batch_getBlock.
  set (b0 := if rootSeq b =? 0 then set_rootSeq s b else b).
  assert (Hb0 : cache_ok log b0) by (subst b0; by destruct (rootSeq b =? 0)).
  assert (V0 : same_view b b0).
  { subst b0. destruct (rootSeq b =? 0); by repeat split. }
  clearbody b0.
  destruct (blocks b0) as [m|] eqn:Em; simpl.
  - destruct (m !! s) as [e'|] eqn:Es.
    + exists b0. rewrite (Hb0 m s e' Em Es) in He. injection He as ->. done.
    + rewrite He. simpl. eexists. split; [done|]. split.
      * intros m' s' e'. simpl. intros [= <-].
        rewrite lookup_insert. case_decide as Hs.
        -- subst s'. by intros [= <-].
        -- by apply Hb0.
      * destruct V0 as (?&?&?&?&?). repeat split; simpl; try done.
        rewrite <- H3. by rewrite Em.
  - rewrite He. simpl. by exists b0.
Qed.

Lemma block_entry_Returns (log : list Buffer) (s : nat) (e : Entry) :
  HyperBee_getBlock log s = Some e → Returns log (block_entry log s) e.
Proof.
  intros He b Hb. unfold block_entry. exists b.
  split; [|split; [done|apply same_view_refl]].
  destruct (blocks b) as [m|] eqn:Em; simpl; [|by rewrite He].
  destruct (m !! s) as [e'|] eqn:Es; [|by rewrite He].
  rewrite (Hb m s e' Em Es) in He. by injection He as ->.
Qed.

Lemma feed_key_getBlock (log : list Buffer) (s : nat) (k : Buffer) :
  feed_key log s = Some k →
  ∃ e, HyperBee_getBlock log s = Some e ∧ e_key e = k ∧ e_seq e = s.
Proof.
  unfold feed_key, HyperBee_getBlock. destruct (feed_get log s) as [m|]; [|done].
  simpl. intros [= <-]. by eexists.
Qed.

Lemma Batch_getKey_Returns (log : list Buffer) (s : nat) (k : Buffer) :
  feed_key log s = Some k → Returns log (Batch_getKey log s) k.
Proof.
  intros (e & He & <- & _)%feed_key_getBlock. unfold Batch_getKey.
  eapply Returns_bind; [by apply Batch_getBlock_Returns|]. apply Returns_ret.
Qed.

(** ** Loading a key *)

Lemma keys_loaded_refl log pend aks n :
  Forall2 (KeyRep log pend) (keys n) aks → keys_loaded log pend aks n n.
Proof. by repeat split. Qed.

Lemma keys_loaded_trans log pend aks n1 n2 n3 :
  keys_loaded log pend aks n1 n2 → keys_loaded log pend aks n2 n3 →
  keys_loaded log pend aks n1 n3.
Proof.
  intros (?&?&?&?&Ha) (?&?&?&?&Hb). repeat split; try congruence.
  intros Hl. rewrite Hb; [by apply Ha|]. by rewrite Ha.
Qed.

Lemma TreeNode_getKey_spec log pend aks n i a :
  Forall2 (KeyRep log pend) (keys n) aks →
  (block n = None → Forall (λ k, k_value k ≠ None) (keys n)) →
  aks !! i = Some a →
  ∃ n', Returns log (TreeNode_getKey log i n) (a.2, n')
        ∧ keys_loaded log pend aks n n'
        ∧ (∃ k, keys n' !! i = Some k ∧ k_seq k = a.1 ∧ k_value k = Some a.2)
        ∧ (∀ j, j ≠ i → keys n' !! j = keys n !! j).
Proof.
  intros Hks Hblock Ha.
  destruct (Forall2_lookup_r _ _ _ _ _ Hks Ha) as (k & Hk & Hs & Hv).
  unfold TreeNode_getKey. rewrite Hk.
  destruct (k_value k) as [v|] eqn:Ev.
  - destruct Hv as [-> Hv]. exists n. split; [apply Returns_ret|].
    split; [by apply keys_loaded_refl|]. split; [|done].
    exists k. by rewrite Ev.
  - destruct (block n) as [bseq|] eqn:Eb.
    2:{ specialize (Hblock eq_refl). rewrite Forall_lookup in Hblock.
        by specialize (Hblock _ _ Hk). }
    eexists. split; [|split; [|split]].
    + eapply Returns_bind; [|apply Returns_ret].
      destruct (k_seq k =? bseq) eqn:E.
      * apply Nat.eqb_eq in E. subst bseq.
        destruct (feed_key_getBlock _ _ _ Hv) as (e & He & <- & _).
        rewrite <- Hs in He.
        eapply Returns_bind; [by apply block_entry_Returns|apply Returns_ret].
      * rewrite Hs. by apply Batch_getKey_Returns.
    + repeat split; simpl; try done.
      * apply Forall2_lookup. intros j.
        destruct (decide (j = i)) as [->|Hne].
        -- rewrite list_lookup_insert_eq by (by eapply lookup_lt_Some).
           rewrite Ha. constructor. split; simpl; [done|]. split; [done|by left].
        -- rewrite list_lookup_insert_ne by done.
           rewrite Forall2_lookup in Hks. apply Hks.
      * intros Hl. rewrite Forall_lookup in Hl. by specialize (Hl _ _ Hk).
    + simpl. eexists. rewrite list_lookup_insert_eq by (by eapply lookup_lt_Some).
      done.
    + intros j Hj. simpl. by rewrite list_lookup_insert_ne.
Qed.

(** ** The binary search *)

Lemma sorted_lookup_lt (l : list akey) (i j : nat) (a b : akey) :
  sorted l → l !! i = Some a → l !! j = Some b → i < j → Buffer_lt a.2 b.2.
Proof.
  intros Hs. revert i j. induction Hs as [|x l Hs IH Hx]; intros i j Hi Hj Hij.
  { by rewrite lookup_nil in Hi. }
  destruct j as [|j]; [lia|]. simpl in Hj.
  destruct i as [|i]; simpl in Hi.
  - injection Hi as ->. rewrite Forall_lookup in Hx. by eapply Hx.
  - eapply IH; [done..|lia].
Qed.

Lemma search_post_Miss (kv : Buffer) (aks : list akey) c e :
  e ≤ length aks →
  Forall (λ a, Buffer_lt a.2 kv) (take e aks) →
  Forall (λ a, Buffer_lt kv a.2) (drop e aks) →
  search_post kv aks (Miss c e e).
Proof.
  intros. unfold search_post, insertion_index.
  destruct c as [z|]; [destruct (z <? 0)%Z|]; done.
Qed.

Lemma search_loop_spec log pend kv aks :
  sorted aks →
  ∀ fuel n s e c,
    Forall2 (KeyRep log pend) (keys n) aks →
    (block n = None → Forall (λ k, k_value k ≠ None) (keys n)) →
    s ≤ e → e ≤ length aks → e - s ≤ fuel →
    Forall (λ a, Buffer_lt a.2 kv) (take s aks) →
    Forall (λ a, Buffer_lt kv a.2) (drop e aks) →
    ∃ r n', Returns log (search_loop log fuel kv n s e c) (r, n')
            ∧ keys_loaded log pend aks n n'
            ∧ search_post kv aks r.
Proof.
  intros Hsorted. induction fuel as [|fuel IH]; intros n s e c Hks Hb Hse He Hf Hlo Hhi.
  - assert (s = e) as -> by lia. simpl.
    assert ((e <? e) = false) as -> by (apply Nat.ltb_ge; lia).
    eexists _, n. split; [apply Returns_ret|]. split; [by apply keys_loaded_refl|].
    by apply search_post_Miss.
  - simpl. destruct (s <? e) eqn:Ese.
    2:{ apply Nat.ltb_ge in Ese. assert (s = e) as -> by lia.
        eexists _, n. split; [apply Returns_ret|].
        split; [by apply keys_loaded_refl|].
        by apply search_post_Miss. }
    apply Nat.ltb_lt in Ese.
    set (mid := (s + e) / 2).
    assert (Hmid : s ≤ mid < e).
    { subst mid. split.
      - apply Nat.div_le_lower_bound; lia.
      - apply Nat.Div0.div_lt_upper_bound; lia. }
    destruct (lookup_lt_is_Some_2 aks mid) as [a Ha]; [lia|].
    destruct (TreeNode_getKey_spec log pend aks n mid a Hks Hb Ha)
      as (n1 & Hret & Hl1 & _ & _).
    assert (Hks1 : Forall2 (KeyRep log pend) (keys n1) aks) by apply Hl1.
    assert (Hb1 : block n1 = None → Forall (λ k, k_value k ≠ None) (keys n1)).
    { destruct Hl1 as (Eb & _ & _ & _ & Hk). intros E. rewrite Eb in E.
      rewrite (Hk (Hb E)). by apply Hb. }
    destruct (cmp_spec kv a.2) as [[Hlt E]|[[Heq E]|[Hgt E]]].
    + (* kv < a: e := mid *)
      destruct (IH n1 s mid (Some (cmp kv a.2)) Hks1 Hb1) as (r & n' & Hr & Hl & Hp);
        [lia|lia|lia|done| |].
      { apply Forall_lookup. intros j b Hj.
        rewrite lookup_drop in Hj.
        destruct (decide (j = 0)) as [->|Hne].
        - rewrite Nat.add_0_r in Hj. by simplify_eq.
        - eapply Buffer_lt_trans; [done|].
          eapply (sorted_lookup_lt aks mid (mid + j)); [done..|lia]. }
      exists r, n'. split; [|split; [by eapply keys_loaded_trans|done]].
      eapply Returns_bind; [exact Hret|]. cbn. rewrite E in *. exact Hr.
    + eexists (Found mid), n1. split; [|split; [done|]].
      * eapply Returns_bind; [exact Hret|]. cbn. rewrite E. apply Returns_ret.
      * simpl. by exists a.
    + destruct (IH n1 (mid + 1) e (Some (cmp kv a.2)) Hks1 Hb1)
        as (r & n' & Hr & Hl & Hp); [lia|lia|lia| |done|].
      { apply Forall_lookup. intros j b Hj.
        apply lookup_take_Some in Hj as [Hj Hlt].
        destruct (decide (j = mid)) as [->|Hne].
        - by simplify_eq.
        - eapply Buffer_lt_trans; [|done].
          eapply (sorted_lookup_lt aks j mid); [done..|lia]. }
      exists r, n'. split; [|split; [by eapply keys_loaded_trans|done]].
      eapply Returns_bind; [exact Hret|]. cbn. rewrite E in *. exact Hr.
Qed.

Lemma search_spec log pend kv aks n :
  sorted aks →
  Forall2 (KeyRep log pend) (keys n) aks →
  (block n = None → Forall (λ k, k_value k ≠ None) (keys n)) →
  ∃ r n', Returns log (search log kv n) (r, n')
          ∧ keys_loaded log pend aks n n'
          ∧ search_post kv aks r.
Proof.
  intros Hs Hks Hb. unfold search.
  pose proof (Forall2_length _ _ _ Hks) as Hlen.
  apply (search_loop_spec log pend kv aks Hs); try done; try lia.
  rewrite Hlen, drop_all. constructor.
Qed.

(** * Tree node operations *)

Lemma pop_snoc {A} (l : list A) (x : A) : pop (l ++ [x]) = Some (x, l).
Proof. unfold pop. by rewrite last_snoc, removelast_last. Qed.

Lemma pop_Some {A} (l : list A) :
  l ≠ [] → ∃ x l', l = l' ++ [x] ∧ pop l = Some (x, l').
Proof.
  intros Hl. destruct (exists_last Hl) as (l' & x & ->).
  exists x, l'. by rewrite pop_snoc.
Qed.

Lemma pop_lookup {A} (l : list A) (x : A) (l' : list A) :
  pop l = Some (x, l') → l' = take (length l - 1) l ∧ l !! (length l - 1) = Some x.
Proof.
  destruct (decide (l = [])) as [->|Hl]; [done|].
  destruct (pop_Some l Hl) as (y & l0 & -> & ->). intros [= <- <-].
  rewrite length_app. simpl.
  replace (length l0 + 1 - 1) with (length l0) by lia.
  by rewrite take_app_length, list_lookup_middle.
Qed.

(** The loop [while (dst.length < len) dst.push (src.pop ())] moves the last
    [len - dst.length] elements of [src], last first. *)
Lemma pop_push_spec {A} (k fuel len : nat) (src dst : list A) :
  len = length dst + k → k ≤ fuel → k ≤ length src →
  pop_push fuel len src dst
  = Some (take (length src - k) src, dst ++ rev (drop (length src - k) src)).
Proof.
  revert fuel src dst.
  induction k as [|k IH]; intros fuel src dst Hlen Hf Hs.
  - assert ((length dst <? len) = false) as E by (apply Nat.ltb_ge; lia).
    destruct fuel; simpl; rewrite E; rewrite Nat.sub_0_r, firstn_all, drop_all;
      simpl; by rewrite app_nil_r.
  - destruct fuel as [|fuel]; [lia|]. simpl.
    assert ((length dst <? len) = true) as -> by (apply Nat.ltb_lt; lia).
    destruct (pop_Some src) as (x & src' & -> & ->).
    { intros ->. simpl in Hs. lia. }
    simpl. rewrite length_app in *. simpl in *.
    rewrite (IH fuel src' (dst ++ [x])); [|rewrite length_app; simpl; lia|lia|lia].
    replace (length src' + 1 - S k) with (length src' - k) by lia.
    rewrite take_app_le, drop_app_le by lia.
    rewrite rev_app_distr. simpl. by rewrite <- app_assoc.
Qed.

Lemma splice_in_length {A} (i : nat) (x : A) (l : list A) :
  length (splice_in i x l) = S (length l).
Proof.
  unfold splice_in. rewrite length_app. simpl.
  rewrite length_take, length_drop. lia.
Qed.

(** ** [insertKey] *)



(** ** [split] *)

Lemma half_lt (n : nat) : 1 ≤ n → n / 2 < n.
Proof. intros. apply Nat.div_lt; lia. Qed.

Lemma TreeNode_split_spec log pend aks n :
  Forall2 (KeyRep log pend) (keys n) aks →
  (block n = None → Forall (λ k, k_value k ≠ None) (keys n)) →
  1 ≤ length (keys n) →
  children n = [] ∨ length (keys n) / 2 + 1 ≤ length (children n) →
  let nk := length (keys n) in
  let len := nk / 2 in
  let nc := length (children n) in
  ∃ median a,
    aks !! (nk - len - 1) = Some a
    ∧ k_seq median = a.1 ∧ k_value median = Some a.2
    ∧ Returns log (TreeNode_split log n)
        (mkNode (block n) (take (nk - len - 1) (keys n))
           (take (nc - (len + 1)) (children n)) true,
         median,
         mkNode (block n) (drop (nk - len) (keys n))
           (drop (nc - (len + 1)) (children n)) true).
Proof.
  intros Hks Hb Hnk Hcs nk len nc.
  pose proof (half_lt nk Hnk) as Hlen. fold len in Hlen.
  pose proof (Forall2_length _ _ _ Hks) as Hlaks. fold nk in Hlaks.
  destruct (lookup_lt_is_Some_2 aks (nk - len - 1)) as [a Ha]; [lia|].
  set (ks := take (nk - len) (keys n)).
  assert (Hlks : length ks = nk - len) by (subst ks; rewrite length_take; lia).
  assert (Hks' : Forall2 (KeyRep log pend) (keys (set_keys ks n)) (take (nk - len) aks)).
  { simpl. subst ks. by apply Forall2_take. }
  assert (Hb' : block (set_keys ks n) = None →
                Forall (λ k, k_value k ≠ None) (keys (set_keys ks n))).
  { simpl. intros E. subst ks. apply Forall_take. by apply Hb. }
  assert (Ha' : take (nk - len) aks !! (length ks - 1) = Some a).
  { rewrite lookup_take_lt by lia. rewrite Hlks. exact Ha. }
  destruct (TreeNode_getKey_spec log pend _ _ _ a Hks' Hb' Ha')
    as (n1 & Hret & Hl1 & (median & Hm & Hms & Hmv) & Hothers).
  destruct Hl1 as (Eb1 & Ec1 & _ & Hks1 & _). simpl in Eb1, Ec1.
  pose proof (Forall2_length _ _ _ Hks1) as Hl1. rewrite length_take in Hl1.
  assert (Hl1' : length (keys n1) = nk - len) by lia.
  exists median, a. split; [done|]. split; [done|]. split; [done|].
  unfold TreeNode_split. fold nk len.
  rewrite (pop_push_spec len len len (keys n) []); [|done|done|fold nk; lia].
  simpl lift. eapply Returns_bind; [by apply Returns_lift|]. cbn.
  fold nk ks. eapply Returns_bind; [exact Hret|]. cbn.
  destruct (pop_Some (keys n1)) as (x & l' & Elast & Epop).
  { intros E. rewrite E in Hl1'. simpl in Hl1'. lia. }
  destruct (pop_lookup _ _ _ Epop) as [El' Ex].
  rewrite Hl1' in El', Ex. rewrite <- Hlks in Ex at 1. rewrite Ex in Hm.
  injection Hm as ->.
  assert (Etake : l' = take (nk - len - 1) (keys n)).
  { rewrite El'. apply list_eq. intros j.
    destruct (decide (j < nk - len - 1)) as [Hj|Hj].
    - rewrite !lookup_take_lt by done. rewrite Hothers by lia.
      simpl. subst ks. by rewrite lookup_take_lt by lia.
    - by rewrite !lookup_take_ge by lia. }
  eapply Returns_bind; [by apply Returns_lift|]. cbn.
  rewrite Eb1, Ec1, rev_involutive, Etake. subst nc.
  destruct Hcs as [Hc|Hc].
  - rewrite Hc. cbn. eapply Returns_bind; [by apply Returns_lift|]. cbn.
    apply Returns_ret.
  - assert ((length (children n) =? 0) = false) as -> by (apply Nat.eqb_neq; lia).
    rewrite (pop_push_spec (len + 1) (len + 1) (len + 1) (children n) []);
      [|done|done|subst len nk; lia].
    cbn. eapply Returns_bind; [by apply Returns_lift|]. cbn.
    rewrite rev_involutive. apply Returns_ret.
Qed.

(** ** The claims on [insertKey] and [split] *)




(** C3.  [split] on a node of [n >= 1] keys (an inner node with its
    [n / 2 + 1] rightmost children there), with [len = n >> 1]: the right
    half gets the rightmost [len] keys in their order, the median is the key
    before them, with its bytes loaded, the left half keeps the keys before
    the median; an inner node moves its [len + 1] rightmost children to the
    right half; and for [n = 10] both halves hold at least [T - 1 = 4]
    keys. *)
Theorem split_halves log pend aks n b :
  cache_ok log b →
  Forall2 (KeyRep log pend) (keys n) aks →
  (block n = None → Forall (λ k, k_value k ≠ None) (keys n)) →
  1 ≤ length (keys n) →
  children n = [] ∨ length (keys n) / 2 + 1 ≤ length (children n) →
  let nk := length (keys n) in
  let len := nk / 2 in
  let nc := length (children n) in
  ∃ lft median rgt b' a,
    TreeNode_split log n b = Some (lft, median, rgt, b')
    ∧ keys rgt = drop (nk - len) (keys n) ∧ length (keys rgt) = len
    ∧ aks !! (nk - len - 1) = Some a
    ∧ (k_seq <$> keys n !! (nk - len - 1)) = Some (k_seq median)
    ∧ k_value median = Some a.2
    ∧ keys lft = take (nk - len - 1) (keys n)
    ∧ children rgt = drop (nc - (len + 1)) (children n)
    ∧ children lft = take (nc - (len + 1)) (children n)
    ∧ (children n ≠ [] → length (children rgt) = len + 1)
    ∧ changed lft = true ∧ changed rgt = true
    ∧ (nk = 10 → T - 1 ≤ length (keys lft) ∧ T - 1 ≤ length (keys rgt)).
Proof.
  intros Hb Hks Hbl Hnk Hcs nk len nc.
  destruct (TreeNode_split_spec log pend aks n Hks Hbl Hnk Hcs)
    as (median & a & Ha & Hms & Hmv & Hret).
  destruct (Hret b Hb) as (b' & E & _ & _).
  pose proof (half_lt (length (keys n)) Hnk) as Hlen.
  subst nk len nc.
  eexists _, median, _, b', a. split; [exact E|]. cbn [keys children changed].
  split; [done|]. split; [rewrite length_drop; lia|].
  split; [done|]. split.
  { destruct (Forall2_lookup_r _ _ _ _ _ Hks Ha) as (k & Ek & Hk & _).
    rewrite Ek. simpl. congruence. }
  split; [done|]. split; [done|]. split; [done|]. split; [done|].
  split.
  { intros Hne. destruct Hcs as [?|Hc]; [done|]. rewrite length_drop. lia. }
  split; [done|]. split; [done|].
  intros E10. rewrite length_take, length_drop.
  rewrite E10. change (10 / 2) with 5. unfold T. lia.
Qed.

Lemma split_halves_witness :
  ∃ lft median rgt b',
    TreeNode_split (log sample_feed10) (unloaded_leaf 10 10)
      (new_Batch (new_HyperBee None) true true)
    = Some (lft, median, rgt, b')
    ∧ keys rgt = drop 5 (keys (unloaded_leaf 10 10))
    ∧ keys lft = take 4 (keys (unloaded_leaf 10 10))
    ∧ T - 1 ≤ length (keys lft) ∧ T - 1 ≤ length (keys rgt).
Proof.
  destruct (split_halves (log sample_feed10) None
              (map (λ i, (S i, sample_key i)) (seq 0 10))
              (unloaded_leaf 10 10)
              (new_Batch (new_HyperBee None) true true))
    as (lft & median & rgt & b' & a & H1 & H2 & _ & _ & _ & _ & H3 & _ & _ & _ & _ & _ & H4).
  - apply cache_ok_new_Batch.
  - repeat constructor.
  - discriminate.
  - simpl; lia.
  - by left.
  - exists lft, median, rgt, b'. split; [exact H1|]. split; [exact H2|].
    split; [exact H3|]. by apply H4.
Defined.

(** * Lists of keys in order *)

Lemma interleave_app (lsA lsB : list (list akey)) (aksA aksB : list akey) :
  length lsA = length aksA →
  interleave (lsA ++ lsB) (aksA ++ aksB) = chunk lsA aksA ++ interleave lsB aksB.
Proof.
  revert aksA. induction lsA as [|c lsA IH]; intros [|k aksA] Hlen; try done.
  simpl in *. unfold chunk in *. simpl.
  rewrite IH by lia. by rewrite <- !app_assoc.
Qed.

Lemma interleave_tail (c : list akey) (cs : list (list akey)) (ks : list akey) :
  length cs = length ks → interleave (c :: cs) ks = c ++ tail_part ks cs.
Proof.
  revert c cs. induction ks as [|k ks IH]; intros c [|c' cs] Hlen; try done.
  - simpl. by rewrite app_nil_r.
  - simpl in *. rewrite IH by lia. done.
Qed.

Lemma interleave_split (i : nat) (ls : list (list akey)) (aks : list akey) (li : list akey) :
  length ls = length aks + 1 → ls !! i = Some li →
  interleave ls aks = before i ls aks ++ li ++ after i ls aks.
Proof.
  intros Hlen Hi. pose proof (lookup_lt_Some _ _ _ Hi) as Hlt.
  rewrite <- (take_drop i ls) at 1. rewrite <- (take_drop i aks) at 1.
  rewrite interleave_app by (rewrite !length_take; lia).
  rewrite (drop_S _ _ _ Hi). rewrite interleave_tail; [done|].
  rewrite !length_drop. lia.
Qed.

Lemma chunk_app (csA csB : list (list akey)) (ksA ksB : list akey) :
  length csA = length ksA →
  chunk (csA ++ csB) (ksA ++ ksB) = chunk csA ksA ++ chunk csB ksB.
Proof.
  intros Hlen. unfold chunk. rewrite zip_with_app by done. by rewrite concat_app.
Qed.

Lemma tail_part_app (csA csB : list (list akey)) (ksA ksB : list akey) :
  length ksA = length csA →
  tail_part (ksA ++ ksB) (csA ++ csB) = tail_part ksA csA ++ tail_part ksB csB.
Proof.
  intros Hlen. unfold tail_part. rewrite zip_with_app by done. by rewrite concat_app.
Qed.

Lemma before_S (i : nat) (ls : list (list akey)) (aks : list akey) li k :
  ls !! i = Some li → aks !! i = Some k →
  before (S i) ls aks = before i ls aks ++ li ++ [k].
Proof.
  intros Hl Hk. unfold before.
  rewrite (take_S_r _ _ _ Hl), (take_S_r _ _ _ Hk).
  rewrite chunk_app.
  - unfold chunk at 2. simpl. by rewrite app_nil_r.
  - pose proof (lookup_lt_Some _ _ _ Hl). pose proof (lookup_lt_Some _ _ _ Hk).
    rewrite !length_take. lia.
Qed.

Lemma after_cons (i : nat) (ls : list (list akey)) (aks : list akey) k c :
  aks !! i = Some k → ls !! S i = Some c →
  after i ls aks = k :: c ++ after (S i) ls aks.
Proof.
  intros Hk Hc. unfold after.
  by rewrite (drop_S _ _ _ Hk), (drop_S _ _ _ Hc).
Qed.

Lemma before_0 ls aks : before 0 ls aks = [].
Proof. done. Qed.

Lemma after_last (ls : list (list akey)) (aks : list akey) :
  after (length aks) ls aks = [].
Proof. unfold after. by rewrite drop_all. Qed.

(** ** Sorted lists *)

Lemma sorted_app (l1 l2 : list akey) :
  sorted (l1 ++ l2) ↔
  sorted l1 ∧ sorted l2 ∧ ∀ a b, a ∈ l1 → b ∈ l2 → Buffer_lt a.2 b.2.
Proof.
  unfold sorted. induction l1 as [|x l1 IH]; simpl.
  - split.
    + intros H. split; [constructor|]. split; [done|]. intros a b Ha. by apply elem_of_nil in Ha.
    + by intros (_ & H & _).
  - split.
    + intros H. apply StronglySorted_inv in H as [H1 H2].
      apply IH in H1 as (Hs1 & Hs2 & H12).
      apply Forall_app in H2 as [H2a H2b].
      split; [by constructor|]. split; [done|].
      intros a b Ha Hb. apply elem_of_cons in Ha as [->|Ha].
      * rewrite Forall_forall in H2b. by apply H2b.
      * by apply H12.
    + intros (H1 & H2 & H12). apply StronglySorted_inv in H1 as [H1 Hx].
      constructor.
      * apply IH. split; [done|]. split; [done|].
        intros a b Ha Hb. apply H12; [by apply elem_of_cons; right|done].
      * apply Forall_app. split; [done|].
        apply Forall_forall. intros b Hb. apply H12; [by apply elem_of_cons; left|done].
Qed.

Lemma sorted_cons (a : akey) (l : list akey) :
  sorted (a :: l) ↔ sorted l ∧ Forall (λ b, Buffer_lt a.2 b.2) l.
Proof.
  split.
  - intros H. by apply StronglySorted_inv in H.
  - intros [H1 H2]. by constructor.
Qed.

Lemma sorted_nil : sorted [].
Proof. constructor. Qed.

Lemma sorted_singleton (a : akey) : sorted [a].
Proof. by repeat constructor. Qed.

Lemma sorted_insert_middle (l1 l2 : list akey) (a : akey) :
  sorted (l1 ++ l2) →
  Forall (λ b, Buffer_lt b.2 a.2) l1 → Forall (λ b, Buffer_lt a.2 b.2) l2 →
  sorted (l1 ++ a :: l2).
Proof.
  intros (H1 & H2 & H12)%sorted_app Hlo Hhi. apply sorted_app.
  split; [done|]. split; [by apply sorted_cons|].
  intros x y Hx Hy. apply elem_of_cons in Hy as [->|Hy].
  - rewrite Forall_forall in Hlo. by apply Hlo.
  - by apply H12.
Qed.

Lemma sorted_replace_middle (l1 l2 : list akey) (a old : akey) :
  sorted (l1 ++ old :: l2) → old.2 = a.2 → sorted (l1 ++ a :: l2).
Proof.
  intros (H1 & H2 & H12)%sorted_app E. apply sorted_cons in H2 as [H2 Hold].
  apply sorted_app. split; [done|]. split.
  - apply sorted_cons. split; [done|]. by rewrite <- E.
  - intros x y Hx Hy. apply elem_of_cons in Hy as [->|Hy].
    + rewrite <- E. apply H12; [done|]. by apply elem_of_cons; left.
    + apply H12; [done|]. by apply elem_of_cons; right.
Qed.

Lemma sorted_delete_middle (l1 l2 : list akey) (old : akey) :
  sorted (l1 ++ old :: l2) → sorted (l1 ++ l2).
Proof.
  intros (H1 & H2 & H12)%sorted_app. apply sorted_cons in H2 as [H2 _].
  apply sorted_app. split; [done|]. split; [done|].
  intros x y Hx Hy. apply H12; [done|]. by apply elem_of_cons; right.
Qed.

(** ** The keys of a node among those of its tree *)

Lemma elem_of_chunk (a : akey) cs ks :
  a ∈ chunk cs ks → a ∈ ks ∨ ∃ c, c ∈ cs ∧ a ∈ c.
Proof.
  revert ks. induction cs as [|c cs IH]; intros [|k ks]; unfold chunk; simpl;
    try (by intros ?%elem_of_nil).
  rewrite !elem_of_app. intros [[Ha|Ha]|Ha].
  - right. exists c. split; [left|done].
  - apply list_elem_of_singleton in Ha as ->. left. left.
  - destruct (IH ks Ha) as [?|(c' & ? & ?)].
    + left. by right.
    + right. exists c'. split; [by right|done].
Qed.

Lemma elem_of_tail_part (a : akey) ks cs :
  a ∈ tail_part ks cs → a ∈ ks ∨ ∃ c, c ∈ cs ∧ a ∈ c.
Proof.
  revert cs. induction ks as [|k ks IH]; intros [|c cs]; unfold tail_part; simpl;
    try (by intros ?%elem_of_nil).
  rewrite elem_of_cons, elem_of_app. intros [->|[Ha|Ha]].
  - left. left.
  - right. exists c. split; [left|done].
  - destruct (IH cs Ha) as [?|(c' & ? & ?)].
    + left. by right.
    + right. exists c'. split; [by right|done].
Qed.

(** In a sorted tree, the keys before child [i] are below every bound of
    the keys of the node before [i]. *)
Lemma before_lt (kv : Buffer) (ls : list (list akey)) (aks : list akey) (i : nat) :
  length ls = length aks + 1 → i ≤ length aks →
  sorted (interleave ls aks) →
  Forall (λ a, Buffer_lt a.2 kv) (take i aks) →
  Forall (λ a, Buffer_lt a.2 kv) (before i ls aks).
Proof.
  intros Hlen Hi Hs. induction i as [|i IH]; intros Hlo; [constructor|].
  destruct (lookup_lt_is_Some_2 aks i) as [k Hk]; [lia|].
  destruct (lookup_lt_is_Some_2 ls i) as [li Hli]; [lia|].
  rewrite (take_S_r _ _ _ Hk) in Hlo. apply Forall_app in Hlo as [Hlo Hk'].
  rewrite Forall_singleton in Hk'.
  rewrite (before_S _ _ _ _ _ Hli Hk).
  apply Forall_app. split; [apply IH; [lia|done]|].
  apply Forall_app. split; [|by rewrite Forall_singleton].
  destruct (lookup_lt_is_Some_2 ls (S i)) as [li' Hli']; [lia|].
  rewrite (interleave_split (S i) ls aks li' Hlen Hli') in Hs.
  rewrite (before_S _ _ _ _ _ Hli Hk) in Hs.
  apply sorted_app in Hs as [Hs _].
  apply sorted_app in Hs as (_ & Hs & _).
  apply sorted_app in Hs as (_ & _ & Hs).
  apply Forall_forall. intros a Ha.
  eapply Buffer_lt_trans; [|exact Hk']. apply Hs; [done|]. apply list_elem_of_singleton. done.
Qed.

Lemma after_gt (kv : Buffer) (ls : list (list akey)) (aks : list akey) (i : nat) :
  length ls = length aks + 1 → i ≤ length aks →
  sorted (interleave ls aks) →
  Forall (λ a, Buffer_lt kv a.2) (drop i aks) →
  Forall (λ a, Buffer_lt kv a.2) (after i ls aks).
Proof.
  intros Hlen Hi Hs.
  remember (length aks - i) as d eqn:Ed. revert i Hi Ed.
  induction d as [|d IH]; intros i Hi Ed Hhi.
  { assert (i = length aks) as -> by lia. rewrite after_last. constructor. }
  destruct (lookup_lt_is_Some_2 aks i) as [k Hk]; [lia|].
  destruct (lookup_lt_is_Some_2 ls (S i)) as [c Hc]; [lia|].
  destruct (lookup_lt_is_Some_2 ls i) as [li Hli]; [lia|].
  rewrite (drop_S _ _ _ Hk) in Hhi. apply Forall_cons in Hhi as [Hk' Hhi].
  rewrite (after_cons _ _ _ _ _ Hk Hc).
  constructor; [done|]. apply Forall_app. split; [|apply IH; [lia|lia|done]].
  rewrite (interleave_split i ls aks li Hlen Hli) in Hs.
  rewrite (after_cons _ _ _ _ _ Hk Hc) in Hs.
  apply sorted_app in Hs as (_ & Hs & _).
  apply sorted_app in Hs as (_ & Hs & _).
  apply sorted_cons in Hs as [_ Hs]. apply Forall_app in Hs as [Hs _].
  eapply Forall_impl; [exact Hs|]. simpl. intros a Ha.
  eapply Buffer_lt_trans; [exact Hk'|done].
Qed.

Lemma sorted_interleave_keys (ls : list (list akey)) (aks : list akey) :
  length ls = length aks + 1 → sorted (interleave ls aks) → sorted aks.
Proof.
  revert ls. induction aks as [|k aks IH]; intros ls Hlen Hs; [apply sorted_nil|].
  destruct ls as [|c ls]; [simpl in Hlen; lia|]. simpl in *.
  apply sorted_app in Hs as (_ & Hs & _).
  apply sorted_cons in Hs as [Hs Hk].
  apply sorted_cons. split; [apply (IH ls); [lia|done]|].
  destruct ls as [|c' ls]; [simpl in Hlen; lia|].
  rewrite interleave_tail in Hk by (simpl in *; lia).
  apply Forall_app in Hk as [_ Hk].
  clear -Hk Hlen. simpl in Hlen. assert (length ls = length aks) as Hl by lia.
  clear Hlen. revert ls Hl Hk. induction aks as [|k' aks IH]; intros ls Hl Hk; [constructor|].
  destruct ls as [|c ls]; [done|]. unfold tail_part in Hk. simpl in Hk.
  apply Forall_cons in Hk as [Hk' Hk]. apply Forall_app in Hk as [_ Hk].
  constructor; [done|]. apply (IH ls); [simpl in Hl; lia|done].
Qed.


Lemma interleave_cut (ls : list (list akey)) (aks : list akey) (j : nat) (a : akey) :
  length ls = length aks + 1 → 1 ≤ j → aks !! (j - 1) = Some a →
  interleave ls aks
  = interleave (take j ls) (take (j - 1) aks) ++ a :: interleave (drop j ls) (drop j aks).
Proof.
  intros Hlen Hj Ha. pose proof (lookup_lt_Some _ _ _ Ha) as Hlt.
  destruct (lookup_lt_is_Some_2 ls (j - 1)) as [lj Hlj]; [lia|].
  assert (Els : ls = take (j - 1) ls ++ lj :: drop j ls).
  { rewrite <- (take_drop (j - 1) ls) at 1. rewrite (drop_S _ _ _ Hlj).
    by replace (S (j - 1)) with j by lia. }
  assert (Eaks : aks = take (j - 1) aks ++ a :: drop j aks).
  { rewrite <- (take_drop (j - 1) aks) at 1. rewrite (drop_S _ _ _ Ha).
    by replace (S (j - 1)) with j by lia. }
  rewrite Els at 1. rewrite Eaks at 1.
  rewrite interleave_app by (rewrite !length_take; lia).
  assert (Etake : take j ls = take (j - 1) ls ++ [lj]).
  { replace j with (S (j - 1)) at 1 by lia. by apply take_S_r. }
  rewrite Etake. rewrite <- (app_nil_r (take (j - 1) aks)) at 2.
  rewrite interleave_app by (rewrite !length_take; lia).
  simpl. by rewrite <- app_assoc.
Qed.

Lemma elem_of_before (ls : list (list akey)) (aks : list akey) i idx a :
  length ls = length aks + 1 → i ≤ length aks →
  idx < i → aks !! idx = Some a → a ∈ before i ls aks.
Proof.
  intros Hlen Hi. induction i as [|i IH]; intros Hidx Ha; [lia|].
  destruct (lookup_lt_is_Some_2 aks i) as [k Hk]; [lia|].
  destruct (lookup_lt_is_Some_2 ls i) as [li Hli]; [lia|].
  rewrite (before_S _ _ _ _ _ Hli Hk). rewrite !elem_of_app.
  destruct (decide (idx = i)) as [->|Hne].
  - right. right. rewrite Hk in Ha. injection Ha as ->. apply list_elem_of_singleton. done.
  - left. apply IH; [lia|lia|done].
Qed.

Lemma elem_of_after (ls : list (list akey)) (aks : list akey) i idx a :
  length ls = length aks + 1 →
  i ≤ idx → aks !! idx = Some a → a ∈ after i ls aks.
Proof.
  intros Hlen Hidx Ha. pose proof (lookup_lt_Some _ _ _ Ha) as Hlt.
  remember (idx - i) as d eqn:Ed. revert i Hidx Ed.
  induction d as [|d IH]; intros i Hidx Ed.
  - assert (i = idx) as -> by lia.
    destruct (lookup_lt_is_Some_2 ls (S idx)) as [c Hc]; [lia|].
    rewrite (after_cons _ _ _ _ _ Ha Hc). apply elem_of_cons. by left.
  - destruct (lookup_lt_is_Some_2 aks i) as [k Hk]; [lia|].
    destruct (lookup_lt_is_Some_2 ls (S i)) as [c Hc]; [lia|].
    rewrite (after_cons _ _ _ _ _ Hk Hc). apply elem_of_cons. right.
    apply elem_of_app. right. apply IH; lia.
Qed.

Lemma interleave_splice (ls : list (list akey)) (aks : list akey) i l_l am l_r :
  length ls = length aks + 1 → i < length ls →
  interleave (splice_in (i + 1) l_r (<[i := l_l]> ls)) (splice_in i am aks)
  = before i ls aks ++ (l_l ++ am :: l_r) ++ after i ls aks.
Proof.
  intros Hlen Hi. unfold splice_in.
  replace (i + 1) with (S i) by lia.
  assert (Et : take (S i) (<[i := l_l]> ls) = take i ls ++ [l_l]).
  { rewrite (take_S_r _ _ l_l); [by rewrite take_insert_ge|].
    by apply list_lookup_insert_eq. }
  rewrite Et, drop_insert_lt by lia. rewrite <- app_assoc. simpl.
  rewrite interleave_app by (rewrite !length_take; lia).
  change (interleave (l_l :: l_r :: drop (S i) ls) (am :: drop i aks))
    with (l_l ++ am :: interleave (l_r :: drop (S i) ls) (drop i aks)).
  rewrite interleave_tail by (rewrite !length_drop; lia).
  unfold before, after. by rewrite <- !app_assoc.
Qed.

(** In a sorted tree the place of a new key among the keys of a node is the
    index of the child whose keys surround it. *)
Lemma insertion_point_unique (ls : list (list akey)) (aks : list akey) i j
    (mid : list akey) (am : akey) :
  length ls = length aks + 1 → i < length ls → j ≤ length aks →
  am ∈ mid →
  sorted (before i ls aks ++ mid ++ after i ls aks) →
  Forall (λ b, Buffer_lt b.2 am.2) (take j aks) →
  Forall (λ b, Buffer_lt am.2 b.2) (drop j aks) →
  j = i.
Proof.
  intros Hlen Hi Hj Hin Hs Hlo Hhi.
  apply sorted_app in Hs as (_ & Hs & Hbm).
  apply sorted_app in Hs as (_ & _ & Hma).
  destruct (Nat.lt_trichotomy j i) as [Hlt|[->|Hgt]]; [|done|]; exfalso.
  - destruct (lookup_lt_is_Some_2 aks j) as [a Ha]; [lia|].
    assert (a ∈ before i ls aks) as Hb by (eapply elem_of_before; [done|lia|done..]).
    assert (Buffer_lt a.2 am.2) as H1.
    { apply Hbm; [done|]. apply elem_of_app. by left. }
    rewrite Forall_lookup in Hhi.
    assert (drop j aks !! 0 = Some a) as H0 by (by rewrite lookup_drop, Nat.add_0_r).
    specialize (Hhi _ _ H0). simpl in Hhi. by eapply Buffer_lt_asym.
  - destruct (lookup_lt_is_Some_2 aks i) as [a Ha]; [lia|].
    assert (a ∈ after i ls aks) as Hb by (by eapply elem_of_after).
    assert (Buffer_lt am.2 a.2) as H1 by (by apply Hma).
    rewrite Forall_lookup in Hlo.
    assert (take j aks !! i = Some a) as H0 by (by rewrite lookup_take_lt).
    specialize (Hlo _ _ H0). simpl in Hlo. by eapply Buffer_lt_asym.
Qed.

(** A key of a sorted list differs from the keys around it. *)
Lemma sorted_middle_fresh (l1 l2 mid : list akey) (am : akey) :
  sorted (l1 ++ mid ++ l2) → am ∈ mid →
  Forall (λ b, b.2 ≠ am.2) l1 ∧ Forall (λ b, b.2 ≠ am.2) l2.
Proof.
  intros (_ & Hs & Hbm)%sorted_app Hin.
  apply sorted_app in Hs as (_ & _ & Hma). split; apply Forall_forall; intros b Hb E.
  - assert (Buffer_lt b.2 am.2) as H by (apply Hbm; [done|]; apply elem_of_app; by left).
    rewrite E in H. by apply Buffer_lt_irrefl in H.
  - assert (Buffer_lt am.2 b.2) as H by (by apply Hma).
    rewrite E in H. by apply Buffer_lt_irrefl in H.
Qed.

Lemma sorted_frame (lb1 lb2 ln la1 la2 : list akey) :
  sorted ((lb2 ++ lb1) ++ ln ++ la1 ++ la2) →
  sorted (lb1 ++ ln ++ la1) ∧ sorted (lb2 ++ (lb1 ++ ln ++ la1) ++ la2).
Proof.
  intros Hs.
  assert (E : (lb2 ++ lb1) ++ ln ++ la1 ++ la2 = lb2 ++ (lb1 ++ ln ++ la1) ++ la2)
    by (by rewrite <- !app_assoc).
  rewrite E in Hs. split; [|done].
  apply sorted_app in Hs as (_ & Hs & _). by apply sorted_app in Hs as (Hs & _ & _).
Qed.

Lemma interleave_replace_key (ls : list (list akey)) (aks : list akey) mid old (a : akey) :
  length ls = length aks + 1 → aks !! mid = Some old →
  ∃ l1 l2, interleave ls aks = l1 ++ old :: l2
           ∧ interleave ls (<[mid := a]> aks) = l1 ++ a :: l2.
Proof.
  intros Hlen Hold. pose proof (lookup_lt_Some _ _ _ Hold) as Hlt.
  destruct (lookup_lt_is_Some_2 ls mid) as [li Hli]; [lia|].
  destruct (lookup_lt_is_Some_2 ls (S mid)) as [c Hc]; [lia|].
  exists (before mid ls aks ++ li), (c ++ after (S mid) ls aks). split.
  - rewrite (interleave_split mid ls aks li Hlen Hli).
    rewrite (after_cons _ _ _ _ _ Hold Hc). by rewrite <- !app_assoc.
  - rewrite (interleave_split mid ls (<[mid := a]> aks) li); [|by rewrite length_insert|done].
    rewrite (after_cons mid ls (<[mid := a]> aks) a c); [|by apply list_lookup_insert_eq|done].
    unfold before, after. rewrite take_insert_ge by lia. rewrite drop_insert_lt by lia.
    by rewrite <- !app_assoc.
Qed.

Lemma sorted_middle (lb ln la : list akey) : sorted (lb ++ ln ++ la) → sorted ln.
Proof.
  intros (_ & Hs & _)%sorted_app. by apply sorted_app in Hs as (Hs & _ & _).
Qed.

(** * Trees in the log and in memory *)

Lemma KeyRep_weaken log pend k a : KeyRep log None k a → KeyRep log pend k a.
Proof.
  intros [Hs Hv]. split; [done|].
  destruct (k_value k); [|done]. destruct Hv as [? [?|?]]; [|done]. by split; [|left].
Qed.

Lemma KeyRep_unloaded log pend s kv :
  feed_key log s = Some kv → KeyRep log pend (mkKey s None) (s, kv).
Proof. by split. Qed.

Lemma Rep_0 log pend lo n l :
  Rep log pend 0 lo n l ↔
  Forall2 (KeyRep log pend) (keys n) l ∧ lo ≤ length (keys n)
  ∧ (block n = None → all_loaded n) ∧ children n = [].
Proof.
  simpl. split.
  - intros (aks & ? & ? & ? & ? & ->). done.
  - intros (? & ? & ? & ?). by exists l.
Qed.

Lemma Rep_S log pend h lo n l :
  Rep log pend (S h) lo n l ↔
  ∃ aks ls,
    Forall2 (KeyRep log pend) (keys n) aks ∧ lo ≤ length (keys n)
    ∧ (block n = None → all_loaded n)
    ∧ Forall2 (ChildRep (Rep log pend h 1) (Stored log h 1)) (children n) ls
    ∧ length (children n) = length (keys n) + 1
    ∧ l = interleave ls aks.
Proof.
  simpl. split.
  - intros (aks & ? & ? & ? & ls & ? & ? & ?). by exists aks, ls.
  - intros (aks & ls & ? & ? & ? & ? & ? & ?). exists aks.
    split; [done|]. split; [done|]. split; [done|]. by exists ls.
Qed.

Lemma Stored_0 log lo s o l :
  Stored log 0 lo s o l ↔
  ∃ m levels ks,
    feed_get log s = Some m ∧ inflate (m_index m) = Some levels
    ∧ levels !! o = Some (ks, []) ∧ lo ≤ length ks
    ∧ Forall2 (KeyRep log None) ks l.
Proof.
  simpl. split.
  - intros (m & levels & ks & cs & aks & ? & ? & ? & ? & ? & -> & ->).
    by exists m, levels, ks.
  - intros (m & levels & ks & ? & ? & ? & ? & ?).
    by exists m, levels, ks, [], l.
Qed.

Lemma Stored_S log h lo s o l :
  Stored log (S h) lo s o l ↔
  ∃ m levels ks cs aks ls,
    feed_get log s = Some m ∧ inflate (m_index m) = Some levels
    ∧ levels !! o = Some (ks, cs) ∧ lo ≤ length ks
    ∧ Forall2 (KeyRep log None) ks aks
    ∧ Forall2 (λ c l', Stored log h 1 (c_seq c) (c_offset c) l') cs ls
    ∧ length cs = length ks + 1
    ∧ l = interleave ls aks.
Proof.
  simpl. split.
  - intros (m & levels & ks & cs & aks & ? & ? & ? & ? & ? & ls & ? & ? & ?).
    by exists m, levels, ks, cs, aks, ls.
  - intros (m & levels & ks & cs & aks & ls & ? & ? & ? & ? & ? & ? & ? & ?).
    exists m, levels, ks, cs, aks.
    split; [done|]. split; [done|]. split; [done|]. split; [done|].
    split; [done|]. by exists ls.
Qed.

#[global] Opaque Rep Stored.

Lemma Rep_lo_weaken log pend h lo lo' n l :
  lo' ≤ lo → Rep log pend h lo n l → Rep log pend h lo' n l.
Proof.
  intros Hlo. destruct h.
  - rewrite !Rep_0. intros (?&?&?&?). split_and!; try done. lia.
  - rewrite !Rep_S. intros (aks & ls & ? & ? & ? & ? & ? & ?).
    exists aks, ls. split_and!; try done. lia.
Qed.

Lemma Stored_lo_weaken log h lo lo' s o l :
  lo' ≤ lo → Stored log h lo s o l → Stored log h lo' s o l.
Proof.
  intros Hlo. destruct h.
  - rewrite !Stored_0. intros (m & levels & ks & ? & ? & ? & ? & ?).
    exists m, levels, ks. split_and!; try done. lia.
  - rewrite !Stored_S. intros (m & levels & ks & cs & aks & ls & ? & ? & ? & ? & ? & ? & ? & ?).
    exists m, levels, ks, cs, aks, ls. split_and!; try done. lia.
Qed.

(** ** The log only grows *)

Lemma feed_get_lt log s m : feed_get log s = Some m → s < length log.
Proof.
  unfold feed_get. destruct (log !! s) eqn:E; [|done]. intros _.
  by eapply lookup_lt_Some.
Qed.

Lemma feed_get_app log ext s m :
  feed_get log s = Some m → feed_get (log ++ ext) s = Some m.
Proof.
  intros H. pose proof (feed_get_lt _ _ _ H). unfold feed_get in *.
  by rewrite lookup_app_l.
Qed.

Lemma feed_key_app log ext s k :
  feed_key log s = Some k → feed_key (log ++ ext) s = Some k.
Proof.
  unfold feed_key. destruct (feed_get log s) eqn:E; [|done].
  by rewrite (feed_get_app _ ext _ _ E).
Qed.

Lemma KeyRep_None_app log ext k a :
  KeyRep log None k a → KeyRep (log ++ ext) None k a.
Proof.
  intros [Hs Hv]. split; [done|]. destruct (k_value k).
  - destruct Hv as [? [?|?]]; [|done]. split; [done|]. left. by apply feed_key_app.
  - by apply feed_key_app.
Qed.

Lemma Stored_app log ext h lo s o l :
  Stored log h lo s o l → Stored (log ++ ext) h lo s o l.
Proof.
  revert lo s o l. induction h as [|h IH]; intros lo s o l.
  - rewrite !Stored_0. intros (m & levels & ks & ? & ? & ? & ? & Hks).
    exists m, levels, ks. split_and!; try done; [by apply feed_get_app|].
    eapply Forall2_impl; [exact Hks|]. intros. by apply KeyRep_None_app.
  - rewrite !Stored_S.
    intros (m & levels & ks & cs & aks & ls & ? & ? & ? & ? & Hks & Hcs & ? & ?).
    exists m, levels, ks, cs, aks, ls. split_and!; try done.
    + by apply feed_get_app.
    + eapply Forall2_impl; [exact Hks|]. intros. by apply KeyRep_None_app.
    + eapply Forall2_impl; [exact Hcs|]. intros. by apply IH.
Qed.

(** ** Loading a stored node *)

Lemma child_pairs_unloaded xs cs :
  child_pairs xs = Some cs → Forall (λ c, c_value c = None) cs.
Proof.
  assert (H : ∀ n xs cs, length xs ≤ n → child_pairs xs = Some cs →
                         Forall (λ c, c_value c = None) cs).
  { clear. induction n as [|n IH]; intros [|s [|o xs]] cs Hn; simpl in *;
      try done; try lia.
    - intros [= <-]. constructor.
    - intros [= <-]. constructor.
    - destruct (child_pairs xs) as [cs'|] eqn:E; [|done]. simpl. intros [= <-].
      constructor; [done|]. apply (IH xs); [lia|done]. }
  by apply (H (length xs)).
Qed.

Lemma inflate_unloaded buf levels o ks cs :
  inflate buf = Some levels → levels !! o = Some (ks, cs) →
  Forall (λ k, k_value k = None) ks ∧ Forall (λ c, c_value c = None) cs.
Proof.
  unfold inflate. destruct (YoloIndex_decode buf) as [lv|]; [|done]. simpl.
  intros Hm Ho. rewrite mapM_Some in Hm.
  destruct (Forall2_lookup_r _ _ _ _ _ Hm Ho) as (l & _ & Hl).
  unfold level_pointers in Hl.
  destruct (child_pairs (l_children l)) as [cs'|] eqn:E; [|done].
  simpl in Hl. injection Hl as <- <-. split.
  - apply Forall_forall. intros k (s & -> & _)%list_elem_of_fmap. done.
  - by eapply child_pairs_unloaded.
Qed.

Lemma feed_get_getBlock log s m :
  feed_get log s = Some m →
  HyperBee_getBlock log s = Some (BlockEntry s (m_index m) (m_key m) (m_value m)).
Proof. unfold HyperBee_getBlock. by intros ->. Qed.

Lemma all_loaded_Some n s : block n = Some s → block n = None → all_loaded n.
Proof. congruence. Qed.

Lemma Forall2_impl_Forall_l {A B} (P : A → Prop) (R R' : A → B → Prop) xs ys :
  Forall P xs → Forall2 R xs ys → (∀ x y, P x → R x y → R' x y) →
  Forall2 R' xs ys.
Proof.
  intros HP HR Himpl. induction HR; [constructor|].
  apply Forall_cons in HP as [??]. constructor; auto.
Qed.

(** A stored node, once loaded, is a node in memory for the same keys. *)
Lemma Stored_load log pend h lo s o l :
  Stored log h lo s o l →
  ∃ e child,
    HyperBee_getBlock log s = Some e ∧ getTreeNode e o = Some child
    ∧ Rep log pend h lo child l ∧ changed child = false
    ∧ block child = Some s
    ∧ Forall (λ c, c_value c = None) (children child).
Proof.
  destruct h as [|h].
  - rewrite Stored_0. intros (m & levels & ks & Hm & Hi & Ho & Hlo & Hks).
    eexists _, (mkNode (Some s) ks [] false).
    split; [by apply feed_get_getBlock|]. split; [simpl; by rewrite Hi; simpl; rewrite Ho|].
    split; [|by split_and!]. apply Rep_0. simpl. split_and!; try done.
    eapply Forall2_impl; [exact Hks|]. intros. by apply KeyRep_weaken.
  - rewrite Stored_S.
    intros (m & levels & ks & cs & aks & ls & Hm & Hi & Ho & Hlo & Hks & Hcs & Hlen & ->).
    eexists _, (mkNode (Some s) ks cs false).
    split; [by apply feed_get_getBlock|]. split; [simpl; by rewrite Hi; simpl; rewrite Ho|].
    destruct (inflate_unloaded _ _ _ _ _ Hi Ho) as [_ Hun].
    split; [|by split_and!]. apply Rep_S. exists aks, ls. simpl. split_and!; try done.
    + eapply Forall2_impl; [exact Hks|]. intros. by apply KeyRep_weaken.
    + eapply Forall2_impl_Forall_l; [exact Hun|exact Hcs|].
      intros c l' Ev Hc. unfold ChildRep. by rewrite Ev.
Qed.

(** ** Nodes with their parts named *)

Lemma Rep_S_parts log pend h lo n l :
  Rep log pend (S h) lo n l ↔
  ∃ aks ls, node_parts log pend h lo n aks ls ∧ l = interleave ls aks.
Proof.
  rewrite Rep_S. unfold node_parts. split.
  - intros (aks & ls & ? & ? & ? & ? & ? & ?). by exists aks, ls.
  - intros (aks & ls & (? & ? & ? & ? & ?) & ?). by exists aks, ls.
Qed.

Lemma node_parts_lengths log pend h lo n aks ls :
  node_parts log pend h lo n aks ls →
  length aks = length (keys n) ∧ length ls = length (children n)
  ∧ length ls = length aks + 1.
Proof.
  intros (Hk & _ & _ & Hc & Hl).
  pose proof (Forall2_length _ _ _ Hk). pose proof (Forall2_length _ _ _ Hc). lia.
Qed.

Lemma Rep_children_nil log pend h lo n l :
  Rep log pend h lo n l → (length (children n) =? 0) = (h =? 0).
Proof.
  destruct h.
  - rewrite Rep_0. by intros (_ & _ & _ & ->).
  - rewrite Rep_S. intros (aks & ls & _ & _ & _ & _ & Hl & _).
    simpl. apply Nat.eqb_neq. lia.
Qed.

Lemma set_child_value_parts i child n c :
  children n !! i = Some c →
  block (set_child_value i child n) = block n
  ∧ keys (set_child_value i child n) = keys n
  ∧ changed (set_child_value i child n) = changed n
  ∧ children (set_child_value i child n)
    = <[i := mkChild (c_seq c) (c_offset c) (Some child)]> (children n).
Proof. intros Hc. unfold set_child_value. rewrite Hc. by destruct n. Qed.

Lemma set_child_value_same i child n c :
  children n !! i = Some c → c_value c = Some child →
  set_child_value i child n = n.
Proof.
  intros Hc Hv. unfold set_child_value. rewrite Hc.
  destruct c as [s o v]. simpl in *. subst v.
  rewrite list_insert_id by done. by destruct n.
Qed.

Lemma all_loaded_set_child i child n :
  all_loaded n → all_loaded (set_child_value i child n).
Proof.
  intros [Hk Hc]. destruct (children n !! i) as [c|] eqn:E.
  - unfold all_loaded.
    destruct (set_child_value_parts i child n c E) as (_ & -> & _ & ->).
    split; [done|]. apply Forall_insert; done.
  - unfold set_child_value. by rewrite E.
Qed.

(** Writing a node into the cell of its parent. *)
Lemma node_parts_set_child log pend h lo n aks ls i child li c :
  node_parts log pend h lo n aks ls →
  children n !! i = Some c →
  Rep log pend h 1 child li → block child ≠ None →
  (changed child = false → Stored log h 1 (c_seq c) (c_offset c) li) →
  node_parts log pend h lo (set_child_value i child n) aks (<[i := li]> ls).
Proof.
  intros (Hk & Hlo & Hb & Hc & Hl) Hi Hr Hbk Hs.
  destruct (set_child_value_parts i child n c Hi) as (Eb & Ek & _ & Ec).
  unfold node_parts. rewrite Eb, Ek, Ec. split_and!; try done.
  - intros E. by apply all_loaded_set_child, Hb.
  - apply Forall2_insert; [done|]. unfold ChildRep. simpl. done.
  - by rewrite length_insert.
Qed.

Lemma before_insert i (ls : list (list akey)) aks li :
  before i (<[i := li]> ls) aks = before i ls aks.
Proof. unfold before. by rewrite take_insert_ge. Qed.

Lemma after_insert i (ls : list (list akey)) aks li :
  after i (<[i := li]> ls) aks = after i ls aks.
Proof. unfold after. by rewrite drop_insert_lt by lia. Qed.

Lemma interleave_insert i (ls : list (list akey)) aks li :
  length ls = length aks + 1 → i < length ls →
  interleave (<[i := li]> ls) aks = before i ls aks ++ li ++ after i ls aks.
Proof.
  intros Hl Hi.
  rewrite (interleave_split i _ aks li).
  - by rewrite before_insert, after_insert.
  - by rewrite length_insert.
  - by apply list_lookup_insert_eq.
Qed.

(** ** Loading a child *)

Lemma TreeNode_getChildNode_spec log pend h n i c li :
  children n !! i = Some c →
  ChildRep (Rep log pend h 1) (Stored log h 1) c li →
  (block n = None → c_value c ≠ None) →
  ∃ child,
    Returns log (TreeNode_getChildNode log i n) (child, set_child_value i child n)
    ∧ Rep log pend h 1 child li
    ∧ (changed child = false → Stored log h 1 (c_seq c) (c_offset c) li)
    ∧ (c_value c = None → changed child = false)
    ∧ (∀ x, c_value c = Some x → child = x)
    ∧ block child ≠ None
    ∧ (c_value c = None → Forall (λ c', c_value c' = None) (children child)).
Proof.
  intros Hc Hrep Hb. unfold TreeNode_getChildNode. rewrite Hc.
  unfold ChildRep in Hrep.
  destruct (c_value c) as [x|] eqn:Ev.
  - destruct Hrep as (Hr & Hbk & Hs). exists x.
    rewrite (set_child_value_same i x n c Hc Ev).
    split; [apply Returns_ret|]. split_and!; try done. by intros ? [= ->].
  - destruct (block n) as [bseq|] eqn:Eb; [|by specialize (Hb eq_refl)].
    destruct (Stored_load log pend h 1 _ _ _ Hrep)
      as (e & child & He & Ht & Hr & Hch & Hbk & Hun).
    exists child. split; [|split_and!; try done; congruence].
    eapply Returns_bind.
    { destruct (c_seq c =? bseq) eqn:E.
      - apply Nat.eqb_eq in E. subst bseq. by apply block_entry_Returns.
      - by apply Batch_getBlock_Returns. }
    eapply Returns_bind; [by apply Returns_lift|]. apply Returns_ret.
Qed.

(** * Point lookup *)

Lemma keys_loaded_all_loaded log pend aks n n1 :
  keys_loaded log pend aks n n1 →
  (block n = None → all_loaded n) → (block n1 = None → all_loaded n1).
Proof.
  intros (Eb & Ec & _ & _ & Hk) Hl E. rewrite Eb in E.
  destruct (Hl E) as [H1 H2]. split; [by rewrite (Hk H1)|by rewrite Ec].
Qed.

Lemma keys_loaded_length log pend aks n n1 :
  keys_loaded log pend aks n n1 → Forall2 (KeyRep log pend) (keys n) aks →
  length (keys n1) = length (keys n).
Proof.
  intros (_ & _ & _ & H1 & _) H.
  by rewrite (Forall2_length _ _ _ H1), (Forall2_length _ _ _ H).
Qed.

Lemma node_parts_keys_loaded log pend h lo n n1 aks ls :
  node_parts log pend h lo n aks ls → keys_loaded log pend aks n n1 →
  node_parts log pend h lo n1 aks ls.
Proof.
  intros (Hk & Hlo & Hb & Hc & Hl) Hkl.
  pose proof (keys_loaded_length _ _ _ _ _ Hkl Hk) as Hlen.
  pose proof (keys_loaded_all_loaded _ _ _ _ _ Hkl Hb) as Hb1.
  destruct Hkl as (Eb & Ec & _ & Hk1 & _).
  unfold node_parts. rewrite Ec, Hlen. done.
Qed.

Lemma Rep_keys_loaded_0 log pend lo n n1 l :
  Rep log pend 0 lo n l → keys_loaded log pend l n n1 → Rep log pend 0 lo n1 l.
Proof.
  rewrite !Rep_0. intros (Hk & Hlo & Hb & Hc) Hkl.
  pose proof (keys_loaded_length _ _ _ _ _ Hkl Hk) as Hlen.
  pose proof (keys_loaded_all_loaded _ _ _ _ _ Hkl Hb) as Hb1.
  destruct Hkl as (Eb & Ec & _ & Hk1 & _). rewrite Ec, Hlen. done.
Qed.

Lemma all_loaded_keys n :
  (block n = None → all_loaded n) →
  block n = None → Forall (λ k, k_value k ≠ None) (keys n).
Proof. intros H E. by destruct (H E). Qed.


Lemma search_post_Miss_none kv aks c s e :
  search_post kv aks (Miss c s e) → Forall (λ a, a.2 ≠ kv) aks.
Proof.
  intros (_ & Hlo & Hhi).
  rewrite <- (take_drop (insertion_index c s e) aks). apply Forall_app. split.
  - eapply Forall_impl; [exact Hlo|]. intros a Ha E. simpl in Ha. rewrite E in Ha.
    by apply Buffer_lt_irrefl in Ha.
  - eapply Forall_impl; [exact Hhi|]. intros a Ha E. simpl in Ha. rewrite E in Ha.
    by apply Buffer_lt_irrefl in Ha.
Qed.

Lemma Forall_lt_ne kv (l : list akey) :
  Forall (λ a, Buffer_lt a.2 kv) l → Forall (λ a, a.2 ≠ kv) l.
Proof.
  intros H. eapply Forall_impl; [exact H|]. intros a Ha E. simpl in Ha.
  rewrite E in Ha. by apply Buffer_lt_irrefl in Ha.
Qed.

Lemma Forall_gt_ne kv (l : list akey) :
  Forall (λ a, Buffer_lt kv a.2) l → Forall (λ a, a.2 ≠ kv) l.
Proof.
  intros H. eapply Forall_impl; [exact H|]. intros a Ha E. simpl in Ha.
  rewrite E in Ha. by apply Buffer_lt_irrefl in Ha.
Qed.


(** * Writing a block: [deflate], [inflate] and [indexChanges] *)

Lemma child_pairs_flat_map (cs : list Child) :
  child_pairs (flat_map (λ c, [c_seq c; c_offset c]) cs)
  = Some (map (λ c, mkChild (c_seq c) (c_offset c) None) cs).
Proof. induction cs as [|c cs IH]; simpl; [done|]. by rewrite IH. Qed.

Lemma level_pointers_deflate (c : Child) (n : TreeNode) :
  c_value c = Some n →
  ∃ lvl, deflate_level (Some c) = Some lvl ∧ level_pointers lvl = Some (unloaded n).
Proof.
  intros Hv. unfold deflate_level. simpl. rewrite Hv. simpl.
  eexists. split; [done|]. unfold level_pointers. simpl.
  rewrite child_pairs_flat_map. simpl. unfold unloaded. by rewrite map_map.
Qed.

(** [inflate (deflate (index))] gives, for every cell of the index, the key
    and child references of its node. *)
Lemma inflate_deflate (index : list (option Child)) (nodes : list TreeNode) :
  Forall2 (λ x n, ∃ c, x = Some c ∧ c_value c = Some n) index nodes →
  ∃ buf, deflate index = Some buf ∧ inflate buf = Some (map unloaded nodes).
Proof.
  intros H.
  assert (∃ levels, mapM deflate_level index = Some levels
                    ∧ mapM level_pointers levels = Some (map unloaded nodes))
    as (levels & H1 & H2).
  { setoid_rewrite mapM_Some.
    induction H as [|x n index nodes (c & -> & Hv) _ (levels & IH1 & IH2)].
    - exists []. split; constructor.
    - destruct (level_pointers_deflate c n Hv) as (lvl & Hd & Hp).
      exists (lvl :: levels). split; simpl; by constructor. }
  exists (YoloIndex_encode levels). unfold deflate, inflate.
  rewrite H1. simpl. split; [done|]. by rewrite YoloIndex_decode_encode.
Qed.

(** C7.  Decoding the bytes of an encoded index gives back its levels: the
    same key sequence numbers and the same (seq, offset) numbers in the same
    order; and [inflate] of what [deflate] wrote for a list of cells gives,
    cell by cell, the key and child references of the node in the cell. *)
Theorem YoloIndex_roundtrip (levels : list Level)
    (cells : list (nat * nat * TreeNode)) :
  YoloIndex_decode (YoloIndex_encode levels) = Some levels
  ∧ ∃ buf,
      deflate (map (λ '(s, o, n), Some (mkChild s o (Some n))) cells) = Some buf
      ∧ YoloIndex_decode buf
        = Some (map (λ '(_, _, n),
                       mkLevel (map k_seq (keys n))
                         (flat_map (λ c, [c_seq c; c_offset c]) (children n)))
                  cells)
      ∧ inflate buf = Some (map (λ '(_, _, n), unloaded n) cells).
Proof.
  split; [apply YoloIndex_decode_encode|].
  set (lv := λ '((_, _, n) : nat * nat * TreeNode),
               mkLevel (map k_seq (keys n))
                 (flat_map (λ c, [c_seq c; c_offset c]) (children n))).
  assert (H1 : mapM deflate_level
                 (map (λ '(s, o, n), Some (mkChild s o (Some n))) cells)
               = Some (map lv cells)).
  { apply mapM_Some. induction cells as [|[[s o] n] cells IH]; simpl;
      by constructor. }
  assert (H2 : mapM level_pointers (map lv cells)
               = Some (map (λ '(_, _, n), unloaded n) cells)).
  { clear H1. apply mapM_Some.
    induction cells as [|[[s o] n] cells IH]; simpl; constructor; [|done].
    unfold level_pointers. simpl.
    rewrite child_pairs_flat_map. simpl. unfold unloaded. by rewrite map_map. }
  exists (YoloIndex_encode (map lv cells)). unfold deflate, inflate.
  rewrite H1. simpl. rewrite YoloIndex_decode_encode. simpl. by rewrite H2.
Qed.

(** ** [indexChanges] *)

Lemma index_le_refl idx : index_le idx idx.
Proof. by intros o c. Qed.

Lemma index_le_trans idx1 idx2 idx3 :
  index_le idx1 idx2 → index_le idx2 idx3 → index_le idx1 idx3.
Proof. intros H1 H2 o c H. by apply H2, H1. Qed.

Lemma index_le_app idx ext : index_le idx (idx ++ ext).
Proof. intros o c H. by apply lookup_app_l_Some. Qed.

Lemma index_le_fill idx ext1 ext2 x :
  index_le (idx ++ None :: ext1) (idx ++ x :: ext1 ++ ext2).
Proof.
  intros o c H. apply lookup_app_Some in H as [H|[Hlen H]].
  - by apply lookup_app_l_Some.
  - rewrite lookup_app_r by done.
    destruct (o - length idx) as [|k] eqn:E; [done|]. simpl in *.
    by apply lookup_app_l_Some.
Qed.

Lemma Emitted_0 log pend seq idx lo n l :
  Emitted log pend seq idx 0 lo n l ↔
  Forall2 (KeyRep log pend) (keys n) l ∧ lo ≤ length (keys n) ∧ children n = [].
Proof.
  simpl. split.
  - by intros (aks & ? & ? & ? & ->).
  - intros (? & ? & ?). by exists l.
Qed.

Lemma Emitted_S log pend seq idx h lo n l :
  Emitted log pend seq idx (S h) lo n l ↔
  ∃ aks ls,
    Forall2 (KeyRep log pend) (keys n) aks ∧ lo ≤ length (keys n)
    ∧ Forall2 (EmittedChild log pend seq idx h) (children n) ls
    ∧ length (children n) = length (keys n) + 1
    ∧ l = interleave ls aks.
Proof.
  simpl. split.
  - intros (aks & ? & ? & ls & ? & ? & ?). by exists aks, ls.
  - intros (aks & ls & ? & ? & ? & ? & ?). exists aks.
    split; [done|]. split; [done|]. by exists ls.
Qed.

#[global] Opaque Emitted.

Lemma Emitted_mono log pend seq idx idx' h :
  index_le idx idx' →
  ∀ lo n l, Emitted log pend seq idx h lo n l → Emitted log pend seq idx' h lo n l.
Proof.
  intros Hle. induction h as [|h IH]; intros lo n l.
  - by rewrite !Emitted_0.
  - rewrite !Emitted_S. intros (aks & ls & ? & ? & Hc & ? & ?).
    exists aks, ls. split_and!; try done.
    eapply Forall2_impl; [exact Hc|]. intros c l' [(? & ? & m & ? & ?)|?].
    + left. split_and!; try done; [by apply Hle|]. exists m. split; [done|by apply IH].
    + by right.
Qed.

Lemma EmittedChild_mono log pend seq idx idx' h c l :
  index_le idx idx' →
  EmittedChild log pend seq idx h c l → EmittedChild log pend seq idx' h c l.
Proof.
  intros Hle [(? & ? & m & ? & ?)|?]; [left|by right].
  split_and!; try done; [by apply Hle|]. exists m. split; [done|].
  by eapply Emitted_mono.
Qed.

Lemma node_depth_child b ks cs ch c m :
  c ∈ cs → c_value c = Some m → node_depth m < node_depth (mkNode b ks cs ch).
Proof.
  intros Hin Hv. simpl. apply Nat.lt_succ_r.
  induction cs as [|c' cs IH]; [by apply elem_of_nil in Hin|].
  simpl. apply elem_of_cons in Hin as [<-|Hin].
  - destruct c as [s o v]. simpl in Hv. subst v. lia.
  - specialize (IH Hin). lia.
Qed.

Lemma TreeNode_indexChanges_unfold n index seq :
  TreeNode_indexChanges n index seq
  = let '(index', cs) :=
      index_children (λ n index, TreeNode_indexChanges n index seq) seq
        (children n) (index ++ [None]) in
    (length index, index', mkNode (block n) (keys n) cs false).
Proof. by destruct n. Qed.

Section IndexChanges.
Context (log : list Buffer) (pend : option akey) (seq : nat).

Lemma index_children_spec (d : nat) (cs : list Child) :
  (∀ m index, node_depth m ≤ d → indexChanges_post log pend seq m index) →
  (∀ c m, c ∈ cs → c_value c = Some m → node_depth m ≤ d) →
  ∀ index,
    ∃ ext cs',
      index_children (λ n index, TreeNode_indexChanges n index seq) seq cs index
      = (index ++ ext, cs')
      ∧ Forall filled ext
      ∧ (∀ idx, index_le (index ++ ext) idx → Forall2 (RenumberedChild seq idx) cs cs')
      ∧ ∀ h ls,
          Forall2 (ChildRep (Rep log pend h 1) (Stored log h 1)) cs ls →
          Forall2 (EmittedChild log pend seq (index ++ ext) h) cs' ls.
Proof.
  intros IH. induction cs as [|c cs IHcs]; intros Hd index.
  { exists [], []. rewrite app_nil_r. split_and!; try done.
    intros h ls Hls. inversion Hls. constructor. }
  assert (Hd' : ∀ c' m, c' ∈ cs → c_value c' = Some m → node_depth m ≤ d).
  { intros c' m Hin. apply Hd. by apply elem_of_cons; right. }
  destruct c as [s o [m|]]; cbn [index_children].
  - destruct (changed m) eqn:Ech.
    + destruct (IH m index) as (ext1 & m' & E1 & Hf1 & Hr1 & He1).
      { apply (Hd (mkChild s o (Some m))); [by apply elem_of_cons; left|done]. }
      rewrite E1.
      assert (Eins : <[length index := Some (mkChild seq (length index) (Some m'))]>
                       (index ++ None :: ext1)
                     = index ++ Some (mkChild seq (length index) (Some m')) :: ext1).
      { rewrite insert_app_r_alt by lia. by rewrite Nat.sub_diag. }
      rewrite Eins.
      destruct (IHcs Hd' (index ++ Some (mkChild seq (length index) (Some m')) :: ext1))
        as (ext2 & cs' & E2 & Hf2 & Hr2 & He2).
      rewrite E2. rewrite <- app_assoc. simpl.
      eexists _, _. split; [reflexivity|].
      assert (Hle : index_le (index ++ None :: ext1)
                      (index ++ Some (mkChild seq (length index) (Some m')) :: ext1 ++ ext2))
        by apply index_le_fill.
      assert (Hslot : (index ++ Some (mkChild seq (length index) (Some m')) :: ext1 ++ ext2)
                        !! length index
                      = Some (Some (mkChild seq (length index) (Some m')))).
      { by rewrite list_lookup_middle. }
      split_and!.
      * constructor; [by eexists _, _|]. by apply Forall_app.
      * intros idx Hidx. constructor.
        -- constructor; [done|by apply Hidx|].
           apply Hr1. by eapply index_le_trans.
        -- apply Hr2. by rewrite <- app_assoc.
      * intros h ls Hls. inversion Hls as [|? l' ? ls' Hc Hcs']; subst.
        constructor.
        -- left. simpl. split_and!; try done. exists m'. split; [done|].
           unfold ChildRep in Hc. simpl in Hc. destruct Hc as (Hrep & _).
           eapply Emitted_mono; [exact Hle|]. by apply He1.
        -- specialize (He2 h ls' Hcs'). rewrite <- app_assoc in He2. exact He2.
    + destruct (IHcs Hd' index) as (ext2 & cs' & E2 & Hf2 & Hr2 & He2).
      rewrite E2. eexists _, _. split; [reflexivity|]. split_and!; try done.
      * intros idx Hidx. constructor; [by constructor|by apply Hr2].
      * intros h ls Hls. inversion Hls as [|? l' ? ls' Hc Hcs']; subst.
        constructor; [|by apply He2].
        right. unfold ChildRep in Hc. simpl in Hc. destruct Hc as (_ & _ & Hst). by apply Hst.
  - destruct (IHcs Hd' index) as (ext2 & cs' & E2 & Hf2 & Hr2 & He2).
    rewrite E2. eexists _, _. split; [reflexivity|]. split_and!; try done.
    * intros idx Hidx. constructor; [by constructor|by apply Hr2].
    * intros h ls Hls. inversion Hls as [|? l' ? ls' Hc Hcs']; subst.
      constructor; [|by apply He2]. by right.
Qed.

Lemma TreeNode_indexChanges_spec (d : nat) :
  ∀ n index, node_depth n ≤ d → indexChanges_post log pend seq n index.
Proof.
  induction d as [|d IH]; intros n index Hd.
  { destruct n. simpl in Hd. lia. }
  destruct (index_children_spec d (children n) IH) with (index := index ++ [None])
    as (ext & cs' & E & Hf & Hr & He).
  { intros c m Hin Hv. destruct n as [b ks cs ch].
    pose proof (node_depth_child b ks cs ch c m Hin Hv). lia. }
  exists ext, (mkNode (block n) (keys n) cs' false).
  rewrite TreeNode_indexChanges_unfold, E. rewrite <- app_assoc. simpl.
  split; [done|]. split; [done|]. split.
  { intros idx Hidx. destruct n as [b ks cs ch]. constructor. apply Hr.
    by rewrite <- app_assoc. }
  intros h lo l Hrep.
  assert (Hlen : length cs' = length (children n)).
  { specialize (Hr _ (index_le_refl _)). by rewrite (Forall2_length _ _ _ Hr). }
  destruct h as [|h].
  - apply Rep_0 in Hrep as (Hk & Hlo & _ & Hc). apply Emitted_0. simpl.
    split_and!; try done. rewrite Hc in Hlen. by destruct cs'.
  - apply Rep_S in Hrep as (aks & ls & Hk & Hlo & _ & Hc & Hl & ->).
    apply Emitted_S. exists aks, ls. simpl. split_and!; try done.
    + specialize (He h ls Hc). rewrite <- app_assoc in He. exact He.
    + by rewrite Hlen.
Qed.
End IndexChanges.

(** ** The block that [_append] writes *)

Lemma deflate_nodes index buf :
  deflate index = Some buf →
  ∃ nodes, Forall2 (λ x n, ∃ c, x = Some c ∧ c_value c = Some n) index nodes
           ∧ inflate buf = Some (map unloaded nodes).
Proof.
  intros Hd.
  assert (∃ nodes, Forall2 (λ x n, ∃ c, x = Some c ∧ c_value c = Some n) index nodes)
    as (nodes & Hn).
  { unfold deflate in Hd. destruct (mapM deflate_level index) as [levels|] eqn:E; [|done].
    apply mapM_Some in E. clear Hd. induction E as [|x lvl index levels Hx _ (nodes & IH)].
    - by exists [].
    - unfold deflate_level in Hx. destruct x as [c|]; [|done]. simpl in Hx.
      destruct (c_value c) as [n|] eqn:Ev; [|done].
      exists (n :: nodes). constructor; [by exists c|done]. }
  exists nodes. split; [done|].
  destruct (inflate_deflate index nodes Hn) as (buf' & Hd' & Hi). congruence.
Qed.

Lemma feed_get_last log m :
  feed_get (log ++ [Node_encode m]) (length log) = Some m.
Proof.
  unfold feed_get. rewrite list_lookup_middle by done. simpl.
  apply Node_decode_encode.
Qed.

Section Written.
Context (log : list Buffer) (pend : option akey) (idx : list (option Child))
        (key : Buffer) (value : option Buffer) (buf : Buffer).
Hypothesis Hpend : ∀ a, pend = Some a → a = (length log, key).
Hypothesis Hdeflate : deflate idx = Some buf.

Let log' := log ++ [Node_encode (mkNodeMsg buf key value)].

Lemma KeyRep_written k a :
  KeyRep log pend k a → KeyRep log' None (mkKey (k_seq k) None) a.
Proof using Hpend.
  intros [Hs Hv]. split; [done|]. simpl. subst log'.
  destruct (k_value k) as [v|].
  - destruct Hv as [_ [Hf|Hp]]; [by apply feed_key_app|].
    rewrite (Hpend a Hp). simpl. unfold feed_key. by rewrite feed_get_last.
  - by apply feed_key_app.
Qed.

(** A node that [indexChanges] emitted into the index is stored in the log
    once the block is appended. *)
Lemma Emitted_Stored h :
  ∀ lo o c m l,
    idx !! o = Some (Some c) → c_value c = Some m →
    Emitted log pend (length log) idx h lo m l →
    Stored log' h lo (length log) o l.
Proof using Hpend Hdeflate.
  destruct (deflate_nodes idx buf Hdeflate) as (nodes & Hnodes & Hinfl).
  assert (Hlevel : ∀ o c m, idx !! o = Some (Some c) → c_value c = Some m →
                            map unloaded nodes !! o = Some (unloaded m)).
  { intros o c m Ho Hv.
    destruct (Forall2_lookup_l _ _ _ _ _ Hnodes Ho) as (n & Hn & c' & [= <-] & Hv').
    rewrite list_lookup_fmap, Hn. simpl. congruence. }
  induction h as [|h IH]; intros lo o c m l Ho Hv Hem.
  - apply Emitted_0 in Hem as (Hk & Hlo & Hc). apply Stored_0.
    eexists _, _, _. split; [apply feed_get_last|]. simpl.
    split; [exact Hinfl|]. split.
    { rewrite (Hlevel o c m Ho Hv). unfold unloaded. by rewrite Hc. }
    split; [by rewrite length_map|].
    apply Forall2_fmap_l. eapply Forall2_impl; [exact Hk|].
    intros. by apply KeyRep_written.
  - apply Emitted_S in Hem as (aks & ls & Hk & Hlo & Hc & Hl & ->). apply Stored_S.
    eexists _, _, _, _, aks, ls. split; [apply feed_get_last|]. simpl.
    split; [exact Hinfl|]. split; [by apply (Hlevel o c m Ho Hv)|].
    split; [by rewrite length_map|]. split.
    { apply Forall2_fmap_l. eapply Forall2_impl; [exact Hk|].
      intros. by apply KeyRep_written. }
    split; [|by rewrite !length_map].
    apply Forall2_fmap_l. eapply Forall2_impl; [exact Hc|].
    intros c' l' [(Hs & Ho' & m' & Hv' & Hem')|Hst]; simpl.
    + rewrite Hs. by eapply IH.
    + by apply Stored_app.
Qed.
End Written.

(** [_append] of an auto-flushing batch appends one block, whose level 0 is
    the root. *)
Lemma Batch__append_spec pend root h lo l key value f b :
  Rep (log f) pend h lo root l →
  (∀ a, pend = Some a → a = (length (log f), key)) →
  writable f = true → autoFlush b = true →
  ∃ buf,
    Batch__append root (length (log f)) key value f b
    = Some (mkFeed (log f ++ [Node_encode (mkNodeMsg buf key value)]) true, b)
    ∧ Stored (log f ++ [Node_encode (mkNodeMsg buf key value)]) h lo
        (length (log f)) 0 l.
Proof.
  intros Hrep Hpend Hw Hauto.
  destruct (TreeNode_indexChanges_spec (log f) pend (length (log f))
              (node_depth root) root [] (le_n _))
    as (ext & root' & E & Hf & _ & Hem).
  specialize (Hem h lo l Hrep). simpl in E, Hem.
  unfold Batch__append. rewrite E, Hauto. simpl.
  set (idx := Some (mkChild (length (log f)) 0 (Some root')) :: ext).
  assert (Hd : ∃ buf, deflate idx = Some buf).
  { unfold deflate.
    assert (∃ levels, mapM deflate_level idx = Some levels) as (levels & ->).
    { setoid_rewrite mapM_Some. subst idx.
      assert (Forall filled (Some (mkChild (length (log f)) 0 (Some root')) :: ext)) as Hall.
      { constructor; [by eexists _, _|done]. }
      clear -Hall. induction Hall as [|x idx (c & m & -> & Hv) _ (levels & IH)].
      - by exists [].
      - eexists (_ :: levels). constructor; [|done].
        unfold deflate_level. simpl. rewrite Hv. done. }
    by eexists. }
  destruct Hd as (buf & Hd). exists buf. rewrite Hd. simpl.
  unfold Batch__appendBatch, feed_append. rewrite Hw. simpl. split; [done|].
  eapply (Emitted_Stored (log f) pend idx key value buf Hpend Hd h lo 0).
  - done.
  - done.
  - eapply Emitted_mono; [|exact Hem]. subst idx.
    intros [|o] c Ho; [done|exact Ho].
Qed.

(** C8.  [_append] serialises a root into the block [seq] through
    [indexChanges]: in the index that it deflates, a child cell that is not
    loaded or whose node is not marked changed keeps its (seq, offset) pair,
    and a child cell whose node is marked changed is rewritten to
    [(seq, off)], [off] being the offset at which the index holds it, at every
    level of the changed spine. *)
Theorem append_renumbers_changed_only (root : TreeNode) (seq : nat)
    (key : Buffer) (value : option Buffer) (f : Feed) (b : Batch) :
  ∃ ext root',
    TreeNode_indexChanges root [] seq = (0, None :: ext, root')
    ∧ Forall filled ext
    ∧ (∀ cell, RenumberedTree seq (Some cell :: ext) root root')
    ∧ Batch__append root seq key value f b
      = if negb (autoFlush b) then
          let root'' := if block root' is None then set_block (Some seq) root'
                        else root' in
          m ← blocks b;
          Some (f, mkBatch (tree b)
                     (Some (<[seq := BatchEntry seq key value
                                       (Some (mkChild seq 0 (Some root'')) :: ext)]> m))
                     (autoFlush b) (rootSeq b) (Some root'') (S (b_length b)))
        else
          buf ← deflate (Some (mkChild seq 0 (Some root')) :: ext);
          f ← Batch__appendBatch [Node_encode (mkNodeMsg buf key value)] f;
          Some (f, b).
Proof.
  destruct (TreeNode_indexChanges_spec [] None seq (node_depth root) root []
              (le_n _)) as (ext & root' & E & Hf & Hr & _).
  simpl in E. exists ext, root'. split; [done|]. split; [done|]. split.
  - intros cell. apply Hr. intros [|o] c Ho; [done|exact Ho].
  - unfold Batch__append. rewrite E. done.
Qed.

(** * The tree handle: versions and checkouts *)

Lemma HyperBee_version_live (h : HyperBee) (f : Feed) :
  _checkout h = 0 → HyperBee_version h f = Nat.max 1 (length (log f)).
Proof. unfold HyperBee_version. by intros ->. Qed.

Lemma HyperBee_version_pinned (h : HyperBee) (f : Feed) :
  _checkout h ≠ 0 → HyperBee_version h f = Nat.max 1 (_checkout h).
Proof.
  unfold HyperBee_version. intros Hc.
  by destruct (Nat.eqb_spec (_checkout h) 0).
Qed.

(** C6.  The version of a handle is [max 1 c] when the handle is checked out
    at [c] (that is, [_checkout = c] is not 0) and [max 1 (log length)]
    otherwise; and the handle [checkout (v)] for [v >= 1] has version [v] on
    the log as it is and on the log after any append. *)
Theorem version_max_and_checkout_pins (h : HyperBee) (f f' : Feed)
    (raws : list Buffer) (v : nat) :
  1 ≤ v →
  feed_append raws f = Some f' →
  HyperBee_version h f
  = Nat.max 1 (if _checkout h =? 0 then length (log f) else _checkout h)
  ∧ (_checkout h = 0 → HyperBee_version h f = Nat.max 1 (length (log f)))
  ∧ (_checkout h ≠ 0 → HyperBee_version h f = Nat.max 1 (_checkout h))
  ∧ HyperBee_version (HyperBee_checkout (Some v) h) f = v
  ∧ HyperBee_version (HyperBee_checkout (Some v) h) f' = v.
Proof.
  intros Hv _. split; [done|].
  split; [apply HyperBee_version_live|].
  split; [apply HyperBee_version_pinned|].
  split; rewrite HyperBee_version_pinned; simpl; lia.
Qed.

Lemma version_max_and_checkout_pins_witness :
  HyperBee_version (new_HyperBee None) (mkFeed [[]; []] true) = 2
  ∧ HyperBee_version (HyperBee_checkout (Some 2) (new_HyperBee None))
      (mkFeed [[]; []; []; []] true) = 2.
Proof.
  pose proof (version_max_and_checkout_pins (new_HyperBee None)
                (mkFeed [[]; []] true) (mkFeed [[]; []; []; []] true)
                [[]; []] 2 ltac:(lia) eq_refl) as (H1 & _ & _ & _ & H2).
  split; [exact H1 | exact H2].
Defined.

(** C10.  [checkout (0)], and [checkout] of a missing version, give a handle
    that is not pinned: its version is [max 1 (log length)] on the log as it
    is and as it grows, where [checkout (v)] for [v >= 1] stays at [v]. *)
Theorem checkout_falsy_tracks_log (h : HyperBee) (f : Feed)
    (raws : list Buffer) (v : nat) :
  let f' := mkFeed (log f ++ raws) (writable f) in
  _checkout (HyperBee_checkout (Some 0) h) = 0
  ∧ _checkout (HyperBee_checkout None h) = 0
  ∧ HyperBee_version (HyperBee_checkout (Some 0) h) f = Nat.max 1 (length (log f))
  ∧ HyperBee_version (HyperBee_checkout None h) f = Nat.max 1 (length (log f))
  ∧ HyperBee_version (HyperBee_checkout (Some 0) h) f'
    = Nat.max 1 (length (log f) + length raws)
  ∧ HyperBee_version (HyperBee_checkout None h) f'
    = Nat.max 1 (length (log f) + length raws)
  ∧ HyperBee_version (HyperBee_checkout (Some (S v)) h) f' = S v.
Proof.
  cbv zeta. unfold HyperBee_version, HyperBee_checkout, new_HyperBee.
  cbn [_checkout default log Nat.eqb]. rewrite length_app.
  repeat split; lia.
Qed.

(** * Flushing a batch *)

(** C9.  [flush ()] on a batch with no staged mutation succeeds, appends
    nothing to the log and leaves the batch as it is (root, block cache,
    length and every other field). *)
Theorem flush_empty_noop (f : Feed) (b : Batch) :
  b_length b = 0 → Batch_flush f b = Some (f, b).
Proof. unfold Batch_flush. by intros ->. Qed.

Lemma flush_empty_noop_witness :
  Batch_flush (mkFeed [Header_encode protocol_name] true)
    (HyperBee_batch (new_HyperBee None))
  = Some (mkFeed [Header_encode protocol_name] true,
          HyperBee_batch (new_HyperBee None)).
Proof. apply flush_empty_noop. reflexivity. Defined.

(** * The descent stack *)

Lemma FrameRep_plug log pend h lo parent i lb la child li :
  FrameRep log pend h lo parent i lb la →
  Rep log pend h 1 child li → changed child = true → block child ≠ None →
  Rep log pend (S h) lo (set_child_value i child parent) (lb ++ li ++ la)
  ∧ changed (set_child_value i child parent) = changed parent
  ∧ block (set_child_value i child parent) = block parent.
Proof.
  intros (aks & ls & Hparts & Hi & -> & ->) Hrep Hch Hbk.
  destruct (node_parts_lengths _ _ _ _ _ _ _ Hparts) as (Hla & Hll & Hlen).
  destruct (lookup_lt_is_Some_2 (children parent) i) as [c Hc]; [lia|].
  split_and!.
  - apply Rep_S_parts. exists aks, (<[i := li]> ls). split.
    + eapply node_parts_set_child; [done..|]. intros E. congruence.
    + by rewrite interleave_insert.
  - by destruct (set_child_value_parts i child parent c Hc) as (_ & _ & -> & _).
  - by destruct (set_child_value_parts i child parent c Hc) as (-> & _).
Qed.

Lemma unwind_spec log pend lor hr stack :
  ∀ h node ln lb la,
    StackRep log pend h stack lor hr lb la →
    stack_changed stack → stack_owned stack →
    Rep log pend h (top_lo stack lor) node ln → changed node = true →
    block node ≠ None →
    Rep log pend hr lor (unwind node stack) (lb ++ ln ++ la).
Proof.
  induction stack as [|[parent i] rest IH];
    intros h node ln lb la Hst Hch Hown Hrep Hc Hbk.
  - destruct Hst as (-> & -> & ->). simpl. by rewrite app_nil_r.
  - destruct Hst as (lb1 & la1 & lb2 & la2 & Hf & Hst & -> & ->).
    apply Forall_cons in Hch as [Hp Hch]. simpl in Hp.
    apply Forall_cons in Hown as [Hbp Hown]. simpl in Hbp.
    destruct (FrameRep_plug _ _ _ _ _ _ _ _ _ _ Hf Hrep Hc Hbk) as (Hrep' & Hc' & Hb').
    simpl. rewrite Hp in Hc'. rewrite <- Hb' in Hbp.
    pose proof (IH _ _ _ _ _ Hst Hch Hown Hrep' Hc' Hbp) as H.
    by rewrite <- !app_assoc in *.
Qed.

Lemma unwind_changed node stack :
  stack_changed stack → changed node = true → changed (unwind node stack) = true.
Proof.
  revert node. induction stack as [|[p j] st IH]; intros node Hch Hc; [done|].
  apply Forall_cons in Hch as [Hp Hch]. simpl in Hp. simpl.
  apply IH; [done|].
  unfold set_child_value. destruct (children p !! j); [by destruct p|done].
Qed.

Lemma unwind_block node stack :
  stack_owned stack → block node ≠ None → block (unwind node stack) ≠ None.
Proof.
  revert node. induction stack as [|[p j] st IH]; intros node Hch Hc; [done|].
  apply Forall_cons in Hch as [Hp Hch]. simpl in Hp. simpl.
  apply IH; [done|].
  unfold set_child_value. destruct (children p !! j); [by destruct p|done].
Qed.

Lemma PutPost_sorted l a l' : sorted l → PutPost l a l' → sorted l'.
Proof.
  intros Hs (l1 & l2 & -> & [(-> & Hlo & Hhi)|(old & -> & E)]).
  - by apply sorted_insert_middle.
  - by eapply sorted_replace_middle.
Qed.

Lemma PutPost_frame l a l' lb la :
  PutPost l a l' →
  Forall (λ b, Buffer_lt b.2 a.2) lb → Forall (λ b, Buffer_lt a.2 b.2) la →
  PutPost (lb ++ l ++ la) a (lb ++ l' ++ la).
Proof.
  intros (l1 & l2 & -> & H) Hlb Hla. exists (lb ++ l1), (l2 ++ la).
  split; [by rewrite <- !app_assoc|].
  destruct H as [(-> & Hlo & Hhi)|(old & -> & E)].
  - left. split; [by rewrite <- !app_assoc|]. split; by apply Forall_app.
  - right. exists old. split; [by rewrite <- !app_assoc|done].
Qed.

(** * [insertKey] on a node of a tree *)

Lemma KeyRep_target log seq key :
  KeyRep log (Some (seq, key)) (mkKey seq (Some key)) (seq, key).
Proof. split; [done|]. simpl. split; [done|by right]. Qed.

Lemma splice_in_Forall2 {A B} (R : A → B → Prop) i x y xs ys :
  Forall2 R xs ys → R x y → Forall2 R (splice_in i x xs) (splice_in i y ys).
Proof.
  intros H Hxy. unfold splice_in. apply Forall2_app.
  - by apply Forall2_take.
  - constructor; [done|]. by apply Forall2_drop.
Qed.

Lemma splice_in_Forall {A} (P : A → Prop) i x xs :
  Forall P xs → P x → Forall P (splice_in i x xs).
Proof.
  intros H Hx. unfold splice_in. apply Forall_app. split.
  - by apply Forall_take.
  - constructor; [done|]. by apply Forall_drop.
Qed.

(** What [insertKey] of the key [a] does to the keys [aks] of a node. *)
Lemma TreeNode_insertKey_spec log pend aks key a child n :
  Forall2 (KeyRep log pend) (keys n) aks →
  (block n = None → Forall (λ k, k_value k ≠ None) (keys n)) →
  sorted aks →
  KeyRep log pend key a → k_value key = Some a.2 →
  ∃ r n',
    Returns log (TreeNode_insertKey log key child n) (r, n')
    ∧ block n' = block n ∧ changed n' = true
    ∧ (block n = None → Forall (λ k, k_value k ≠ None) (keys n'))
    ∧ ((∃ mid old, aks !! mid = Some old ∧ old.2 = a.2
                   ∧ Forall2 (KeyRep log pend) (keys n') (<[mid := a]> aks)
                   ∧ children n' = children n ∧ r = true)
       ∨ (∃ i, i ≤ length aks
               ∧ Forall (λ b, Buffer_lt b.2 a.2) (take i aks)
               ∧ Forall (λ b, Buffer_lt a.2 b.2) (drop i aks)
               ∧ Forall2 (KeyRep log pend) (keys n') (splice_in i a aks)
               ∧ children n'
                 = match child with
                   | Some ch => splice_in (i + 1) (mkChild 0 0 (Some ch)) (children n)
                   | None => children n
                   end
               ∧ r = (S (length aks) <? MAX_CHILDREN))).
Proof.
  intros Hks Hb Hs Hka Hkv.
  destruct (search_spec log pend a.2 aks n Hs Hks Hb) as (r & n1 & Hr & Hl & Hp).
  pose proof (keys_loaded_length _ _ _ _ _ Hl Hks) as Hlen.
  destruct Hl as (Eb & Ec & _ & Hk1 & Hld).
  assert (Hb1 : block n = None → Forall (λ k, k_value k ≠ None) (keys n1)).
  { intros E. rewrite (Hld (Hb E)). by apply Hb. }
  unfold TreeNode_insertKey. rewrite Hkv.
  destruct r as [mid|c s e].
  - destruct Hp as (old & Hold & Eold).
    eexists _, _. split; [eapply Returns_bind; [exact Hr|]; cbn; apply Returns_ret|].
    cbn [block changed keys children]. split_and!; try done.
    + intros E. apply Forall_insert; [by apply Hb1|]. by rewrite Hkv.
    + left. exists mid, old. split_and!; try done. by apply Forall2_insert.
  - destruct Hp as (Hi & Hlo & Hhi).
    eexists _, _. split; [eapply Returns_bind; [exact Hr|]; cbn; apply Returns_ret|].
    cbn [block changed keys children]. split_and!; try done.
    + intros E. apply splice_in_Forall; [by apply Hb1|]. by rewrite Hkv.
    + right. exists (insertion_index c s e). split_and!; try done.
      * by apply splice_in_Forall2.
      * by rewrite Ec.
      * rewrite splice_in_length, Hlen. by rewrite (Forall2_length _ _ _ Hks).
Qed.

(** * [split] on a node of a tree *)

Lemma KeyRep_loaded log pend k a k' :
  KeyRep log pend k a → k_seq k' = a.1 → k_value k' = Some a.2 →
  KeyRep log pend k' a.
Proof.
  intros [Hs Hv] Hs' Hv'. split; [done|]. rewrite Hv'. split; [done|].
  destruct (k_value k); [by destruct Hv|by left].
Qed.

Lemma all_loaded_take_drop b b' ks cs ch ch' i j :
  all_loaded (mkNode b ks cs ch) →
  all_loaded (mkNode b' (take i ks) (take j cs) ch')
  ∧ all_loaded (mkNode b' (drop i ks) (drop j cs) ch').
Proof.
  intros [Hk Hc]. simpl in *. split; split; simpl;
    auto using Forall_take, Forall_drop.
Qed.

Lemma half_bounds (nk : nat) : 3 ≤ nk → 1 ≤ nk / 2 ∧ nk / 2 + 2 ≤ nk.
Proof.
  intros H. pose proof (Nat.div_mod_eq nk 2).
  pose proof (Nat.mod_upper_bound nk 2). lia.
Qed.

Lemma split_Rep log pend h node ln :
  Rep log pend h 1 node ln → 3 ≤ length (keys node) →
  ∃ lft median rgt l_l am l_r,
    Returns log (TreeNode_split log node) (lft, median, rgt)
    ∧ Rep log pend h 1 lft l_l ∧ Rep log pend h 1 rgt l_r
    ∧ KeyRep log pend median am ∧ k_value median = Some am.2
    ∧ ln = l_l ++ am :: l_r
    ∧ changed lft = true ∧ changed rgt = true
    ∧ block lft = block node ∧ block rgt = block node.
Proof.
  intros Hrep Hnk.
  destruct (half_bounds _ Hnk) as [Hlen1 Hlen2].
  set (nk := length (keys node)) in *. set (len := nk / 2) in *.
  destruct h as [|h].
  - apply Rep_0 in Hrep as (Hk & Hlo & Hb & Hc).
    destruct (TreeNode_split_spec log pend ln node Hk (all_loaded_keys node Hb))
      as (median & am & Ha & Hms & Hmv & Hret); [lia|by left|].
    fold nk len in Ha, Hret.
    destruct (Forall2_lookup_r _ _ _ _ _ Hk Ha) as (k & Hkk & Hkr).
    eexists _, median, _, (take (nk - len - 1) ln), am, (drop (nk - len) ln).
    split; [exact Hret|]. rewrite Hc. cbn [length]. rewrite take_nil, drop_nil.
    split_and!; try done.
    + apply Rep_0. simpl. split_and!; try done.
      * by apply Forall2_take.
      * rewrite length_take. fold nk. lia.
      * intros E. destruct node as [b ks cs ch]. simpl in *. subst cs.
        destruct (all_loaded_take_drop b b ks [] ch true (nk - len - 1) 0 (Hb E)) as [H _].
        exact H.
    + apply Rep_0. simpl. split_and!; try done.
      * by apply Forall2_drop.
      * rewrite length_drop. fold nk. lia.
      * intros E. destruct node as [b ks cs ch]. simpl in *. subst cs.
        destruct (all_loaded_take_drop b b ks [] ch true (nk - len) 0 (Hb E)) as [_ H].
        exact H.
    + by eapply KeyRep_loaded.
    + rewrite <- (take_drop_middle ln (nk - len - 1) am Ha) at 1.
      by replace (S (nk - len - 1)) with (nk - len) by lia.
  - apply Rep_S_parts in Hrep as (aks & ls & Hparts & ->).
    destruct (node_parts_lengths _ _ _ _ _ _ _ Hparts) as (Hla & Hll & Hlenls).
    destruct Hparts as (Hk & Hlo & Hb & Hc & Hl).
    destruct (TreeNode_split_spec log pend aks node Hk (all_loaded_keys node Hb))
      as (median & am & Ha & Hms & Hmv & Hret); [lia|right; fold nk len; lia|].
    fold nk len in Ha, Hret.
    destruct (Forall2_lookup_r _ _ _ _ _ Hk Ha) as (k & Hkk & Hkr).
    assert (Ecs : length (children node) - (len + 1) = nk - len) by (fold nk in Hl; lia).
    rewrite Ecs in Hret.
    eexists _, median, _, (interleave (take (nk - len) ls) (take (nk - len - 1) aks)),
      am, (interleave (drop (nk - len) ls) (drop (nk - len) aks)).
    split; [exact Hret|]. split_and!; try done.
    + apply Rep_S_parts. eexists _, _. split; [|done]. unfold node_parts. simpl.
      split_and!.
      * by apply Forall2_take.
      * rewrite length_take. fold nk. lia.
      * intros E. destruct node as [b ks cs ch]. simpl in *.
        destruct (all_loaded_take_drop b b ks cs ch true (nk - len - 1) (nk - len) (Hb E))
          as [H _]. exact H.
      * by apply Forall2_take.
      * rewrite !length_take. fold nk. lia.
    + apply Rep_S_parts. eexists _, _. split; [|done]. unfold node_parts. simpl.
      split_and!.
      * by apply Forall2_drop.
      * rewrite length_drop. fold nk. lia.
      * intros E. destruct node as [b ks cs ch]. simpl in *.
        destruct (all_loaded_take_drop b b ks cs ch true (nk - len) (nk - len) (Hb E))
          as [_ H]. exact H.
      * by apply Forall2_drop.
      * rewrite !length_drop. fold nk. lia.
    + by eapply KeyRep_loaded.
    + apply interleave_cut; [done|lia|done].
Qed.

(** * The split loop of [put] *)

Lemma split_loop_spec log pend lor hr stack :
  ∀ h node ln lb la needsSplit,
    StackRep log pend h stack lor hr lb la →
    stack_changed stack → stack_owned stack →
    Rep log pend h 1 node ln → changed node = true → block node ≠ None →
    sorted (lb ++ ln ++ la) →
    (needsSplit = true → 3 ≤ length (keys node)) →
    lor ≤ 1 →
    ∃ root,
      Returns log (split_loop log node stack needsSplit) root
      ∧ changed root = true
      ∧ (Rep log pend hr lor root (lb ++ ln ++ la)
         ∨ Rep log pend (S hr) 1 root (lb ++ ln ++ la)).
Proof.
  induction stack as [|[parent i] rest IH];
    intros h node ln lb la needsSplit Hst Hch Hown Hrep Hc Hbk Hs Hns Hlor.
  - destruct Hst as (-> & -> & ->). rewrite app_nil_r. simpl app.
    destruct needsSplit.
    + destruct (split_Rep _ _ _ _ _ Hrep (Hns eq_refl))
        as (lft & median & rgt & l_l & am & l_r & Hret & Hl & Hr & Hm & Hmv & -> & Hcl & Hcr & Hbl & Hbr).
      eexists. split; [|split].
      * cbn [split_loop]. eapply Returns_bind; [exact Hret|]. cbn. apply Returns_ret.
      * done.
      * right. apply Rep_S_parts. exists [am], [l_l; l_r]. split; [|done].
        unfold node_parts. cbn [keys children block length]. split_and!.
        -- by constructor.
        -- lia.
        -- intros _. split; cbn [keys children].
           ++ constructor; [by rewrite Hmv|done].
           ++ by repeat constructor.
        -- constructor; [|constructor; [|done]].
           ++ unfold ChildRep. cbn. split_and!; [done|congruence|congruence].
           ++ unfold ChildRep. cbn. split_and!; [done|congruence|congruence].
        -- done.
    + exists node. split; [apply Returns_ret|]. split; [done|]. left.
      eapply Rep_lo_weaken; [|exact Hrep]. done.
  - destruct Hst as (lb1 & la1 & lb2 & la2 & Hf & Hst & -> & ->).
    pose proof Hch as Hch0. pose proof Hown as Hown0.
    apply Forall_cons in Hch as [Hp Hch]. simpl in Hp.
    apply Forall_cons in Hown as [Hbp Hown]. simpl in Hbp.
    destruct needsSplit.
    + destruct (split_Rep _ _ _ _ _ Hrep (Hns eq_refl))
        as (lft & median & rgt & l_l & am & l_r & Hret & Hl & Hr & Hm & Hmv & -> & Hcl & Hcr & Hbl & Hbr).
      destruct Hf as (aks & ls & Hparts & Hi & -> & ->).
      destruct (node_parts_lengths _ _ _ _ _ _ _ Hparts) as (Hla & Hll & Hlen).
      destruct (lookup_lt_is_Some_2 (children parent) i) as [c Hci]; [lia|].
      assert (Hparts1 : node_parts log pend h (top_lo rest lor)
                          (set_child_value i lft parent) aks (<[i := l_l]> ls)).
      { eapply node_parts_set_child; [done..|congruence|congruence]. }
      destruct (set_child_value_parts i lft parent c Hci) as (Eb1 & Ek1 & Ech1 & Ec1).
      assert (Hsl : sorted (before i ls aks ++ (l_l ++ am :: l_r) ++ after i ls aks)).
      { by apply sorted_frame in Hs as [Hs _]. }
      assert (Hin : am ∈ l_l ++ am :: l_r).
      { apply elem_of_app. right. apply elem_of_cons. by left. }
      assert (Hsk : sorted aks).
      { eapply (sorted_interleave_keys (<[i := l_l ++ am :: l_r]> ls)).
        - by rewrite length_insert.
        - by rewrite interleave_insert. }
      destruct Hparts1 as (Hk1 & Hlo1 & Hb1 & Hc1 & Hl1).
      destruct (TreeNode_insertKey_spec log pend aks median am (Some rgt)
                  (set_child_value i lft parent) Hk1
                  (λ E, all_loaded_keys _ Hb1 E) Hsk Hm Hmv)
        as (r & parent' & Hins & Eb' & Ech' & Hld' & Hcases).
      destruct Hcases as [(mid & old & Hold & Eold & _)|(j & Hj & Hlo & Hhi & Hk' & Ec' & ->)].
      { exfalso.
        destruct (sorted_middle_fresh _ _ _ _ Hsl Hin) as [Hfb Hfa].
        destruct (decide (mid < i)) as [Hlt|Hge].
        - assert (old ∈ before i ls aks) as Hb
            by (eapply elem_of_before; [done|lia|done..]).
          rewrite Forall_forall in Hfb. by apply (Hfb _ Hb).
        - assert (old ∈ after i ls aks) as Hb
            by (eapply elem_of_after; [done| |done]; lia).
          rewrite Forall_forall in Hfa. by apply (Hfa _ Hb). }
      assert (j = i) as ->.
      { eapply insertion_point_unique; [exact Hlen|done|done|exact Hin|exact Hsl|done..]. }
      assert (Hrep' : Rep log pend (S h) 1 parent'
                        (before i ls aks ++ (l_l ++ am :: l_r) ++ after i ls aks)).
      { apply Rep_S_parts.
        exists (splice_in i am aks), (splice_in (i + 1) l_r (<[i := l_l]> ls)).
        split; [|by rewrite interleave_splice].
        pose proof (Forall2_length _ _ _ Hk') as Hlk'.
        rewrite splice_in_length in Hlk'.
        unfold node_parts. rewrite Ec'. split_and!.
        - done.
        - lia.
        - intros E. split; [apply Hld'; congruence|].
          rewrite Ec'. apply splice_in_Forall; [|done].
          apply Hb1. congruence.
        - apply splice_in_Forall2; [done|]. unfold ChildRep. cbn.
          split_and!; [done|congruence|congruence].
        - rewrite splice_in_length. rewrite Ek1 in Hl1. lia. }
      assert (Hbp' : block parent' ≠ None) by congruence.
      edestruct (IH (S h) parent' _ lb2 la2 (negb (S (length aks) <? MAX_CHILDREN))
                   Hst Hch Hown Hrep' Ech' Hbp') as (root & Hroot & Hcr' & Hres).
      * by apply sorted_frame in Hs as [_ Hs].
      * intros E. apply negb_true_iff, Nat.ltb_ge in E.
        pose proof (Forall2_length _ _ _ Hk') as Hlk'.
        rewrite splice_in_length in Hlk'. unfold MAX_CHILDREN, MIN_KEYS, T in E.
        simpl in E. lia.
      * done.
      * exists root. split; [|split; [done|]].
        -- cbn [split_loop]. eapply Returns_bind; [exact Hret|]. cbn.
           eapply Returns_bind; [exact Hins|]. cbn. exact Hroot.
        -- replace ((lb2 ++ before i ls aks) ++ (l_l ++ am :: l_r) ++ after i ls aks ++ la2)
             with (lb2 ++ (before i ls aks ++ (l_l ++ am :: l_r) ++ after i ls aks) ++ la2);
             [done|]. by rewrite <- !app_assoc.
    + exists (unwind node ((parent, i) :: rest)). split; [apply Returns_ret|].
      assert (Hst' : StackRep log pend h ((parent, i) :: rest) lor hr
                       (lb2 ++ lb1) (la1 ++ la2)).
      { by exists lb1, la1, lb2, la2. }
      split.
      * by apply unwind_changed.
      * left. eapply unwind_spec; [exact Hst'|done|done| |done|done].
        simpl. done.
Qed.

(** * The descent of [put] *)

Lemma node_parts_set_changed log pend h lo n aks ls ch :
  node_parts log pend h lo n aks ls →
  node_parts log pend h lo (set_changed ch n) aks ls.
Proof. by destruct n. Qed.

Lemma put_descend_spec log seq key lor hr :
  ∀ h fuel node stack ln lb la,
    h ≤ fuel →
    Rep log (Some (seq, key)) h (top_lo stack lor) node ln →
    StackRep log (Some (seq, key)) h stack lor hr lb la →
    stack_changed stack → stack_owned stack → block node ≠ None →
    sorted (lb ++ ln ++ la) →
    Forall (λ b, Buffer_lt b.2 key) lb → Forall (λ b, Buffer_lt key b.2) la →
    ∃ replaced node' stack',
      Returns log (put_descend log fuel key (mkKey seq (Some key)) node stack)
        (replaced, node', stack')
      ∧ if (replaced : bool) then
          ∃ l', Rep log (Some (seq, key)) hr lor (unwind node' stack') l'
                ∧ PutPost (lb ++ ln ++ la) (seq, key) l'
        else
          ∃ ln' lb' la',
            Rep log (Some (seq, key)) 0 (top_lo stack' lor) node' ln'
            ∧ StackRep log (Some (seq, key)) 0 stack' lor hr lb' la'
            ∧ stack_changed stack' ∧ stack_owned stack' ∧ block node' ≠ None
            ∧ lb' ++ ln' ++ la' = lb ++ ln ++ la
            ∧ Forall (λ b, Buffer_lt b.2 key) lb'
            ∧ Forall (λ b, Buffer_lt key b.2) la'.
Proof.
  induction h as [|h IH];
    intros fuel node stack ln lb la Hf Hrep Hst Hch Hown Hbk Hs Hlb Hla.
  - exists false, node, stack. split.
    + pose proof (Rep_children_nil _ _ _ _ _ _ Hrep) as E. simpl in E.
      destruct fuel; cbn [put_descend]; rewrite E; apply Returns_ret.
    + by exists ln, lb, la.
  - destruct fuel as [|fuel]; [lia|].
    pose proof (Rep_children_nil _ _ _ _ _ _ Hrep) as E. simpl in E.
    cbn [put_descend]. rewrite E.
    apply Rep_S_parts in Hrep as (aks & ls & Hparts & ->).
    destruct (node_parts_lengths _ _ _ _ _ _ _ Hparts) as (Hla' & Hll & Hlen).
    pose proof (sorted_middle _ _ _ Hs) as Hsn.
    pose proof (sorted_interleave_keys ls aks Hlen Hsn) as Hsk.
    apply (node_parts_set_changed _ _ _ _ _ _ _ true) in Hparts.
    set (node0 := set_changed true node) in *.
    pose proof Hparts as (Hk & Hlo & Hb & Hc & Hl).
    destruct (search_spec log (Some (seq, key)) key aks node0 Hsk Hk
                (all_loaded_keys node0 Hb))
      as (r & n1 & Hr & Hkl & Hp).
    pose proof (node_parts_keys_loaded _ _ _ _ _ _ _ _ Hparts Hkl) as Hparts1.
    assert (Hch1 : changed n1 = true).
    { destruct Hkl as (_ & _ & -> & _). by destruct node. }
    assert (Hbk1 : block n1 ≠ None).
    { destruct Hkl as (-> & _). by destruct node. }
    destruct r as [mid|c s e].
    + destruct Hp as (old & Hold & Eold).
      exists true, (TreeNode_setKey mid (mkKey seq (Some key)) n1), stack. split.
      { eapply Returns_bind; [exact Hr|]. cbn. apply Returns_ret. }
      destruct (interleave_replace_key ls aks mid old (seq, key) Hlen Hold)
        as (l1 & l2 & El & El').
      exists (lb ++ interleave ls (<[mid := (seq, key)]> aks) ++ la). split.
      * eapply unwind_spec; [done..| |done|done].
        apply Rep_S_parts. eexists _, _. split; [|done].
        destruct Hparts1 as (Hk1 & Hlo1 & Hb1 & Hc1 & Hl1).
        unfold node_parts, TreeNode_setKey. cbn [keys children block].
        rewrite length_insert. split_and!; try done.
        apply Forall2_insert; [done|]. apply KeyRep_target.
      * apply PutPost_frame; [|done..]. rewrite El, El'.
        exists l1, l2. split; [done|]. right. by exists old.
    + pose proof Hp as (Hi & Hlo' & Hhi').
      set (i := insertion_index c s e) in *.
      destruct (lookup_lt_is_Some_2 ls i) as [li Hli]; [lia|].
      pose proof Hparts1 as (Hk1 & Hlo1 & Hb1 & Hc1 & Hl1).
      destruct (Forall2_lookup_r _ _ _ _ _ Hc1 Hli) as (ch & Hci & Hchr).
      destruct (TreeNode_getChildNode_spec log (Some (seq, key)) h n1 i ch li Hci Hchr)
        as (child & Hret & Hcr & Hstored & _ & _ & Hbkc & _).
      { intros E1. destruct (Hb1 E1) as [_ Hcl]. rewrite Forall_lookup in Hcl.
        by eapply Hcl. }
      set (n2 := set_child_value i child n1) in *.
      assert (Hparts2 : node_parts log (Some (seq, key)) h (top_lo stack lor) n2 aks ls).
      { rewrite <- (list_insert_id ls i li Hli).
        eapply node_parts_set_child; done. }
      assert (Hch2 : changed n2 = true).
      { subst n2. by destruct (set_child_value_parts i child n1 ch Hci) as (_ & _ & -> & _). }
      assert (Hbk2 : block n2 ≠ None).
      { subst n2. by destruct (set_child_value_parts i child n1 ch Hci) as (-> & _). }
      assert (El : lb ++ interleave ls aks ++ la
                   = (lb ++ before i ls aks) ++ li ++ after i ls aks ++ la).
      { rewrite (interleave_split i ls aks li Hlen Hli). by rewrite <- !app_assoc. }
      destruct (IH fuel child ((n2, i) :: stack) li (lb ++ before i ls aks)
                  (after i ls aks ++ la)) as (replaced & node' & stack' & Hret' & Hpost).
      * lia.
      * done.
      * exists (before i ls aks), (after i ls aks), lb, la. split_and!; try done.
        exists aks, ls. split_and!; try done. lia.
      * by constructor.
      * by constructor.
      * done.
      * by rewrite <- El.
      * apply Forall_app. split; [done|]. by apply before_lt.
      * apply Forall_app. split; [|done]. by apply after_gt.
      * exists replaced, node', stack'. split.
        -- eapply Returns_bind; [exact Hr|]. cbn.
           eapply Returns_bind; [exact Hret|]. cbn. exact Hret'.
        -- rewrite El. exact Hpost.
Qed.

(** * The root of a batch, and [put] on a log *)

Lemma HyperBee_ready_inv f l :
  TreeInv f l →
  TreeInv (HyperBee_ready f) l
  ∧ 1 ≤ length (log (HyperBee_ready f))
  ∧ writable (HyperBee_ready f) = true
  ∧ (HyperBee_ready f = f
     ∨ log f = [] ∧ log (HyperBee_ready f) = [Header_encode protocol_name]).
Proof.
  intros (Hw & Hs & Hl). unfold HyperBee_ready. rewrite Hw. simpl.
  rewrite orb_false_r. destruct (log f) as [|x lg] eqn:E; simpl.
  - split; [by split_and!|]. split; [done|]. split; [done|]. by right.
  - split; [split_and!; try done; by rewrite E|].
    split; [rewrite E; simpl; lia|]. split; [done|]. by left.
Qed.

Lemma HyperBee_getRoot_ready_spec pend hd f l :
  _checkout hd = 0 → TreeInv f l →
  ∃ r, Returns (log f) (HyperBee_getRoot_ready (log f) hd) r
       ∧ match r with
         | None => l = [] ∧ length (log f) < 2
         | Some n =>
             ∃ hh, hh + 2 ≤ length (log f)
                   ∧ Rep (log f) pend hh (root_min hh) n l
                   ∧ changed n = false ∧ block n ≠ None
                   ∧ Forall (λ c, c_value c = None) (children n)
         end.
Proof.
  intros Hc (Hw & Hs & Hl). unfold HyperBee_getRoot_ready. rewrite Hc. simpl.
  destruct (length (log f) <? 2) eqn:E.
  - exists None. split; [apply Returns_ret|]. split; [done|]. by apply Nat.ltb_lt.
  - destruct Hl as (hh & Hh & Hst).
    destruct (Stored_load (log f) pend hh _ _ _ _ Hst) as (e & n & He & Hn & Hrep & Hch & Hb & Hun).
    exists (Some n). split.
    + eapply Returns_bind; [by apply Batch_getBlock_Returns|].
      eapply Returns_bind; [by apply Returns_lift|]. apply Returns_ret.
    + exists hh. split_and!; try done. congruence.
Qed.

Lemma Batch_getRoot_spec pend hd f l auto :
  _checkout hd = 0 → TreeInv f l →
  ∃ r b',
    Batch_getRoot f (new_Batch hd auto true) = Some (r, HyperBee_ready f, b')
    ∧ cache_ok (log (HyperBee_ready f)) b'
    ∧ same_view (new_Batch hd auto true) b'
    ∧ match r with
      | None => l = [] ∧ length (log (HyperBee_ready f)) < 2
      | Some n =>
          ∃ hh, hh + 2 ≤ length (log (HyperBee_ready f))
                ∧ Rep (log (HyperBee_ready f)) pend hh (root_min hh) n l
                ∧ changed n = false ∧ block n ≠ None
                ∧ Forall (λ c, c_value c = None) (children n)
      end.
Proof.
  intros Hc Hinv. destruct (HyperBee_ready_inv f l Hinv) as (Hinv1 & _).
  destruct (HyperBee_getRoot_ready_spec pend hd _ l Hc Hinv1) as (r & Hret & Hr).
  destruct (Hret (new_Batch hd auto true) (cache_ok_new_Batch _ _ _ _))
    as (b' & E & Hok & Hv).
  exists r, b'. split; [|done].
  unfold Batch_getRoot. cbn [root new_Batch tree]. cbn [tree new_Batch] in E.
  by rewrite E.
Qed.

(** What [_append] leaves on the log. *)
Lemma append_TreeInv pend root h l key value f b :
  Rep (log f) pend h (root_min h) root l →
  (∀ a, pend = Some a → a = (length (log f), key)) →
  sorted l → h + 1 ≤ length (log f) →
  writable f = true → autoFlush b = true →
  ∃ buf f',
    Batch__append root (length (log f)) key value f b = Some (f', b)
    ∧ log f' = log f ++ [Node_encode (mkNodeMsg buf key value)]
    ∧ TreeInv f' l.
Proof.
  intros Hrep Hpend Hs Hh Hw Hauto.
  destruct (Batch__append_spec pend root h _ l key value f b Hrep Hpend Hw Hauto)
    as (buf & E & Hst).
  eexists buf, _. split; [exact E|]. split; [done|].
  unfold TreeInv. cbn [log writable]. rewrite length_app. simpl.
  split_and!; try done.
  assert ((length (log f) + 1 <? 2) = false) as -> by (apply Nat.ltb_ge; lia).
  exists h. split; [lia|].
  by replace (length (log f) + 1 - 1) with (length (log f)) by lia.
Qed.

Lemma put_descend_leaf log fuel key target node stack :
  children node = [] →
  put_descend log fuel key target node stack = mret (false, node, stack).
Proof. intros E. destruct fuel; cbn [put_descend]; by rewrite E. Qed.

Lemma Rep_lo_length log pend h lo lo' n l :
  Rep log pend h lo n l → lo' ≤ length (keys n) → Rep log pend h lo' n l.
Proof.
  destruct h.
  - rewrite !Rep_0. intros (?&?&?&?) ?. by split_and!.
  - rewrite !Rep_S. intros (aks & ls & ? & ? & ? & ? & ? & ?) ?.
    exists aks, ls. by split_and!.
Qed.

Lemma root_min_le h : root_min h ≤ 1.
Proof. destruct h; cbv; lia. Qed.

Lemma top_lo_le stack lor : lor ≤ 1 → top_lo stack lor ≤ 1.
Proof. destruct stack; simpl; lia. Qed.

(** [put] below a root loaded from the log. *)
Lemma put_tree_spec log seq key hr root l fuel :
  hr ≤ fuel →
  Rep log (Some (seq, key)) hr (root_min hr) root l → block root ≠ None →
  sorted l →
  ∃ replaced node stack,
    Returns log (put_descend log fuel key (mkKey seq (Some key)) root [])
      (replaced, node, stack)
    ∧ ∃ root' h' l',
        (if (replaced : bool) then root' = unwind node stack
         else ∃ ok node',
             Returns log (TreeNode_insertKey log (mkKey seq (Some key)) None node)
               (ok, node')
             ∧ Returns log (split_loop log node' stack (negb ok)) root')
        ∧ Rep log (Some (seq, key)) h' (root_min h') root' l'
        ∧ h' ≤ S hr
        ∧ PutPost l (seq, key) l'.
Proof.
  intros Hf Hrep Hbk Hs.
  assert (Hs0 : sorted ([] ++ l ++ [])) by (by rewrite app_nil_r).
  assert (Hst0 : StackRep log (Some (seq, key)) hr [] (root_min hr) hr [] []) by done.
  destruct (put_descend_spec log seq key (root_min hr) hr hr fuel root [] l [] []
              Hf Hrep Hst0 (Forall_nil_2 _) (Forall_nil_2 _) Hbk Hs0
              (Forall_nil_2 _) (Forall_nil_2 _))
    as (replaced & node & stack & Hret & Hpost).
  exists replaced, node, stack. split; [exact Hret|].
  rewrite app_nil_r in Hpost. simpl in Hpost.
  destruct replaced.
  - destruct Hpost as (l' & Hrep' & Hpp). exists (unwind node stack), hr, l'.
    split_and!; try done. lia.
  - destruct Hpost as (ln & lb & la & Hleaf & Hst & Hch & Hown & Hbkn & El & Hlb & Hla).
    subst l.
    pose proof (sorted_middle _ _ _ Hs) as Hsn.
    pose proof Hleaf as Hleaf0. apply Rep_0 in Hleaf as (Hk & Hlo & Hb & Hc).
    destruct (TreeNode_insertKey_spec log (Some (seq, key)) ln (mkKey seq (Some key))
                (seq, key) None node Hk (all_loaded_keys node Hb) Hsn
                (KeyRep_target log seq key) eq_refl)
      as (ok & node' & Hins & Eb' & Ech' & Hld' & Hcases).
    assert (Hbk' : block node' ≠ None) by congruence.
    destruct Hcases as [(mid & old & Hold & Eold & Hk' & Ec' & ->)
                       |(j & Hj & Hlo' & Hhi' & Hk' & Ec' & ->)].
    + assert (Hrep' : Rep log (Some (seq, key)) 0 (top_lo stack (root_min hr)) node'
                        (<[mid := (seq, key)]> ln)).
      { apply Rep_0. split_and!; try done.
        - apply Forall2_length in Hk', Hk. rewrite length_insert in Hk'. lia.
        - congruence. }
      exists (unwind node' stack), hr, (lb ++ <[mid := (seq, key)]> ln ++ la).
      split_and!.
      * exists true, node'. split; [done|]. simpl. destruct stack; apply Returns_ret.
      * by eapply unwind_spec.
      * lia.
      * apply PutPost_frame; [|done..].
        exists (take mid ln), (drop (S mid) ln). split.
        -- rewrite insert_take_drop; [done|]. by eapply lookup_lt_Some.
        -- right. exists old. split; [|done]. by rewrite take_drop_middle.
    + assert (Hpp : PutPost ln (seq, key) (splice_in j (seq, key) ln)).
      { exists (take j ln), (drop j ln). split; [done|]. left.
        by rewrite take_drop. }
      assert (Hrep' : Rep log (Some (seq, key)) 0 1 node' (splice_in j (seq, key) ln)).
      { apply Rep_0. split_and!; try done.
        - apply Forall2_length in Hk'. rewrite splice_in_length in Hk'. lia.
        - by rewrite Ec'. }
      pose proof (PutPost_frame _ _ _ lb la Hpp Hlb Hla) as Hppf.
      pose proof (PutPost_sorted _ _ _ Hs Hppf) as Hs'.
      destruct (split_loop_spec log (Some (seq, key)) (root_min hr) hr stack 0 node'
                  (splice_in j (seq, key) ln) lb la
                  (negb (S (length ln) <? MAX_CHILDREN)) Hst Hch Hown Hrep' Ech' Hbk' Hs')
        as (root' & Hroot & _ & Hres).
      { intros E. apply negb_true_iff, Nat.ltb_ge in E.
        apply Forall2_length in Hk'. rewrite splice_in_length in Hk'.
        unfold MAX_CHILDREN, MIN_KEYS, T in E. simpl in E. lia. }
      { apply root_min_le. }
      destruct Hres as [Hres|Hres].
      * exists root', hr, (lb ++ splice_in j (seq, key) ln ++ la).
        split_and!; try done; [|lia]. by exists (S (length ln) <? MAX_CHILDREN), node'.
      * exists root', (S hr), (lb ++ splice_in j (seq, key) ln ++ la).
        split_and!; try done. by exists (S (length ln) <? MAX_CHILDREN), node'.
Qed.

(** [put] through a handle that is not checked out. *)
Lemma HyperBee_put_spec hd key value f l :
  _checkout hd = 0 → TreeInv f l →
  ∃ f' l' buf,
    HyperBee_put key value hd f = Some f'
    ∧ log f' = log (HyperBee_ready f) ++ [Node_encode (mkNodeMsg buf key value)]
    ∧ TreeInv f' l'
    ∧ PutPost l (length (log (HyperBee_ready f)), key) l'.
Proof.
  intros Hc Hinv.
  destruct (HyperBee_ready_inv f l Hinv) as ((Hw & Hs & _) & Hlen1 & _ & _).
  set (f1 := HyperBee_ready f) in *. set (seq := length (log f1)).
  destruct (Batch_getRoot_spec (Some (seq, key)) hd f l true Hc Hinv)
    as (r & b1 & Eroot & Hok1 & Hv1 & Hr).
  fold f1 in Eroot, Hok1, Hr.
  assert (Hlenb : b_length b1 = 0) by (by destruct Hv1 as (_ & _ & _ & -> & _)).
  assert (Hauto : autoFlush b1 = true) by (by destruct Hv1 as (_ & -> & _)).
  unfold HyperBee_put, Batch_put. rewrite Eroot. cbn [mbind option_bind].
  rewrite Hlenb, Nat.add_0_r. fold seq.
  destruct r as [root|].
  - destruct Hr as (hh & Hh & Hrep & Hch & Hbk & Hunl). cbn [default from_option id].
    destruct (put_tree_spec (log f1) seq key hh root l (descent_fuel f1 b1))
      as (replaced & node & stack & Hret & root' & h' & l' & Hroot & Hrep' & Hh' & Hpp);
      try done.
    { unfold descent_fuel. lia. }
    destruct (Hret b1 Hok1) as (b2 & E2 & Hok2 & Hv2). rewrite E2. cbn [mbind option_bind].
    assert (Hauto2 : autoFlush b2 = true) by (destruct Hv2 as (_ & -> & _); done).
    pose proof (PutPost_sorted _ _ _ Hs Hpp) as Hs'.
    destruct replaced.
    + subst root'.
      destruct (append_TreeInv (Some (seq, key)) (unwind node stack) h' l' key value
                  f1 b2 Hrep') as (buf & f' & E & El & Hinv'); try done; try lia.
      { by intros a [= <-]. }
      fold seq in E. rewrite E. cbn [mbind option_bind]. by exists f', l', buf.
    + destruct Hroot as (ok & node' & Hins & Hsplit).
      destruct (Hins b2 Hok2) as (b3 & E3 & Hok3 & Hv3). rewrite E3. cbn [mbind option_bind].
      destruct (Hsplit b3 Hok3) as (b4 & E4 & Hok4 & Hv4). rewrite E4. cbn [mbind option_bind].
      assert (Hauto4 : autoFlush b4 = true).
      { destruct Hv4 as (_ & -> & _). by destruct Hv3 as (_ & -> & _). }
      destruct (append_TreeInv (Some (seq, key)) root' h' l' key value
                  f1 b4 Hrep') as (buf & f' & E & El & Hinv'); try done; try lia.
      { by intros a [= <-]. }
      fold seq in E. rewrite E. cbn [mbind option_bind]. by exists f', l', buf.
  - destruct Hr as (-> & Hlt). cbn [default from_option id].
    rewrite put_descend_leaf by done. cbn [mbind option_bind mret M_ret].
    destruct (TreeNode_insertKey_spec (log f1) (Some (seq, key)) []
                (mkKey seq (Some key)) (seq, key) None (create None))
      as (ok & node' & Hins & Eb' & Ech' & Hld' & Hcases); try done.
    { apply KeyRep_target. }
    destruct Hcases as [(mid & old & Hold & _)|(j & Hj & _ & _ & Hk' & Ec' & ->)];
      [done|].
    destruct (Hins b1 Hok1) as (b3 & E3 & Hok3 & Hv3). rewrite E3. cbn [mbind option_bind].
    assert (Hauto3 : autoFlush b3 = true) by (destruct Hv3 as (_ & -> & _); done).
    assert (j = 0) as -> by (simpl in Hj; lia).
    assert (Hrep' : Rep (log f1) (Some (seq, key)) 0 (root_min 0) node' [(seq, key)]).
    { apply Rep_0. split_and!; try done.
      - cbv; lia.
      - intros E. split; [by apply Hld'|]. rewrite Ec'. simpl. constructor. }
    destruct (append_TreeInv (Some (seq, key)) node' 0 [(seq, key)] key value
                f1 b3 Hrep') as (buf & f' & E & El & Hinv'); try done; try lia.
    { by intros a [= <-]. }
    { apply sorted_singleton. }
    change (split_loop (log f1) node' [] (negb (S (length (@nil akey)) <? MAX_CHILDREN)) b3)
      with (Some (node', b3)).
    cbn [mbind option_bind].
    fold seq in E. rewrite E. cbn [mbind option_bind]. exists f', [(seq, key)], buf.
    split_and!; try done.
    exists [], []. split; [done|]. left. by split_and!.
Qed.


(** * Walking to the edge of a subtree *)

#[local] Arguments Nat.ltb : simpl never.
#[local] Arguments Nat.leb : simpl never.

Lemma node_parts_lo log pend h lo lo' n aks ls :
  node_parts log pend h lo n aks ls → lo' ≤ length (keys n) →
  node_parts log pend h lo' n aks ls.
Proof. intros (?&?&?&?&?) ?. by split_and!. Qed.

Lemma walk_leaf fuel goLeft node acc :
  children node = [] → walk fuel goLeft node acc = Some (node, acc).
Proof. intros E. destruct fuel; cbn [walk]; by rewrite E. Qed.

Lemma leafSize_leaf log fuel goLeft node :
  children node = [] →
  leafSize log fuel node goLeft = mret (length (keys node), node).
Proof. intros E. destruct fuel; cbn [leafSize]; by rewrite E. Qed.

(** [leafSize] loads the path to the leaf at the edge of a subtree and
    leaves the subtree as it is; the [while] loop that follows pushes that
    path on the stack. *)
Lemma edge_spec log pend goLeft :
  ∀ h fuel node l,
    h ≤ fuel → Rep log pend h 1 node l → block node ≠ None →
    ∃ size node' leaf below lleaf,
      Returns log (leafSize log fuel node goLeft) (size, node')
      ∧ Rep log pend h 1 node' l
      ∧ changed node' = changed node ∧ block node' = block node
      ∧ (∀ acc, walk fuel goLeft node' acc = Some (leaf, below ++ acc))
      ∧ length (keys leaf) = size
      ∧ Rep log pend 0 1 leaf lleaf ∧ block leaf ≠ None
      ∧ stack_owned below
      ∧ (∀ stack lor hr lb la,
           lor ≤ 1 → StackRep log pend h stack lor hr lb la →
           ∃ lb' la',
             StackRep log pend 0 (below ++ stack) lor hr lb' la'
             ∧ lb' ++ lleaf ++ la' = lb ++ l ++ la
             ∧ if goLeft then lb' = lb else la' = la).
Proof.
  induction h as [|h IH]; intros fuel node l Hf Hrep Hbk.
  - pose proof Hrep as (Hk & Hlo & Hb & Hc)%Rep_0.
    exists (length (keys node)), node, node, [], l.
    split; [rewrite leafSize_leaf by done; apply Returns_ret|].
    split_and!; try done.
    + intros acc. by apply walk_leaf.
    + constructor.
    + intros stack lor hr lb la _ Hst. exists lb, la. split_and!; try done.
      by destruct goLeft.
  - destruct fuel as [|fuel]; [lia|].
    pose proof (Rep_children_nil _ _ _ _ _ _ Hrep) as E. simpl in E.
    apply Rep_S_parts in Hrep as (aks & ls & Hparts & ->).
    destruct (node_parts_lengths _ _ _ _ _ _ _ Hparts) as (Hla & Hll & Hlen).
    pose proof Hparts as (Hk & Hlo & Hb & Hc & Hl).
    set (i := if goLeft then 0 else length (children node) - 1).
    assert (Hi : i < length ls) by (subst i; destruct goLeft; lia).
    destruct (lookup_lt_is_Some_2 ls i Hi) as [li Hli].
    destruct (Forall2_lookup_r _ _ _ _ _ Hc Hli) as (c & Hci & Hcr).
    destruct (TreeNode_getChildNode_spec log pend h node i c li Hci Hcr)
      as (child & Hret & Hrc & Hstored & _ & _ & Hbkc & _).
    { intros E1. by specialize (Hbk E1). }
    destruct (IH fuel child li ltac:(lia) Hrc Hbkc)
      as (size & child' & leaf & below & lleaf & Hret' & Hrc' & Ech & Ebk & Hwalk
          & Hsize & Hleaf & Hbkl & Hown & Hstack).
    set (node1 := set_child_value i child node) in *.
    destruct (set_child_value_parts i child node c Hci) as (Eb1 & Ek1 & Ech1 & Ec1).
    fold node1 in Eb1, Ek1, Ech1, Ec1.
    set (c1 := mkChild (c_seq c) (c_offset c) (Some child)) in *.
    assert (Hci1 : children node1 !! i = Some c1).
    { rewrite Ec1. apply list_lookup_insert_eq. rewrite <- Hll. done. }
    set (node' := set_child_value i child' node1).
    destruct (set_child_value_parts i child' node1 c1 Hci1) as (Eb2 & Ek2 & Ech2 & Ec2).
    fold node' in Eb2, Ek2, Ech2, Ec2.
    assert (Hparts1 : node_parts log pend h 1 node1 aks ls).
    { rewrite <- (list_insert_id ls i li Hli).
      eapply node_parts_set_child; done. }
    assert (Hparts' : node_parts log pend h 1 node' aks ls).
    { rewrite <- (list_insert_id ls i li Hli).
      eapply (node_parts_set_child _ _ _ _ node1); try done; [congruence|].
      rewrite Ech. exact Hstored. }
    assert (Hlen' : length (children node') = length (children node)).
    { rewrite Ec2, length_insert, Ec1, length_insert. done. }
    exists size, node', leaf, (below ++ [(node', i)]), lleaf.
    split.
    { cbn [leafSize]. rewrite E. fold i.
      eapply Returns_bind; [exact Hret|]. cbn.
      eapply Returns_bind; [exact Hret'|]. cbn. apply Returns_ret. }
    split_and!; try done.
    + apply Rep_S_parts. by exists aks, ls.
    + congruence.
    + congruence.
    + intros acc. cbn [walk]. rewrite Hlen', E. fold i.
      assert (children node' !! i = Some (mkChild (c_seq c1) (c_offset c1) (Some child')))
        as ->.
      { rewrite Ec2. apply list_lookup_insert_eq. rewrite Ec1, length_insert, <- Hll. done. }
      cbn. rewrite Hwalk. by rewrite <- app_assoc.
    + apply Forall_app. split; [done|]. constructor; [|done]. simpl. congruence.
    + intros stack lor hr lb la Hlor Hst.
      destruct (Hstack ((node', i) :: stack) lor hr (lb ++ before i ls aks)
                  (after i ls aks ++ la) Hlor) as (lb' & la' & Hst' & El & Hside).
      { exists (before i ls aks), (after i ls aks), lb, la. split_and!; try done.
        exists aks, ls. split_and!; try done.
        eapply node_parts_lo; [exact Hparts'|].
        pose proof (top_lo_le stack lor Hlor). destruct Hparts' as (_ & ? & _). lia. }
      exists lb', la'. split_and!.
      * by rewrite <- app_assoc.
      * rewrite El. rewrite (interleave_split i ls aks li Hlen Hli).
        by rewrite <- !app_assoc.
      * subst i. destruct goLeft.
        -- by rewrite Hside, before_0, app_nil_r.
        -- rewrite Hside.
           replace (length (children node) - 1) with (length aks) by lia.
           by rewrite after_last.
Qed.

(** * Replacing a key of an inner node by its neighbour in a leaf *)

Lemma set_child_value_lookup i child n c :
  children n !! i = Some c →
  children (set_child_value i child n) !! i
  = Some (mkChild (c_seq c) (c_offset c) (Some child))
  ∧ (∀ j, j ≠ i → children (set_child_value i child n) !! j = children n !! j)
  ∧ length (children (set_child_value i child n)) = length (children n).
Proof.
  intros Hc. destruct (set_child_value_parts i child n c Hc) as (_ & _ & _ & ->).
  split_and!.
  - apply list_lookup_insert_eq. by eapply lookup_lt_Some.
  - intros j Hj. by apply list_lookup_insert_ne.
  - by rewrite length_insert.
Qed.

Lemma node_parts_set_child_same log pend h lo n aks ls i child li c :
  node_parts log pend h lo n aks ls →
  children n !! i = Some c → ls !! i = Some li →
  Rep log pend h 1 child li → block child ≠ None →
  (changed child = false → Stored log h 1 (c_seq c) (c_offset c) li) →
  node_parts log pend h lo (set_child_value i child n) aks ls.
Proof.
  intros Hparts Hc Hli Hrep Hbk Hst.
  rewrite <- (list_insert_id ls i li Hli). by eapply node_parts_set_child.
Qed.

Lemma before_insert_key i j (ls : list (list akey)) aks (a : akey) :
  i ≤ j → before i ls (<[j := a]> aks) = before i ls aks.
Proof. intros H. unfold before. by rewrite take_insert_ge. Qed.

Lemma after_insert_key i j (ls : list (list akey)) aks (a : akey) :
  j < i → after i ls (<[j := a]> aks) = after i ls aks.
Proof. intros H. unfold after. by rewrite drop_insert_lt. Qed.

Lemma Forall2_cons_inv_l_keys log pend k ks (l : list akey) :
  Forall2 (KeyRep log pend) (k :: ks) l →
  ∃ a l', l = a :: l' ∧ KeyRep log pend k a ∧ Forall2 (KeyRep log pend) ks l'.
Proof. intros H. inversion H; subst. by eexists _, _. Qed.

Lemma pop_keys_Rep log pend leaf lleaf :
  Rep log pend 0 1 leaf lleaf → block leaf ≠ None →
  ∃ k ks ak lleaf',
    pop (keys leaf) = Some (k, ks) ∧ lleaf = lleaf' ++ [ak]
    ∧ KeyRep log pend k ak
    ∧ Rep log pend 0 0 (set_keys ks leaf) lleaf'.
Proof.
  intros (Hk & Hlo & Hb & Hc)%Rep_0 Hbk.
  destruct (keys leaf) as [|k0 ks0] eqn:E using rev_ind; [simpl in Hlo; lia|].
  clear IHks0. apply Forall2_app_inv_l in Hk as (l1 & l2 & H1 & H2 & ->).
  inversion H2 as [|? ak ? l3 Hka H3]; subst. inversion H3; subst.
  exists k0, ks0, ak, l1. split_and!; try done.
  - apply pop_snoc.
  - apply Rep_0. destruct leaf. simpl in *. split_and!; try done. lia.
Qed.

Lemma shift_keys_Rep log pend leaf lleaf :
  Rep log pend 0 1 leaf lleaf → block leaf ≠ None →
  ∃ k ks ak lleaf',
    shift (keys leaf) = Some (k, ks) ∧ lleaf = ak :: lleaf'
    ∧ KeyRep log pend k ak
    ∧ Rep log pend 0 0 (set_keys ks leaf) lleaf'.
Proof.
  intros (Hk & Hlo & Hb & Hc)%Rep_0 Hbk.
  destruct (keys leaf) as [|k0 ks0] eqn:E; [simpl in Hlo; lia|].
  inversion Hk as [|? ak ? l3 Hka H3]; subst.
  exists k0, ks0, ak, l3. split_and!; try done.
  apply Rep_0. destruct leaf. simpl in *. split_and!; try done. lia.
Qed.

Lemma setKeyToNearestLeaf_spec log pend h fuel node index stack lo aks ls old :
  h ≤ fuel →
  node_parts log pend h lo node aks ls → block node ≠ None →
  aks !! index = Some old →
  ∃ l_l l_r lft node1 rgt node2 lsz lft' rsz rgt' leaf below node' j ak rest
    lleaf lb0 la0,
    ls !! index = Some l_l ∧ ls !! (index + 1) = Some l_r
    ∧ Returns log (TreeNode_getChildNode log index node) (lft, node1)
    ∧ Returns log (TreeNode_getChildNode log (index + 1) node1) (rgt, node2)
    ∧ Returns log (leafSize log fuel lft false) (lsz, lft')
    ∧ Returns log (leafSize log fuel rgt true) (rsz, rgt')
    ∧ Returns log (setKeyToNearestLeaf log fuel node index stack)
        (leaf, below ++ (node', j) :: stack)
    ∧ (if lsz <? rsz then j = index + 1 ∧ l_r = ak :: rest
       else j = index ∧ l_l = rest ++ [ak])
    ∧ node_parts log pend h lo node' (<[index := ak]> aks) ls
    ∧ block node' = block node
    ∧ Rep log pend 0 0 leaf lleaf ∧ block leaf ≠ None
    ∧ stack_owned below
    ∧ StackRep log pend 0 below 1 h lb0 la0
    ∧ lb0 ++ lleaf ++ la0 = rest
    ∧ ∀ lor hr lb la,
        lor ≤ 1 → lo = top_lo stack lor →
        StackRep log pend (S h) stack lor hr lb la →
        ∃ lb' la',
          StackRep log pend 0 (below ++ (node', j) :: stack) lor hr lb' la'
          ∧ lb' ++ lleaf ++ la'
            = (lb ++ before index ls aks ++ l_l) ++ l_r ++ after (S index) ls aks ++ la.
Proof.
  intros Hf Hparts Hbk Hold.
  destruct (node_parts_lengths _ _ _ _ _ _ _ Hparts) as (Hla & Hll & Hlen).
  pose proof (lookup_lt_Some _ _ _ Hold) as Hidx.
  destruct (lookup_lt_is_Some_2 ls index) as [l_l Hl_l]; [lia|].
  destruct (lookup_lt_is_Some_2 ls (index + 1)) as [l_r Hl_r]; [lia|].
  pose proof Hparts as (Hk & Hlo & Hb & Hc & Hl).
  (* the two children *)
  destruct (Forall2_lookup_r _ _ _ _ _ Hc Hl_l) as (cl & Hcl & Hclr).
  destruct (TreeNode_getChildNode_spec log pend h node index cl l_l Hcl Hclr)
    as (lft & Hretl & Hrl & Hstl & _ & _ & Hbkl & _).
  { intros E1. by specialize (Hbk E1). }
  set (node1 := set_child_value index lft node) in *.
  pose proof (node_parts_set_child_same _ _ _ _ _ _ _ _ _ _ _ Hparts Hcl Hl_l Hrl Hbkl Hstl)
    as Hparts1. fold node1 in Hparts1.
  destruct (set_child_value_parts index lft node cl Hcl) as (Eb1 & Ek1 & _ & _).
  destruct (set_child_value_lookup index lft node cl Hcl) as (Hcl1 & Hoth1 & Hlen1).
  fold node1 in Eb1, Ek1, Hcl1, Hoth1, Hlen1.
  destruct (Forall2_lookup_r _ _ _ _ _ Hc Hl_r) as (cr & Hcr & Hcrr).
  assert (Hcr1 : children node1 !! (index + 1) = Some cr) by (rewrite Hoth1; [done|lia]).
  destruct (TreeNode_getChildNode_spec log pend h node1 (index + 1) cr l_r Hcr1 Hcrr)
    as (rgt & Hretr & Hrr & Hstr & _ & _ & Hbkr & _).
  { intros E1. rewrite Eb1 in E1. by specialize (Hbk E1). }
  set (node2 := set_child_value (index + 1) rgt node1) in *.
  pose proof (node_parts_set_child_same _ _ _ _ _ _ _ _ _ _ _ Hparts1 Hcr1 Hl_r Hrr Hbkr Hstr)
    as Hparts2. fold node2 in Hparts2.
  destruct (set_child_value_parts (index + 1) rgt node1 cr Hcr1) as (Eb2 & Ek2 & _ & _).
  destruct (set_child_value_lookup (index + 1) rgt node1 cr Hcr1) as (Hcr2 & Hoth2 & Hlen2).
  fold node2 in Eb2, Ek2, Hcr2, Hoth2, Hlen2.
  (* the sizes *)
  destruct (edge_spec log pend false h fuel lft l_l Hf Hrl Hbkl)
    as (lsz & lft' & leafL & belowL & lleafL & HretL & HrL & EchL & EbkL & HwalkL
        & HsizeL & HleafL & HbkleafL & HownL & HstackL).
  destruct (edge_spec log pend true h fuel rgt l_r Hf Hrr Hbkr)
    as (rsz & rgt' & leafR & belowR & lleafR & HretR & HrR & EchR & EbkR & HwalkR
        & HsizeR & HleafR & HbkleafR & HownR & HstackR).
  (* the node with both paths cached *)
  set (cl2 := mkChild (c_seq cl) (c_offset cl) (Some lft)) in *.
  assert (Hcl2 : children node2 !! index = Some cl2) by (rewrite Hoth2; [done|lia]).
  set (node3a := set_child_value index lft' node2).
  assert (Hparts3a : node_parts log pend h lo node3a aks ls).
  { eapply (node_parts_set_child_same _ _ _ _ node2); try done; [congruence|].
    rewrite EchL. exact Hstl. }
  destruct (set_child_value_parts index lft' node2 cl2 Hcl2) as (Eb3a & Ek3a & _ & _).
  destruct (set_child_value_lookup index lft' node2 cl2 Hcl2) as (_ & Hoth3a & _).
  fold node3a in Eb3a, Ek3a, Hoth3a.
  set (cr2 := mkChild (c_seq cr) (c_offset cr) (Some rgt)) in *.
  assert (Hcr3a : children node3a !! (index + 1) = Some cr2) by (rewrite Hoth3a; [done|lia]).
  set (node3 := set_child_value (index + 1) rgt' node3a).
  assert (Hparts3 : node_parts log pend h lo node3 aks ls).
  { eapply (node_parts_set_child_same _ _ _ _ node3a); try done; [congruence|].
    rewrite EchR. exact Hstr. }
  destruct (set_child_value_parts (index + 1) rgt' node3a cr2 Hcr3a) as (Eb3 & Ek3 & _ & _).
  fold node3 in Eb3, Ek3.
  assert (Hbk3 : block node3 = block node) by congruence.
  (* the frame once the key is replaced *)
  assert (Hframe : ∀ k ak, KeyRep log pend k ak →
            node_parts log pend h lo
              (set_keys (<[index := k]> (keys node3)) node3) (<[index := ak]> aks) ls
            ∧ block (set_keys (<[index := k]> (keys node3)) node3) = block node).
  { intros k ak Hkr. destruct Hparts3 as (Hk3 & Hlo3 & Hb3 & Hc3 & Hl3).
    split; [|by destruct node3].
    unfold node_parts. destruct node3 as [b3 ks3 cs3 ch3]. simpl in *.
    rewrite length_insert. split_and!; try done.
    - by apply Forall2_insert.
    - intros E1. congruence. }
  destruct (lsz <? rsz) eqn:Ecmp.
  - destruct (shift_keys_Rep _ _ _ _ HleafR HbkleafR)
      as (k & ks & ak & lleaf & Eshift & -> & Hkr & Hleaf').
    destruct (Hframe k ak Hkr) as (Hparts4 & Hbk4).
    set (node4 := set_keys (<[index := k]> (keys node3)) node3) in *.
    destruct (HstackR [] 1 h [] [] (le_n _)) as (lb0 & la0 & Hst0 & El0 & ->); [done|].
    rewrite app_nil_r in Hst0, El0. simpl in El0.
    exists l_l, l_r, lft, node1, rgt, node2, lsz, lft', rsz, rgt',
      (set_keys ks leafR), belowR, node4, (index + 1), ak, (lleaf ++ la0),
      lleaf, [], la0.
    split_and!; try done.
    + unfold setKeyToNearestLeaf.
      eapply Returns_bind; [exact Hretl|]. cbn.
      eapply Returns_bind; [exact Hretr|]. cbn.
      eapply Returns_bind; [exact HretL|]. cbn.
      eapply Returns_bind; [exact HretR|]. cbn. rewrite Ecmp.
      eapply Returns_bind; [apply Returns_lift; apply HwalkR|]. cbn.
      eapply Returns_bind; [by apply Returns_lift|]. cbn.
      rewrite app_nil_r. apply Returns_ret.
    + rewrite Ecmp. split; [done|]. by rewrite <- El0.
    + intros lor hr lb la Hlor Elo Hst.
      destruct (HstackR ((node4, index + 1) :: stack) lor hr
                  (lb ++ before (index + 1) ls (<[index := ak]> aks))
                  (after (index + 1) ls (<[index := ak]> aks) ++ la) Hlor)
        as (lb' & la' & Hst' & El & ->).
      { exists (before (index + 1) ls (<[index := ak]> aks)),
          (after (index + 1) ls (<[index := ak]> aks)), lb, la.
        split_and!; try done. exists (<[index := ak]> aks), ls.
        split_and!; try done; [by rewrite <- Elo|lia]. }
      exists (lb ++ before (index + 1) ls (<[index := ak]> aks)), la'.
      split; [done|].
      apply app_inv_head in El.
      replace (index + 1) with (S index) in * by lia.
      rewrite (before_S index ls (<[index := ak]> aks) l_l ak Hl_l)
        by (by apply list_lookup_insert_eq).
      rewrite before_insert_key by lia.
      rewrite after_insert_key in El by lia.
      rewrite <- !app_assoc. simpl. do 3 f_equal.
      exact El.
  - destruct (pop_keys_Rep _ _ _ _ HleafL HbkleafL)
      as (k & ks & ak & lleaf & Epop & -> & Hkr & Hleaf').
    destruct (Hframe k ak Hkr) as (Hparts4 & Hbk4).
    set (node4 := set_keys (<[index := k]> (keys node3)) node3) in *.
    destruct (HstackL [] 1 h [] [] (le_n _)) as (lb0 & la0 & Hst0 & El0 & ->); [done|].
    rewrite app_nil_r in Hst0, El0. simpl in El0. rewrite app_nil_r in El0.
    exists l_l, l_r, lft, node1, rgt, node2, lsz, lft', rsz, rgt',
      (set_keys ks leafL), belowL, node4, index, ak, (lb0 ++ lleaf),
      lleaf, lb0, [].
    split_and!; try done.
    + unfold setKeyToNearestLeaf.
      eapply Returns_bind; [exact Hretl|]. cbn.
      eapply Returns_bind; [exact Hretr|]. cbn.
      eapply Returns_bind; [exact HretL|]. cbn.
      eapply Returns_bind; [exact HretR|]. cbn. rewrite Ecmp.
      eapply Returns_bind; [apply Returns_lift; apply HwalkL|]. cbn.
      eapply Returns_bind; [by apply Returns_lift|]. cbn.
      rewrite app_nil_r. apply Returns_ret.
    + rewrite Ecmp. split; [done|]. by rewrite <- El0, <- app_assoc.
    + by rewrite app_nil_r.
    + intros lor hr lb la Hlor Elo Hst.
      destruct (HstackL ((node4, index) :: stack) lor hr
                  (lb ++ before index ls (<[index := ak]> aks))
                  (after index ls (<[index := ak]> aks) ++ la) Hlor)
        as (lb' & la' & Hst' & El & ->).
      { exists (before index ls (<[index := ak]> aks)),
          (after index ls (<[index := ak]> aks)), lb, la.
        split_and!; try done. exists (<[index := ak]> aks), ls.
        split_and!; try done; [by rewrite <- Elo|lia]. }
      exists lb', (after index ls (<[index := ak]> aks) ++ la).
      split; [done|].
      rewrite before_insert_key in El by lia.
      replace (index + 1) with (S index) in Hl_r by lia.
      rewrite (after_cons index ls (<[index := ak]> aks) ak l_r) in El |- *;
        [|by apply list_lookup_insert_eq|done|by apply list_lookup_insert_eq|done].
      rewrite after_insert_key in El |- * by lia.
      assert (E2 : (lb' ++ lleaf ++ [ak]) = lb ++ before index ls aks ++ l_l).
      { assert (E3 : (lb' ++ lleaf ++ [ak]) ++ (ak :: (l_r ++ after (S index) ls aks) ++ la)
                     = (lb ++ before index ls aks ++ l_l)
                       ++ (ak :: (l_r ++ after (S index) ls aks) ++ la)).
        { rewrite <- ?app_assoc. simpl. rewrite <- ?app_assoc.
          rewrite <- ?app_assoc in El. simpl in El. rewrite <- ?app_assoc in El.
          exact El. }
        by apply app_inv_tail in E3. }
      rewrite <- E2. rewrite <- !app_assoc. simpl. by rewrite <- !app_assoc.
Qed.

(** * The descent of [del] *)

Lemma del_descend_spec log pend key lor hr :
  ∀ h fuel node stack ln lb la,
    h < fuel → lor ≤ 1 →
    Rep log pend h (top_lo stack lor) node ln → block node ≠ None →
    StackRep log pend h stack lor hr lb la → stack_owned stack →
    sorted (lb ++ ln ++ la) →
    Forall (λ b, Buffer_lt b.2 key) lb → Forall (λ b, Buffer_lt key b.2) la →
    ∃ outcome,
      Returns log (del_descend log fuel key node stack) outcome
      ∧ match outcome with
        | NotFound node' stack' =>
            Forall (λ a, a.2 ≠ key) (lb ++ ln ++ la)
            ∧ (changed node = false →
               Forall (λ c, c_value c = None) (children node) →
               Forall (λ p, changed p.1 = false) stack →
               changed node' = false ∧ Forall (λ p, changed p.1 = false) stack')
        | Removed leaf stack' =>
            ∃ lleaf lb' la',
              Rep log pend 0 0 leaf lleaf ∧ block leaf ≠ None
              ∧ StackRep log pend 0 stack' lor hr lb' la' ∧ stack_owned stack'
              ∧ DelPost (lb ++ ln ++ la) key (lb' ++ lleaf ++ la')
        end.
Proof.
  induction h as [|h IH];
    intros fuel node stack ln lb la Hf Hlor Hrep Hbk Hst Hown Hs Hlb Hla;
    (destruct fuel as [|fuel]; [lia|]); cbn [del_descend].
  - pose proof Hrep as (Hk & Hlo & Hb & Hc)%Rep_0.
    pose proof (sorted_middle _ _ _ Hs) as Hsn.
    destruct (search_spec log pend key ln node Hsn Hk (all_loaded_keys node Hb))
      as (r & n1 & Hr & Hkl & Hp).
    pose proof (keys_loaded_length _ _ _ _ _ Hkl Hk) as Hlen1.
    destruct Hkl as (Eb1 & Ec1 & Ech1 & Hk1 & _).
    destruct r as [mid|c s e].
    + destruct Hp as (old & Hold & Eold).
      exists (Removed (mkNode (block n1) (splice_out mid (keys n1)) (children n1) true) stack).
      split.
      { eapply Returns_bind; [exact Hr|]. cbn. rewrite Ec1, Hc. cbn.
        unfold TreeNode_removeKey. rewrite Ec1, Hc. cbn. apply Returns_ret. }
      exists (splice_out mid ln), lb, la. split_and!; try done.
      * apply Rep_0. cbn [keys children block]. split_and!; try done.
        -- unfold splice_out. apply Forall2_app; [by apply Forall2_take|by apply Forall2_drop].
        -- lia.
        -- congruence.
        -- congruence.
      * cbn [block]. congruence.
      * exists (lb ++ take mid ln), old, (drop (S mid) ln ++ la). split_and!; try done.
        -- rewrite <- (take_drop_middle ln mid old Hold) at 1. by rewrite <- !app_assoc.
        -- unfold splice_out. by rewrite <- !app_assoc.
    + exists (NotFound n1 stack). split.
      { eapply Returns_bind; [exact Hr|]. cbn. rewrite Ec1, Hc. cbn. apply Returns_ret. }
      split.
      * apply Forall_app. split; [by apply Forall_lt_ne|].
        apply Forall_app. split; [by eapply search_post_Miss_none|by apply Forall_gt_ne].
      * intros Hch _ Hsch. split; [congruence|done].
  - pose proof (Rep_children_nil _ _ _ _ _ _ Hrep) as E. simpl in E.
    apply Rep_S_parts in Hrep as (aks & ls & Hparts & ->).
    destruct (node_parts_lengths _ _ _ _ _ _ _ Hparts) as (Hla' & Hll & Hlen).
    pose proof (sorted_middle _ _ _ Hs) as Hsn.
    pose proof (sorted_interleave_keys ls aks Hlen Hsn) as Hsk.
    pose proof Hparts as (Hk & Hlo & Hb & Hc & Hl).
    destruct (search_spec log pend key aks node Hsk Hk (all_loaded_keys node Hb))
      as (r & n1 & Hr & Hkl & Hp).
    pose proof (node_parts_keys_loaded _ _ _ _ _ _ _ _ Hparts Hkl) as Hparts1.
    pose proof Hkl as (Eb1 & Ec1 & Ech1 & _ & _).
    assert (Hbk1 : block n1 ≠ None) by congruence.
    destruct r as [mid|c s e].
    + destruct Hp as (old & Hold & Eold).
      destruct (setKeyToNearestLeaf_spec log pend h fuel n1 mid stack _ aks ls old
                  ltac:(lia) Hparts1 Hbk1 Hold)
        as (l_l & l_r & lft & node1 & rgt & node2 & lsz & lft' & rsz & rgt' & leaf
            & below & node' & j & ak & rest & lleaf & lb0 & la0
            & Hl_l & Hl_r & _ & _ & _ & _ & Hret & Hside & Hparts' & Hbk' & Hleaf
            & Hbkl & Hownb & _ & _ & Hstk).
      destruct (Hstk lor hr lb la Hlor eq_refl Hst) as (lb' & la' & Hst' & El).
      exists (Removed leaf (below ++ (node', j) :: stack)). split.
      { eapply Returns_bind; [exact Hr|]. cbn. rewrite Ec1, E. cbn.
        eapply Returns_bind; [exact Hret|]. cbn. apply Returns_ret. }
      exists lleaf, lb', la'. split_and!; try done.
      * apply Forall_app. split; [done|]. constructor; [|done]. simpl. congruence.
      * exists (lb ++ before mid ls aks ++ l_l), old, (l_r ++ after (S mid) ls aks ++ la).
        split_and!; try done.
        rewrite (interleave_split mid ls aks l_l Hlen Hl_l).
        replace (mid + 1) with (S mid) in Hl_r by lia.
        rewrite (after_cons mid ls aks old l_r Hold Hl_r).
        rewrite <- ?app_assoc. simpl. by rewrite <- ?app_assoc.
    + pose proof Hp as (Hi & Hlo' & Hhi').
      set (i := insertion_index c s e) in *.
      destruct (lookup_lt_is_Some_2 ls i) as [li Hli]; [lia|].
      pose proof Hparts1 as (Hk1 & Hlo1 & Hb1 & Hc1 & Hl1).
      destruct (Forall2_lookup_r _ _ _ _ _ Hc1 Hli) as (ch & Hci & Hchr).
      destruct (TreeNode_getChildNode_spec log pend h n1 i ch li Hci Hchr)
        as (child & Hret & Hcr & Hstored & Hfresh & _ & Hbkc & Hunl).
      { intros E1. by specialize (Hbk1 E1). }
      set (n2 := set_child_value i child n1) in *.
      pose proof (node_parts_set_child_same _ _ _ _ _ _ _ _ _ _ _ Hparts1 Hci Hli Hcr
                    Hbkc Hstored) as Hparts2. fold n2 in Hparts2.
      destruct (set_child_value_parts i child n1 ch Hci) as (Eb2 & _ & Ech2 & _).
      fold n2 in Eb2, Ech2.
      assert (El : lb ++ interleave ls aks ++ la
                   = (lb ++ before i ls aks) ++ li ++ after i ls aks ++ la).
      { rewrite (interleave_split i ls aks li Hlen Hli). by rewrite <- !app_assoc. }
      destruct (IH fuel child ((n2, i) :: stack) li (lb ++ before i ls aks)
                  (after i ls aks ++ la)) as (outcome & Hret' & Hpost).
      * lia.
      * done.
      * done.
      * done.
      * exists (before i ls aks), (after i ls aks), lb, la. split_and!; try done.
        exists aks, ls. split_and!; try done. lia.
      * constructor; [simpl; congruence|done].
      * by rewrite <- El.
      * apply Forall_app. split; [done|]. by apply before_lt.
      * apply Forall_app. split; [|done]. by apply after_gt.
      * exists outcome. split.
        { eapply Returns_bind; [exact Hr|]. cbn. rewrite Ec1, E. cbn.
          eapply Returns_bind; [exact Hret|]. cbn. exact Hret'. }
        rewrite El. destruct outcome as [node' stack'|leaf stack']; [|exact Hpost].
        destruct Hpost as [Hne Hfr]. split; [done|].
        intros Hch Hun Hsch. rewrite <- Ec1 in Hun.
        assert (Hcv : c_value ch = None).
        { rewrite Forall_lookup in Hun. by eapply Hun. }
        apply Hfr; [by apply Hfresh|by apply Hunl|].
        constructor; [simpl; congruence|done].
Qed.

(** * Rebalancing after [del] *)

Lemma lookup_splice_out {A} (l : list A) i j :
  splice_out i l !! j = if decide (j < i) then l !! j else l !! (S j).
Proof.
  unfold splice_out. destruct (decide (i ≤ length l)) as [Hi|Hi].
  - case_decide as Hj.
    + rewrite lookup_app_l by (rewrite length_take; lia). by rewrite lookup_take_lt.
    + rewrite lookup_app_r by (rewrite length_take; lia).
      rewrite length_take, lookup_drop. f_equal. lia.
  - rewrite take_ge, drop_ge, app_nil_r by lia. case_decide as Hj; [done|].
    rewrite !lookup_ge_None_2; [done|lia|lia].
Qed.

Lemma splice_out_length {A} (l : list A) i :
  i < length l → length (splice_out i l) = length l - 1.
Proof.
  intros Hi. unfold splice_out. rewrite length_app, length_take, length_drop. lia.
Qed.

(** ** Lists of keys under the three moves *)

Lemma interleave_merge (ls1 ls2 : list (list akey)) (aks1 aks2 : list akey) (a : akey) :
  (ls1 = [] ∧ ls2 = []) ∨ length ls1 = length aks1 + 1 →
  interleave (ls1 ++ ls2) (aks1 ++ a :: aks2)
  = interleave ls1 aks1 ++ a :: interleave ls2 aks2.
Proof.
  intros [[-> ->]|Hlen]; [done|].
  revert aks1 Hlen. induction ls1 as [|c ls1 IH]; intros aks1 Hlen; [simpl in Hlen; lia|].
  destruct aks1 as [|k aks1].
  - destruct ls1; [|simpl in Hlen; lia]. simpl. done.
  - simpl in *. rewrite IH by lia. by rewrite <- app_assoc.
Qed.

Lemma interleave_snoc (ls : list (list akey)) (aks : list akey) (c : list akey) (a : akey) :
  length ls = length aks + 1 →
  interleave (ls ++ [c]) (aks ++ [a]) = interleave ls aks ++ a :: c.
Proof. intros H. by rewrite interleave_merge by (by right). Qed.

Lemma interleave_borrow_left (ls : list (list akey)) (aks : list akey) i
    (ll ll' ln ln' : list akey) (asep alk : akey) :
  length ls = length aks + 1 → 1 ≤ i → i < length ls →
  ls !! (i - 1) = Some ll → aks !! (i - 1) = Some asep →
  ll ++ asep :: ln = ll' ++ alk :: ln' →
  interleave (<[i := ln']> (<[i - 1 := ll']> ls)) (<[i - 1 := alk]> aks)
  = before i ls aks ++ ln ++ after i ls aks.
Proof.
  intros Hlen Hi Hil Hll Hsep E.
  destruct i as [|i']; [lia|]. replace (S i' - 1) with i' in * by lia.
  rewrite (interleave_split (S i') _ _ ln').
  2: by rewrite !length_insert.
  2: { apply list_lookup_insert_eq. rewrite length_insert. lia. }
  rewrite (before_S i' _ _ ll' alk).
  2: { rewrite list_lookup_insert_ne by lia. apply list_lookup_insert_eq.
       by eapply lookup_lt_Some. }
  2: { apply list_lookup_insert_eq. by eapply lookup_lt_Some. }
  rewrite (before_S i' ls aks ll asep Hll Hsep).
  unfold before, after.
  rewrite !take_insert_ge by lia.
  rewrite !drop_insert_lt by lia.
  rewrite <- !app_assoc. f_equal.
  rewrite !app_assoc. f_equal.
  rewrite <- !app_assoc. simpl. by rewrite <- E.
Qed.

Lemma interleave_borrow_right (ls : list (list akey)) (aks : list akey) i
    (lr lr' ln ln' : list akey) (asep ark : akey) :
  length ls = length aks + 1 → i < length aks →
  ls !! (i + 1) = Some lr → aks !! i = Some asep →
  ln ++ asep :: lr = ln' ++ ark :: lr' →
  interleave (<[i + 1 := lr']> (<[i := ln']> ls)) (<[i := ark]> aks)
  = before i ls aks ++ ln ++ after i ls aks.
Proof.
  intros Hlen Hi Hlr Hsep E.
  replace (i + 1) with (S i) in * by lia.
  rewrite (interleave_split i _ _ ln').
  2: by rewrite !length_insert.
  2: { rewrite list_lookup_insert_ne by lia. apply list_lookup_insert_eq. lia. }
  rewrite (after_cons i _ _ ark lr').
  2: { by apply list_lookup_insert_eq. }
  2: { apply list_lookup_insert_eq. rewrite length_insert. lia. }
  rewrite (after_cons i ls aks asep lr Hsep Hlr).
  unfold before, after.
  rewrite !take_insert_ge by lia.
  rewrite !drop_insert_lt by lia.
  f_equal.
  change (ln' ++ (ark :: lr') ++ tail_part (drop (S i) aks) (drop (S (S i)) ls)
          = ln ++ (asep :: lr) ++ tail_part (drop (S i) aks) (drop (S (S i)) ls)).
  by rewrite !app_assoc, E.
Qed.

Lemma interleave_merged (ls : list (list akey)) (aks : list akey) j (lm : list akey) :
  length ls = length aks + 1 → j < length aks →
  interleave (splice_out (j + 1) (<[j := lm]> ls)) (splice_out j aks)
  = before j ls aks ++ lm ++ after (S j) ls aks.
Proof.
  intros Hlen Hj. unfold splice_out, before, after.
  replace (j + 1) with (S j) by lia.
  rewrite (take_S_r (<[j := lm]> ls) j lm) by (apply list_lookup_insert_eq; lia).
  rewrite take_insert_ge by lia. rewrite drop_insert_lt by lia.
  rewrite <- app_assoc.
  rewrite interleave_app by (rewrite !length_take; lia).
  change ([lm] ++ drop (S (S j)) ls) with (lm :: drop (S (S j)) ls).
  rewrite interleave_tail by (rewrite !length_drop; lia).
  done.
Qed.

(** ** The three moves on the nodes *)

Lemma merge_Rep log pend h loa lob a b la lb m am :
  Rep log pend h loa a la → Rep log pend h lob b lb →
  KeyRep log pend m am → block a ≠ None →
  Rep log pend h 1 (TreeNode_merge b m a) (la ++ am :: lb).
Proof.
  intros Ha Hb Hm Hbk. destruct h as [|h].
  - apply Rep_0 in Ha as (Hka & _ & _ & Hca). apply Rep_0 in Hb as (Hkb & _ & _ & Hcb).
    apply Rep_0. unfold TreeNode_merge. cbn [keys children block].
    split_and!; try done.
    + apply Forall2_app; [done|]. by constructor.
    + rewrite length_app. simpl. lia.
    + by rewrite Hca, Hcb.
  - apply Rep_S_parts in Ha as (aksa & lsa & Hpa & ->).
    apply Rep_S_parts in Hb as (aksb & lsb & Hpb & ->).
    destruct (node_parts_lengths _ _ _ _ _ _ _ Hpa) as (? & ? & ?).
    destruct Hpa as (Hka & _ & _ & Hca & Hla). destruct Hpb as (Hkb & _ & _ & Hcb & Hlb).
    apply Rep_S_parts. exists (aksa ++ am :: aksb), (lsa ++ lsb). split.
    + unfold node_parts, TreeNode_merge. cbn [keys children block].
      split_and!; try done.
      * apply Forall2_app; [done|]. by constructor.
      * rewrite length_app. simpl. lia.
      * by apply Forall2_app.
      * rewrite !length_app. simpl. lia.
    + rewrite interleave_merge; [done|by right].
Qed.

Lemma borrow_left_Rep log pend h l ll node ln sep asep :
  Rep log pend h 1 l ll → 2 ≤ length (keys l) → block l ≠ None →
  Rep log pend h 0 node ln → block node ≠ None →
  KeyRep log pend sep asep →
  ∃ ncs lcs lk lks alk ll' ln',
    (if negb (length (children l) =? 0)
     then '(c, lcs) ← pop (children l); Some (c :: children node, lcs)
     else Some (children node, children l)) = Some (ncs, lcs)
    ∧ pop (keys l) = Some (lk, lks) ∧ KeyRep log pend lk alk
    ∧ Rep log pend h 1 (mkNode (block node) (sep :: keys node) ncs (changed node)) ln'
    ∧ Rep log pend h 1 (mkNode (block l) lks lcs true) ll'
    ∧ ll ++ asep :: ln = ll' ++ alk :: ln'.
Proof.
  intros Hl Hlen Hbkl Hn Hbkn Hsep.
  destruct (pop_Some (keys l)) as (lk & lks & Ekl & Epop).
  { intros E. rewrite E in Hlen. simpl in Hlen. lia. }
  assert (Hlks : 1 ≤ length lks).
  { rewrite Ekl, length_app in Hlen. simpl in Hlen. lia. }
  destruct h as [|h].
  - apply Rep_0 in Hl as (Hkl & _ & _ & Hcl). apply Rep_0 in Hn as (Hkn & _ & _ & Hcn).
    rewrite Ekl in Hkl. apply Forall2_app_inv_l in Hkl as (ll' & l2 & H1 & H2 & ->).
    inversion H2 as [|? alk ? l3 Hka H3]; subst. inversion H3; subst.
    exists (children node), (children l), lk, lks, alk, ll', (asep :: ln).
    split_and!; try done.
    + by rewrite Hcl.
    + apply Rep_0. cbn [keys children block]. split_and!; try done.
      * by constructor.
      * simpl. lia.
    + apply Rep_0. cbn [keys children block]. split_and!; try done.
    + by rewrite <- app_assoc.
  - apply Rep_S_parts in Hl as (aksl & lsl & Hpl & ->).
    apply Rep_S_parts in Hn as (aksn & lsn & Hpn & ->).
    destruct (node_parts_lengths _ _ _ _ _ _ _ Hpl) as (Hal & Hsl & Hll).
    destruct Hpl as (Hkl & _ & _ & Hcl & Hlcl). destruct Hpn as (Hkn & _ & _ & Hcn & Hlcn).
    destruct (pop_Some (children l)) as (c & lcs & Ecl & Epopc).
    { intros E. rewrite E in Hlcl. simpl in Hlcl. lia. }
    rewrite Ekl in Hkl. apply Forall2_app_inv_l in Hkl as (aksl' & l2 & H1 & H2 & ->).
    inversion H2 as [|? alk ? l3 Hka H3]; subst. inversion H3; subst.
    rewrite Ecl in Hcl. apply Forall2_app_inv_l in Hcl as (lsl' & l2 & Hc1 & Hc2 & ->).
    inversion Hc2 as [|? lc ? l3 Hcc Hc3]; subst. inversion Hc3; subst.
    assert (Hlen' : length lsl' = length aksl' + 1).
    { rewrite !length_app in Hll. simpl in Hll. lia. }
    exists (c :: children node), lcs, lk, lks, alk, (interleave lsl' aksl'),
      (lc ++ asep :: interleave lsn aksn).
    split_and!; try done.
    + rewrite Ecl, length_app. simpl.
      replace (length lcs + 1 =? 0) with false by (symmetry; apply Nat.eqb_neq; lia).
      cbn. by rewrite <- Ecl, Epopc.
    + apply Rep_S_parts. exists (asep :: aksn), (lc :: lsn). split; [|done].
      unfold node_parts. cbn [keys children block]. split_and!; try done.
      * by constructor.
      * simpl. lia.
      * by constructor.
      * simpl. lia.
    + apply Rep_S_parts. exists aksl', lsl'. split; [|done].
      unfold node_parts. cbn [keys children block]. split_and!; try done.
      rewrite <- (Forall2_length _ _ _ Hc1), <- (Forall2_length _ _ _ H1) in Hlen'. done.
    + rewrite interleave_snoc by done. by rewrite <- app_assoc.
Qed.

Lemma borrow_right_Rep log pend h r lr node ln sep asep :
  Rep log pend h 1 r lr → 2 ≤ length (keys r) → block r ≠ None →
  Rep log pend h 0 node ln → block node ≠ None →
  KeyRep log pend sep asep →
  ∃ ncs rcs rk rks ark lr' ln',
    (if negb (length (children r) =? 0)
     then '(c, rcs) ← shift (children r); Some (children node ++ [c], rcs)
     else Some (children node, children r)) = Some (ncs, rcs)
    ∧ shift (keys r) = Some (rk, rks) ∧ KeyRep log pend rk ark
    ∧ Rep log pend h 1 (mkNode (block node) (keys node ++ [sep]) ncs (changed node)) ln'
    ∧ Rep log pend h 1 (mkNode (block r) rks rcs true) lr'
    ∧ ln ++ asep :: lr = ln' ++ ark :: lr'.
Proof.
  intros Hr Hlen Hbkr Hn Hbkn Hsep.
  destruct (keys r) as [|rk rks] eqn:Ekr; [simpl in Hlen; lia|].
  assert (Hrks : 1 ≤ length rks) by (simpl in Hlen; lia).
  destruct h as [|h].
  - apply Rep_0 in Hr as (Hkr & _ & _ & Hcr). apply Rep_0 in Hn as (Hkn & _ & _ & Hcn).
    rewrite Ekr in Hkr.
    inversion Hkr as [|? ark ? lr' Hka H3]; subst.
    exists (children node), (children r), rk, rks, ark, lr', (ln ++ [asep]).
    split_and!; try done.
    + by rewrite Hcr.
    + apply Rep_0. cbn [keys children block]. split_and!; try done.
      * apply Forall2_app; [done|]. by constructor.
      * rewrite length_app. simpl. lia.
    + apply Rep_0. cbn [keys children block]. split_and!; try done.
    + by rewrite <- app_assoc.
  - apply Rep_S_parts in Hr as (aksr & lsr & Hpr & ->).
    apply Rep_S_parts in Hn as (aksn & lsn & Hpn & ->).
    destruct (node_parts_lengths _ _ _ _ _ _ _ Hpn) as (Han & Hsn & Hln).
    destruct Hpr as (Hkr & _ & _ & Hcr & Hlcr). destruct Hpn as (Hkn & _ & _ & Hcn & Hlcn).
    rewrite Ekr in Hkr, Hlcr.
    destruct (children r) as [|c rcs] eqn:Ecr; [simpl in Hlcr; lia|].
    inversion Hkr as [|? ark ? aksr' Hka H3]; subst.
    inversion Hcr as [|? lc ? lsr' Hcc Hc3]; subst.
    exists (children node ++ [c]), rcs, rk, rks, ark, (interleave lsr' aksr'),
      (interleave lsn aksn ++ asep :: lc).
    split_and!; try done.
    + apply Rep_S_parts. exists (aksn ++ [asep]), (lsn ++ [lc]). split.
      * unfold node_parts. cbn [keys children block]. split_and!; try done.
        -- apply Forall2_app; [done|]. by constructor.
        -- rewrite length_app. simpl. lia.
        -- apply Forall2_app; [done|]. by constructor.
        -- rewrite !length_app. simpl. lia.
      * by rewrite interleave_snoc.
    + apply Rep_S_parts. exists aksr', lsr'. split; [|done].
      unfold node_parts. cbn [keys children block]. split_and!; try done.
      simpl in Hlcr. lia.
    + simpl. by rewrite <- app_assoc.
Qed.

(** ** A parent with one cell under work *)

Lemma node_parts_pointwise log pend h lo n aks ls :
  Forall2 (KeyRep log pend) (keys n) aks → lo ≤ length (keys n) →
  block n ≠ None →
  length (children n) = length (keys n) + 1 → length ls = length (children n) →
  (∀ j c lj, children n !! j = Some c → ls !! j = Some lj →
             ChildRep (Rep log pend h 1) (Stored log h 1) c lj) →
  node_parts log pend h lo n aks ls.
Proof.
  intros Hk Hlo Hbk Hl Hls Hc. unfold node_parts. split_and!; try done.
  apply Forall2_same_length_lookup_2; [done|]. intros j c lj. apply Hc.
Qed.

Lemma node_hole_of_parts log pend h lo n i aks ls :
  node_parts log pend h lo n aks ls → block n ≠ None →
  node_hole log pend h n i aks ls.
Proof.
  intros (Hk & Hlo & _ & Hc & Hl) Hbk. unfold node_hole. split_and!; try done.
  - symmetry. by eapply Forall2_length.
  - intros j c lj _ Hcj Hlj. by eapply Forall2_lookup_lr.
Qed.

Lemma node_hole_set_child_hole log pend h n i aks ls child :
  node_hole log pend h n i aks ls →
  node_hole log pend h (set_child_value i child n) i aks ls.
Proof.
  intros (Hk & Hbk & Hl & Hls & Hc).
  destruct (children n !! i) as [c|] eqn:E.
  - destruct (set_child_value_parts i child n c E) as (Eb & Ek & _ & _).
    destruct (set_child_value_lookup i child n c E) as (_ & Hoth & Hlen).
    unfold node_hole. rewrite Eb, Ek, Hlen. split_and!; try done.
    intros j c' lj Hj. rewrite Hoth by done. by apply Hc.
  - unfold set_child_value. rewrite E. by unfold node_hole.
Qed.

Lemma node_hole_set_child_other log pend h n i aks ls j c lj child :
  node_hole log pend h n i aks ls →
  children n !! j = Some c → ls !! j = Some lj →
  Rep log pend h 1 child lj → block child ≠ None →
  (changed child = false → Stored log h 1 (c_seq c) (c_offset c) lj) →
  node_hole log pend h (set_child_value j child n) i aks ls.
Proof.
  intros (Hk & Hbk & Hl & Hls & Hc) Hcj Hlj Hrep Hbkc Hst.
  destruct (set_child_value_parts j child n c Hcj) as (Eb & Ek & _ & _).
  destruct (set_child_value_lookup j child n c Hcj) as (Hat & Hoth & Hlen).
  unfold node_hole. rewrite Eb, Ek, Hlen. split_and!; try done.
  intros j' c' lj' Hj'. destruct (decide (j' = j)) as [->|Hne].
  - rewrite Hat, Hlj. intros [= <-] [= <-]. unfold ChildRep. simpl. done.
  - rewrite Hoth by done. by apply Hc.
Qed.

Lemma node_hole_getChild log pend h n i aks ls j :
  node_hole log pend h n i aks ls → j ≠ i → j < length ls →
  ∃ child c lj,
    ls !! j = Some lj ∧ children n !! j = Some c
    ∧ Returns log (TreeNode_getChildNode log j n) (child, set_child_value j child n)
    ∧ Rep log pend h 1 child lj ∧ block child ≠ None
    ∧ (changed child = false → Stored log h 1 (c_seq c) (c_offset c) lj)
    ∧ node_hole log pend h (set_child_value j child n) i aks ls.
Proof.
  intros Hhole Hj Hlt. pose proof Hhole as (Hk & Hbk & Hl & Hls & Hc).
  destruct (lookup_lt_is_Some_2 ls j Hlt) as [lj Hlj].
  destruct (lookup_lt_is_Some_2 (children n) j) as [c Hcj]; [lia|].
  destruct (TreeNode_getChildNode_spec log pend h n j c lj Hcj (Hc j c lj Hj Hcj Hlj))
    as (child & Hret & Hrep & Hst & _ & _ & Hbkc & _).
  { intros E. by specialize (Hbk E). }
  exists child, c, lj. split_and!; try done.
  by eapply node_hole_set_child_other.
Qed.

Lemma node_hole_set_keys log pend h n i aks aks' ls ks' :
  node_hole log pend h n i aks ls →
  Forall2 (KeyRep log pend) ks' aks' → length ks' = length (keys n) →
  node_hole log pend h (set_keys ks' n) i aks' ls.
Proof.
  intros (Hk & Hbk & Hl & Hls & Hc) Hk' Hlen. destruct n as [b ks cs ch].
  unfold node_hole. simpl in *. split_and!; try done. lia.
Qed.

(** Two adjacent cells are given new nodes, one of them the cell under
    work. *)
Lemma node_hole_fill2 log pend h lo n i aks ls i1 i2 c1 c2 x1 x2 l1 l2 :
  node_hole log pend h n i aks ls →
  i1 ≠ i2 → i = i1 ∨ i = i2 →
  children n !! i1 = Some c1 → children n !! i2 = Some c2 →
  Rep log pend h 1 x1 l1 → block x1 ≠ None → changed x1 = true →
  Rep log pend h 1 x2 l2 → block x2 ≠ None → changed x2 = true →
  lo ≤ length (keys n) →
  node_parts log pend h lo (set_child_value i2 x2 (set_child_value i1 x1 n)) aks
    (<[i2 := l2]> (<[i1 := l1]> ls))
  ∧ block (set_child_value i2 x2 (set_child_value i1 x1 n)) = block n
  ∧ changed (set_child_value i2 x2 (set_child_value i1 x1 n)) = changed n.
Proof.
  intros (Hk & Hbk & Hl & Hls & Hc) Hne Hi Hc1 Hc2 Hr1 Hb1 Hch1 Hr2 Hb2 Hch2 Hlo.
  destruct (set_child_value_parts i1 x1 n c1 Hc1) as (Eb1 & Ek1 & Ech1 & _).
  destruct (set_child_value_lookup i1 x1 n c1 Hc1) as (Hat1 & Hoth1 & Hlen1).
  set (n1 := set_child_value i1 x1 n) in *.
  assert (Hc2' : children n1 !! i2 = Some c2) by (rewrite Hoth1; [done|congruence]).
  destruct (set_child_value_parts i2 x2 n1 c2 Hc2') as (Eb2 & Ek2 & Ech2 & _).
  destruct (set_child_value_lookup i2 x2 n1 c2 Hc2') as (Hat2 & Hoth2 & Hlen2).
  set (n2 := set_child_value i2 x2 n1) in *.
  split; [|split; congruence].
  apply node_parts_pointwise.
  - by rewrite Ek2, Ek1.
  - by rewrite Ek2, Ek1.
  - congruence.
  - rewrite Hlen2, Hlen1, Ek2, Ek1. done.
  - rewrite !length_insert. congruence.
  - intros j c lj. destruct (decide (j = i2)) as [->|Hn2].
    + rewrite Hat2, list_lookup_insert_eq
        by (rewrite length_insert, Hls; by eapply lookup_lt_Some).
      intros [= <-] [= <-]. unfold ChildRep. simpl. split_and!; [done..|congruence].
    + rewrite Hoth2, list_lookup_insert_ne by done.
      destruct (decide (j = i1)) as [->|Hn1].
      * rewrite Hat1, list_lookup_insert_eq by (rewrite Hls; by eapply lookup_lt_Some).
        intros [= <-] [= <-]. unfold ChildRep. simpl. split_and!; [done..|congruence].
      * rewrite Hoth1, list_lookup_insert_ne by done.
        apply Hc. destruct Hi; congruence.
Qed.

(** A merged node takes cell [j] and the key [j] goes, with the cell after
    it; the cell under work is one of the two. *)
Lemma node_hole_merge log pend h n i aks ls j cj merged lm :
  node_hole log pend h n i aks ls →
  i = j ∨ i = j + 1 → j < length aks →
  children n !! j = Some cj →
  Rep log pend h 1 merged lm → block merged ≠ None → changed merged = true →
  ∃ n',
    TreeNode_removeKey j (set_child_value j merged n) = Some n'
    ∧ node_parts log pend h 0 n' (splice_out j aks) (splice_out (j + 1) (<[j := lm]> ls))
    ∧ block n' = block n ∧ changed n' = true.
Proof.
  intros (Hk & Hbk & Hl & Hls & Hc) Hi Hj Hcj Hrm Hbm Hchm.
  pose proof (Forall2_length _ _ _ Hk) as Hlk.
  destruct (set_child_value_parts j merged n cj Hcj) as (Eb1 & Ek1 & Ech1 & _).
  destruct (set_child_value_lookup j merged n cj Hcj) as (Hat1 & Hoth1 & Hlen1).
  set (n1 := set_child_value j merged n) in *. clearbody n1.
  assert (Hlk1 : length (keys n1) = length aks) by congruence.
  destruct (lookup_lt_is_Some_2 (children n1) (j + 1)) as [c' Hc']; [lia|].
  eexists. split.
  { unfold TreeNode_removeKey. rewrite Hc'.
    replace (length (children n1) =? 0) with false by (symmetry; apply Nat.eqb_neq; lia).
    cbn. reflexivity. }
  cbn [block changed]. split; [|split; [congruence|done]].
  apply node_parts_pointwise; cbn [keys children block].
  - rewrite Ek1. unfold splice_out.
    apply Forall2_app; [by apply Forall2_take|by apply Forall2_drop].
  - lia.
  - congruence.
  - rewrite !splice_out_length by lia. lia.
  - rewrite !splice_out_length by (rewrite ?length_insert; lia).
    rewrite length_insert. lia.
  - intros j' c lj. rewrite !lookup_splice_out.
    case_decide as Hlt.
    + destruct (decide (j' = j)) as [->|Hne].
      * rewrite Hat1, list_lookup_insert_eq by lia.
        intros [= <-] [= <-]. unfold ChildRep. simpl. split_and!; [done..|congruence].
      * rewrite Hoth1, list_lookup_insert_ne by done. apply Hc. lia.
    + rewrite Hoth1, list_lookup_insert_ne by lia. apply Hc. lia.
Qed.

(** ** One turn of the loop *)

Lemma siblings_spec log pend h p i aks ls ci :
  node_hole log pend h p i aks ls → children p !! i = Some ci →
  ∃ lft rgt p2,
    Returns log (TreeNode_siblings log i p) (lft, rgt, p2)
    ∧ node_hole log pend h p2 i aks ls
    ∧ children p2 !! i = Some ci
    ∧ keys p2 = keys p ∧ block p2 = block p ∧ changed p2 = changed p
    ∧ match lft with
      | None => i = 0
      | Some l =>
          1 ≤ i ∧ ∃ cl ll, children p2 !! (i - 1) = Some cl ∧ ls !! (i - 1) = Some ll
                           ∧ Rep log pend h 1 l ll ∧ block l ≠ None
      end
    ∧ match rgt with
      | None => i = length aks
      | Some r =>
          i < length aks
          ∧ ∃ cr lr, children p2 !! (i + 1) = Some cr ∧ ls !! (i + 1) = Some lr
                     ∧ Rep log pend h 1 r lr ∧ block r ≠ None
      end.
Proof.
  intros Hhole Hci. pose proof Hhole as (Hk & Hbk & Hl & Hls & Hc).
  pose proof (Forall2_length _ _ _ Hk) as Hlk.
  pose proof (lookup_lt_Some _ _ _ Hci) as Hilt.
  (* the left sibling *)
  assert (Hleft : ∃ lft p1,
    Returns log (if i =? 0 then mret (None, p)
                 else '(l, p') ← TreeNode_getChildNode log (i - 1) p; mret (Some l, p'))
      (lft, p1)
    ∧ node_hole log pend h p1 i aks ls ∧ children p1 !! i = Some ci
    ∧ keys p1 = keys p ∧ block p1 = block p ∧ changed p1 = changed p
    ∧ match lft with
      | None => i = 0
      | Some l =>
          1 ≤ i ∧ ∃ cl ll, children p1 !! (i - 1) = Some cl ∧ ls !! (i - 1) = Some ll
                           ∧ Rep log pend h 1 l ll ∧ block l ≠ None
      end).
  { destruct (i =? 0) eqn:E0.
    - apply Nat.eqb_eq in E0. exists None, p. split; [apply Returns_ret|]. by split_and!.
    - apply Nat.eqb_neq in E0.
      destruct (node_hole_getChild log pend h p i aks ls (i - 1) Hhole)
        as (l & cl & ll & Hll & Hcl & Hret & Hrl & Hbl & Hstl & Hhole1); [lia|lia|].
      destruct (set_child_value_parts (i - 1) l p cl Hcl) as (Eb1 & Ek1 & Ech1 & _).
      destruct (set_child_value_lookup (i - 1) l p cl Hcl) as (Hat1 & Hoth1 & Hlen1).
      exists (Some l), (set_child_value (i - 1) l p). split.
      { eapply Returns_bind; [exact Hret|]. cbn. apply Returns_ret. }
      split_and!; try done.
      + rewrite Hoth1; [done|lia].
      + lia.
      + by eexists _, ll. }
  destruct Hleft as (lft & p1 & Hretl & Hhole1 & Hci1 & Ek1 & Eb1 & Ech1 & Hlft).
  pose proof Hhole1 as (_ & _ & Hl1 & Hls1 & _).
  (* the right sibling *)
  destruct (i <? length (children p1) - 1) eqn:E1.
  - apply Nat.ltb_lt in E1.
    destruct (node_hole_getChild log pend h p1 i aks ls (i + 1) Hhole1)
      as (r & cr & lr & Hlr & Hcr & Hret & Hrr & Hbr & Hstr & Hhole2); [lia|lia|].
    destruct (set_child_value_parts (i + 1) r p1 cr Hcr) as (Eb2 & Ek2 & Ech2 & _).
    destruct (set_child_value_lookup (i + 1) r p1 cr Hcr) as (Hat2 & Hoth2 & Hlen2).
    exists lft, (Some r), (set_child_value (i + 1) r p1). split.
    { unfold TreeNode_siblings. rewrite Hci.
      eapply Returns_bind; [exact Hretl|]. cbn -[Nat.ltb Nat.sub].
      assert ((i <? length (children p1) - 1) = true) as -> by (by apply Nat.ltb_lt).
      eapply Returns_bind; [eapply Returns_bind; [exact Hret|]; cbn; apply Returns_ret|].
      cbn. apply Returns_ret. }
    split_and!; try done; try congruence.
    + rewrite Hoth2; [done|lia].
    + destruct lft as [l|]; [|done]. destruct Hlft as (Hi & cl & ll & Hcl & Hll & Hrl & Hbl).
      split; [done|]. exists cl, ll. split_and!; try done. rewrite Hoth2; [done|lia].
    + rewrite Ek1 in Hl1; lia.
    + by eexists _, lr.
  - apply Nat.ltb_ge in E1.
    exists lft, None, p1. split.
    { unfold TreeNode_siblings. rewrite Hci.
      eapply Returns_bind; [exact Hretl|]. cbn -[Nat.ltb Nat.sub].
      assert ((i <? length (children p1) - 1) = false) as -> by (by apply Nat.ltb_ge).
      eapply Returns_bind; [apply Returns_ret|]. cbn. apply Returns_ret. }
    split_and!; try done.
    apply lookup_lt_Some in Hci1. rewrite Ek1 in Hl1. lia.
Qed.

Lemma borrow_left_spec log pend h lo node ln l ll p index aks ls ci cl :
  node_hole log pend h p index aks ls →
  children p !! index = Some ci → 1 ≤ index →
  children p !! (index - 1) = Some cl → ls !! (index - 1) = Some ll →
  Rep log pend h 1 l ll → block l ≠ None → 2 ≤ length (keys l) →
  Rep log pend h 0 node ln → block node ≠ None → changed node = true →
  lo ≤ length (keys p) →
  ∃ p',
    borrow_left node l index p = Some p'
    ∧ block p' = block p ∧ changed p' = changed p
    ∧ Rep log pend (S h) lo p' (before index ls aks ++ ln ++ after index ls aks).
Proof.
  intros Hhole Hci Hi Hcl Hll Hrl Hbl Hlenl Hrn Hbn Hchn Hlo.
  pose proof Hhole as (Hk & Hbk & Hl & Hls & Hc).
  pose proof (Forall2_length _ _ _ Hk) as Hlk.
  pose proof (lookup_lt_Some _ _ _ Hci) as Hilt.
  destruct (lookup_lt_is_Some_2 aks (index - 1)) as [asep Hsep]; [lia|].
  destruct (Forall2_lookup_r _ _ _ _ _ Hk Hsep) as (sep & Hsepk & Hsepr).
  destruct (borrow_left_Rep log pend h l ll node ln sep asep Hrl Hlenl Hbl Hrn Hbn Hsepr)
    as (ncs & lcs & lk & lks & alk & ll' & ln' & Ecs & Epop & Hlkr & Hrn' & Hrl' & El).
  set (node' := mkNode (block node) (sep :: keys node) ncs (changed node)) in *.
  set (l' := mkNode (block l) lks lcs true) in *.
  set (p3 := set_keys (<[index - 1 := lk]> (keys p)) p).
  assert (Hhole3 : node_hole log pend h p3 index (<[index - 1 := alk]> aks) ls).
  { apply node_hole_set_keys with (aks := aks); [done| |by rewrite length_insert].
    by apply Forall2_insert. }
  assert (Ec3 : children p3 = children p) by (by destruct p).
  assert (Hne : index - 1 ≠ index) by lia.
  assert (Hc1 : children p3 !! (index - 1) = Some cl) by (by rewrite Ec3).
  assert (Hc2 : children p3 !! index = Some ci) by (by rewrite Ec3).
  assert (Hlo3 : lo ≤ length (keys p3)).
  { subst p3. destruct p. simpl in *. by rewrite length_insert. }
  destruct (node_hole_fill2 log pend h lo p3 index (<[index - 1 := alk]> aks) ls
              (index - 1) index cl ci l' node' ll' ln' Hhole3 Hne (or_intror eq_refl)
              Hc1 Hc2 Hrl' Hbl eq_refl Hrn' Hbn Hchn Hlo3)
    as (Hparts & Ebf & Echf).
  eexists. split.
  { unfold borrow_left. rewrite Hsepk. cbn [mbind option_bind].
    rewrite Ecs. cbn [mbind option_bind]. rewrite Epop. cbn [mbind option_bind].
    reflexivity. }
  split; [by destruct p|]. split; [by destruct p|].
  apply Rep_S_parts. eexists _, _. split; [exact Hparts|].
  symmetry. eapply interleave_borrow_left; try done; lia.
Qed.

Lemma borrow_right_spec log pend h lo node ln r lr p index aks ls ci cr :
  node_hole log pend h p index aks ls →
  children p !! index = Some ci → index < length aks →
  children p !! (index + 1) = Some cr → ls !! (index + 1) = Some lr →
  Rep log pend h 1 r lr → block r ≠ None → 2 ≤ length (keys r) →
  Rep log pend h 0 node ln → block node ≠ None → changed node = true →
  lo ≤ length (keys p) →
  ∃ p',
    borrow_right node r index p = Some p'
    ∧ block p' = block p ∧ changed p' = changed p
    ∧ Rep log pend (S h) lo p' (before index ls aks ++ ln ++ after index ls aks).
Proof.
  intros Hhole Hci Hi Hcr Hlr Hrr Hbr Hlenr Hrn Hbn Hchn Hlo.
  pose proof Hhole as (Hk & Hbk & Hl & Hls & Hc).
  pose proof (Forall2_length _ _ _ Hk) as Hlk.
  destruct (lookup_lt_is_Some_2 aks index) as [asep Hsep]; [lia|].
  destruct (Forall2_lookup_r _ _ _ _ _ Hk Hsep) as (sep & Hsepk & Hsepr).
  destruct (borrow_right_Rep log pend h r lr node ln sep asep Hrr Hlenr Hbr Hrn Hbn Hsepr)
    as (ncs & rcs & rk & rks & ark & lr' & ln' & Ecs & Eshift & Hrkr & Hrn' & Hrr' & El).
  set (node' := mkNode (block node) (keys node ++ [sep]) ncs (changed node)) in *.
  set (r' := mkNode (block r) rks rcs true) in *.
  set (p3 := set_keys (<[index := rk]> (keys p)) p).
  assert (Hhole3 : node_hole log pend h p3 index (<[index := ark]> aks) ls).
  { apply node_hole_set_keys with (aks := aks); [done| |by rewrite length_insert].
    by apply Forall2_insert. }
  assert (Ec3 : children p3 = children p) by (by destruct p).
  assert (Hne : index ≠ index + 1) by lia.
  assert (Hc1 : children p3 !! index = Some ci) by (by rewrite Ec3).
  assert (Hc2 : children p3 !! (index + 1) = Some cr) by (by rewrite Ec3).
  assert (Hlo3 : lo ≤ length (keys p3)).
  { subst p3. destruct p. simpl in *. by rewrite length_insert. }
  destruct (node_hole_fill2 log pend h lo p3 index (<[index := ark]> aks) ls
              index (index + 1) ci cr node' r' ln' lr' Hhole3 Hne (or_introl eq_refl)
              Hc1 Hc2 Hrn' Hbn Hchn Hrr' Hbr eq_refl Hlo3)
    as (Hparts & Ebf & Echf).
  eexists. split.
  { unfold borrow_right. rewrite Hsepk. cbn [mbind option_bind].
    rewrite Ecs. cbn [mbind option_bind]. rewrite Eshift. cbn [mbind option_bind].
    reflexivity. }
  split; [by destruct p|]. split; [by destruct p|].
  apply Rep_S_parts. eexists _, _. split; [exact Hparts|].
  symmetry. eapply interleave_borrow_right; try done; lia.
Qed.

Lemma merge_siblings_spec log pend h node ln lft rgt p index aks ls ci :
  node_hole log pend h p index aks ls →
  children p !! index = Some ci → 1 ≤ length aks →
  match lft with
  | None => index = 0
  | Some l =>
      1 ≤ index ∧ ∃ cl ll, children p !! (index - 1) = Some cl ∧ ls !! (index - 1) = Some ll
                           ∧ Rep log pend h 1 l ll ∧ block l ≠ None
  end →
  match rgt with
  | None => index = length aks
  | Some r =>
      index < length aks
      ∧ ∃ cr lr, children p !! (index + 1) = Some cr ∧ ls !! (index + 1) = Some lr
                 ∧ Rep log pend h 1 r lr ∧ block r ≠ None
  end →
  Rep log pend h 0 node ln → block node ≠ None →
  ∃ p',
    merge_siblings lft rgt node index p = Some p'
    ∧ block p' = block p ∧ changed p' = true
    ∧ Rep log pend (S h) 0 p' (before index ls aks ++ ln ++ after index ls aks).
Proof.
  intros Hhole Hci Hn Hlft Hrgt Hrn Hbn.
  pose proof Hhole as (Hk & Hbk & Hl & Hls & Hc).
  pose proof (Forall2_length _ _ _ Hk) as Hlk.
  assert (Hlen : length ls = length aks + 1) by lia.
  destruct lft as [l|].
  - destruct Hlft as (Hi & cl & ll & Hcl & Hll & Hrl & Hbl).
    destruct (lookup_lt_is_Some_2 aks (index - 1)) as [asep Hsep];
      [apply lookup_lt_Some in Hci; lia|].
    destruct (Forall2_lookup_r _ _ _ _ _ Hk Hsep) as (sep & Hsepk & Hsepr).
    pose proof (merge_Rep log pend h 1 0 l node ll ln sep asep Hrl Hrn Hsepr Hbl) as Hm.
    assert (Hor : index = index - 1 ∨ index = index - 1 + 1) by (right; lia).
    destruct (node_hole_merge log pend h p index aks ls (index - 1) cl
                (TreeNode_merge node sep l) (ll ++ asep :: ln) Hhole Hor
                (lookup_lt_Some _ _ _ Hsep) Hcl Hm Hbl eq_refl)
      as (p' & Erm & Hparts & Ebp & Echp).
    exists p'. split.
    { unfold merge_siblings. cbn [mbind option_bind]. rewrite Hsepk.
      cbn [mbind option_bind]. exact Erm. }
    split; [done|]. split; [done|].
    apply Rep_S_parts. eexists _, _. split; [exact Hparts|].
    rewrite interleave_merged; [|done|by eapply lookup_lt_Some].
    destruct index as [|i']; [lia|]. replace (S i' - 1) with i' in * by lia.
    rewrite (before_S i' ls aks ll asep Hll Hsep).
    rewrite <- !app_assoc. simpl. done.
  - destruct rgt as [r|].
    + destruct Hrgt as (Hi & cr & lr & Hcr & Hlr & Hrr & Hbr).
      destruct (lookup_lt_is_Some_2 aks index) as [asep Hsep]; [lia|].
      destruct (Forall2_lookup_r _ _ _ _ _ Hk Hsep) as (sep & Hsepk & Hsepr).
      pose proof (merge_Rep log pend h 0 1 node r ln lr sep asep Hrn Hrr Hsepr Hbn) as Hm.
      destruct (node_hole_merge log pend h p index aks ls index ci
                  (TreeNode_merge r sep node) (ln ++ asep :: lr) Hhole
                  (or_introl eq_refl) Hi Hci Hm Hbn eq_refl)
        as (p' & Erm & Hparts & Ebp & Echp).
      exists p'. split.
      { unfold merge_siblings. cbn [mbind option_bind]. rewrite Hsepk.
        cbn [mbind option_bind]. exact Erm. }
      split; [done|]. split; [done|].
      apply Rep_S_parts. eexists _, _. split; [exact Hparts|].
      rewrite interleave_merged by done.
      replace (index + 1) with (S index) in Hlr by lia.
      rewrite (after_cons index ls aks asep lr Hsep Hlr).
      rewrite <- !app_assoc. simpl. done.
    + lia.
Qed.

Lemma rebalance_step_spec log pend h node ln index parent lo lbp lap :
  Rep log pend h 0 node ln → changed node = true → block node ≠ None →
  FrameRep log pend h lo parent index lbp lap →
  changed parent = true → block parent ≠ None → 1 ≤ length (keys parent) →
  ∃ done_ parent',
    Returns log (rebalance_step log node index parent) (done_, parent')
    ∧ changed parent' = true ∧ block parent' ≠ None
    ∧ Rep log pend (S h) (if (done_ : bool) then lo else 0) parent' (lbp ++ ln ++ lap).
Proof.
  intros Hrn Hchn Hbn Hframe Hchp Hbp Hkp.
  pose proof Hframe as (aks & ls & Hparts & Hi & -> & ->).
  destruct (node_parts_lengths _ _ _ _ _ _ _ Hparts) as (Hla & Hll & Hlen).
  destruct (lookup_lt_is_Some_2 (children parent) index) as [c0 Hc0]; [lia|].
  destruct (set_child_value_parts index node parent c0 Hc0) as (Eb0 & Ek0 & Ech0 & _).
  destruct (set_child_value_lookup index node parent c0 Hc0) as (Hat0 & _ & _).
  unfold rebalance_step.
  set (parent0 := set_child_value index node parent) in *.
  destruct (MIN_KEYS <=? length (keys node)) eqn:Emin.
  - apply Nat.leb_le in Emin. unfold MIN_KEYS, T in Emin. simpl in Emin.
    destruct (FrameRep_plug log pend h lo parent index _ _ node ln Hframe)
      as (Hrep & Hch & Hb); [eapply Rep_lo_length; [exact Hrn|lia]|done|done|].
    exists true, parent0. split; [apply Returns_ret|]. split_and!; try done; congruence.
  - pose proof (node_hole_set_child_hole log pend h parent index aks ls node
                  (node_hole_of_parts _ _ _ _ _ index _ _ Hparts Hbp)) as Hhole0.
    fold parent0 in Hhole0.
    destruct (siblings_spec log pend h parent0 index aks ls _ Hhole0 Hat0)
      as (lft & rgt & p2 & Hsib & Hhole2 & Hci2 & Ek2 & Eb2 & Ech2 & Hlft & Hrgt).
    assert (Hlo2 : lo ≤ length (keys p2)).
    { destruct Hparts as (_ & ? & _). congruence. }
    assert (Hmerge : ∃ p',
      Returns log (parent ← lift (merge_siblings lft rgt node index p2);
                   mret (false, parent)) (false, p')
      ∧ changed p' = true ∧ block p' ≠ None
      ∧ Rep log pend (S h) 0 p' (before index ls aks ++ ln ++ after index ls aks)).
    { destruct (merge_siblings_spec log pend h node ln lft rgt p2 index aks ls _
                  Hhole2 Hci2 ltac:(lia) Hlft Hrgt Hrn Hbn)
        as (p' & Em & Ebp & Echp & Hrep).
      exists p'. split; [|split_and!; try done; congruence].
      eapply Returns_bind; [by apply Returns_lift|]. apply Returns_ret. }
    assert (Hright : ∃ done_ p',
      Returns log (match rgt with
                   | Some r =>
                       if MIN_KEYS <? length (keys r)
                       then parent ← lift (borrow_right node r index p2);
                            mret (true, parent)
                       else parent ← lift (merge_siblings lft rgt node index p2);
                            mret (false, parent)
                   | None => parent ← lift (merge_siblings lft rgt node index p2);
                             mret (false, parent)
                   end) (done_, p')
      ∧ changed p' = true ∧ block p' ≠ None
      ∧ Rep log pend (S h) (if (done_ : bool) then lo else 0) p'
          (before index ls aks ++ ln ++ after index ls aks)).
    { destruct rgt as [r|]; [|destruct Hmerge as (p' & ?); by exists false, p'].
      destruct (MIN_KEYS <? length (keys r)) eqn:Er;
        [|destruct Hmerge as (p' & ?); by exists false, p'].
      apply Nat.ltb_lt in Er. unfold MIN_KEYS, T in Er. simpl in Er.
      destruct Hrgt as (Hir & cr & lr & Hcr & Hlr & Hrr & Hbr).
      destruct (borrow_right_spec log pend h lo node ln r lr p2 index aks ls _ cr
                  Hhole2 Hci2 Hir Hcr Hlr Hrr Hbr ltac:(lia) Hrn Hbn Hchn Hlo2)
        as (p' & Eb & Ebp & Echp & Hrep).
      exists true, p'. split; [|split_and!; try done; congruence].
      eapply Returns_bind; [by apply Returns_lift|]. apply Returns_ret. }
    assert (Hall : ∃ done_ p',
      Returns log (match lft with
                   | Some l =>
                       if MIN_KEYS <? length (keys l)
                       then parent ← lift (borrow_left node l index p2);
                            mret (true, parent)
                       else
                         match rgt with
                         | Some r =>
                             if MIN_KEYS <? length (keys r)
                             then parent ← lift (borrow_right node r index p2);
                                  mret (true, parent)
                             else parent ← lift (merge_siblings lft rgt node index p2);
                                  mret (false, parent)
                         | None => parent ← lift (merge_siblings lft rgt node index p2);
                                   mret (false, parent)
                         end
                   | None =>
                       match rgt with
                       | Some r =>
                           if MIN_KEYS <? length (keys r)
                           then parent ← lift (borrow_right node r index p2);
                                mret (true, parent)
                           else parent ← lift (merge_siblings lft rgt node index p2);
                                mret (false, parent)
                       | None => parent ← lift (merge_siblings lft rgt node index p2);
                                 mret (false, parent)
                       end
                   end) (done_, p')
      ∧ changed p' = true ∧ block p' ≠ None
      ∧ Rep log pend (S h) (if (done_ : bool) then lo else 0) p'
          (before index ls aks ++ ln ++ after index ls aks)).
    { destruct lft as [l|]; [|exact Hright].
      destruct (MIN_KEYS <? length (keys l)) eqn:El; [|exact Hright].
      apply Nat.ltb_lt in El. unfold MIN_KEYS, T in El. simpl in El.
      destruct Hlft as (Hil & cl & ll & Hcl & Hll' & Hrl & Hbl).
      destruct (borrow_left_spec log pend h lo node ln l ll p2 index aks ls _ cl
                  Hhole2 Hci2 Hil Hcl Hll' Hrl Hbl ltac:(lia) Hrn Hbn Hchn Hlo2)
        as (p' & Eb & Ebp & Echp & Hrep).
      exists true, p'. split; [|split_and!; try done; congruence].
      eapply Returns_bind; [by apply Returns_lift|]. apply Returns_ret. }
    destruct Hall as (done_ & p' & Hret & Hres).
    exists done_, p'. split; [|exact Hres].
    eapply Returns_bind; [exact Hsib|]. cbn -[Nat.ltb Nat.leb]. exact Hret.
Qed.

(** ** The loop *)

Lemma rebalance_spec log pend lor hr :
  ∀ stack h node ln lb la,
    StackRep log pend h stack lor hr lb la →
    stack_changed stack → stack_owned stack →
    Rep log pend h 0 node ln → changed node = true → block node ≠ None →
    lor = root_min hr →
    ∃ root hr',
      Returns log (rebalance log node stack) root
      ∧ hr' ≤ hr
      ∧ Rep log pend hr' (root_min hr') root (lb ++ ln ++ la).
Proof.
  induction stack as [|[parent index] rest IH];
    intros h node ln lb la Hst Hch Hown Hrn Hchn Hbn Hlor.
  - destruct Hst as (-> & -> & ->). rewrite app_nil_r. simpl app.
    cbn [rebalance].
    destruct ((length (keys node) =? 0) && negb (length (children node) =? 0)) eqn:E.
    + apply andb_true_iff in E as [Ek Ec]. apply Nat.eqb_eq in Ek.
      apply negb_true_iff, Nat.eqb_neq in Ec.
      destruct h as [|h]; [apply Rep_0 in Hrn as (_ & _ & _ & Hc0); by rewrite Hc0 in Ec|].
      apply Rep_S_parts in Hrn as (aks & ls & Hparts & ->).
      destruct (node_parts_lengths _ _ _ _ _ _ _ Hparts) as (Hla & Hll & Hlen).
      destruct Hparts as (Hk & _ & _ & Hc & Hl).
      destruct aks as [|? ?]; [|simpl in Hla; lia].
      destruct ls as [|l0 [|? ?]]; try (simpl in Hlen; lia).
      destruct (Forall2_lookup_r _ _ _ 0 l0 Hc eq_refl) as (c & Hci & Hcr).
      destruct (TreeNode_getChildNode_spec log pend h node 0 c l0 Hci Hcr)
        as (child & Hret & Hrc & _).
      { intros E1. by specialize (Hbn E1). }
      exists child, h. split.
      { eapply Returns_bind; [exact Hret|]. cbn. apply Returns_ret. }
      split; [lia|]. simpl. eapply Rep_lo_weaken; [|exact Hrc]. apply root_min_le.
    + exists node, h. split; [apply Returns_ret|]. split; [done|].
      destruct h as [|h]; [exact Hrn|].
      eapply Rep_lo_length; [exact Hrn|].
      pose proof (Rep_children_nil _ _ _ _ _ _ Hrn) as Ec. simpl in Ec.
      rewrite Ec in E. rewrite andb_true_r in E. apply Nat.eqb_neq in E.
      cbv [root_min]. simpl. lia.
  - destruct Hst as (lb1 & la1 & lb2 & la2 & Hf & Hst & -> & ->).
    apply Forall_cons in Hch as [Hchp Hch]. simpl in Hchp.
    apply Forall_cons in Hown as [Hbp Hown]. simpl in Hbp.
    assert (Hkp : 1 ≤ length (keys parent)).
    { destruct Hf as (aks & ls & (_ & Hlo & _) & _).
      destruct rest; simpl in Hlo; [|done].
      destruct Hst as (Ehr & _). subst lor hr. cbv [root_min] in Hlo. simpl in Hlo. done. }
    destruct (rebalance_step_spec log pend h node ln index parent _ lb1 la1
                Hrn Hchn Hbn Hf Hchp Hbp Hkp)
      as (done_ & parent' & Hret & Hchp' & Hbp' & Hrep').
    assert (El : (lb2 ++ lb1) ++ ln ++ la1 ++ la2 = lb2 ++ (lb1 ++ ln ++ la1) ++ la2)
      by (by rewrite <- !app_assoc).
    rewrite El. destruct done_.
    + exists (unwind parent' rest), hr. split.
      { cbn [rebalance]. eapply Returns_bind; [exact Hret|]. cbn. apply Returns_ret. }
      split; [done|]. rewrite <- Hlor. by eapply unwind_spec.
    + destruct (IH (S h) parent' _ lb2 la2 Hst Hch Hown Hrep' Hchp' Hbp' Hlor)
        as (root & hr' & Hroot & Hle & Hres).
      exists root, hr'. split; [|done].
      cbn [rebalance]. eapply Returns_bind; [exact Hret|]. cbn. exact Hroot.
Qed.

(** * [del] on a log *)

Lemma Rep_set_changed log pend h lo n l ch :
  Rep log pend h lo n l → Rep log pend h lo (set_changed ch n) l.
Proof. destruct h; [rewrite !Rep_0|rewrite !Rep_S_parts]; by destruct n. Qed.

Lemma top_lo_mark_changed stack lor :
  top_lo (mark_changed stack) lor = top_lo stack lor.
Proof. by destruct stack as [|[? ?] ?]. Qed.

Lemma StackRep_mark_changed log pend lor hr :
  ∀ stack h lb la,
    StackRep log pend h stack lor hr lb la →
    StackRep log pend h (mark_changed stack) lor hr lb la.
Proof.
  induction stack as [|[p i] rest IH]; intros h lb la Hst; [done|].
  destruct Hst as (lb1 & la1 & lb2 & la2 & Hf & Hst & -> & ->).
  exists lb1, la1, lb2, la2. split_and!; try done; [|by apply IH].
  destruct Hf as (aks & ls & Hparts & Hi & -> & ->).
  exists aks, ls. split_and!; try done.
  fold (mark_changed rest). rewrite top_lo_mark_changed.
  by apply node_parts_set_changed.
Qed.

Lemma stack_changed_mark stack : stack_changed (mark_changed stack).
Proof. induction stack as [|[p i] rest IH]; constructor; [by destruct p|done]. Qed.

Lemma stack_owned_mark stack : stack_owned stack → stack_owned (mark_changed stack).
Proof.
  induction 1 as [|[p i] rest Hp _ IH]; constructor; [by destruct p|done].
Qed.

Lemma DelPost_sorted l key l' : sorted l → DelPost l key l' → sorted l'.
Proof. intros Hs (l1 & old & l2 & -> & _ & ->). by eapply sorted_delete_middle. Qed.

(** [del] through a batch that flushes by itself, on a handle that is not
    checked out. *)
Lemma Batch_del_spec hd key f l :
  _checkout hd = 0 → TreeInv f l →
  ∃ f' b' l',
    Batch_del key f (new_Batch hd true true) = Some (f', b')
    ∧ TreeInv f' l'
    ∧ ((Forall (λ a, a.2 ≠ key) l ∧ l' = l ∧ f' = HyperBee_ready f)
       ∨ (DelPost l key l'
          ∧ ∃ buf, log f' = log (HyperBee_ready f)
                            ++ [Node_encode (mkNodeMsg buf key None)])).
Proof.
  intros Hc Hinv.
  destruct (HyperBee_ready_inv f l Hinv) as (Hinv1 & Hlen1 & _ & _).
  pose proof Hinv1 as (Hw & Hs & _).
  set (f1 := HyperBee_ready f) in *.
  destruct (Batch_getRoot_spec None hd f l true Hc Hinv)
    as (r & b1 & Eroot & Hok1 & Hv1 & Hr).
  fold f1 in Eroot, Hok1, Hr.
  assert (Hlenb : b_length b1 = 0) by (by destruct Hv1 as (_ & _ & _ & -> & _)).
  unfold Batch_del. rewrite Eroot. cbn [mbind option_bind].
  destruct r as [root|].
  - destruct Hr as (hh & Hh & Hrep & Hch & Hbk & Hunl).
    rewrite Hlenb, Nat.add_0_r.
    assert (Hs0 : sorted ([] ++ l ++ [])) by (by rewrite app_nil_r).
    assert (Hst0 : StackRep (log f1) None hh [] (root_min hh) hh [] []) by done.
    destruct (del_descend_spec (log f1) None key (root_min hh) hh hh
                (descent_fuel f1 b1) root [] l [] []
                ltac:(unfold descent_fuel; lia) (root_min_le hh) Hrep Hbk Hst0
                (Forall_nil_2 _) Hs0 (Forall_nil_2 _) (Forall_nil_2 _))
      as (outcome & Hret & Hpost).
    destruct (Hret b1 Hok1) as (b2 & E2 & Hok2 & Hv2). rewrite E2.
    cbn [mbind option_bind].
    rewrite app_nil_r in Hpost. simpl in Hpost.
    destruct outcome as [node stack|leaf stack].
    + exists f1, b2, l. split; [done|]. split; [done|]. left. by destruct Hpost.
    + destruct Hpost as (lleaf & lb' & la' & Hleaf & Hbkl & Hst & Hown & Hdel).
      destruct (rebalance_spec (log f1) None (root_min hh) hh (mark_changed stack) 0
                  (set_changed true leaf) lleaf lb' la')
        as (root' & hr' & Hroot & Hle & Hrep').
      { by apply StackRep_mark_changed. }
      { apply stack_changed_mark. }
      { by apply stack_owned_mark. }
      { by apply Rep_set_changed. }
      { by destruct leaf. }
      { by destruct leaf. }
      { done. }
      destruct (Hroot b2 Hok2) as (b3 & E3 & Hok3 & Hv3). rewrite E3.
      cbn [mbind option_bind].
      assert (Hauto3 : autoFlush b3 = true).
      { destruct Hv3 as (_ & -> & _). destruct Hv2 as (_ & -> & _).
        by destruct Hv1 as (_ & -> & _). }
      pose proof (DelPost_sorted _ _ _ Hs Hdel) as Hs'.
      destruct (append_TreeInv None root' hr' (lb' ++ lleaf ++ la') key None
                  f1 b3 Hrep') as (buf & f' & E & El & Hinv'); try done; try lia.
      rewrite E. exists f', b3, (lb' ++ lleaf ++ la'). split; [done|].
      split; [done|]. right. split; [done|]. by exists buf.
  - destruct Hr as (-> & Hlt). exists f1, b1, []. split; [done|].
    split; [done|]. left. by split_and!.
Qed.

Lemma HyperBee_del_spec hd key f l :
  _checkout hd = 0 → TreeInv f l →
  ∃ f' l',
    HyperBee_del key hd f = Some f'
    ∧ TreeInv f' l'
    ∧ ((Forall (λ a, a.2 ≠ key) l ∧ l' = l ∧ f' = HyperBee_ready f)
       ∨ (DelPost l key l'
          ∧ ∃ buf, log f' = log (HyperBee_ready f)
                            ++ [Node_encode (mkNodeMsg buf key None)])).
Proof.
  intros Hc Hinv.
  destruct (Batch_del_spec hd key f l Hc Hinv) as (f' & b' & l' & E & Hinv' & Hpost).
  exists f', l'. split; [|done]. unfold HyperBee_del. by rewrite E.
Qed.

(** * Sequences of operations *)

Lemma expected_snoc ops op k :
  expected (ops ++ [op]) k = last_write k (expected ops k) op.
Proof. unfold expected. by rewrite fold_left_app. Qed.

Lemma Valued_ext log l st st' :
  (∀ k, st k = st' k) → Valued log l st → Valued log l st'.
Proof.
  intros E [H1 H2]. split.
  - intros a Ha. destruct (H1 a Ha) as (m & ? & ? & ?). exists m. by rewrite <- E.
  - intros k Hk. rewrite <- E. by apply H2.
Qed.

Lemma Valued_ready f l st :
  TreeInv f l → Valued (log f) l st → Valued (log (HyperBee_ready f)) l st.
Proof.
  intros Hinv Hv. destruct (HyperBee_ready_inv f l Hinv) as (_ & _ & _ & [->|[E1 E2]]);
    [done|].
  destruct Hinv as (_ & _ & Hl). rewrite E1 in Hl. simpl in Hl. subst l.
  destruct Hv as [_ H2]. split; [|done]. intros a Ha. by apply elem_of_nil in Ha.
Qed.

Lemma sorted_middle_ne (l1 l2 : list akey) (a b : akey) :
  sorted (l1 ++ a :: l2) → b ∈ l1 ++ l2 → b.2 ≠ a.2.
Proof.
  intros Hs Hb.
  assert (Hs' : sorted (l1 ++ [a] ++ l2)) by done.
  destruct (sorted_middle_fresh l1 l2 [a] a Hs') as [H1 H2].
  { apply list_elem_of_singleton. done. }
  rewrite Forall_forall in H1, H2.
  apply elem_of_app in Hb as [Hb|Hb]; [by apply H1|by apply H2].
Qed.

Lemma Valued_put log l l' st buf key value :
  Valued log l st → sorted l' → PutPost l (length log, key) l' →
  Valued (log ++ [Node_encode (mkNodeMsg buf key value)]) l'
    (λ k, last_write k (st k) (Put key value)).
Proof.
  intros [H1 H2] Hs' (l1 & l2 & -> & Hcase).
  assert (Hin : ∀ a, a ∈ l1 ++ l2 → a ∈ l).
  { destruct Hcase as [(-> & _)|(old & -> & _)]; [done|].
    intros a. rewrite !elem_of_app, elem_of_cons. tauto. }
  split.
  - intros a Ha. apply elem_of_app in Ha as [Ha|Ha%elem_of_cons].
    + assert (Hne : a.2 ≠ key).
      { apply (sorted_middle_ne l1 l2 (length log, key) a Hs').
        apply elem_of_app. by left. }
      destruct (H1 a) as (m & Hm & Hk & Hv); [apply Hin, elem_of_app; by left|].
      exists m. split; [by apply feed_get_app|]. split; [done|].
      simpl. by rewrite decide_False by congruence.
    + destruct Ha as [->|Ha].
      * eexists. split; [apply feed_get_last|]. simpl. split; [done|].
        by rewrite decide_True.
      * assert (Hne : a.2 ≠ key).
        { apply (sorted_middle_ne l1 l2 (length log, key) a Hs').
          apply elem_of_app. by right. }
        destruct (H1 a) as (m & Hm & Hk & Hv); [apply Hin, elem_of_app; by right|].
        exists m. split; [by apply feed_get_app|]. split; [done|].
        simpl. by rewrite decide_False by congruence.
  - intros k Hk. apply Forall_app in Hk as [Hk1 Hk2].
    apply Forall_cons in Hk2 as [Hne Hk2]. simpl in Hne.
    simpl. rewrite decide_False by congruence. apply H2.
    destruct Hcase as [(-> & _)|(old & -> & Eold)].
    + by apply Forall_app.
    + apply Forall_app. split; [done|]. constructor; [|done].
      simpl in Eold. rewrite Eold. done.
Qed.

Lemma Valued_del log ext l l' st key :
  Valued log l st → sorted l → DelPost l key l' →
  Valued (log ++ ext) l' (λ k, last_write k (st k) (Del key)).
Proof.
  intros [H1 H2] Hs (l1 & old & l2 & -> & Eold & ->). split.
  - intros a Ha.
    assert (Hne : a.2 ≠ key).
    { rewrite <- Eold. by apply (sorted_middle_ne l1 l2 old a Hs). }
    destruct (H1 a) as (m & Hm & Hk & Hv).
    { apply elem_of_app in Ha as [Ha|Ha]; apply elem_of_app; [by left|].
      right. apply elem_of_cons. by right. }
    exists m. split; [by apply feed_get_app|]. split; [done|].
    simpl. by rewrite decide_False by congruence.
  - intros k Hk. simpl. case_decide as Hd; [done|].
    apply H2. apply Forall_app in Hk as [Hk1 Hk2].
    apply Forall_app. split; [done|]. constructor; [|done]. congruence.
Qed.

Lemma Valued_del_miss log l st key :
  Valued log l st → Forall (λ a, a.2 ≠ key) l →
  Valued log l (λ k, last_write k (st k) (Del key)).
Proof.
  intros [H1 H2] Hne. split.
  - intros a Ha. destruct (H1 a Ha) as (m & Hm & Hk & Hv).
    exists m. split_and!; try done. simpl.
    rewrite Forall_forall in Hne. by rewrite decide_False by (intros ->; by eapply Hne).
  - intros k Hk. simpl. case_decide; [done|]. by apply H2.
Qed.



Lemma TreeInv_empty : TreeInv (mkFeed [] true) [].
Proof. split_and!; try done. apply sorted_nil. Qed.

Lemma Valued_empty : Valued [] [] (expected []).
Proof. split; [intros a Ha; by apply elem_of_nil in Ha|done]. Qed.




(** * [del] of a key that is not there *)





(** * Which leaf gives the key that replaces a separator *)


Lemma sample_leaf_Stored o from :
  (o = 1 ∧ from = 0) ∨ (o = 2 ∧ from = 5) →
  Stored sample_log9 0 1 9 o (sample_keys9 from 4).
Proof.
  intros [[-> ->]|[-> ->]]; apply Stored_0.
  - eexists _, _, _. split; [reflexivity|]. split; [reflexivity|].
    split; [reflexivity|]. split; [simpl; lia|]. repeat constructor.
  - eexists _, _, _. split; [reflexivity|]. split; [reflexivity|].
    split; [reflexivity|]. split; [simpl; lia|]. repeat constructor.
Qed.

Lemma sample_root9_parts :
  node_parts sample_log9 None 0 1 sample_root9 (sample_keys9 4 1)
    [sample_keys9 0 4; sample_keys9 5 4].
Proof.
  unfold node_parts. split_and!.
  - repeat constructor.
  - simpl. lia.
  - discriminate.
  - constructor; [|constructor; [|constructor]].
    + apply sample_leaf_Stored. by left.
    + apply sample_leaf_Stored. by right.
  - done.
Qed.




(** * The log as the history of the writes *)

Lemma feed_get_snoc log raw s :
  s < length log → feed_get (log ++ [raw]) s = feed_get log s.
Proof. intros Hs. unfold feed_get. by rewrite lookup_app_l. Qed.

Lemma Newest_snoc log l l' buf key value :
  Newest log l →
  (∀ a, a ∈ l' → a.1 = length log ∨ (a ∈ l ∧ a.2 ≠ key)) →
  Newest (log ++ [Node_encode (mkNodeMsg buf key value)]) l'.
Proof.
  intros Hn Hl a s m Ha Hlt Hm.
  pose proof (feed_get_lt _ _ _ Hm) as Hs. rewrite length_app in Hs. simpl in Hs.
  destruct (Hl a Ha) as [E|[Hal Hne]]; [lia|].
  destruct (decide (s = length log)) as [->|Hne'].
  - rewrite feed_get_last in Hm. injection Hm as <-. simpl. congruence.
  - rewrite feed_get_snoc in Hm by lia. by eapply Hn.
Qed.

Lemma Newest_ready f l :
  TreeInv f l → Newest (log f) l → Newest (log (HyperBee_ready f)) l.
Proof.
  intros Hinv Hn. destruct (HyperBee_ready_inv f l Hinv) as (_ & _ & _ & [->|[E1 E2]]);
    [done|].
  destruct Hinv as (_ & _ & Hl). rewrite E1 in Hl. simpl in Hl. subst l.
  intros a s m Ha. by apply elem_of_nil in Ha.
Qed.

Lemma carries_encode buf key value :
  carries (Node_encode (mkNodeMsg buf key value)) (key, value).
Proof. eexists. split; [apply Node_decode_encode|done]. Qed.

(** One operation: the tree, its values, and what the operation appends. *)
Lemma apply_op_step hd ops op f l :
  _checkout hd = 0 → TreeInv f l → Valued (log f) l (expected ops) →
  Newest (log f) l →
  ∃ f' l' ext,
    apply_op hd op f = Some f' ∧ TreeInv f' l'
    ∧ Valued (log f') l' (expected (ops ++ [op]))
    ∧ Newest (log f') l'
    ∧ log f' = log (HyperBee_ready f) ++ ext
    ∧ Forall2 carries ext (written ops op).
Proof.
  intros Hc Hinv Hv Hn. pose proof (Valued_ready f l _ Hinv Hv) as Hv1.
  pose proof (Newest_ready f l Hinv Hn) as Hn1.
  destruct op as [key value|key]; cbn [apply_op written].
  - destruct (HyperBee_put_spec hd key value f l Hc Hinv)
      as (f' & l' & buf & E & El & Hinv' & Hpp).
    pose proof Hinv' as (_ & Hs' & _).
    exists f', l', [Node_encode (mkNodeMsg buf key value)]. split_and!; try done.
    + rewrite El.
      eapply Valued_ext; [intros k; symmetry; apply expected_snoc|].
      by apply (Valued_put _ l).
    + rewrite El. apply (Newest_snoc _ l); [done|].
      destruct Hpp as (l1 & l2 & -> & Hcase). intros a Ha.
      assert (Hin : ∀ a, a ∈ l1 ++ l2 → a ∈ l).
      { destruct Hcase as [(-> & _)|(old & -> & _)]; [done|].
        intros a'. rewrite !elem_of_app, elem_of_cons. tauto. }
      apply elem_of_app in Ha as [Ha|Ha%elem_of_cons].
      * right. split; [apply Hin, elem_of_app; by left|].
        apply (sorted_middle_ne l1 l2 (length (log (HyperBee_ready f)), key) a Hs').
        apply elem_of_app. by left.
      * destruct Ha as [->|Ha]; [by left|].
        right. split; [apply Hin, elem_of_app; by right|].
        apply (sorted_middle_ne l1 l2 (length (log (HyperBee_ready f)), key) a Hs').
        apply elem_of_app. by right.
    + constructor; [apply carries_encode|constructor].
  - destruct (HyperBee_del_spec hd key f l Hc Hinv)
      as (f' & l' & E & Hinv' & [(Hne & -> & ->)|(Hdel & buf & El)]).
    + exists (HyperBee_ready f), l, []. split_and!; try done.
      * eapply Valued_ext; [intros k; symmetry; apply expected_snoc|].
        by apply Valued_del_miss.
      * by rewrite app_nil_r.
      * destruct Hv as [_ H2]. rewrite (H2 key Hne). constructor.
    + pose proof Hinv as (_ & Hs & _).
      exists f', l', [Node_encode (mkNodeMsg buf key None)]. split_and!; try done.
      * rewrite El.
        eapply Valued_ext; [intros k; symmetry; apply expected_snoc|].
        by apply (Valued_del _ _ l).
      * rewrite El. apply (Newest_snoc _ l); [done|].
        destruct Hdel as (l1 & old & l2 & -> & Eold & ->). intros a Ha. right.
        split.
        -- rewrite elem_of_app, elem_of_cons. apply elem_of_app in Ha. tauto.
        -- rewrite <- Eold. by apply (sorted_middle_ne l1 l2 old a Hs).
      * destruct Hdel as (l1 & old & l2 & -> & Eold & ->).
        destruct Hv as [H1 _]. destruct (H1 old) as (m & _ & _ & Hst).
        { apply elem_of_app. right. by apply elem_of_cons; left. }
        rewrite Eold in Hst. rewrite Hst.
        constructor; [apply carries_encode|constructor].
Qed.

Lemma HyperBee_ready_nonempty f :
  log f ≠ [] → HyperBee_ready f = f.
Proof. unfold HyperBee_ready. by destruct (log f). Qed.

(** A run of operations. *)
Lemma apply_ops_step hd ops :
  _checkout hd = 0 →
  ∀ done_ f l,
    TreeInv f l → Valued (log f) l (expected done_) → Newest (log f) l →
    ∃ f' l' ext,
      apply_ops hd ops f = Some f' ∧ TreeInv f' l'
      ∧ Valued (log f') l' (expected (done_ ++ ops))
      ∧ Newest (log f') l'
      ∧ log f' = log (if ops is [] then f else HyperBee_ready f) ++ ext
      ∧ Forall2 carries ext (history_from done_ ops).
Proof.
  intros Hc. induction ops as [|op ops IH]; intros done_ f l Hinv Hv Hn.
  - exists f, l, []. rewrite !app_nil_r. by split_and!.
  - destruct (apply_op_step hd done_ op f l Hc Hinv Hv Hn)
      as (f1 & l1 & ext1 & E1 & Hinv1 & Hv1 & Hn1 & El1 & Hc1).
    destruct (IH (done_ ++ [op]) f1 l1 Hinv1 Hv1 Hn1)
      as (f' & l' & ext2 & E & Hinv' & Hv' & Hn' & El & Hc2).
    exists f', l', (ext1 ++ ext2). cbn [apply_ops]. rewrite E1.
    cbn [mbind option_bind]. rewrite <- app_assoc in Hv'.
    split_and!; try done.
    + rewrite El, app_assoc, <- El1.
      destruct ops; [done|]. rewrite HyperBee_ready_nonempty; [done|].
      destruct (HyperBee_ready_inv f l Hinv) as (_ & Hlen & _).
      rewrite El1. destruct (log (HyperBee_ready f)); [simpl in Hlen; lia|done].
    + cbn [history_from]. by apply Forall2_app.
Qed.

(** Every log that the operations of a handle make of the empty log. *)
Lemma reachable_history ops :
  ∃ f l ext,
    apply_ops (new_HyperBee None) ops (mkFeed [] true) = Some f
    ∧ TreeInv f l ∧ Valued (log f) l (expected ops) ∧ Newest (log f) l
    ∧ log f = (if ops is [] then [] else [Header_encode protocol_name]) ++ ext
    ∧ Forall2 carries ext (history ops).
Proof.
  destruct (apply_ops_step (new_HyperBee None) ops eq_refl [] (mkFeed [] true) []
              TreeInv_empty Valued_empty) as (f & l & ext & E & Hinv & Hv & Hn & El & Hc).
  { intros a s m Ha. by apply elem_of_nil in Ha. }
  exists f, l, ext. split_and!; try done. rewrite El. by destruct ops.
Qed.






(** * Reading an old version *)







(** * The sequence number of an entry *)



(** * What the reads of a batch touch *)

Lemma with_cache_id b : with_cache (blocks b) (rootSeq b) b = b.
Proof. by destruct b. Qed.

Lemma cache_only_ret {A} (x : A) : cache_only (mret x).
Proof.
  intros b b2 E1 E2. exists (blocks b), (rootSeq b). split; [done|].
  split; [by rewrite with_cache_id|]. by rewrite <- E1, <- E2, with_cache_id.
Qed.

Lemma cache_only_throw {A} : cache_only (@throw A).
Proof. by intros b b2 _ _. Qed.

Lemma cache_only_lift {A} (o : option A) : cache_only (lift o).
Proof.
  destruct o as [x|]; [|by intros b b2 _ _]. apply (cache_only_ret x).
Qed.

Lemma cache_only_bind {A B} (m : M A) (k : A → M B) :
  cache_only m → (∀ x, cache_only (k x)) → cache_only (m ≫= k).
Proof.
  intros Hm Hk b b2 E1 E2. unfold mbind, M_bind.
  specialize (Hm b b2 E1 E2). destruct (m b) as [[x b']|]; [|by rewrite Hm].
  destruct Hm as (bl & rs & Hbl & -> & ->).
  specialize (Hk x (with_cache bl rs b) (with_cache bl rs b2) eq_refl eq_refl).
  destruct (k x (with_cache bl rs b)) as [[y b'']|]; [|done].
  destruct Hk as (bl' & rs' & Hbl' & -> & ->). exists bl', rs'.
  split; [cbn [blocks with_cache] in Hbl'; tauto|done].
Qed.

Lemma cache_only_getBlock log seq : cache_only (Batch_getBlock log seq).
Proof.
  intros [t bl a rs r n] [t2 bl2 a2 rs2 r2 n2]. cbn [blocks rootSeq].
  intros -> ->. unfold Batch_getBlock. cbn [rootSeq].
  destruct (rs =? 0); cbn [blocks set_rootSeq tree autoFlush rootSeq root b_length];
    (destruct bl as [m|]; cbn [mbind option_bind];
     [destruct (m !! seq) as [e|]|];
     [eexists _, _; split; [|split; reflexivity]; done
     |destruct (HyperBee_getBlock log seq) as [e|]; cbn [mbind option_bind];
      [eexists _, _; split; [|split; reflexivity]; done|done]
     |destruct (HyperBee_getBlock log seq) as [e|]; cbn [mbind option_bind];
      [eexists _, _; split; [|split; reflexivity]; done|done]]).
Qed.

Lemma cache_only_block_entry log seq : cache_only (block_entry log seq).
Proof.
  intros b b2 E1 E2. unfold block_entry. rewrite E1.
  destruct (blocks b ≫= _) as [e|]; [by apply (cache_only_ret e)|].
  destruct (HyperBee_getBlock log seq) as [e|]; [by apply (cache_only_ret e)|done].
Qed.

Ltac cache_only_step :=
  lazymatch goal with
  | |- cache_only (mret _) => apply cache_only_ret
  | |- cache_only throw => apply cache_only_throw
  | |- cache_only (lift _) => apply cache_only_lift
  | |- cache_only (Batch_getBlock _ _) => apply cache_only_getBlock
  | |- cache_only (block_entry _ _) => apply cache_only_block_entry
  | |- cache_only (mbind _ _) => apply cache_only_bind; [|intros ?]
  | |- cache_only (match ?x with _ => _ end) => destruct x
  | |- cache_only (let _ := _ in _) => cbv zeta
  end.

Ltac cache_only_auto := repeat (first [assumption | cache_only_step]).

Lemma cache_only_getKey log seq : cache_only (Batch_getKey log seq).
Proof. unfold Batch_getKey. cache_only_auto. Qed.

Lemma cache_only_TreeNode_getKey log i n : cache_only (TreeNode_getKey log i n).
Proof.
  unfold TreeNode_getKey. cache_only_auto. apply cache_only_getKey.
Qed.

Lemma cache_only_getChildNode log i n : cache_only (TreeNode_getChildNode log i n).
Proof. unfold TreeNode_getChildNode. cache_only_auto. Qed.

Lemma cache_only_search_loop log key fuel :
  ∀ n s e c, cache_only (search_loop log fuel key n s e c).
Proof.
  induction fuel as [|fuel IH]; intros n s e c; cbn [search_loop];
    cache_only_auto; try apply cache_only_TreeNode_getKey; try apply IH.
Qed.

Lemma cache_only_search log key n : cache_only (search log key n).
Proof. apply cache_only_search_loop. Qed.

Lemma cache_only_insertKey log key child n :
  cache_only (TreeNode_insertKey log key child n).
Proof.
  unfold TreeNode_insertKey. cache_only_auto; apply cache_only_search.
Qed.

Lemma cache_only_split log n : cache_only (TreeNode_split log n).
Proof.
  unfold TreeNode_split. cache_only_auto; apply cache_only_TreeNode_getKey.
Qed.

Lemma cache_only_siblings log i p : cache_only (TreeNode_siblings log i p).
Proof.
  unfold TreeNode_siblings. cache_only_auto; apply cache_only_getChildNode.
Qed.

Lemma cache_only_getRoot_ready log h : cache_only (HyperBee_getRoot_ready log h).
Proof. unfold HyperBee_getRoot_ready. cache_only_auto. Qed.

Lemma cache_only_put_descend log key target fuel :
  ∀ n stack, cache_only (put_descend log fuel key target n stack).
Proof.
  induction fuel as [|fuel IH]; intros n stack; cbn [put_descend];
    cache_only_auto; try apply cache_only_search;
    try apply cache_only_getChildNode; try apply IH.
Qed.

Lemma cache_only_split_loop log stack :
  ∀ n needsSplit, cache_only (split_loop log n stack needsSplit).
Proof.
  induction stack as [|[p i] stack IH]; intros n needsSplit;
    destruct needsSplit; cbn [split_loop];
    cache_only_auto; try apply cache_only_split;
    try apply cache_only_insertKey; try apply IH.
Qed.

Lemma cache_only_leafSize log goLeft fuel :
  ∀ n, cache_only (leafSize log fuel n goLeft).
Proof.
  induction fuel as [|fuel IH]; intros n; cbn [leafSize];
    cache_only_auto; try apply cache_only_getChildNode; try apply IH.
Qed.

Lemma cache_only_setKeyToNearestLeaf log fuel n i stack :
  cache_only (setKeyToNearestLeaf log fuel n i stack).
Proof.
  unfold setKeyToNearestLeaf.
  cache_only_auto; try apply cache_only_getChildNode; try apply cache_only_leafSize.
Qed.

Lemma cache_only_del_descend log key fuel :
  ∀ n stack, cache_only (del_descend log fuel key n stack).
Proof.
  induction fuel as [|fuel IH]; intros n stack; cbn [del_descend];
    cache_only_auto; try apply cache_only_search;
    try apply cache_only_getChildNode; try apply cache_only_setKeyToNearestLeaf;
    try apply IH.
Qed.

Lemma cache_only_rebalance_step log n i p : cache_only (rebalance_step log n i p).
Proof.
  unfold rebalance_step. cache_only_auto; apply cache_only_siblings.
Qed.

Lemma cache_only_rebalance log stack :
  ∀ n, cache_only (rebalance log n stack).
Proof.
  induction stack as [|[p i] stack IH]; intros n; cbn [rebalance];
    cache_only_auto; try apply cache_only_getChildNode;
    try apply cache_only_rebalance_step; try apply IH.
Qed.

(** * A batch of one operation *)

Lemma twin_run {A} (m : M A) bA bB :
  cache_only m → twin bA bB →
  (m bA = None ∧ m bB = None)
  ∨ ∃ x bA' bB', m bA = Some (x, bA') ∧ m bB = Some (x, bB') ∧ twin bA' bB'.
Proof.
  intros Hm (E1 & E2 & Hbl & HA & HB & HlA & HlB). specialize (Hm bA bB E1 E2).
  destruct (m bA) as [[x bA']|]; [|by left].
  destruct Hm as (bl & rs & Hn & -> & ->). right.
  exists x, (with_cache bl rs bA), (with_cache bl rs bB).
  split; [done|]. split; [done|]. unfold twin. cbn. split_and!; try done. tauto.
Qed.

Lemma mapM_insert_ext {A B} (f : A → option B) (l : list A) (i : nat) (x y : A) :
  f x = f y → mapM f (<[i := x]> l) = mapM f (<[i := y]> l).
Proof.
  intros E. revert i. induction l as [|a l IH]; intros [|i]; simpl; try done.
  - by rewrite E.
  - by rewrite IH.
Qed.

(** The block that [flush] writes for the one block that [_append] staged is
    the block that [_append] appends by itself. *)
Lemma Batch__append_twin root key value f bA bB :
  twin bA bB →
  ('(f1, b1) ← Batch__append root (length (log f)) key value f bA;
   '(f2, _) ← Batch_flush f1 b1; Some f2)
  = ('(f2, _) ← Batch__append root (length (log f)) key value f bB; Some f2).
Proof.
  intros (E1 & E2 & Hbl & HA & HB & HlA & HlB). unfold Batch__append.
  destruct (TreeNode_indexChanges root [] (length (log f))) as [[off index] root'].
  rewrite HA, HB. cbn [negb].
  destruct (blocks bA) as [m|] eqn:Em; [|done]. cbn [mbind option_bind].
  unfold Batch_flush. cbn [b_length]. rewrite HlA. cbn [Nat.eqb seq mapM].
  unfold flush_block at 1. cbn [blocks b_length mbind option_bind].
  rewrite Nat.add_0_r, lookup_insert_eq. cbn [mbind option_bind].
  change (0 <? 1 - 1) with false. cbn match.
  set (root'' := if block root' is None then set_block (Some (length (log f))) root'
                 else root').
  assert (Ed : deflate (<[0 := Some (mkChild (length (log f)) 0 (Some root''))]> index)
               = deflate (<[0 := Some (mkChild (length (log f)) 0 (Some root'))]> index)).
  { unfold deflate. erewrite mapM_insert_ext; [done|].
    unfold root''. by destruct root' as [[?|] ? ? ?]. }
  rewrite Ed. clear Ed.
  destruct (deflate _) as [buf|]; cbn -[Node_encode]; [|done].
  unfold Batch__appendBatch. by destruct (feed_append _ f).
Qed.

Lemma Batch_put_twin key value f bA bB :
  twin bA bB → tree bB = tree bA → root bA = None → root bB = None →
  ('(f1, b1) ← Batch_put key value f bA; '(f2, _) ← Batch_flush f1 b1; Some f2)
  = ('(f2, _) ← Batch_put key value f bB; Some f2).
Proof.
  intros Ht Etree HrA HrB. unfold Batch_put, Batch_getRoot. rewrite HrA, HrB, Etree.
  set (f1 := HyperBee_ready f).
  destruct (twin_run (HyperBee_getRoot_ready (log f1) (tree bA)) bA bB
              (cache_only_getRoot_ready _ _) Ht)
    as [[-> ->]|(r & bA1 & bB1 & -> & -> & Ht1)]; [done|].
  cbn [mbind option_bind]. unfold descent_fuel.
  pose proof Ht1 as (_ & _ & _ & _ & _ & -> & ->). rewrite Nat.add_0_r.
  destruct (twin_run (put_descend (log f1) (length (log f1)) key
                        (mkKey (length (log f1)) (Some key))
                        (default (create None) r) []) bA1 bB1
              (cache_only_put_descend _ _ _ _ _ _) Ht1)
    as [[-> ->]|([[replaced node] stack] & bA2 & bB2 & -> & -> & Ht2)]; [done|].
  cbn [mbind option_bind]. destruct replaced.
  - by apply Batch__append_twin.
  - destruct (twin_run (TreeNode_insertKey (log f1) (mkKey (length (log f1)) (Some key))
                          None node) bA2 bB2 (cache_only_insertKey _ _ _ _) Ht2)
      as [[-> ->]|([ok node'] & bA3 & bB3 & -> & -> & Ht3)]; [done|].
    cbn [mbind option_bind].
    destruct (twin_run (split_loop (log f1) node' stack (negb ok)) bA3 bB3
                (cache_only_split_loop _ _ _ _) Ht3)
      as [[-> ->]|(root' & bA4 & bB4 & -> & -> & Ht4)]; [done|].
    cbn [mbind option_bind]. by apply Batch__append_twin.
Qed.

Lemma Batch_del_twin key f bA bB :
  twin bA bB → tree bB = tree bA → root bA = None → root bB = None →
  ('(f1, b1) ← Batch_del key f bA; '(f2, _) ← Batch_flush f1 b1; Some f2)
  = ('(f2, _) ← Batch_del key f bB; Some f2).
Proof.
  intros Ht Etree HrA HrB. unfold Batch_del, Batch_getRoot. rewrite HrA, HrB, Etree.
  set (f1 := HyperBee_ready f).
  assert (Hflush : ∀ bA' bB', twin bA' bB' →
            ('(f2, _) ← Batch_flush f1 bA'; Some f2) = Some f1).
  { intros bA' bB' (_ & _ & _ & _ & _ & E & _). unfold Batch_flush. by rewrite E. }
  destruct (twin_run (HyperBee_getRoot_ready (log f1) (tree bA)) bA bB
              (cache_only_getRoot_ready _ _) Ht)
    as [[-> ->]|(r & bA1 & bB1 & -> & -> & Ht1)]; [done|].
  cbn [mbind option_bind]. destruct r as [node|]; [|by eapply Hflush].
  unfold descent_fuel.
  pose proof Ht1 as (_ & _ & _ & _ & _ & -> & ->). rewrite Nat.add_0_r.
  destruct (twin_run (del_descend (log f1) (length (log f1)) key node []) bA1 bB1
              (cache_only_del_descend _ _ _ _ _) Ht1)
    as [[-> ->]|(outcome & bA2 & bB2 & -> & -> & Ht2)]; [done|].
  cbn [mbind option_bind]. destruct outcome as [? ?|leaf stack]; [by eapply Hflush|].
  destruct (twin_run (rebalance (log f1) (set_changed true leaf) (mark_changed stack))
              bA2 bB2 (cache_only_rebalance _ _ _) Ht2)
    as [[-> ->]|(root' & bA3 & bB3 & -> & -> & Ht3)]; [done|].
  cbn [mbind option_bind]. by apply Batch__append_twin.
Qed.

(** X7.  A batch of one operation is that operation: [b = batch ()], then
    [b.put (key, value)] or [b.del (key)], then [b.flush ()] leaves the log
    that [put (key, value)] or [del (key)] on the handle leaves, and fails
    when that fails. *)
Theorem batch_of_one_is_the_operation (h : HyperBee) (op : Op) (f : Feed) :
  batched_op h op f = apply_op h op f.
Proof.
  unfold batched_op, apply_op, HyperBee_put, HyperBee_del, HyperBee_batch.
  destruct op as [key value|key].
  - by apply Batch_put_twin.
  - by apply Batch_del_twin.
Qed.

(** * Staging in a batch *)

Lemma cache_only_frame {A} (m : M A) b x b' :
  cache_only m → m b = Some (x, b') →
  ∃ bl rs, (bl = None ↔ blocks b = None) ∧ b' = with_cache bl rs b.
Proof.
  intros Hm E. specialize (Hm b b eq_refl eq_refl). rewrite E in Hm.
  destruct Hm as (bl & rs & ? & ? & _). by exists bl, rs.
Qed.

Lemma Batch__append_staged rt seq key value f b f' b' :
  autoFlush b = false →
  Batch__append rt seq key value f b = Some (f', b') →
  f' = f ∧ tree b' = tree b ∧ autoFlush b' = false
  ∧ b_length b' = S (b_length b) ∧ is_Some (root b')
  ∧ ∃ m idx, blocks b' = Some m ∧ m !! seq = Some (BatchEntry seq key value idx).
Proof.
  intros Ha. unfold Batch__append.
  destruct (TreeNode_indexChanges rt [] seq) as [[off index] root'].
  rewrite Ha. cbn [negb]. destruct (blocks b) as [m|]; [|done].
  cbn [mbind option_bind]. intros [= <- <-]. cbn. split_and!; try done.
  eexists _, _. split; [done|]. by rewrite lookup_insert_eq.
Qed.

(** X8.  In a batch ([autoFlush] off) [put] appends nothing to the log (the
    header apart, which opening an empty log writes): it stages the block in
    the cache of the batch, at the sequence number that follows the log and
    the blocks staged before, with its key and value, sets the root of the
    batch and counts one block more. *)
Theorem put_in_batch_is_staged (key : Buffer) (value : option Buffer)
    (f f' : Feed) (b b' : Batch) :
  autoFlush b = false →
  Batch_put key value f b = Some (f', b') →
  f' = (if root b is Some _ then f else HyperBee_ready f)
  ∧ tree b' = tree b ∧ autoFlush b' = false
  ∧ b_length b' = S (b_length b) ∧ is_Some (root b')
  ∧ ∃ m idx,
      blocks b' = Some m
      ∧ m !! (length (log f') + b_length b)
        = Some (BatchEntry (length (log f') + b_length b) key value idx).
Proof.
  intros Ha. unfold Batch_put.
  assert (Hroot : ∃ r b0 bl rs,
            Batch_getRoot f b
            = Some (r, (if root b is Some _ then f else HyperBee_ready f), b0)
            ∧ b0 = with_cache bl rs b
            ∨ Batch_getRoot f b = None).
  { unfold Batch_getRoot. destruct (root b) as [r|] eqn:Er.
    - exists (Some r), b, (blocks b), (rootSeq b). left. by rewrite with_cache_id.
    - destruct (HyperBee_getRoot_ready (log (HyperBee_ready f)) (tree b) b)
        as [[r b0]|] eqn:E0.
      + destruct (cache_only_frame _ _ _ _ (cache_only_getRoot_ready _ _) E0)
          as (bl & rs & _ & ->).
        exists r, (with_cache bl rs b), bl, rs. by left.
      + exists None, b, None, 0. by right. }
  destruct Hroot as (r & b0 & bl & rs & [[-> ->]| ->]); [|done].
  set (f1 := if root b is Some _ then f else HyperBee_ready f).
  cbn [mbind option_bind]. cbn [b_length with_cache].
  destruct (put_descend _ _ _ _ _ _ _) as [[[[replaced node] stack] b1]|] eqn:E1;
    [|done].
  destruct (cache_only_frame _ _ _ _ (cache_only_put_descend _ _ _ _ _ _) E1)
    as (bl1 & rs1 & _ & ->).
  cbn [mbind option_bind].
  assert (Hfin : ∀ root' bl' rs',
            Batch__append root' (length (log f1) + b_length b) key value f1
              (with_cache bl' rs' b) = Some (f', b') →
            f' = f1 ∧ tree b' = tree b ∧ autoFlush b' = false
            ∧ b_length b' = S (b_length b) ∧ is_Some (root b')
            ∧ ∃ m idx,
                blocks b' = Some m
                ∧ m !! (length (log f') + b_length b)
                  = Some (BatchEntry (length (log f') + b_length b) key value idx)).
  { intros root' bl' rs' E.
    destruct (Batch__append_staged _ _ _ _ _ (with_cache bl' rs' b) _ _ Ha E)
      as (-> & ? & ? & ? & ? & ?). by split_and!. }
  destruct replaced; [by apply Hfin|].
  destruct (TreeNode_insertKey _ _ _ _ _) as [[[ok node'] b2]|] eqn:E2; [|done].
  destruct (cache_only_frame _ _ _ _ (cache_only_insertKey _ _ _ _) E2)
    as (bl2 & rs2 & _ & ->).
  cbn [mbind option_bind].
  destruct (split_loop _ _ _ _ _) as [[root' b3]|] eqn:E3; [|done].
  destruct (cache_only_frame _ _ _ _ (cache_only_split_loop _ _ _ _) E3)
    as (bl3 & rs3 & _ & ->).
  cbn [mbind option_bind]. by apply Hfin.
Qed.

Lemma put_in_batch_is_staged_witness :
  ∃ f' b',
    Batch_put key_b (Some key_b) sample_feed (HyperBee_batch (new_HyperBee None))
    = Some (f', b')
    ∧ f' = sample_feed ∧ b_length b' = 1
    ∧ ∃ m idx, blocks b' = Some m
               ∧ m !! 3 = Some (BatchEntry 3 key_b (Some key_b) idx).
Proof.
  destruct (Batch_put key_b (Some key_b) sample_feed
              (HyperBee_batch (new_HyperBee None))) as [[f' b']|] eqn:E;
    [|by vm_compute in E].
  destruct (put_in_batch_is_staged key_b (Some key_b) sample_feed f'
              (HyperBee_batch (new_HyperBee None)) b' eq_refl E)
    as (Ef & _ & _ & El & _ & m & idx & Em & Ei).
  exists f', b'. split; [done|]. split; [exact Ef|]. split; [exact El|].
  exists m, idx. split; [exact Em|]. rewrite Ef in Ei. exact Ei.
Defined.

(** * More on the nodes *)



(** X10.  [getChildNode] loads a child once: the node it returns is cached
    in the cell [children[index].value], nothing else of the parent changes,
    and a second [getChildNode (index)] returns the cached node and does not
    touch the batch. *)
Theorem getChildNode_caches log i n b child n' b' :
  TreeNode_getChildNode log i n b = Some (child, n', b') →
  (∃ c c', children n !! i = Some c ∧ children n' !! i = Some c'
           ∧ c_seq c' = c_seq c ∧ c_offset c' = c_offset c
           ∧ c_value c' = Some child)
  ∧ (∀ j, j ≠ i → children n' !! j = children n !! j)
  ∧ length (children n') = length (children n)
  ∧ keys n' = keys n ∧ block n' = block n ∧ changed n' = changed n
  ∧ ∀ b2, TreeNode_getChildNode log i n' b2 = Some (child, n', b2).
Proof.
  unfold TreeNode_getChildNode.
  destruct (children n !! i) as [c|] eqn:Ec; [|done].
  destruct (c_value c) as [m|] eqn:Ev.
  - intros [= <- <- <-]. split_and!; try done.
    + by exists c, c.
    + intros b2. by rewrite Ec, Ev.
  - destruct (block n) as [bseq|] eqn:Eb; [|done].
    unfold mbind, M_bind.
    destruct (if c_seq c =? bseq then _ else _) as [[e b1]|]; [|done].
    unfold lift. destruct (getTreeNode e (c_offset c)) as [m|]; [|done].
    cbn [mbind option_bind mret M_ret]. intros [= <- <- <-].
    unfold set_child_value. rewrite Ec.
    pose proof (lookup_lt_Some _ _ _ Ec) as Hlt.
    cbn [children keys block changed set_children].
    split_and!; try done.
    + eexists c, _. split; [done|]. split; [by apply list_lookup_insert_eq|done].
    + intros j Hj. by apply list_lookup_insert_ne.
    + by rewrite length_insert.
    + intros b2. by rewrite list_lookup_insert_eq.
Qed.

Lemma getChildNode_caches_witness :
  ∃ child n' b',
    TreeNode_getChildNode sample_log9 0 sample_root9 sample_batch
    = Some (child, n', b')
    ∧ ∀ b2, TreeNode_getChildNode sample_log9 0 n' b2 = Some (child, n', b2).
Proof.
  destruct (TreeNode_getChildNode sample_log9 0 sample_root9 sample_batch)
    as [[[child n'] b']|] eqn:E; [|by vm_compute in E].
  exists child, n', b'. split; [done|].
  exact (proj2 (proj2 (proj2 (proj2 (proj2 (proj2
           (getChildNode_caches sample_log9 0 sample_root9 sample_batch
              child n' b' E))))))).
Defined.

(** ** [indexChanges] leaves nothing marked *)

Lemma index_children_settled F seq cs :
  Forall settled cs → ∀ index, index_children F seq cs index = (index, cs).
Proof.
  induction 1 as [|[s o [m|]] cs Hc _ IH]; intros index; cbn [index_children];
    [done| |by rewrite IH].
  unfold settled in Hc. simpl in Hc. rewrite Hc. by rewrite IH.
Qed.

Lemma RenumberedChild_settled seq idx c c' :
  RenumberedChild seq idx c c' → settled c'.
Proof.
  destruct 1 as [| |s o m m' off _ _ Hm]; unfold settled; simpl; try done.
  by destruct Hm.
Qed.

(** X11.  [indexChanges] leaves no node marked that it has put into the
    index: the node it returns is unmarked, each of its loaded children too,
    and [indexChanges] on it again, at any block and from any index, reserves
    its slot only and changes nothing. *)
Theorem indexChanges_settles (root : TreeNode) (index : list (option Child))
    (seq : nat) :
  ∃ index' root',
    TreeNode_indexChanges root index seq = (length index, index', root')
    ∧ changed root' = false
    ∧ Forall settled (children root')
    ∧ keys root' = keys root ∧ block root' = block root
    ∧ length (children root') = length (children root)
    ∧ ∀ index2 seq2,
        TreeNode_indexChanges root' index2 seq2
        = (length index2, index2 ++ [None], root').
Proof.
  destruct (TreeNode_indexChanges_spec [] None seq (node_depth root) root index
              (le_n _)) as (ext & root' & E & _ & Hr & _).
  specialize (Hr _ (index_le_refl _)).
  exists (index ++ None :: ext), root'. split; [done|].
  destruct Hr as [b ks cs cs' ch Hcs]. cbn [changed children keys block].
  assert (Hset : Forall settled cs').
  { apply Forall_forall. intros c' Hc'.
    apply list_elem_of_lookup in Hc' as [i Hi].
    destruct (Forall2_lookup_r _ _ _ _ _ Hcs Hi) as (c & _ & Hc).
    by eapply RenumberedChild_settled. }
  split_and!; try done.
  - symmetry. by eapply Forall2_length.
  - intros index2 seq2. rewrite TreeNode_indexChanges_unfold.
    cbn [children keys block]. by rewrite index_children_settled.
Qed.

(** * Restructuring the tree, and writing it *)

(** X12.  [rebalance] keeps the keys of the tree: for the stack that [del]
    leaves (the node on top of height [h], below it the path down from a root
    of height [hr], every node of it marked changed and owned by a block),
    [rebalance] returns a root that stands for the same keys in the same
    order, the keys [lb] before the node, its keys [ln], the keys [la] after
    it; the tree does not get higher, and its root has a key unless it is a
    leaf. *)
Theorem rebalance_keeps_keys log pend lor hr stack h node ln lb la :
  StackRep log pend h stack lor hr lb la →
  stack_changed stack → stack_owned stack →
  Rep log pend h 0 node ln → changed node = true → block node ≠ None →
  lor = root_min hr →
  ∃ root hr',
    Returns log (rebalance log node stack) root
    ∧ hr' ≤ hr
    ∧ Rep log pend hr' (root_min hr') root (lb ++ ln ++ la).
Proof. apply rebalance_spec. Qed.

Lemma sample_leaf3_Rep :
  Rep sample_log9 None 0 0 (set_changed true (unloaded_leaf 9 3)) (sample_keys9 0 3).
Proof.
  apply Rep_0. split_and!.
  - repeat constructor.
  - simpl. lia.
  - discriminate.
  - done.
Qed.

Lemma rebalance_keeps_keys_witness :
  ∃ root hr',
    Returns sample_log9
      (rebalance sample_log9 (set_changed true (unloaded_leaf 9 3))
         [(set_changed true sample_root9, 0)]) root
    ∧ hr' ≤ 1
    ∧ Rep sample_log9 None hr' (root_min hr') root
        (([] ++ before 0 [sample_keys9 0 4; sample_keys9 5 4] (sample_keys9 4 1))
         ++ sample_keys9 0 3
         ++ after 0 [sample_keys9 0 4; sample_keys9 5 4] (sample_keys9 4 1) ++ []).
Proof.
  apply (rebalance_keeps_keys sample_log9 None 1 1
           [(set_changed true sample_root9, 0)] 0
           (set_changed true (unloaded_leaf 9 3)) (sample_keys9 0 3)).
  - exists (before 0 [sample_keys9 0 4; sample_keys9 5 4] (sample_keys9 4 1)),
      (after 0 [sample_keys9 0 4; sample_keys9 5 4] (sample_keys9 4 1)), [], [].
    split_and!; [|done|reflexivity|reflexivity].
    exists (sample_keys9 4 1), [sample_keys9 0 4; sample_keys9 5 4].
    split_and!; [|simpl; lia|reflexivity|reflexivity].
    apply node_parts_set_changed. exact sample_root9_parts.
  - by repeat constructor.
  - by repeat constructor.
  - exact sample_leaf3_Rep.
  - reflexivity.
  - discriminate.
  - reflexivity.
Defined.



(** X14.  What [_append] writes is the tree it was given: for a root in
    memory that stands for the keys [l] in a tree of height [h], [_append] of
    a batch that flushes by itself appends one block to a writable log, with
    the key and the value of the operation, and level 0 of the index of that
    block is the root of a stored tree of height [h] with the keys [l]. *)
Theorem append_stores_the_tree pend rt h lo l key value f b :
  Rep (log f) pend h lo rt l →
  (∀ a, pend = Some a → a = (length (log f), key)) →
  writable f = true → autoFlush b = true →
  ∃ buf,
    Batch__append rt (length (log f)) key value f b
    = Some (mkFeed (log f ++ [Node_encode (mkNodeMsg buf key value)]) true, b)
    ∧ Stored (log f ++ [Node_encode (mkNodeMsg buf key value)]) h lo
        (length (log f)) 0 l.
Proof. apply Batch__append_spec. Qed.

Lemma append_stores_the_tree_witness :
  ∃ buf,
    Batch__append (set_changed true sample_root) (length (log sample_feed)) key_b None
      sample_feed sample_batch
    = Some (mkFeed (log sample_feed ++ [Node_encode (mkNodeMsg buf key_b None)]) true,
            sample_batch)
    ∧ Stored (log sample_feed ++ [Node_encode (mkNodeMsg buf key_b None)]) 0 0
        (length (log sample_feed)) 0 sample_keys.
Proof.
  apply (append_stores_the_tree None (set_changed true sample_root) 0 0 sample_keys
           key_b None sample_feed sample_batch).
  - apply Rep_0. split_and!.
    + repeat constructor.
    + simpl. lia.
    + discriminate.
    + done.
  - discriminate.
  - reflexivity.
  - reflexivity.
Defined.

(** * The number of keys of a node *)

Lemma Occ_0 log lo s o :
  Occ log 0 lo s o ↔
  ∃ m levels ks,
    feed_get log s = Some m ∧ inflate (m_index m) = Some levels
    ∧ levels !! o = Some (ks, []) ∧ lo ≤ length ks ∧ length ks ≤ MAX_KEYS.
Proof.
  simpl. split.
  - intros (m & levels & ks & cs & ? & ? & ? & ? & ? & ->). by exists m, levels, ks.
  - intros (m & levels & ks & ? & ? & ? & ? & ?). by exists m, levels, ks, [].
Qed.

Lemma Occ_S log h lo s o :
  Occ log (S h) lo s o ↔
  ∃ m levels ks cs,
    feed_get log s = Some m ∧ inflate (m_index m) = Some levels
    ∧ levels !! o = Some (ks, cs) ∧ lo ≤ length ks ∧ length ks ≤ MAX_KEYS
    ∧ length cs = length ks + 1
    ∧ Forall (λ c, Occ log h MIN_KEYS (c_seq c) (c_offset c)) cs.
Proof.
  simpl. split.
  - intros (m & levels & ks & cs & ? & ? & ? & ? & ? & ? & ?).
    by exists m, levels, ks, cs.
  - intros (m & levels & ks & cs & ? & ? & ? & ? & ? & ? & ?).
    by exists m, levels, ks, cs.
Qed.

Lemma MOcc_0 log lo hi n :
  MOcc log 0 lo hi n ↔
  lo ≤ length (keys n) ∧ length (keys n) ≤ hi ∧ children n = [].
Proof. done. Qed.

Lemma MOcc_S log h lo hi n :
  MOcc log (S h) lo hi n ↔
  lo ≤ length (keys n) ∧ length (keys n) ≤ hi
  ∧ length (children n) = length (keys n) + 1
  ∧ Forall (COcc (MOcc log h MIN_KEYS MAX_KEYS) (Occ log h MIN_KEYS)) (children n).
Proof. done. Qed.

#[global] Opaque Occ MOcc.

Lemma MOcc_bounds log h lo hi n :
  MOcc log h lo hi n → lo ≤ length (keys n) ∧ length (keys n) ≤ hi.
Proof. destruct h; [rewrite MOcc_0|rewrite MOcc_S]; tauto. Qed.

(** Only the numbers of keys and the children of a node count. *)
Lemma MOcc_shape log h lo hi lo' hi' n n' :
  MOcc log h lo hi n →
  children n' = children n →
  lo' ≤ length (keys n') → length (keys n') ≤ hi' →
  (h ≠ 0 → length (keys n') = length (keys n)) →
  MOcc log h lo' hi' n'.
Proof.
  destruct h.
  - rewrite !MOcc_0. intros (_ & _ & Hc) Ec ? ? _. by rewrite Ec.
  - rewrite !MOcc_S. intros (_ & _ & Hl & Hc) Ec ? ? El.
    split_and!; try done; [by rewrite Ec, El|by rewrite Ec].
Qed.

Lemma MOcc_rebound log h lo hi lo' hi' n :
  MOcc log h lo hi n → lo' ≤ length (keys n) → length (keys n) ≤ hi' →
  MOcc log h lo' hi' n.
Proof. intros H ? ?. by eapply MOcc_shape. Qed.

Lemma MOcc_shape_eq log h lo hi n n' :
  MOcc log h lo hi n → shape_eq n n' → MOcc log h lo hi n'.
Proof.
  intros H (El & Ec & _). pose proof (MOcc_bounds _ _ _ _ _ H).
  eapply MOcc_shape; [exact H|done|lia|lia|done].
Qed.

Lemma MOcc_set_changed log h lo hi n ch :
  MOcc log h lo hi n → MOcc log h lo hi (set_changed ch n).
Proof.
  intros H. pose proof (MOcc_bounds _ _ _ _ _ H).
  eapply MOcc_shape; [exact H|done|simpl; lia|simpl; lia|done].
Qed.

Lemma shape_eq_refl n : shape_eq n n.
Proof. done. Qed.

Lemma shape_eq_trans n1 n2 n3 : shape_eq n1 n2 → shape_eq n2 n3 → shape_eq n1 n3.
Proof. intros (?&?&?) (?&?&?). unfold shape_eq. split_and!; congruence. Qed.

(** ** The log only grows *)

Lemma Occ_app log ext h : ∀ lo s o, Occ log h lo s o → Occ (log ++ ext) h lo s o.
Proof.
  induction h as [|h IH]; intros lo s o.
  - rewrite !Occ_0. intros (m & levels & ks & ? & ?). exists m, levels, ks.
    split; [by apply feed_get_app|done].
  - rewrite !Occ_S. intros (m & levels & ks & cs & ? & ? & ? & ? & ? & ? & Hcs).
    exists m, levels, ks, cs. split_and!; try done; [by apply feed_get_app|].
    eapply Forall_impl; [exact Hcs|]. intros c. apply IH.
Qed.

Lemma MOcc_app log ext h : ∀ lo hi n, MOcc log h lo hi n → MOcc (log ++ ext) h lo hi n.
Proof.
  induction h as [|h IH]; intros lo hi n; [by rewrite !MOcc_0|].
  rewrite !MOcc_S. intros (? & ? & ? & Hcs). split_and!; try done.
  eapply Forall_impl; [exact Hcs|]. intros c. unfold COcc.
  destruct (c_value c) as [m|].
  - intros [Hm Hs]. split; [by apply IH|]. intros E. by apply Occ_app, Hs.
  - apply Occ_app.
Qed.

(** ** Loading a stored node *)

Lemma Occ_load log h lo s o :
  Occ log h lo s o →
  ∃ e n,
    HyperBee_getBlock log s = Some e ∧ getTreeNode e o = Some n
    ∧ MOcc log h lo MAX_KEYS n ∧ changed n = false.
Proof.
  destruct h as [|h].
  - rewrite Occ_0. intros (m & levels & ks & Hm & Hi & Ho & Hlo & Hhi).
    eexists _, (mkNode (Some s) ks [] false).
    split; [by apply feed_get_getBlock|].
    split; [simpl; by rewrite Hi; simpl; rewrite Ho|]. split; [|done].
    by apply MOcc_0.
  - rewrite Occ_S. intros (m & levels & ks & cs & Hm & Hi & Ho & Hlo & Hhi & Hl & Hcs).
    eexists _, (mkNode (Some s) ks cs false).
    split; [by apply feed_get_getBlock|].
    split; [simpl; by rewrite Hi; simpl; rewrite Ho|]. split; [|done].
    destruct (inflate_unloaded _ _ _ _ _ Hi Ho) as [_ Hun].
    apply MOcc_S. simpl. split_and!; try done.
    rewrite Forall_forall in Hun, Hcs. apply Forall_forall. intros c Hc.
    unfold COcc. rewrite (Hun c Hc). by apply Hcs.
Qed.

(** ** Reads that return *)

Lemma bind_Some {A B} (m : M A) (k : A → M B) b y b'' :
  (m ≫= k) b = Some (y, b'') →
  ∃ x b', m b = Some (x, b') ∧ k x b' = Some (y, b'').
Proof.
  unfold mbind, M_bind. destruct (m b) as [[x b']|]; [|done].
  intros H. by exists x, b'.
Qed.

Lemma lift_Some {A} (o : option A) b x b' :
  lift o b = Some (x, b') → o = Some x ∧ b' = b.
Proof. unfold lift. destruct o; simpl; [|done]. by intros [= -> ->]. Qed.

Lemma ret_Some {A} (x0 : A) b x b' :
  (mret x0 : M A) b = Some (x, b') → x = x0 ∧ b' = b.
Proof. by intros [= -> ->]. Qed.

Lemma Post_getBlock log s :
  Post log (Batch_getBlock log s) (λ e, HyperBee_getBlock log s = Some e).
Proof.
  intros b e b' Hok. unfold Batch_getBlock.
  set (b1 := if rootSeq b =? 0 then set_rootSeq s b else b).
  assert (Hok1 : cache_ok log b1) by (subst b1; by destruct (rootSeq b =? 0)).
  clearbody b1. destruct (blocks b1) as [m|] eqn:Em; cbn [mbind option_bind].
  - destruct (m !! s) as [e0|] eqn:Es.
    + intros [= <- <-]. split; [done|]. by eapply Hok1.
    + destruct (HyperBee_getBlock log s) as [e0|] eqn:Eg; [|done].
      cbn [mbind option_bind]. intros [= <- <-]. split; [|done].
      intros m' s' e' [= <-] Hl. cbn [blocks set_blocks] in *.
      destruct (decide (s' = s)) as [->|Hne].
      * rewrite lookup_insert_eq in Hl. congruence.
      * rewrite lookup_insert_ne in Hl by done. by eapply Hok1.
  - destruct (HyperBee_getBlock log s) as [e0|] eqn:Eg; [|done].
    cbn [mbind option_bind]. by intros [= <- <-].
Qed.

Lemma Post_block_entry log s :
  Post log (block_entry log s) (λ e, HyperBee_getBlock log s = Some e).
Proof.
  intros b e b' Hok. unfold block_entry.
  destruct (blocks b) as [m|] eqn:Em; cbn [mbind option_bind].
  - destruct (m !! s) as [e0|] eqn:Es.
    + intros [= <- <-]. split; [done|]. by eapply Hok.
    + destruct (HyperBee_getBlock log s) as [e0|] eqn:Eg; [|done].
      cbn [mbind option_bind]. by intros [= <- <-].
  - destruct (HyperBee_getBlock log s) as [e0|] eqn:Eg; [|done].
    cbn [mbind option_bind]. by intros [= <- <-].
Qed.

Lemma Post_getKey log i n :
  Post log (TreeNode_getKey log i n) (λ '(_, n'), shape_eq n n').
Proof.
  intros b [k n'] b' Hok. unfold TreeNode_getKey.
  destruct (keys n !! i) as [key|] eqn:Ek; [|done].
  destruct (k_value key) as [v|]; [by intros [= <- <- <-]|].
  destruct (block n) as [bseq|]; [|done].
  intros (k0 & b1 & H1 & [= <- <- <-])%bind_Some.
  split.
  - destruct (k_seq key =? bseq).
    + apply bind_Some in H1 as (e & b2 & H1 & [= <- <-]).
      by destruct (Post_block_entry log bseq b e b2 Hok H1).
    + unfold Batch_getKey in H1.
      apply bind_Some in H1 as (e & b2 & H1 & [= <- <-]).
      by destruct (Post_getBlock log _ b e b2 Hok H1).
  - unfold shape_eq. cbn [keys children changed set_keys].
    by rewrite length_insert.
Qed.

Lemma Post_search_loop log key fuel :
  ∀ n s e c,
    Post log (search_loop log fuel key n s e c) (λ '(_, n'), shape_eq n n').
Proof.
  induction fuel as [|fuel IH]; intros n s e c b [r n'] b' Hok; cbn [search_loop];
    (destruct (s <? e); [|by intros [= <- <- <-]]); [done|].
  intros ([k n1] & b1 & H1 & H2)%bind_Some.
  destruct (Post_getKey log _ n b (k, n1) b1 Hok H1) as [Hok1 Hs1].
  destruct (cmp key k =? 0)%Z; [by injection H2 as <- <- <-|].
  destruct (cmp key k <? 0)%Z.
  - destruct (IH _ _ _ _ b1 (r, n') b' Hok1 H2) as [Hok' Hs']. split; [done|].
    by eapply shape_eq_trans.
  - destruct (IH _ _ _ _ b1 (r, n') b' Hok1 H2) as [Hok' Hs']. split; [done|].
    by eapply shape_eq_trans.
Qed.

Lemma Post_search log key n :
  Post log (search log key n) (λ '(_, n'), shape_eq n n').
Proof. apply Post_search_loop. Qed.

Lemma Post_getChildNode log h i n c :
  children n !! i = Some c →
  COcc (MOcc log h MIN_KEYS MAX_KEYS) (Occ log h MIN_KEYS) c →
  Post log (TreeNode_getChildNode log i n)
    (λ '(child, n'),
       n' = set_child_value i child n
       ∧ MOcc log h MIN_KEYS MAX_KEYS child
       ∧ (changed child = false → Occ log h MIN_KEYS (c_seq c) (c_offset c))).
Proof.
  intros Hc Hocc b [child n'] b' Hok. unfold TreeNode_getChildNode. rewrite Hc.
  unfold COcc in Hocc. destruct (c_value c) as [x|] eqn:Ev.
  - intros [= <- <- <-]. split; [done|]. destruct Hocc as [Hx Hs].
    split_and!; try done. by rewrite (set_child_value_same i x n c Hc Ev).
  - destruct (block n) as [bseq|]; [|done].
    intros (e & b1 & H1 & (n0 & b2 & [H2 ->]%lift_Some & [= <- <- <-])%bind_Some)%bind_Some.
    destruct (Occ_load _ _ _ _ _ Hocc) as (e0 & n1 & He0 & Hn1 & Hm & Hch).
    assert (cache_ok log b1 ∧ HyperBee_getBlock log (c_seq c) = Some e) as [Hok1 He].
    { destruct (c_seq c =? bseq) eqn:E.
      - apply Nat.eqb_eq in E. subst bseq. by apply (Post_block_entry log _ b).
      - by apply (Post_getBlock log _ b). }
    split; [done|]. assert (e = e0) as -> by congruence.
    assert (n0 = n1) as -> by congruence. by split_and!.
Qed.

Lemma getChildNode_Some log i n b x b' :
  TreeNode_getChildNode log i n b = Some (x, b') → is_Some (children n !! i).
Proof.
  unfold TreeNode_getChildNode. by destruct (children n !! i).
Qed.

(** ** A node with one cell under work *)

Lemma MOcc_hole log h lo hi n i :
  MOcc log (S h) lo hi n → i < length (children n) → HoleOcc log h lo hi n i.
Proof.
  rewrite MOcc_S. intros (? & ? & ? & Hc) ?. split_and!; try done.
  intros j c _ Hj. rewrite Forall_lookup in Hc. by eapply Hc.
Qed.

Lemma MOcc_child log h lo hi n i c :
  MOcc log (S h) lo hi n → children n !! i = Some c →
  COcc (MOcc log h MIN_KEYS MAX_KEYS) (Occ log h MIN_KEYS) c.
Proof.
  rewrite MOcc_S. intros (_ & _ & _ & Hc) Hi. rewrite Forall_lookup in Hc.
  by eapply Hc.
Qed.

Lemma HoleOcc_plug log h lo hi p i node :
  HoleOcc log h lo hi p i → MOcc log h MIN_KEYS MAX_KEYS node →
  changed node = true →
  MOcc log (S h) lo hi (set_child_value i node p).
Proof.
  intros (Hlo & Hhi & Hl & Hi & Hc) Hn Hch.
  destruct (lookup_lt_is_Some_2 (children p) i Hi) as [c Ec].
  destruct (set_child_value_parts i node p c Ec) as (_ & Ek & _ & Ecs).
  apply MOcc_S. rewrite Ek, Ecs, length_insert. split_and!; try done.
  apply Forall_lookup. intros j c' Hj.
  destruct (decide (j = i)) as [->|Hne].
  - rewrite list_lookup_insert_eq in Hj by done. injection Hj as <-.
    unfold COcc. simpl. split; [done|]. by rewrite Hch.
  - rewrite list_lookup_insert_ne in Hj by done. by eapply Hc.
Qed.

Lemma HoleOcc_set log h lo hi p i x :
  HoleOcc log h lo hi p i → HoleOcc log h lo hi (set_child_value i x p) i.
Proof.
  intros (Hlo & Hhi & Hl & Hi & Hc).
  destruct (lookup_lt_is_Some_2 (children p) i Hi) as [c Ec].
  destruct (set_child_value_parts i x p c Ec) as (_ & Ek & _ & Ecs).
  unfold HoleOcc. rewrite Ek, Ecs, length_insert. split_and!; try done.
  intros j c' Hne Hj. rewrite list_lookup_insert_ne in Hj by done. by eapply Hc.
Qed.

Lemma unwind_occ log hr stack :
  ∀ h node,
    OStack log h stack hr → stack_changed stack →
    MOcc log h (node_lo stack h) MAX_KEYS node → changed node = true →
    MOcc log hr (root_min hr) MAX_KEYS (unwind node stack).
Proof.
  induction stack as [|[p i] rest IH]; intros h node Hst Hch Hn Hc.
  - simpl in Hst. by subst hr.
  - destruct Hst as [Hp Hst]. apply Forall_cons in Hch as [Hcp Hch]. simpl in Hcp.
    cbn [unwind]. apply (IH (S h)); try done.
    + by apply HoleOcc_plug.
    + destruct Hp as (_ & _ & _ & Hi & _).
      destruct (lookup_lt_is_Some_2 (children p) i Hi) as [c Ec].
      by destruct (set_child_value_parts i node p c Ec) as (_ & _ & -> & _).
Qed.

(** ** [put] *)

Lemma Post_insertKey log key child n :
  Post log (TreeNode_insertKey log key child n)
    (λ '(ok, n'),
       changed n' = true
       ∧ ((length (keys n') = length (keys n) ∧ children n' = children n
           ∧ ok = true)
          ∨ (length (keys n') = S (length (keys n))
             ∧ ok = (S (length (keys n)) <? MAX_CHILDREN)
             ∧ ∃ i, children n'
                    = match child with
                      | Some ch =>
                          splice_in (i + 1) (mkChild 0 0 (Some ch)) (children n)
                      | None => children n
                      end))).
Proof.
  intros b [ok n'] b' Hok. unfold TreeNode_insertKey.
  destruct (k_value key) as [kv|]; [|done].
  intros ([r n1] & b1 & H1 & H2)%bind_Some.
  destruct (Post_search log kv n b (r, n1) b1 Hok H1) as [Hok1 (El & Ec & _)].
  destruct r as [mid|c s e]; injection H2 as <- <- <-; (split; [done|]);
    cbn [changed keys children]; (split; [done|]).
  - left. by rewrite length_insert, El, Ec.
  - right. rewrite splice_in_length, El, Ec. split_and!; try done.
    by exists (insertion_index c s e).
Qed.

Lemma Post_split log n :
  1 ≤ length (keys n) →
  children n = [] ∨ length (children n) = length (keys n) + 1 →
  Post log (TreeNode_split log n)
    (λ '(lft, _, rgt),
       length (keys rgt) = length (keys n) / 2
       ∧ length (keys lft) = length (keys n) - length (keys n) / 2 - 1
       ∧ changed lft = true ∧ changed rgt = true
       ∧ children lft
         = take (length (children n) - (length (keys n) / 2 + 1)) (children n)
       ∧ children rgt
         = drop (length (children n) - (length (keys n) / 2 + 1)) (children n)).
Proof.
  intros Hnk Hcs b [[lft median] rgt] b' Hok. unfold TreeNode_split.
  pose proof (half_lt _ Hnk) as Hlen.
  set (nk := length (keys n)) in *. set (len := nk / 2) in *.
  rewrite (pop_push_spec len len len (keys n) []); [|done|done|fold nk; lia].
  fold nk. cbn [lift mbind option_bind app].
  intros ([ks rks] & b0 & [= <- <- <-] & H)%bind_Some.
  apply bind_Some in H as ([k n1] & b1 & H1 & H).
  destruct (Post_getKey log _ _ b (k, n1) b1 Hok H1) as [Hok1 (El & Ec & _)].
  cbn [keys children set_keys] in El, Ec. rewrite length_take in El.
  apply bind_Some in H as ([m ks'] & b2 & [Hpop ->]%lift_Some & H).
  destruct (pop_lookup _ _ _ Hpop) as [-> _].
  apply bind_Some in H as ([cs rcs] & b3 & [Hch ->]%lift_Some & [= <- <- <- <-]).
  split; [done|]. cbn [keys children changed].
  rewrite rev_involutive, length_drop, length_take, El. fold nk.
  split; [lia|]. split; [lia|]. split; [done|]. split; [done|].
  rewrite Ec in Hch. destruct Hcs as [E0|Hl].
  - rewrite E0 in Hch |- *. simpl in Hch. injection Hch as <- <-. done.
  - assert ((length (children n) =? 0) = false) as E by (apply Nat.eqb_neq; lia).
    rewrite E in Hch.
    rewrite (pop_push_spec (len + 1) (len + 1) (len + 1) (children n) []) in Hch;
      [|done|done|fold nk in Hl; lia].
    cbn [mbind option_bind app] in Hch. injection Hch as <- <-.
    by rewrite rev_involutive.
Qed.

Lemma Post_put_descend log key target hr fuel :
  ∀ h node stack,
    MOcc log h (node_lo stack h) MAX_KEYS node →
    OStack log h stack hr → stack_changed stack →
    Post log (put_descend log fuel key target node stack)
      (λ '(replaced, node', stack'),
         ∃ h', OStack log h' stack' hr ∧ stack_changed stack'
               ∧ MOcc log h' (node_lo stack' h') MAX_KEYS node'
               ∧ (if (replaced : bool) then changed node' = true else h' = 0)).
Proof.
  induction fuel as [|fuel IH]; intros h node stack Hn Hst Hch b
    [[replaced node'] stack'] b' Hok; cbn [put_descend].
  - destruct h as [|h].
    + pose proof Hn as (_ & _ & ->)%MOcc_0. simpl. intros [= <- <- <- <-].
      split; [done|]. by exists 0.
    + pose proof Hn as (_ & _ & Hl & _)%MOcc_S.
      by assert ((length (children node) =? 0) = false) as ->
        by (apply Nat.eqb_neq; lia).
  - destruct h as [|h].
    + pose proof Hn as (_ & _ & ->)%MOcc_0. simpl. intros [= <- <- <- <-].
      split; [done|]. by exists 0.
    + pose proof Hn as (_ & _ & Hl & _)%MOcc_S.
      assert ((length (children node) =? 0) = false) as ->
        by (apply Nat.eqb_neq; lia).
      intros ([r n1] & b1 & H1 & H2)%bind_Some.
      destruct (Post_search log key _ b (r, n1) b1 Hok H1) as [Hok1 Hs1].
      assert (Hn1 : MOcc log (S h) (node_lo stack (S h)) MAX_KEYS n1).
      { eapply MOcc_shape_eq; [|exact Hs1]. by apply MOcc_set_changed. }
      assert (Hc1 : changed n1 = true).
      { destruct Hs1 as (_ & _ & ->). by destruct node. }
      destruct r as [mid|c s e].
      * injection H2 as <- <- <- <-. split; [done|]. exists (S h).
        split_and!; try done.
        eapply MOcc_shape_eq; [exact Hn1|]. unfold shape_eq.
        cbn [TreeNode_setKey keys children changed]. by rewrite length_insert.
      * apply bind_Some in H2 as ([child n2] & b2 & H2 & H3).
        destruct (getChildNode_Some _ _ _ _ _ _ H2) as [cell Hcell].
        destruct (Post_getChildNode log h _ n1 cell Hcell
                    (MOcc_child _ _ _ _ _ _ _ Hn1 Hcell) b1 (child, n2) b2 Hok1 H2)
          as (Hok2 & -> & Hchild & _).
        eapply (IH h child _ _ _ _ b2 (replaced, node', stack') b' Hok2 H3).
        Unshelve.
        -- exact Hchild.
        -- split; [|done]. apply HoleOcc_set. apply MOcc_hole; [done|].
           by eapply lookup_lt_Some.
        -- constructor; [|done]. simpl.
           by destruct (set_child_value_parts _ child n1 cell Hcell) as (_ & _ & -> & _).
Qed.

Lemma split_halves_occ log h lo n lft rgt :
  MOcc log h lo MAX_CHILDREN n → length (keys n) = MAX_CHILDREN →
  length (keys rgt) = length (keys n) / 2 →
  length (keys lft) = length (keys n) - length (keys n) / 2 - 1 →
  children lft
  = take (length (children n) - (length (keys n) / 2 + 1)) (children n) →
  children rgt
  = drop (length (children n) - (length (keys n) / 2 + 1)) (children n) →
  MOcc log h MIN_KEYS MAX_KEYS lft ∧ MOcc log h MIN_KEYS MAX_KEYS rgt.
Proof.
  intros Hn Ek. rewrite Ek. change (MAX_CHILDREN / 2) with 4.
  change MAX_CHILDREN with 9. intros Er El Ecl Ecr.
  destruct h as [|h].
  - apply MOcc_0 in Hn as (_ & _ & Hc). rewrite Hc in Ecl, Ecr.
    rewrite take_nil in Ecl. rewrite drop_nil in Ecr.
    split; apply MOcc_0; rewrite ?El, ?Er; split_and!; try done; cbv; lia.
  - apply MOcc_S in Hn as (_ & _ & Hl & Hc). rewrite Ek in Hl.
    change (MAX_CHILDREN + 1) with 10 in Hl. rewrite Hl in Ecl, Ecr.
    split; apply MOcc_S; rewrite ?El, ?Er, ?Ecl, ?Ecr.
    + split_and!; [cbv; lia|cbv; lia| |by apply Forall_take].
      rewrite length_take. lia.
    + split_and!; [cbv; lia|cbv; lia| |by apply Forall_drop].
      rewrite length_drop. lia.
Qed.

Lemma Post_split_loop log hr stack :
  ∀ h node needsSplit,
    OStack log h stack hr → stack_changed stack →
    MOcc log h (node_lo stack h) MAX_CHILDREN node → changed node = true →
    (needsSplit = true ↔ length (keys node) = MAX_CHILDREN) →
    Post log (split_loop log node stack needsSplit)
      (λ root,
         ∃ hr', (hr' = hr ∨ hr' = S hr)
                ∧ MOcc log hr' (root_min hr') MAX_KEYS root
                ∧ changed root = true).
Proof.
  assert (Hrest : ∀ stack h node,
            OStack log h stack hr → stack_changed stack →
            MOcc log h (node_lo stack h) MAX_CHILDREN node → changed node = true →
            length (keys node) ≠ MAX_CHILDREN →
            ∃ hr', (hr' = hr ∨ hr' = S hr)
                   ∧ MOcc log hr' (root_min hr') MAX_KEYS (unwind node stack)
                   ∧ changed (unwind node stack) = true).
  { intros st h node Hst Hch Hn Hc Hne. exists hr. split; [by left|].
    split; [|by apply unwind_changed].
    pose proof (MOcc_bounds _ _ _ _ _ Hn) as [Hlo Hhi].
    eapply unwind_occ; try done. eapply MOcc_rebound; [exact Hn|done|].
    change MAX_KEYS with 8. change MAX_CHILDREN with 9 in *. lia. }
  induction stack as [|[p i] rest IH];
    intros h node needsSplit Hst Hch Hn Hc Hns b root b' Hok;
    (destruct needsSplit;
     [|intros H; cbn [split_loop] in H; apply ret_Some in H as [-> ->];
       split; [done|];
       apply (Hrest _ h); try done; intros E; by apply Hns in E]).
  - pose proof (proj1 Hns eq_refl) as Ek. cbn [split_loop].
    intros ([[lft median] rgt] & b1 & H1 & [= <- <-])%bind_Some.
    destruct (Post_split log node) with (b := b) (x := (lft, median, rgt)) (b' := b1)
      as (Hok1 & Er & El & Hcl & Hcr & Ecl & Ecr); try done.
    { rewrite Ek. cbv. lia. }
    { destruct h; [apply MOcc_0 in Hn as (_ & _ & ->); by left
                  |apply MOcc_S in Hn as (_ & _ & ? & _); by right]. }
    destruct (split_halves_occ log h _ node lft rgt Hn Ek Er El Ecl Ecr) as [Hl Hr].
    split; [done|]. simpl in Hst. subst hr. exists (S h). split; [by right|].
    split; [|done]. apply MOcc_S. cbn [keys children length].
    split_and!; [cbv; lia|cbv; lia|done|].
    constructor; [|constructor; [|constructor]]; unfold COcc; simpl;
      (split; [done|]); intros E; congruence.
  - pose proof (proj1 Hns eq_refl) as Ek. cbn [split_loop].
    intros ([[lft median] rgt] & b1 & H1 & H2)%bind_Some.
    destruct (Post_split log node) with (b := b) (x := (lft, median, rgt)) (b' := b1)
      as (Hok1 & Er & El & Hcl & Hcr & Ecl & Ecr); try done.
    { rewrite Ek. cbv. lia. }
    { destruct h; [apply MOcc_0 in Hn as (_ & _ & ->); by left
                  |apply MOcc_S in Hn as (_ & _ & ? & _); by right]. }
    destruct (split_halves_occ log h _ node lft rgt Hn Ek Er El Ecl Ecr) as [Hl Hr].
    destruct Hst as [Hp Hst]. apply Forall_cons in Hch as [Hcp Hch]. simpl in Hcp.
    pose proof (HoleOcc_plug _ _ _ _ _ _ _ Hp Hl Hcl) as Hp1.
    apply bind_Some in H2 as ([ok p2] & b2 & H2 & H3).
    destruct (Post_insertKey log median (Some rgt) _ b1 (ok, p2) b2 Hok1 H2)
      as (Hok2 & Hc2 & Hcase).
    pose proof (MOcc_bounds _ _ _ _ _ Hp1) as [Hlo1 Hhi1].
    apply (IH (S h) p2 (negb ok) Hst Hch) with (b := b2); try done.
    + destruct Hcase as [(Ek2 & Ec2 & ->)|(Ek2 & -> & j & Ec2)].
      * eapply MOcc_shape; [exact Hp1|done|lia| |done].
        rewrite Ek2. change MAX_KEYS with 8 in Hhi1. change MAX_CHILDREN with 9. lia.
      * apply MOcc_S in Hp1 as (_ & _ & Hlc & Hcs).
        apply MOcc_S. rewrite Ek2, Ec2, splice_in_length. split_and!; try lia.
        -- change MAX_KEYS with 8 in Hhi1. change MAX_CHILDREN with 9. lia.
        -- apply splice_in_Forall; [done|]. unfold COcc. simpl.
           split; [done|]. intros E. congruence.
    + destruct Hcase as [(Ek2 & Ec2 & ->)|(Ek2 & -> & j & Ec2)].
      * simpl. split; [done|]. intros E. rewrite Ek2 in E.
        change MAX_KEYS with 8 in Hhi1. change MAX_CHILDREN with 9 in E. lia.
      * rewrite Ek2. change MAX_KEYS with 8 in Hhi1. change MAX_CHILDREN with 9.
        destruct (Nat.ltb_spec (S (length (keys (set_child_value i lft p)))) 9);
          simpl; split; try done; lia.
Qed.

(** ** The block that [_append] writes *)

Lemma Renumbered_EOcc log seq idx h :
  ∀ lo hi n n',
    RenumberedTree seq idx n n' → MOcc log h lo hi n →
    EOcc log seq idx h lo hi n'.
Proof.
  induction h as [|h IH]; intros lo hi n n' Hr Hn;
    destruct Hr as [b ks cs cs' ch Hcs].
  - apply MOcc_0 in Hn as (? & ? & Hc). simpl in *. subst cs.
    apply Forall2_nil_inv_l in Hcs as ->. done.
  - apply MOcc_S in Hn as (? & ? & Hl & Hc). cbn [keys children] in *.
    cbn [EOcc keys children]. split_and!; try done.
    { by rewrite <- (Forall2_length _ _ _ Hcs). }
    apply Forall_lookup. intros j c' Hj.
    destruct (Forall2_lookup_r _ _ _ _ _ Hcs Hj) as (c & Hcj & Hrc).
    rewrite Forall_lookup in Hc. specialize (Hc j c Hcj).
    destruct Hrc as [s o|s o m Hm|s o m m' off Hm Hoff Hrm]; unfold COcc in Hc;
      simpl in Hc.
    + by right.
    + right. destruct Hc as [_ Hs]. by apply Hs.
    + left. simpl. split_and!; try done. exists m'. split; [done|].
      destruct Hc as [Hmo _]. by eapply IH.
Qed.

Lemma EOcc_Occ log idx key value buf h :
  deflate idx = Some buf →
  ∀ lo hi o c m,
    idx !! o = Some (Some c) → c_value c = Some m →
    EOcc log (length log) idx h lo hi m → hi ≤ MAX_KEYS →
    Occ (log ++ [Node_encode (mkNodeMsg buf key value)]) h lo (length log) o.
Proof.
  intros Hdeflate.
  destruct (deflate_nodes idx buf Hdeflate) as (nodes & Hnodes & Hinfl).
  assert (Hlevel : ∀ o c m, idx !! o = Some (Some c) → c_value c = Some m →
                            map unloaded nodes !! o = Some (unloaded m)).
  { intros o c m Ho Hv.
    destruct (Forall2_lookup_l _ _ _ _ _ Hnodes Ho) as (n & Hn & c' & [= <-] & Hv').
    rewrite list_lookup_fmap, Hn. simpl. congruence. }
  induction h as [|h IH]; intros lo hi o c m Ho Hv Hem Hhi.
  - destruct Hem as (Hlo & Hk & Hc). apply Occ_0.
    eexists _, _, _. split; [apply feed_get_last|]. simpl.
    split; [exact Hinfl|]. split.
    { rewrite (Hlevel o c m Ho Hv). unfold unloaded. by rewrite Hc. }
    rewrite length_map. split; lia.
  - destruct Hem as (Hlo & Hk & Hl & Hc). apply Occ_S.
    eexists _, _, _, _. split; [apply feed_get_last|]. simpl.
    split; [exact Hinfl|]. split; [by apply (Hlevel o c m Ho Hv)|].
    rewrite !length_map. split_and!; try lia.
    apply Forall_fmap. eapply Forall_impl; [exact Hc|].
    intros c' [(Hs & Ho' & m' & Hv' & Hem')|Hst]; simpl.
    + rewrite Hs. by eapply IH.
    + by apply Occ_app.
Qed.

Lemma Batch__append_occ h lo rt key value f b f' b' :
  MOcc (log f) h lo MAX_KEYS rt → autoFlush b = true →
  Batch__append rt (length (log f)) key value f b = Some (f', b') →
  length (log f') = S (length (log f)) ∧ writable f' = writable f
  ∧ Occ (log f') h lo (length (log f)) 0.
Proof.
  intros Hn Ha.
  destruct (TreeNode_indexChanges_spec [] None (length (log f)) (node_depth rt) rt []
              (le_n _)) as (ext & rt' & E & _ & Hr & _).
  simpl in E. unfold Batch__append. rewrite E, Ha. cbn [negb].
  set (idx := <[0 := Some (mkChild (length (log f)) 0 (Some rt'))]> (None :: ext)).
  destruct (deflate idx) as [buf|] eqn:Ed; [|done]. cbn [mbind option_bind].
  unfold Batch__appendBatch, feed_append. destruct (writable f) eqn:Ew; [|done].
  cbn [mbind option_bind]. intros [= <- <-]. cbn [log writable].
  rewrite length_app. simpl. split; [lia|]. split; [done|].
  eapply (EOcc_Occ (log f) idx key value buf h Ed lo MAX_KEYS 0 _ rt');
    [reflexivity|reflexivity| |done].
  eapply Renumbered_EOcc; [|exact Hn]. apply Hr.
  intros [|o] c Ho; [done|exact Ho].
Qed.

(** ** [put] on a log *)

Lemma OccInv_ready f : OccInv f → OccInv (HyperBee_ready f).
Proof.
  unfold HyperBee_ready. destruct (_ || _) eqn:E; [done|]. intros _ H.
  apply orb_false_iff in E as [E _]. apply Nat.ltb_ge in E.
  cbn [log] in H. rewrite length_app in H. simpl in H. lia.
Qed.

Lemma Post_getRoot_ready hd f :
  _checkout hd = 0 → OccInv f →
  Post (log f) (HyperBee_getRoot_ready (log f) hd)
    (λ r, match r with
          | None => True
          | Some n => ∃ h, MOcc (log f) h (root_min h) MAX_KEYS n
                           ∧ changed n = false
          end).
Proof.
  intros Hc Hinv b r b' Hok. unfold HyperBee_getRoot_ready. rewrite Hc. simpl.
  destruct (length (log f) <? 2) eqn:E; [by intros [= <- <-]|].
  apply Nat.ltb_ge in E. destruct (Hinv E) as (h & Hocc).
  intros (e & b1 & H1 & (n & b2 & [H2 ->]%lift_Some & [= <- <-])%bind_Some)%bind_Some.
  destruct (Post_getBlock _ _ b e b1 Hok H1) as [Hok1 He].
  split; [done|]. destruct (Occ_load _ _ _ _ _ Hocc) as (e0 & n0 & He0 & Hn0 & Hm & Hch).
  assert (e = e0) as -> by congruence. assert (n = n0) as -> by congruence.
  by exists h.
Qed.

Lemma OccInv_append f f' h :
  length (log f') = S (length (log f)) →
  Occ (log f') h (root_min h) (length (log f)) 0 → OccInv f'.
Proof.
  intros El Hocc _. exists h. rewrite El. simpl. by rewrite Nat.sub_0_r.
Qed.

Lemma Batch_put_occ hd key value f f' b' :
  _checkout hd = 0 → OccInv f →
  Batch_put key value f (new_Batch hd true true) = Some (f', b') →
  OccInv f'.
Proof.
  intros Hc Hinv%OccInv_ready. unfold Batch_put, Batch_getRoot, new_Batch.
  cbn [root tree]. set (f1 := HyperBee_ready f) in *.
  set (b0 := mkBatch hd (Some ∅) true 0 None 0).
  assert (Hok0 : cache_ok (log f1) b0) by apply (cache_ok_new_Batch _ hd true true).
  destruct (HyperBee_getRoot_ready (log f1) hd b0) as [[r b1]|] eqn:E0; [|done].
  cbn [mbind option_bind].
  destruct (Post_getRoot_ready hd f1 Hc Hinv b0 r b1 Hok0 E0) as [Hok1 Hr].
  destruct (cache_only_frame _ _ _ _ (cache_only_getRoot_ready _ _) E0)
    as (bl1 & rs1 & _ & ->).
  cbn [b_length with_cache b0]. rewrite Nat.add_0_r.
  set (node := default (create None) r).
  assert (∃ h, MOcc (log f1) h (root_min h) MAX_KEYS node) as (h & Hn).
  { subst node. destruct r as [n|]; [destruct Hr as (h & ? & _); by exists h|].
    exists 0. apply MOcc_0. simpl. split_and!; try done; cbv; lia. }
  destruct (put_descend _ _ _ _ _ _ _) as [[[[replaced node'] stack'] b2]|] eqn:E1;
    [|done].
  destruct (Post_put_descend (log f1) key _ h _ h node [] Hn eq_refl (Forall_nil_2 _)
              _ (replaced, node', stack') b2 Hok1 E1)
    as (Hok2 & h' & Hst & Hch & Hn' & Hrep).
  destruct (cache_only_frame _ _ _ _ (cache_only_put_descend _ _ _ _ _ _) E1)
    as (bl2 & rs2 & _ & ->).
  cbn [mbind option_bind]. destruct replaced.
  - intros H.
    destruct (Batch__append_occ h (root_min h) _ key value f1
                (with_cache bl2 rs2 (with_cache bl1 rs1 b0)) f' b'
                (unwind_occ _ _ _ _ _ Hst Hch Hn' Hrep) eq_refl H) as (El & _ & Hocc).
    by eapply OccInv_append.
  - subst h'.
    destruct (TreeNode_insertKey _ _ _ _ _) as [[[ok n2] b3]|] eqn:E2; [|done].
    destruct (Post_insertKey (log f1) _ None node' _ (ok, n2) b3 Hok2 E2)
      as (Hok3 & Hc2 & Hcase).
    destruct (cache_only_frame _ _ _ _ (cache_only_insertKey _ _ _ _) E2)
      as (bl3 & rs3 & _ & ->).
    cbn [mbind option_bind].
    destruct (split_loop _ _ _ _ _) as [[root' b4]|] eqn:E3; [|done].
    pose proof Hn' as (Hlo' & Hhi' & Hcs')%MOcc_0.
    destruct (Post_split_loop (log f1) h stack' 0 n2 (negb ok) Hst Hch)
      with (b := with_cache bl3 rs3 (with_cache bl2 rs2 (with_cache bl1 rs1 b0)))
           (x := root') (b' := b4)
      as (Hok4 & hr' & _ & Hroot & _); try done.
    { apply MOcc_0.
      destruct Hcase as [(Ek & Ec & _)|(Ek & _ & j & Ec)]; rewrite Ek, Ec;
        split_and!; try done; try lia.
      - change MAX_KEYS with 8 in Hhi'. change MAX_CHILDREN with 9. lia.
      - change MAX_KEYS with 8 in Hhi'. change MAX_CHILDREN with 9. lia. }
    { change MAX_KEYS with 8 in Hhi'.
      destruct Hcase as [(Ek & _ & ->)|(Ek & -> & _)]; rewrite Ek;
        change MAX_CHILDREN with 9.
      - simpl. split; [done|]. lia.
      - destruct (Nat.ltb_spec (S (length (keys node'))) 9); simpl; split;
          try done; lia. }
    destruct (cache_only_frame _ _ _ _ (cache_only_split_loop _ _ _ _) E3)
      as (bl4 & rs4 & _ & ->).
    cbn [mbind option_bind]. intros H.
    destruct (Batch__append_occ hr' (root_min hr') _ key value f1
                (with_cache bl4 rs4 (with_cache bl3 rs3 (with_cache bl2 rs2
                   (with_cache bl1 rs1 b0)))) f' b'
                Hroot eq_refl H) as (El & _ & Hocc).
    by eapply OccInv_append.
Qed.

(** ** [del]: down to the leaf *)

Lemma HoleOcc_fill log h lo hi p i c x :
  HoleOcc log h lo hi p i → children p !! i = Some c →
  MOcc log h MIN_KEYS MAX_KEYS x →
  (changed x = false → Occ log h MIN_KEYS (c_seq c) (c_offset c)) →
  MOcc log (S h) lo hi (set_child_value i x p).
Proof.
  intros (Hlo & Hhi & Hl & Hi & Hc) Ec Hx Hs.
  destruct (set_child_value_parts i x p c Ec) as (_ & Ek & _ & Ecs).
  apply MOcc_S. rewrite Ek, Ecs, length_insert. split_and!; try done.
  apply Forall_lookup. intros j c' Hj.
  destruct (decide (j = i)) as [->|Hne].
  - rewrite list_lookup_insert_eq in Hj by done. injection Hj as <-.
    unfold COcc. simpl. by split.
  - rewrite list_lookup_insert_ne in Hj by done. by eapply Hc.
Qed.

Lemma HoleOcc_fill_other log h lo hi p i j c x :
  HoleOcc log h lo hi p i → j ≠ i → children p !! j = Some c →
  MOcc log h MIN_KEYS MAX_KEYS x →
  (changed x = false → Occ log h MIN_KEYS (c_seq c) (c_offset c)) →
  HoleOcc log h lo hi (set_child_value j x p) i.
Proof.
  intros (Hlo & Hhi & Hl & Hi & Hc) Hne Ec Hx Hs.
  destruct (set_child_value_parts j x p c Ec) as (_ & Ek & _ & Ecs).
  unfold HoleOcc. rewrite Ek, Ecs, length_insert. split_and!; try done.
  intros j' c' Hne' Hj'.
  destruct (decide (j' = j)) as [->|Hne2].
  - rewrite list_lookup_insert_eq in Hj' by (by eapply lookup_lt_Some).
    injection Hj' as <-. unfold COcc. simpl. by split.
  - rewrite list_lookup_insert_ne in Hj' by done. by eapply Hc.
Qed.

(** Putting another node, as much changed, into a cell that holds one. *)
Lemma MOcc_refill log h lo hi n i c x x' :
  MOcc log (S h) lo hi n → children n !! i = Some c → c_value c = Some x →
  MOcc log h MIN_KEYS MAX_KEYS x' → (changed x' = false → changed x = false) →
  MOcc log (S h) lo hi (set_child_value i x' n).
Proof.
  intros Hn Ec Ev Hx' Hch.
  pose proof (MOcc_child _ _ _ _ _ _ _ Hn Ec) as Hc. unfold COcc in Hc.
  rewrite Ev in Hc. destruct Hc as [_ Hs].
  eapply HoleOcc_fill; try done.
  - apply MOcc_hole; [done|]. by eapply lookup_lt_Some.
  - intros E. by apply Hs, Hch.
Qed.

(** [getChildNode] on a node in order. *)
Lemma Post_getChildNode_MOcc log h lo hi i n :
  MOcc log (S h) lo hi n →
  Post log (TreeNode_getChildNode log i n)
    (λ '(child, n'),
       MOcc log (S h) lo hi n' ∧ MOcc log h MIN_KEYS MAX_KEYS child
       ∧ n' = set_child_value i child n
       ∧ (∃ c, children n' !! i = Some c ∧ c_value c = Some child)
       ∧ (∀ j, j ≠ i → children n' !! j = children n !! j)
       ∧ length (children n') = length (children n)
       ∧ keys n' = keys n ∧ changed n' = changed n).
Proof.
  intros Hn b [child n'] b' Hok H.
  destruct (getChildNode_Some _ _ _ _ _ _ H) as [c Ec].
  destruct (Post_getChildNode log h i n c Ec (MOcc_child _ _ _ _ _ _ _ Hn Ec)
              b (child, n') b' Hok H) as (Hok' & -> & Hchild & Hs).
  split; [done|].
  destruct (set_child_value_parts i child n c Ec) as (_ & Ek & Ech & Ecs).
  destruct (set_child_value_lookup i child n c Ec) as (El & Hoth & Hlen).
  split_and!; try done.
  - eapply HoleOcc_fill; try done. apply MOcc_hole; [done|].
    by eapply lookup_lt_Some.
  - by eexists.
Qed.

Lemma Post_leafSize log goLeft fuel :
  ∀ h lo hi n,
    MOcc log h lo hi n →
    Post log (leafSize log fuel n goLeft)
      (λ '(_, n'), MOcc log h lo hi n' ∧ changed n' = changed n).
Proof.
  induction fuel as [|fuel IH]; intros h lo hi n Hn b [size n'] b' Hok;
    cbn [leafSize]; destruct h as [|h].
  - pose proof Hn as (_ & _ & ->)%MOcc_0. simpl. by intros [= <- <- <-].
  - pose proof Hn as (_ & _ & Hl & _)%MOcc_S.
    by assert ((length (children n) =? 0) = false) as ->
      by (apply Nat.eqb_neq; lia).
  - pose proof Hn as (_ & _ & ->)%MOcc_0. simpl. by intros [= <- <- <-].
  - pose proof Hn as (_ & _ & Hl & _)%MOcc_S.
    assert ((length (children n) =? 0) = false) as ->
      by (apply Nat.eqb_neq; lia).
    intros ([child n1] & b1 & H1 & ([sz child'] & b2 & H2 & [= <- <- <-])%bind_Some)%bind_Some.
    destruct (Post_getChildNode_MOcc log h lo hi _ n Hn b (child, n1) b1 Hok H1)
      as (Hok1 & Hn1 & Hchild & _ & (c & Ec & Ev) & _ & _ & _ & Ech).
    destruct (IH h _ _ child Hchild b1 (sz, child') b2 Hok1 H2) as (Hok2 & Hchild' & Ech').
    split; [done|]. split.
    + eapply MOcc_refill; try done. by rewrite Ech'.
    + by destruct (set_child_value_parts _ child' n1 c Ec) as (_ & _ & -> & _).
Qed.

Lemma walk_occ log goLeft hr fuel :
  ∀ h n acc leaf st,
    MOcc log h MIN_KEYS MAX_KEYS n →
    walk fuel goLeft n acc = Some (leaf, st) →
    ∃ below,
      st = below ++ acc ∧ MOcc log 0 MIN_KEYS MAX_KEYS leaf
      ∧ ∀ rest, rest ≠ [] → OStack log h rest hr → OStack log 0 (below ++ rest) hr.
Proof.
  induction fuel as [|fuel IH]; intros h n acc leaf st Hn; cbn [walk];
    destruct h as [|h].
  - pose proof Hn as (_ & _ & E)%MOcc_0. rewrite E. simpl. intros [= <- <-].
    by exists [].
  - pose proof Hn as (_ & _ & Hl & _)%MOcc_S.
    by assert ((length (children n) =? 0) = false) as ->
      by (apply Nat.eqb_neq; lia).
  - pose proof Hn as (_ & _ & E)%MOcc_0. rewrite E. simpl. intros [= <- <-].
    by exists [].
  - pose proof Hn as (_ & _ & Hl & _)%MOcc_S.
    assert ((length (children n) =? 0) = false) as ->
      by (apply Nat.eqb_neq; lia).
    set (i := if goLeft then 0 else length (children n) - 1).
    destruct (children n !! i) as [c|] eqn:Ec; [|done]. cbn [mbind option_bind].
    destruct (c_value c) as [m|] eqn:Ev; [|done]. cbn [mbind option_bind].
    intros H. pose proof (MOcc_child _ _ _ _ _ _ _ Hn Ec) as Hc.
    unfold COcc in Hc. rewrite Ev in Hc. destruct Hc as [Hm _].
    destruct (IH h m _ leaf st Hm H) as (below & -> & Hleaf & Hst).
    exists (below ++ [(n, i)]). rewrite <- app_assoc. split; [done|].
    split; [done|]. intros rest Hrest Hr. rewrite <- app_assoc. apply Hst; [done|].
    split; [|done]. destruct rest; [done|]. apply MOcc_hole; [done|].
    by eapply lookup_lt_Some.
Qed.

Lemma Post_setKeyToNearestLeaf log hr fuel h node index stack :
  MOcc log (S h) (node_lo stack (S h)) MAX_KEYS node → OStack log (S h) stack hr →
  Post log (setKeyToNearestLeaf log fuel node index stack)
    (λ '(leaf, stack'),
       OStack log 0 stack' hr ∧ stack' ≠ []
       ∧ MOcc log 0 (MIN_KEYS - 1) MAX_KEYS leaf).
Proof.
  intros Hn Hst b [leaf stack'] b' Hok. unfold setKeyToNearestLeaf.
  intros ([lft n1] & b1 & H1 & H)%bind_Some.
  destruct (Post_getChildNode_MOcc log h _ _ _ node Hn b (lft, n1) b1 Hok H1)
    as (Hok1 & Hn1 & Hlft & _ & (cl & Ecl & Evl) & _ & _ & Ek1 & _).
  apply bind_Some in H as ([rgt n2] & b2 & H2 & H).
  destruct (Post_getChildNode_MOcc log h _ _ _ n1 Hn1 b1 (rgt, n2) b2 Hok1 H2)
    as (Hok2 & Hn2 & Hrgt & _ & (cr & Ecr & Evr) & Hoth2 & _ & Ek2 & _).
  apply bind_Some in H as ([ls lft'] & b3 & H3 & H).
  destruct (Post_leafSize log false fuel h _ _ lft Hlft b2 (ls, lft') b3 Hok2 H3)
    as (Hok3 & Hlft' & Echl).
  apply bind_Some in H as ([rs rgt'] & b4 & H4 & H).
  destruct (Post_leafSize log true fuel h _ _ rgt Hrgt b3 (rs, rgt') b4 Hok3 H4)
    as (Hok4 & Hrgt' & Echr).
  assert (Ecl2 : children n2 !! index = Some cl) by (rewrite Hoth2 by lia; done).
  pose proof (MOcc_refill _ _ _ _ _ _ _ _ lft' Hn2 Ecl2 Evl Hlft'
                ltac:(by rewrite Echl)) as Hn2a.
  destruct (set_child_value_lookup index lft' n2 cl Ecl2) as (_ & Hoth2a & Hlen2a).
  assert (Ecr2 : children (set_child_value index lft' n2) !! (index + 1) = Some cr)
    by (rewrite Hoth2a by lia; done).
  pose proof (MOcc_refill _ _ _ _ _ _ _ _ rgt' Hn2a Ecr2 Evr Hrgt'
                ltac:(by rewrite Echr)) as Hn3.
  set (n3 := set_child_value (index + 1) rgt' (set_child_value index lft' n2)) in *.
  destruct (set_child_value_lookup (index + 1) rgt' _ cr Ecr2) as (_ & _ & Hlen3).
  fold n3 in Hlen3.
  assert (Hfinal : ∀ leaf0 below k ks j,
            MOcc log 0 MIN_KEYS MAX_KEYS leaf0 →
            (∀ rest, rest ≠ [] → OStack log h rest hr →
                     OStack log 0 (below ++ rest) hr) →
            length ks = length (keys leaf0) - 1 →
            j < length (children n3) →
            OStack log 0 (below ++ (set_keys (<[index := k]> (keys n3)) n3, j) :: stack)
              hr
            ∧ below ++ (set_keys (<[index := k]> (keys n3)) n3, j) :: stack ≠ []
            ∧ MOcc log 0 (MIN_KEYS - 1) MAX_KEYS (set_keys ks leaf0)).
  { intros leaf0 below k ks j Hleaf Hbelow Hks Hj. split_and!.
    - apply Hbelow; [done|]. split; [|done]. apply MOcc_hole; [|done].
      eapply MOcc_shape; [exact Hn3|done| | |];
        cbn [keys set_keys]; rewrite ?length_insert;
        pose proof (MOcc_bounds _ _ _ _ _ Hn3); lia.
    - by destruct below.
    - apply MOcc_0 in Hleaf as (Hlo & Hhi & Hc). apply MOcc_0.
      cbn [keys children set_keys]. split_and!; [lia|lia|done]. }
  destruct (ls <? rs).
  - apply bind_Some in H as ([leaf0 below] & b5 & [Hw ->]%lift_Some & H).
    apply bind_Some in H as ([k ks] & b6 & [Hsh ->]%lift_Some & [= <- <- <-]).
    split; [done|].
    destruct (walk_occ log true hr fuel h rgt' [] leaf0 below Hrgt' Hw)
      as (below' & -> & Hleaf & Hbelow).
    rewrite app_nil_r. apply Hfinal; try done.
    + destruct (keys leaf0); [done|]. injection Hsh as <- <-. simpl. lia.
    + rewrite Hlen3, Hlen2a. by eapply lookup_lt_Some.
  - apply bind_Some in H as ([leaf0 below] & b5 & [Hw ->]%lift_Some & H).
    apply bind_Some in H as ([k ks] & b6 & [Hpop ->]%lift_Some & [= <- <- <-]).
    split; [done|].
    destruct (walk_occ log false hr fuel h lft' [] leaf0 below Hlft' Hw)
      as (below' & -> & Hleaf & Hbelow).
    rewrite app_nil_r. apply Hfinal; try done.
    + destruct (pop_lookup _ _ _ Hpop) as [-> Hk]. rewrite length_take.
      apply lookup_lt_Some in Hk. lia.
    + rewrite Hlen3, Hlen2a. by eapply lookup_lt_Some.
Qed.

Lemma splice_out_length_bounds {A} (l : list A) i :
  length l - 1 ≤ length (splice_out i l) ∧ length (splice_out i l) ≤ length l.
Proof.
  unfold splice_out. rewrite length_app, length_take, length_drop. lia.
Qed.

Lemma set_child_value_changed i x n :
  changed (set_child_value i x n) = changed n.
Proof. unfold set_child_value. destruct (children n !! i); by destruct n. Qed.

Lemma Post_del_descend log key hr fuel :
  ∀ h node stack,
    MOcc log h (node_lo stack h) MAX_KEYS node → OStack log h stack hr →
    Post log (del_descend log fuel key node stack)
      (λ outcome,
         match outcome with
         | NotFound _ _ => True
         | Removed leaf stack' =>
             OStack log 0 stack' hr
             ∧ MOcc log 0 (node_lo stack' 0 - 1) MAX_KEYS leaf
         end).
Proof.
  induction fuel as [|fuel IH]; intros h node stack Hn Hst b outcome b' Hok;
    cbn [del_descend]; [done|].
  intros ([r n1] & b1 & H1 & H2)%bind_Some.
  destruct (Post_search log key _ b (r, n1) b1 Hok H1) as [Hok1 Hs1].
  pose proof (MOcc_shape_eq _ _ _ _ _ _ Hn Hs1) as Hn1.
  destruct h as [|h].
  - pose proof Hn1 as (Hlo & Hhi & Ec)%MOcc_0. rewrite Ec in H2. simpl in H2.
    destruct r as [mid|c s e]; [|injection H2 as <- <-; by split].
    unfold TreeNode_removeKey in H2. rewrite Ec in H2. simpl in H2.
    injection H2 as <- <-. split; [done|]. split; [done|].
    apply MOcc_0. cbn [keys children].
    pose proof (splice_out_length_bounds (keys n1) mid). split_and!; [lia|lia|done].
  - pose proof Hn1 as (Hlo & Hhi & Hl & Hcs)%MOcc_S.
    assert ((length (children n1) =? 0) = false) as E
      by (apply Nat.eqb_neq; lia).
    rewrite E in H2. destruct r as [mid|c s e].
    + cbn [negb] in H2.
      apply bind_Some in H2 as ([leaf stack'] & b2 & H2 & [= <- <-]).
      destruct (Post_setKeyToNearestLeaf log hr fuel h n1 mid stack Hn1 Hst
                  b1 (leaf, stack') b2 Hok1 H2) as (Hok2 & Hst' & Hne & Hleaf).
      split; [done|]. split; [done|]. by destruct stack'.
    + apply bind_Some in H2 as ([child n2] & b2 & H2 & H3).
      destruct (Post_getChildNode_MOcc log h _ _ _ n1 Hn1 b1 (child, n2) b2 Hok1 H2)
        as (Hok2 & Hn2 & Hchild & _ & (c' & Ec' & _) & _).
      apply (IH h child ((n2, insertion_index c s e) :: stack)) with (b := b2);
        try done.
      split; [|done]. apply MOcc_hole; [done|]. by eapply lookup_lt_Some.
Qed.

(** ** [del]: rebalancing *)

Lemma HoleOcc_shape log h lo hi p p' i :
  HoleOcc log h lo hi p i → children p' = children p →
  length (keys p') = length (keys p) → HoleOcc log h lo hi p' i.
Proof. intros H Ec Ek. unfold HoleOcc. by rewrite Ec, Ek. Qed.

Lemma removeKey_occ log h lo hi p idx p' :
  HoleOcc log h lo hi p (idx + 1) → idx < length (keys p) →
  TreeNode_removeKey idx p = Some p' →
  MOcc log (S h) (lo - 1) hi p' ∧ changed p' = true.
Proof.
  intros (Hlo & Hhi & Hl & Hi & Hc) Hidx. unfold TreeNode_removeKey.
  assert ((length (children p) =? 0) = false) as -> by (apply Nat.eqb_neq; lia).
  destruct (children p !! (idx + 1)) as [c|]; [|done]. cbn [mbind option_bind].
  intros [= <-]. split; [|done]. apply MOcc_S. cbn [keys children].
  rewrite !splice_out_length by lia. split_and!; try lia.
  apply Forall_lookup. intros j c' Hj. rewrite lookup_splice_out in Hj.
  case_decide; (eapply Hc; [|exact Hj]); lia.
Qed.

Lemma Post_siblings log h lo hi i p :
  HoleOcc log h lo hi p i →
  Post log (TreeNode_siblings log i p)
    (λ '(lft, rgt, p'),
       HoleOcc log h lo hi p' i ∧ changed p' = changed p
       ∧ (∀ l, lft = Some l → 0 < i ∧ MOcc log h MIN_KEYS MAX_KEYS l)
       ∧ (∀ r, rgt = Some r →
               i + 1 < length (children p') ∧ MOcc log h MIN_KEYS MAX_KEYS r)).
Proof.
  intros Hp b [[lft rgt] p'] b' Hok. unfold TreeNode_siblings.
  destruct (children p !! i) as [ci|] eqn:Eci; [|done].
  intros ([lft0 p1] & b1 & H1 & ([rgt0 p2] & b2 & H2 & [= <- <- <- <-])%bind_Some)%bind_Some.
  assert (Hok1 : cache_ok log b1
          ∧ HoleOcc log h lo hi p1 i ∧ changed p1 = changed p
          ∧ (∀ l, lft0 = Some l → 0 < i ∧ MOcc log h MIN_KEYS MAX_KEYS l)).
  { destruct (i =? 0) eqn:E0.
    - injection H1 as <- <- <-. by split_and!.
    - apply Nat.eqb_neq in E0.
      apply bind_Some in H1 as ([l q] & b0 & H1 & [= <- <- <-]).
      destruct (getChildNode_Some _ _ _ _ _ _ H1) as [c Ec].
      pose proof Hp as (_ & _ & _ & _ & Hc).
      destruct (Post_getChildNode log h _ p c Ec (Hc (i - 1) c ltac:(lia) Ec)
                  b (l, q) b0 Hok H1) as (Hok0 & -> & Hl & Hs).
      split_and!; try done.
      + eapply HoleOcc_fill_other; try done. lia.
      + apply set_child_value_changed.
      + intros ? [= <-]. split; [lia|done]. }
  destruct Hok1 as (Hok1 & Hp1 & Ech1 & Hlft).
  destruct (i <? length (children p1) - 1) eqn:E1.
  - apply Nat.ltb_lt in E1.
    apply bind_Some in H2 as ([r q] & b0 & H2 & [= <- <- <-]).
    destruct (getChildNode_Some _ _ _ _ _ _ H2) as [c Ec].
    pose proof Hp1 as (_ & _ & _ & _ & Hc).
    destruct (Post_getChildNode log h _ p1 c Ec (Hc (i + 1) c ltac:(lia) Ec)
                b1 (r, q) b0 Hok1 H2) as (Hok0 & -> & Hr & Hs).
    split; [done|]. split_and!; try done.
    + eapply HoleOcc_fill_other; try done. lia.
    + by rewrite set_child_value_changed.
    + intros ? [= <-]. split; [|done].
      destruct (set_child_value_lookup _ r p1 c Ec) as (_ & _ & ->). lia.
  - injection H2 as <- <- <-. by split_and!.
Qed.

Lemma borrow_left_occ log h lo hi node l index parent p' :
  HoleOcc log h lo hi parent index → 0 < index →
  MOcc log h (MIN_KEYS - 1) MAX_KEYS node → length (keys node) < MIN_KEYS →
  changed node = true →
  MOcc log h MIN_KEYS MAX_KEYS l → MIN_KEYS < length (keys l) →
  borrow_left node l index parent = Some p' →
  MOcc log (S h) lo hi p' ∧ changed p' = changed parent.
Proof.
  intros Hp Hidx Hn Hnk Hnc Hl Hlk. unfold borrow_left.
  destruct (keys parent !! (index - 1)) as [sep|]; [|done]. cbn [mbind option_bind].
  pose proof (MOcc_bounds _ _ _ _ _ Hn) as [Hnlo Hnhi].
  pose proof (MOcc_bounds _ _ _ _ _ Hl) as [Hllo Hlhi].
  change MIN_KEYS with 4 in *. change MAX_KEYS with 8 in *.
  assert (Hparts : ∀ ncs lcs lk lks,
            MOcc log h 4 8 (mkNode (block node) (sep :: keys node) ncs (changed node)) →
            MOcc log h 4 8 (mkNode (block l) lks lcs true) →
            set_child_value index
              (mkNode (block node) (sep :: keys node) ncs (changed node))
              (set_child_value (index - 1) (mkNode (block l) lks lcs true)
                 (set_keys (<[index - 1 := lk]> (keys parent)) parent)) = p' →
            MOcc log (S h) lo hi p' ∧ changed p' = changed parent).
  { intros ncs lcs lk lks Hn' Hl' <-. split.
    - apply HoleOcc_plug; [|done|done].
      pose proof Hp as (_ & _ & _ & Hi & _).
      destruct (lookup_lt_is_Some_2 (children parent) (index - 1)) as [c Ec]; [lia|].
      eapply (HoleOcc_fill_other _ _ _ _ _ _ _ c); try done; [|lia].
      eapply HoleOcc_shape; [exact Hp|done|]. cbn [keys set_keys].
      by rewrite length_insert.
    - rewrite !set_child_value_changed. done. }
  destruct h as [|h].
  - apply MOcc_0 in Hn as (_ & _ & Ecn). apply MOcc_0 in Hl as (_ & _ & Ecl).
    rewrite Ecl. simpl. destruct (pop (keys l)) as [[lk lks]|] eqn:Epop; [|done].
    cbn [mbind option_bind]. intros [= E]. eapply (Hparts _ _ lk _); [| |exact E].
    + apply MOcc_0. simpl. split_and!; [lia|lia|done].
    + apply MOcc_0. simpl. destruct (pop_lookup _ _ _ Epop) as [-> _].
      rewrite length_take. split_and!; [lia|lia|done].
  - apply MOcc_S in Hn as (_ & _ & Hncl & Hncs).
    apply MOcc_S in Hl as (_ & _ & Hlcl & Hlcs).
    assert ((length (children l) =? 0) = false) as -> by (apply Nat.eqb_neq; lia).
    cbn [negb]. destruct (pop (children l)) as [[c lcs]|] eqn:Epc; [|done].
    cbn [mbind option_bind].
    destruct (pop (keys l)) as [[lk lks]|] eqn:Epop; [|done].
    cbn [mbind option_bind]. intros [= E]. eapply (Hparts _ _ lk _); [| |exact E].
    + apply MOcc_S. cbn [keys children length]. split_and!; [lia|lia|lia|].
      constructor; [|done]. destruct (pop_lookup _ _ _ Epc) as [_ Hc].
      rewrite Forall_lookup in Hlcs. by eapply Hlcs.
    + apply MOcc_S. cbn [keys children].
      destruct (pop_lookup _ _ _ Epop) as [-> _].
      destruct (pop_lookup _ _ _ Epc) as [-> _].
      rewrite !length_take. split_and!; [lia|lia|lia|by apply Forall_take].
Qed.

Lemma borrow_right_occ log h lo hi node r index parent p' :
  HoleOcc log h lo hi parent index → index + 1 < length (children parent) →
  MOcc log h (MIN_KEYS - 1) MAX_KEYS node → length (keys node) < MIN_KEYS →
  changed node = true →
  MOcc log h MIN_KEYS MAX_KEYS r → MIN_KEYS < length (keys r) →
  borrow_right node r index parent = Some p' →
  MOcc log (S h) lo hi p' ∧ changed p' = changed parent.
Proof.
  intros Hp Hidx Hn Hnk Hnc Hr Hrk. unfold borrow_right.
  destruct (keys parent !! index) as [sep|]; [|done]. cbn [mbind option_bind].
  pose proof (MOcc_bounds _ _ _ _ _ Hn) as [Hnlo Hnhi].
  pose proof (MOcc_bounds _ _ _ _ _ Hr) as [Hrlo Hrhi].
  change MIN_KEYS with 4 in *. change MAX_KEYS with 8 in *.
  assert (Hparts : ∀ ncs rcs rk rks,
            MOcc log h 4 8 (mkNode (block node) (keys node ++ [sep]) ncs (changed node)) →
            MOcc log h 4 8 (mkNode (block r) rks rcs true) →
            set_child_value (index + 1) (mkNode (block r) rks rcs true)
              (set_child_value index
                 (mkNode (block node) (keys node ++ [sep]) ncs (changed node))
                 (set_keys (<[index := rk]> (keys parent)) parent)) = p' →
            MOcc log (S h) lo hi p' ∧ changed p' = changed parent).
  { intros ncs rcs rk rks Hn' Hr' <-. split.
    - assert (Hp1 : HoleOcc log h lo hi (set_keys (<[index := rk]> (keys parent)) parent)
                      index).
      { eapply HoleOcc_shape; [exact Hp|done|]. cbn [keys set_keys].
        by rewrite length_insert. }
      pose proof (HoleOcc_plug _ _ _ _ _ _ _ Hp1 Hn' Hnc) as Hp2.
      destruct (lookup_lt_is_Some_2 (children parent) index) as [ci Eci]; [lia|].
      destruct (set_child_value_lookup index
                  (mkNode (block node) (keys node ++ [sep]) ncs (changed node))
                  (set_keys (<[index := rk]> (keys parent)) parent) ci Eci)
        as (_ & Hoth & Hlen).
      destruct (lookup_lt_is_Some_2 (children parent) (index + 1)) as [c Ec]; [lia|].
      eapply (HoleOcc_fill _ _ _ _ _ _ c); try done.
      + apply MOcc_hole; [done|]. rewrite Hlen. done.
      + rewrite Hoth by lia. done.
    - rewrite !set_child_value_changed. done. }
  destruct h as [|h].
  - apply MOcc_0 in Hn as (_ & _ & Ecn). apply MOcc_0 in Hr as (_ & _ & Ecr).
    rewrite Ecr. simpl. destruct (keys r) as [|rk rks] eqn:Ekr; [done|].
    cbn [shift mbind option_bind]. intros [= E]. eapply (Hparts _ _ rk _); [| |exact E].
    + apply MOcc_0. simpl. rewrite length_app. simpl. split_and!; [lia|lia|done].
    + apply MOcc_0. simpl. simpl in Hrk, Hrhi. split_and!; [lia|lia|done].
  - apply MOcc_S in Hn as (_ & _ & Hncl & Hncs).
    apply MOcc_S in Hr as (_ & _ & Hrcl & Hrcs).
    assert ((length (children r) =? 0) = false) as -> by (apply Nat.eqb_neq; lia).
    cbn [negb]. destruct (children r) as [|c rcs] eqn:Ecr; [done|].
    cbn [shift mbind option_bind].
    destruct (keys r) as [|rk rks] eqn:Ekr; [done|].
    cbn [shift mbind option_bind]. intros [= E]. eapply (Hparts _ _ rk _); [| |exact E].
    + apply MOcc_S. cbn [keys children]. rewrite !length_app. simpl.
      split_and!; [lia|lia|lia|].
      apply Forall_app. split; [done|]. constructor; [|done].
      by apply Forall_cons in Hrcs as [? _].
    + apply MOcc_S. cbn [keys children]. simpl in *.
      split_and!; [lia|lia|lia|]. by apply Forall_cons in Hrcs as [_ ?].
Qed.

Lemma merge_occ log h l median r :
  MOcc log h (MIN_KEYS - 1) MIN_KEYS l → MOcc log h (MIN_KEYS - 1) MIN_KEYS r →
  length (keys l) + length (keys r) = MIN_KEYS + (MIN_KEYS - 1) →
  MOcc log h MIN_KEYS MAX_KEYS (TreeNode_merge r median l).
Proof.
  intros Hl Hr Hsum. unfold TreeNode_merge. change MIN_KEYS with 4 in *.
  change MAX_KEYS with 8.
  destruct h as [|h].
  - apply MOcc_0 in Hl as (_ & _ & El). apply MOcc_0 in Hr as (_ & _ & Er).
    apply MOcc_0. cbn [keys children]. rewrite El, Er, length_app. simpl.
    split_and!; [lia|lia|done].
  - apply MOcc_S in Hl as (_ & _ & Hll & Hlc).
    apply MOcc_S in Hr as (_ & _ & Hrl & Hrc).
    apply MOcc_S. cbn [keys children]. rewrite !length_app. simpl.
    split_and!; [lia|lia|lia|]. apply Forall_app. done.
Qed.

Lemma merge_siblings_occ log h lo hi lft rgt node index parent p' :
  HoleOcc log h lo hi parent index →
  MOcc log h (MIN_KEYS - 1) MAX_KEYS node → length (keys node) < MIN_KEYS →
  (∀ l, lft = Some l →
        0 < index ∧ MOcc log h MIN_KEYS MAX_KEYS l ∧ length (keys l) ≤ MIN_KEYS) →
  (∀ r, rgt = Some r →
        index + 1 < length (children parent) ∧ MOcc log h MIN_KEYS MAX_KEYS r
        ∧ (lft = None → length (keys r) ≤ MIN_KEYS)) →
  merge_siblings lft rgt node index parent = Some p' →
  MOcc log (S h) (lo - 1) hi p' ∧ changed p' = true.
Proof.
  intros Hp Hn Hnk Hlft Hrgt. unfold merge_siblings.
  pose proof (MOcc_bounds _ _ _ _ _ Hn) as [Hnlo Hnhi].
  assert (Hn' : MOcc log h (MIN_KEYS - 1) MIN_KEYS node)
    by (eapply MOcc_rebound; [exact Hn|done|lia]).
  destruct lft as [l|].
  - destruct (Hlft l eq_refl) as (Hidx & Hl & Hlk). cbn [mbind option_bind].
    destruct (keys parent !! (index - 1)) as [median|] eqn:Em; [|done].
    cbn [mbind option_bind]. intros H.
    pose proof (MOcc_bounds _ _ _ _ _ Hl) as [Hllo Hlhi].
    assert (Hm : MOcc log h MIN_KEYS MAX_KEYS (TreeNode_merge node median l)).
    { apply merge_occ; [eapply MOcc_rebound; [exact Hl|lia|lia]|done|].
      change MIN_KEYS with 4 in *. lia. }
    pose proof Hp as (_ & _ & _ & Hi & _).
    destruct (lookup_lt_is_Some_2 (children parent) (index - 1)) as [c Ec]; [lia|].
    eapply (removeKey_occ log h lo hi _ (index - 1)); [| |exact H].
    + replace (index - 1 + 1) with index by lia.
      eapply (HoleOcc_fill_other _ _ _ _ _ _ _ c); try done; lia.
    + destruct (set_child_value_parts (index - 1) (TreeNode_merge node median l)
                  parent c Ec) as (_ & -> & _). by eapply lookup_lt_Some.
  - destruct rgt as [r|]; [|done].
    destruct (Hrgt r eq_refl) as (Hidx & Hr & Hrk). specialize (Hrk eq_refl).
    cbn [mbind option_bind].
    destruct (keys parent !! index) as [median|] eqn:Em; [|done].
    cbn [mbind option_bind]. intros H.
    pose proof (MOcc_bounds _ _ _ _ _ Hr) as [Hrlo Hrhi].
    assert (Hm : MOcc log h MIN_KEYS MAX_KEYS (TreeNode_merge r median node)).
    { apply merge_occ; [done|eapply MOcc_rebound; [exact Hr|lia|lia]|].
      change MIN_KEYS with 4 in *. lia. }
    pose proof Hp as (_ & _ & _ & Hi & _).
    destruct (lookup_lt_is_Some_2 (children parent) index) as [c Ec]; [lia|].
    destruct (set_child_value_parts index (TreeNode_merge r median node) parent c Ec)
      as (_ & Ek & _ & Ecs).
    eapply (removeKey_occ log h lo hi _ index); [| |exact H].
    + apply MOcc_hole.
      * apply HoleOcc_plug; done.
      * rewrite Ecs, length_insert. done.
    + rewrite Ek. by eapply lookup_lt_Some.
Qed.

Lemma Post_rebalance_step log h lo node index parent :
  HoleOcc log h lo MAX_KEYS parent index → changed parent = true →
  MOcc log h (MIN_KEYS - 1) MAX_KEYS node → changed node = true →
  Post log (rebalance_step log node index parent)
    (λ '(done_, p'),
       changed p' = true
       ∧ if (done_ : bool) then MOcc log (S h) lo MAX_KEYS p'
         else MOcc log (S h) (lo - 1) MAX_KEYS p').
Proof.
  intros Hp Hcp Hn Hcn b [done_ p'] b' Hok. unfold rebalance_step.
  pose proof (MOcc_bounds _ _ _ _ _ Hn) as [Hnlo Hnhi].
  destruct (Nat.leb_spec MIN_KEYS (length (keys node))) as [Hge|Hlt].
  - intros [= <- <- <-]. split; [done|].
    split; [by rewrite set_child_value_changed|].
    apply HoleOcc_plug; [done| |done]. eapply MOcc_rebound; [exact Hn|done|done].
  - intros ([[lft rgt] p1] & b1 & H1 & H2)%bind_Some.
    destruct (Post_siblings log h lo MAX_KEYS index _ (HoleOcc_set _ _ _ _ _ _ node Hp)
                b (lft, rgt, p1) b1 Hok H1) as (Hok1 & Hp1 & Ecp1 & Hlft & Hrgt).
    rewrite set_child_value_changed in Ecp1.
    assert (Hmerge : ∀ (Hl : ∀ l, lft = Some l → length (keys l) ≤ MIN_KEYS)
                       (Hr : ∀ r, rgt = Some r → lft = None →
                                  length (keys r) ≤ MIN_KEYS),
              (p ← lift (merge_siblings lft rgt node index p1); mret (false, p)) b1
              = Some (done_, p', b') →
              cache_ok log b' ∧ changed p' = true
              ∧ if done_ then MOcc log (S h) lo MAX_KEYS p'
                else MOcc log (S h) (lo - 1) MAX_KEYS p').
    { intros Hl Hr (p & b2 & [H <-]%lift_Some & [= <- <- <-])%bind_Some.
      split; [done|].
      destruct (merge_siblings_occ log h lo MAX_KEYS lft rgt node index p1 p)
        as [Hm Hc]; try done.
      - intros l El. destruct (Hlft l El). split_and!; try done. by apply Hl.
      - intros r Er. destruct (Hrgt r Er). split_and!; try done. by apply Hr. }
    assert (Hright : ∀ (Hl : ∀ l, lft = Some l → length (keys l) ≤ MIN_KEYS),
              match rgt with
              | Some r =>
                  if MIN_KEYS <? length (keys r)
                  then p ← lift (borrow_right node r index p1); mret (true, p)
                  else p ← lift (merge_siblings lft rgt node index p1);
                       mret (false, p)
              | None => p ← lift (merge_siblings lft rgt node index p1);
                        mret (false, p)
              end b1 = Some (done_, p', b') →
              cache_ok log b' ∧ changed p' = true
              ∧ if done_ then MOcc log (S h) lo MAX_KEYS p'
                else MOcc log (S h) (lo - 1) MAX_KEYS p').
    { intros Hl. destruct rgt as [r|]; [|by apply Hmerge].
      destruct (Nat.ltb_spec MIN_KEYS (length (keys r))) as [Hrk|Hrk].
      - intros (p & b2 & [H <-]%lift_Some & [= <- <- <-])%bind_Some.
        split; [done|]. destruct (Hrgt r eq_refl) as [Hi Hr].
        destruct (borrow_right_occ log h lo MAX_KEYS node r index p1 p)
          as [Hm Hc]; try done.
        split; [congruence|done].
      - apply Hmerge; [done|]. by intros ? [= <-] _. }
    destruct lft as [l|]; [|by apply Hright].
    destruct (Nat.ltb_spec MIN_KEYS (length (keys l))) as [Hlk|Hlk].
    + apply bind_Some in H2 as (p & b2 & [H <-]%lift_Some & [= <- <- <-]).
      split; [done|]. destruct (Hlft l eq_refl) as [Hi Hl].
      destruct (borrow_left_occ log h lo MAX_KEYS node l index p1 p)
        as [Hm Hc]; try done.
      split; [congruence|done].
    + apply Hright; [|done]. by intros ? [= <-].
Qed.

Lemma Post_rebalance log hr stack :
  ∀ h node,
    OStack log h stack hr → stack_changed stack →
    MOcc log h (node_lo stack h - 1) MAX_KEYS node → changed node = true →
    Post log (rebalance log node stack)
      (λ root, ∃ hr', MOcc log hr' (root_min hr') MAX_KEYS root).
Proof.
  induction stack as [|[p i] rest IH]; intros h node Hst Hch Hn Hc b root b' Hok;
    cbn [rebalance].
  - simpl in Hst. subst hr. cbn [node_lo] in Hn.
    pose proof (MOcc_bounds _ _ _ _ _ Hn) as [Hlo Hhi].
    destruct ((length (keys node) =? 0) && negb (length (children node) =? 0)) eqn:E.
    + apply andb_true_iff in E as [Ek Ec]. apply Nat.eqb_eq in Ek.
      apply negb_true_iff, Nat.eqb_neq in Ec.
      destruct h as [|h]; [apply MOcc_0 in Hn as (_ & _ & E0); by rewrite E0 in Ec|].
      intros ([child n1] & b1 & H1 & [= <- <-])%bind_Some.
      destruct (Post_getChildNode_MOcc log h _ _ 0 node Hn b (child, n1) b1 Hok H1)
        as (Hok1 & _ & Hchild & _).
      split; [done|]. exists h. eapply MOcc_rebound; [exact Hchild| |];
        pose proof (MOcc_bounds _ _ _ _ _ Hchild); [|lia].
      destruct h; unfold root_min; simpl; change MIN_KEYS with 4 in *; lia.
    + intros [= <- <-]. split; [done|]. exists h.
      eapply MOcc_rebound; [exact Hn| |done].
      destruct h as [|h]; [unfold root_min; simpl; lia|].
      apply MOcc_S in Hn as (_ & _ & Hl & _).
      apply andb_false_iff in E as [E|E].
      * apply Nat.eqb_neq in E. unfold root_min. simpl. lia.
      * apply negb_false_iff, Nat.eqb_eq in E. lia.
  - destruct Hst as [Hp Hst]. apply Forall_cons in Hch as [Hcp Hch]. simpl in Hcp.
    intros ([done_ p'] & b1 & H1 & H2)%bind_Some.
    destruct (Post_rebalance_step log h _ node i p Hp Hcp Hn Hc b (done_, p') b1 Hok H1)
      as (Hok1 & Hcp' & Hp').
    destruct done_.
    + injection H2 as <- <-. split; [done|]. exists hr.
      by eapply unwind_occ.
    + by apply (IH (S h) p' Hst Hch Hp' Hcp' b1).
Qed.

(** ** [del] on a log *)

Lemma OStack_mark_changed log hr stack :
  ∀ h, OStack log h stack hr → OStack log h (mark_changed stack) hr.
Proof.
  induction stack as [|[p i] rest IH]; intros h; [done|].
  intros [Hp Hst]. cbn [mark_changed map OStack]. split; [|by apply IH].
  replace (node_lo (map (λ '(n, i0), (set_changed true n, i0)) rest) (S h))
    with (node_lo rest (S h)) by (by destruct rest as [|[? ?] ?]).
  eapply HoleOcc_shape; [exact Hp|by destruct p|by destruct p].
Qed.

Lemma Batch_del_occ hd key f f' b' :
  _checkout hd = 0 → OccInv f →
  Batch_del key f (new_Batch hd true true) = Some (f', b') →
  OccInv f'.
Proof.
  intros Hc Hinv%OccInv_ready. unfold Batch_del, Batch_getRoot, new_Batch.
  cbn [root tree]. set (f1 := HyperBee_ready f) in *.
  set (b0 := mkBatch hd (Some ∅) true 0 None 0).
  assert (Hok0 : cache_ok (log f1) b0) by apply (cache_ok_new_Batch _ hd true true).
  destruct (HyperBee_getRoot_ready (log f1) hd b0) as [[r b1]|] eqn:E0; [|done].
  cbn [mbind option_bind].
  destruct (Post_getRoot_ready hd f1 Hc Hinv b0 r b1 Hok0 E0) as [Hok1 Hr].
  destruct (cache_only_frame _ _ _ _ (cache_only_getRoot_ready _ _) E0)
    as (bl1 & rs1 & _ & ->).
  destruct r as [node|]; [|by intros [= <- <-]].
  destruct Hr as (h & Hn & _).
  cbn [b_length with_cache b0]. rewrite Nat.add_0_r.
  destruct (del_descend _ _ _ _ _ _) as [[outcome b2]|] eqn:E1; [|done].
  destruct (Post_del_descend (log f1) key h _ h node [] Hn eq_refl
              _ outcome b2 Hok1 E1) as (Hok2 & Hout).
  destruct (cache_only_frame _ _ _ _ (cache_only_del_descend _ _ _ _ _) E1)
    as (bl2 & rs2 & _ & ->).
  cbn [mbind option_bind]. destruct outcome as [? ?|leaf stack];
    [by intros [= <- <-]|].
  destruct Hout as [Hst Hleaf].
  destruct (rebalance _ _ _ _) as [[root' b3]|] eqn:E2; [|done].
  destruct (Post_rebalance (log f1) h (mark_changed stack) 0 (set_changed true leaf))
    with (b := with_cache bl2 rs2 (with_cache bl1 rs1 b0)) (x := root') (b' := b3)
    as (Hok3 & hr' & Hroot); try done.
  { by apply OStack_mark_changed. }
  { apply stack_changed_mark. }
  { apply MOcc_set_changed.
    replace (node_lo (mark_changed stack) 0) with (node_lo stack 0)
      by (by destruct stack as [|[? ?] ?]).
    done. }
  destruct (cache_only_frame _ _ _ _ (cache_only_rebalance _ _ _) E2)
    as (bl3 & rs3 & _ & ->).
  cbn [mbind option_bind]. intros H.
  destruct (Batch__append_occ hr' (root_min hr') _ key None f1
              (with_cache bl3 rs3 (with_cache bl2 rs2 (with_cache bl1 rs1 b0))) f' b'
              Hroot eq_refl H) as (El & _ & Hocc).
  by eapply OccInv_append.
Qed.

(** ** Every log made by [put] and [del] *)

Lemma apply_ops_occ hd ops :
  _checkout hd = 0 →
  ∀ f f', OccInv f → apply_ops hd ops f = Some f' → OccInv f'.
Proof.
  intros Hc. induction ops as [|op ops IH]; intros f f' Hinv; cbn [apply_ops].
  - by intros [= <-].
  - destruct (apply_op hd op f) as [f1|] eqn:E1; [|done]. cbn [mbind option_bind].
    apply IH. destruct op as [key value|key]; cbn [apply_op] in E1.
    + unfold HyperBee_put in E1.
      destruct (Batch_put key value f _) as [[f2 b2]|] eqn:E; [|done].
      injection E1 as <-. by eapply Batch_put_occ.
    + unfold HyperBee_del in E1.
      destruct (Batch_del key f _) as [[f2 b2]|] eqn:E; [|done].
      injection E1 as <-. by eapply Batch_del_occ.
Qed.

Lemma OccInv_empty : OccInv (mkFeed [] true).
Proof. intros H. simpl in H. lia. Qed.

(** X15.  The tree stays balanced: after any sequence of [put] and [del]
    operations on a log that starts empty, every node of the tree that the
    log holds has at most [2 * MIN_KEYS = 8] keys, every node but the root
    has at least [MIN_KEYS = 4] keys, an inner root has at least one, every
    inner node has one child more than it has keys, and all the leaves are at
    the same depth. *)
Theorem reachable_tree_is_balanced (ops : list Op) :
  ∃ f,
    apply_ops (new_HyperBee None) ops (mkFeed [] true) = Some f
    ∧ OccInv f
    ∧ MIN_KEYS = T - 1 ∧ MAX_KEYS = 2 * (T - 1) ∧ MAX_KEYS = MAX_CHILDREN - 1.
Proof.
  destruct (reachable_history ops) as (f & _ & _ & E & _).
  exists f. split; [done|]. split; [|done].
  eapply (apply_ops_occ (new_HyperBee None)); [done|apply OccInv_empty|exact E].
Qed.

(** * The height of the tree *)


Lemma min_size_mono h lo lo' : lo ≤ lo' → min_size h lo ≤ min_size h lo'.
Proof. destruct h; simpl; [done|]. intros. nia. Qed.




